(** * geoloc: a shallow embedding of the statistical engine of [geoloc.c]

    The development follows the source file top-down: C integer helpers, the
    bounds-checked arrays and counted loops the code is written with, the
    sparse-matrix codec, the grid macros, the Gaussian kernel and the KDE
    deposit, the dense-matrix operations, the centroid table, the feature
    store, the two classifiers and the part of the trainer that builds the
    document prior.

    Numbers.  The codec is generic in the two floating-point types it moves
    values between and is instantiated twice: at IEEE binary64/binary32
    (Rocq's [SpecFloat], executable), where the narrowing conversion is the
    real round-to-nearest-even, and at the real numbers.  Everything that
    involves [log], [exp] or [sqrt] is stated over the real numbers: a C
    [double] is idealised as a real, an [int] is an unbounded integer (signed
    overflow is undefined in C and outside the model).

    Where a [double] is converted to an [int], rounding decides the result.
    The grid macros are therefore given twice: in exact arithmetic, which
    the deposits and the prior are stated with, and in module [Binary64] as
    the machine evaluates them, every operation rounded to the nearest
    double; the centroid table is built with the latter.  The two agree
    except within a rounding error of the edge of a cell. *)

From Stdlib Require Import String.
From Stdlib Require Import ZArith List Bool Lia.
From Stdlib Require Import Floats.SpecFloat.
From Stdlib Require Import Reals Lra.
Import ListNotations.

Local Open Scope Z_scope.

(** ** C integers *)

Module CInt.

(** [(short int) z]: reduction to 16 bits, two's complement. *)
Definition to_short (z : Z) : Z := (z + 32768) mod 65536 - 32768.

(** C's [/] and [%] on [int] truncate toward zero. *)
Definition div (a b : Z) : Z := Z.quot a b.
Definition rem (a b : Z) : Z := Z.rem a b.

Lemma to_short_id (z : Z) : -32768 <= z < 32768 -> to_short z = z.
Proof.
  intros H. unfold to_short. rewrite Z.mod_small; lia.
Qed.

Lemma to_short_range (z : Z) : -32768 <= to_short z < 32768.
Proof.
  unfold to_short.
  pose proof (Z.mod_pos_bound (z + 32768) 65536 ltac:(lia)). lia.
Qed.

End CInt.

(** [g_latgranularity] is assigned [g_longranularity / 2] at every place
    that assigns [g_longranularity]; it is a function of it here. *)
Definition latgranularity (L : Z) : Z := CInt.div L 2.

(** Number of cells, [g_longranularity * g_latgranularity]. *)
Definition ncells (L : Z) : Z := L * latgranularity L.

(** ** Arrays and counted loops *)

Section Arrays.
Context {A : Type}.

Definition in_bounds (m : list A) (i : Z) : bool :=
  (0 <=? i) && (i <? Z.of_nat (length m)).

(** [m[i]]; the default stands for an out-of-bounds read. *)
Definition aget (d : A) (m : list A) (i : Z) : A :=
  if in_bounds m i then nth (Z.to_nat i) m d else d.

Fixpoint replace_nth (n : nat) (v : A) (m : list A) : list A :=
  match m with
  | [] => []
  | h :: t =>
      match n with
      | O => v :: t
      | S k => h :: replace_nth k v t
      end
  end.

(** [m[i] = v] for an index known to be in bounds. *)
Definition aset (m : list A) (i : Z) (v : A) : list A :=
  if in_bounds m i then replace_nth (Z.to_nat i) v m else m.

(** [m[i] = v] for an index computed from data: a write outside the
    allocation is an error. *)
Definition aset_checked (m : list A) (i : Z) (v : A) : option (list A) :=
  if in_bounds m i then Some (replace_nth (Z.to_nat i) v m) else None.

(** [calloc]/[matrix_init]: [n] copies of [v]. *)
Definition alloc (n : Z) (v : A) : list A := repeat v (Z.to_nat n).

Lemma length_replace_nth (n : nat) (v : A) (m : list A) :
  length (replace_nth n v m) = length m.
Proof.
  revert n; induction m as [|h t IH]; intros [|k]; simpl; auto.
Qed.

Lemma nth_replace_nth_eq (d : A) (n : nat) (v : A) (m : list A) :
  (n < length m)%nat -> nth n (replace_nth n v m) d = v.
Proof.
  revert n; induction m as [|h t IH]; intros [|k] H; simpl in *;
    try lia; auto.
  apply IH; lia.
Qed.

Lemma nth_replace_nth_neq (d : A) (n k : nat) (v : A) (m : list A) :
  n <> k -> nth k (replace_nth n v m) d = nth k m d.
Proof.
  revert n k; induction m as [|h t IH]; intros [|n] [|k] H; simpl;
    auto; try congruence.
Qed.

Lemma length_aset (m : list A) (i : Z) (v : A) :
  length (aset m i v) = length m.
Proof.
  unfold aset. destruct (in_bounds m i); auto using length_replace_nth.
Qed.

Lemma in_bounds_iff (m : list A) (i : Z) :
  in_bounds m i = true <-> 0 <= i < Z.of_nat (length m).
Proof.
  unfold in_bounds. rewrite andb_true_iff, Z.leb_le, Z.ltb_lt. tauto.
Qed.

Lemma in_bounds_aset (m : list A) (i j : Z) (v : A) :
  in_bounds (aset m i v) j = in_bounds m j.
Proof.
  unfold in_bounds. now rewrite length_aset.
Qed.

Lemma aget_aset_eq (d : A) (m : list A) (i : Z) (v : A) :
  in_bounds m i = true -> aget d (aset m i v) i = v.
Proof.
  intros H. unfold aget. rewrite in_bounds_aset, H.
  unfold aset. rewrite H. apply nth_replace_nth_eq.
  apply in_bounds_iff in H. lia.
Qed.

Lemma aget_aset_neq (d : A) (m : list A) (i j : Z) (v : A) :
  i <> j -> aget d (aset m i v) j = aget d m j.
Proof.
  intros H. unfold aget. rewrite in_bounds_aset.
  destruct (in_bounds m j) eqn:Hj; auto.
  unfold aset. destruct (in_bounds m i) eqn:Hi; auto.
  apply nth_replace_nth_neq.
  apply in_bounds_iff in Hi, Hj. lia.
Qed.

Lemma aset_checked_some (m : list A) (i : Z) (v : A) :
  in_bounds m i = true -> aset_checked m i v = Some (aset m i v).
Proof.
  intros H. unfold aset_checked, aset. now rewrite H.
Qed.


Lemma length_alloc (n : Z) (v : A) : length (alloc n v) = Z.to_nat n.
Proof. apply repeat_length. Qed.

Lemma aget_alloc (d : A) (n : Z) (v : A) (i : Z) :
  0 <= i < n -> aget d (alloc n v) i = v.
Proof.
  intros H. unfold aget.
  assert (Hb : in_bounds (alloc n v) i = true).
  { apply in_bounds_iff. rewrite length_alloc. lia. }
  rewrite Hb. unfold alloc. apply nth_repeat_lt. lia.
Qed.

(** Two arrays of the same length that agree at every index are equal. *)
Lemma aget_ext (d : A) (m1 m2 : list A) :
  length m1 = length m2 ->
  (forall i, 0 <= i < Z.of_nat (length m1) -> aget d m1 i = aget d m2 i) ->
  m1 = m2.
Proof.
  intros Hlen H. apply (nth_ext m1 m2 d d Hlen).
  intros n Hn. specialize (H (Z.of_nat n) ltac:(lia)).
  unfold aget in H.
  assert (H1 : in_bounds m1 (Z.of_nat n) = true)
    by (apply in_bounds_iff; lia).
  assert (H2 : in_bounds m2 (Z.of_nat n) = true)
    by (apply in_bounds_iff; lia).
  now rewrite H1, H2, Nat2Z.id in H.
Qed.
End Arrays.

Section Loops.
Context {St : Type}.

(** [n] iterations of [body], the counter starting at [i]. *)
Fixpoint loop (n : nat) (i : Z) (body : Z -> St -> St) (s : St) : St :=
  match n with
  | O => s
  | S k => loop k (i + 1) body (body i s)
  end.

(** [for (i = lo; i < hi; i++) s = body i s]. *)
Definition for_range (lo hi : Z) (body : Z -> St -> St) (s : St) : St :=
  loop (Z.to_nat (hi - lo)) lo body s.

Lemma loop_invariant (P : Z -> St -> Prop) (body : Z -> St -> St) :
  forall (n : nat) (i : Z) (s : St),
    P i s ->
    (forall j t, i <= j < i + Z.of_nat n -> P j t -> P (j + 1) (body j t)) ->
    P (i + Z.of_nat n) (loop n i body s).
Proof.
  induction n as [|k IH]; intros i s H0 Hstep.
  - cbn [loop]. replace (i + Z.of_nat 0) with i by lia. exact H0.
  - cbn [loop].
    replace (i + Z.of_nat (S k)) with ((i + 1) + Z.of_nat k)
      by lia.
    apply IH.
    + apply Hstep; [lia | exact H0].
    + intros j t Hj. apply Hstep. lia.
Qed.

(** The invariant rule every loop proof below goes through. *)
Lemma for_range_invariant (P : Z -> St -> Prop) (lo hi : Z)
      (body : Z -> St -> St) (s : St) :
  lo <= hi ->
  P lo s ->
  (forall j t, lo <= j < hi -> P j t -> P (j + 1) (body j t)) ->
  P hi (for_range lo hi body s).
Proof.
  intros Hle H0 Hstep. unfold for_range.
  replace hi with (lo + Z.of_nat (Z.to_nat (hi - lo))) at 1 by lia.
  apply loop_invariant; auto.
  intros j t Hj. apply Hstep. lia.
Qed.

Lemma for_range_empty (lo hi : Z) (body : Z -> St -> St) (s : St) :
  hi <= lo -> for_range lo hi body s = s.
Proof.
  intros H. unfold for_range.
  replace (Z.to_nat (hi - lo)) with O by lia. reflexivity.
Qed.
End Loops.

(** ** Sparse matrices

    [struct sparsematrix] is one [(x, y, value)] triple with [short] indices
    and a [float] value; a sparse matrix is an array of them closed by a
    triple whose [x] is [-1].  The codec is written once for any pair of
    number types: [D] is [double], [F] is [float], [to_float] and
    [to_double] are the two C conversions. *)

Module Codec.

Section Generic.
Variables D F : Type.
Variable to_float : D -> F.
Variable to_double : F -> D.
Variables d_zero d_minus_one : D.
(** [v != 0.0] *)
Variable d_nonzero : D -> bool.
(** [g_longranularity] *)
Variable L : Z.

Record sparsematrix : Type := mk_sm { sm_x : Z; sm_y : Z; sm_value : F }.

(** [sparsematrix_add]: store the triple at [tail] and advance; the
    handle's [realloc] bookkeeping does not show in the contents. *)
Definition sparsematrix_add (smh : list sparsematrix) (x y : Z) (value : D)
  : list sparsematrix :=
  smh ++ [mk_sm (CInt.to_short x) (CInt.to_short y) (to_float value)].

(** The loop of [sparsematrix_to_matrix]: [for (i = 0; sm[i].x != -1; i++)].
    Running off the array without meeting a terminator, or storing outside
    the dense matrix, is an error. *)
Fixpoint sm_scatter (sm : list sparsematrix) (matrix : list D)
  : option (list D) :=
  match sm with
  | [] => None
  | t :: rest =>
      if sm_x t =? -1 then Some matrix
      else
        match aset_checked matrix (sm_x t + sm_y t * L)
                           (to_double (sm_value t)) with
        | Some matrix' => sm_scatter rest matrix'
        | None => None
        end
  end.

Definition sparsematrix_to_matrix (sm : list sparsematrix)
  : option (list D) :=
  sm_scatter sm (alloc (latgranularity L * L) d_zero).

(** Body of the inner loop of [matrix_to_sparsematrix]. *)
Definition sm_emit (matrix : list D) (x y : Z) (sm : list sparsematrix)
  : list sparsematrix :=
  if d_nonzero (aget d_zero matrix (x + y * L))
  then sm ++ [mk_sm (CInt.to_short x) (CInt.to_short y)
                    (to_float (aget d_zero matrix (x + y * L)))]
  else sm.

(** [matrix_to_sparsematrix]: [x] outer, [y] inner, then the terminator
    [(-1, -1, -1.0)].  (The first loop of the C function only counts the
    nonzero cells to size the allocation.) *)
Definition matrix_to_sparsematrix (matrix : list D) : list sparsematrix :=
  let sm :=
    for_range 0 L
      (fun x sm =>
         for_range 0 (latgranularity L) (fun y sm => sm_emit matrix x y sm) sm)
      [] in
  sm ++ [mk_sm (-1) (-1) (to_float d_minus_one)].

(** The [#MATRIX#] branch of [geoloc_read_model]: every parsed row goes
    through [sparsematrix_add], then [sparsematrix_add(smh, -1, -1, 0.0)]. *)
Definition read_sparsematrix (rows : list (Z * Z * D)) : list sparsematrix :=
  let smh :=
    fold_left (fun smh r => let '(x, y, v) := r in sparsematrix_add smh x y v)
              rows [] in
  sparsematrix_add smh (-1) (-1) d_zero.

(** *** What the decoder reads *)

(** All the triples of [ts] stored, none of them tested for the
    terminator. *)
Fixpoint sm_writes (ts : list sparsematrix) (matrix : list D)
  : option (list D) :=
  match ts with
  | [] => Some matrix
  | t :: rest =>
      match aset_checked matrix (sm_x t + sm_y t * L)
                         (to_double (sm_value t)) with
      | Some matrix' => sm_writes rest matrix'
      | None => None
      end
  end.

Lemma sm_scatter_stops (ts rest : list sparsematrix) (y : Z) (v : F) :
  Forall (fun t => sm_x t <> -1) ts ->
  forall matrix,
    sm_scatter (ts ++ mk_sm (-1) y v :: rest) matrix = sm_writes ts matrix.
Proof.
  induction 1 as [|t ts Ht _ IH]; intros matrix; simpl.
  - reflexivity.
  - destruct (sm_x t =? -1) eqn:E; [apply Z.eqb_eq in E; contradiction|].
    destruct (aset_checked _ _ _); auto.
Qed.

Lemma sm_scatter_terminator (ts rest rest' : list sparsematrix)
      (y y' : Z) (v v' : F) :
  forall matrix,
    sm_scatter (ts ++ mk_sm (-1) y v :: rest) matrix
    = sm_scatter (ts ++ mk_sm (-1) y' v' :: rest') matrix.
Proof.
  induction ts as [|t ts IH]; intros matrix; simpl.
  - reflexivity.
  - destruct (sm_x t =? -1); auto.
    destruct (aset_checked _ _ _); auto.
Qed.

Lemma sm_writes_app (ts : list sparsematrix) (t : sparsematrix) :
  forall matrix,
    sm_writes (ts ++ [t]) matrix
    = match sm_writes ts matrix with
      | Some m => aset_checked m (sm_x t + sm_y t * L) (to_double (sm_value t))
      | None => None
      end.
Proof.
  induction ts as [|u ts IH]; intros matrix; simpl.
  - destruct (aset_checked _ _ _); auto.
  - destruct (aset_checked matrix _ _); auto.
Qed.

Lemma read_sparsematrix_shape (rows : list (Z * Z * D)) :
  read_sparsematrix rows
  = map (fun r => let '(x, y, v) := r in
                  mk_sm (CInt.to_short x) (CInt.to_short y) (to_float v)) rows
    ++ [mk_sm (-1) (-1) (to_float d_zero)].
Proof.
  unfold read_sparsematrix, sparsematrix_add at 1.
  change (CInt.to_short (-1)) with (-1). f_equal.
  assert (G : forall acc,
             fold_left (fun smh r => let '(x, y, v) := r in
                                     sparsematrix_add smh x y v) rows acc
             = acc ++ map (fun r => let '(x, y, v) := r in
                             mk_sm (CInt.to_short x) (CInt.to_short y)
                                   (to_float v)) rows).
  { induction rows as [|[[x y] v] rows IH]; intros acc; simpl.
    - now rewrite app_nil_r.
    - rewrite IH. unfold sparsematrix_add. now rewrite <- app_assoc. }
  apply G.
Qed.

(** *** Decoding an encoding *)

(** What a cell holds after a round trip. *)
Definition sm_roundtrip_value (v : D) : D :=
  if d_nonzero v then to_double (to_float v) else d_zero.

Lemma cell_index_inj (x y x' y' : Z) :
  0 <= x < L -> 0 <= x' < L -> x + y * L = x' + y' * L -> x = x' /\ y = y'.
Proof.
  intros Hx Hx' E.
  assert (y = y') by nia. subst. lia.
Qed.

Section RoundTrip.
Variable matrix : list D.
Hypothesis L_pos : 0 < L.
Hypothesis L_short : L <= 32768.
Hypothesis matrix_size : Z.of_nat (length matrix) = ncells L.

Let H := latgranularity L.

(** Cell [(x', y')] has been visited when the loops stand at [(x, y)]. *)
Definition sm_visited (x y x' y' : Z) : Prop := x' < x \/ (x' = x /\ y' < y).

(** The triples emitted so far decode to the visited part of the matrix. *)
Definition sm_encode_inv (x y : Z) (sm : list sparsematrix) : Prop :=
  Forall (fun t => sm_x t <> -1) sm /\
  exists m,
    sm_writes sm (alloc (latgranularity L * L) d_zero) = Some m /\
    Z.of_nat (length m) = ncells L /\
    forall x' y', 0 <= x' < L -> 0 <= y' < H ->
      (sm_visited x y x' y' ->
       aget d_zero m (x' + y' * L)
       = sm_roundtrip_value (aget d_zero matrix (x' + y' * L))) /\
      (~ sm_visited x y x' y' -> aget d_zero m (x' + y' * L) = d_zero).

Lemma latgranularity_bounds : 0 <= H /\ 2 * H <= L.
Proof.
  unfold H, latgranularity, CInt.div.
  rewrite Z.quot_div_nonneg by lia.
  pose proof (Z.div_mod L 2 ltac:(lia)).
  pose proof (Z.mod_pos_bound L 2 ltac:(lia)).
  split; [apply Z.div_pos; lia | lia].
Qed.

Lemma cell_in_range (x y : Z) :
  0 <= x < L -> 0 <= y < H -> 0 <= x + y * L < ncells L.
Proof.
  intros Hx Hy. unfold ncells. fold H. nia.
Qed.

Lemma sm_emit_step (x y : Z) (sm : list sparsematrix) :
  0 <= x < L -> 0 <= y < H ->
  sm_encode_inv x y sm -> sm_encode_inv x (y + 1) (sm_emit matrix x y sm).
Proof.
  intros Hx Hy [Hno (m & Hw & Hlen & Hm)].
  pose proof latgranularity_bounds as [_ HL].
  pose proof (cell_in_range x y Hx Hy) as Hc.
  unfold sm_emit.
  destruct (d_nonzero (aget d_zero matrix (x + y * L))) eqn:Enz.
  - split.
    + apply Forall_app; split; auto. constructor; auto. simpl.
      rewrite CInt.to_short_id by lia. lia.
    + exists (aset m (x + y * L)
                   (to_double (to_float (aget d_zero matrix (x + y * L))))).
      assert (Hb : in_bounds m (x + y * L) = true)
        by (apply in_bounds_iff; lia).
      split; [|split].
      * rewrite sm_writes_app, Hw. simpl.
        rewrite !CInt.to_short_id by lia.
        now apply aset_checked_some.
      * now rewrite length_aset.
      * intros x' y' Hx' Hy'.
        destruct (Z.eq_dec (x + y * L) (x' + y' * L)) as [E|E].
        -- apply cell_index_inj in E as [-> ->]; auto.
           rewrite aget_aset_eq by auto.
           split; [|intros Hn; exfalso; apply Hn; right; lia].
           intros _. unfold sm_roundtrip_value. now rewrite Enz.
        -- rewrite aget_aset_neq by auto.
           destruct (Hm x' y' Hx' Hy') as [Hv Hnv].
           split; intros Hvis.
           ++ apply Hv. destruct Hvis as [?|[-> ?]]; [now left|right].
              split; auto. assert (y' <> y) by (intros ->; now apply E). lia.
           ++ apply Hnv. intros [?|[-> ?]]; apply Hvis; [now left|right; lia].
  - split; auto. exists m. split; [|split]; auto.
    intros x' y' Hx' Hy'. destruct (Hm x' y' Hx' Hy') as [Hv Hnv].
    destruct (Z.eq_dec (x + y * L) (x' + y' * L)) as [E|E].
    + apply cell_index_inj in E as [-> ->]; auto.
      split; [|intros Hn; exfalso; apply Hn; right; lia].
      intros _. rewrite Hnv by (intros [?|[_ ?]]; lia).
      unfold sm_roundtrip_value. now rewrite Enz.
    + split; intros Hvis.
      * apply Hv. destruct Hvis as [?|[-> ?]]; [now left|right].
        split; auto. assert (y' <> y) by (intros ->; now apply E). lia.
      * apply Hnv. intros [?|[-> ?]]; apply Hvis; [now left|right; lia].
Qed.

Lemma sm_column_step (x : Z) (sm : list sparsematrix) :
  0 <= x < L ->
  sm_encode_inv x 0 sm ->
  sm_encode_inv (x + 1) 0
    (for_range 0 H (fun y sm => sm_emit matrix x y sm) sm).
Proof.
  intros Hx Hinv.
  pose proof latgranularity_bounds as [H0 _].
  assert (G : sm_encode_inv x H
                (for_range 0 H (fun y sm => sm_emit matrix x y sm) sm)).
  { apply (for_range_invariant (fun y sm => sm_encode_inv x y sm)); auto.
    intros y t Hy. now apply sm_emit_step. }
  destruct G as [Hno (m & Hw & Hlen & Hm)].
  split; auto. exists m. split; [|split]; auto.
  intros x' y' Hx' Hy'. destruct (Hm x' y' Hx' Hy') as [Hv Hnv].
  unfold sm_visited in *. split; intros Hvis.
  - apply Hv. lia.
  - apply Hnv. lia.
Qed.

Lemma sm_encode_all :
  sm_encode_inv L 0
    (for_range 0 L
       (fun x sm =>
          for_range 0 H (fun y sm => sm_emit matrix x y sm) sm) []).
Proof.
  apply (for_range_invariant (fun x sm => sm_encode_inv x 0 sm)).
  - lia.
  - split; [constructor|].
    exists (alloc (latgranularity L * L) d_zero). simpl.
    pose proof latgranularity_bounds as [H0 _].
    split; [reflexivity|split].
    + rewrite length_alloc. unfold ncells. fold H. nia.
    + intros x' y' Hx' Hy'. unfold sm_visited. split; [lia|].
      intros _. apply aget_alloc. fold H. nia.
  - intros x t Hx. now apply sm_column_step.
Qed.

(** Decoding the encoding of a matrix succeeds and gives, cell by cell, the
    value narrowed to [float] and widened again, or zero. *)
Lemma sparsematrix_roundtrip_cells :
  exists m,
    sparsematrix_to_matrix (matrix_to_sparsematrix matrix) = Some m /\
    length m = length matrix /\
    forall c, 0 <= c < ncells L ->
      aget d_zero m c = sm_roundtrip_value (aget d_zero matrix c).
Proof.
  destruct sm_encode_all as [Hno (m & Hw & Hlen & Hm)].
  exists m. split; [|split].
  - unfold sparsematrix_to_matrix, matrix_to_sparsematrix. fold H.
    rewrite sm_scatter_stops by exact Hno. exact Hw.
  - lia.
  - intros c Hc.
    pose proof latgranularity_bounds as [H0 _].
    pose proof (Z.div_mod c L ltac:(lia)) as E.
    pose proof (Z.mod_pos_bound c L L_pos) as Hmod.
    assert (Hy : 0 <= c / L < H).
    { split; [apply Z.div_pos; lia|].
      apply Z.div_lt_upper_bound; [lia|]. unfold ncells in Hc. fold H in Hc.
      lia. }
    destruct (Hm (c mod L) (c / L) Hmod Hy) as [Hv _].
    replace (c mod L + c / L * L) with c in Hv by lia.
    apply Hv. left. lia.
Qed.
End RoundTrip.
End Generic.

Arguments mk_sm {F} _ _ _.
Arguments sm_x {F} _.
Arguments sm_y {F} _.
Arguments sm_value {F} _.
Arguments sparsematrix_add {D F} to_float smh x y value.
Arguments sm_scatter {D F} to_double L sm matrix.
Arguments sm_writes {D F} to_double L ts matrix.
Arguments sparsematrix_to_matrix {D F} to_double d_zero L sm.
Arguments sm_emit {D F} to_float d_zero d_nonzero L matrix x y sm.
Arguments matrix_to_sparsematrix {D F} to_float d_zero d_minus_one d_nonzero
  L matrix.
Arguments read_sparsematrix {D F} to_float d_zero rows.
Arguments sm_roundtrip_value {D F} to_float to_double d_zero d_nonzero v.

(** The triples in front of the first terminator. *)
Fixpoint sm_live {F : Type} (sm : list (sparsematrix F))
  : list (sparsematrix F) :=
  match sm with
  | [] => []
  | t :: rest => if sm_x t =? -1 then [] else t :: sm_live rest
  end.

Lemma sm_live_no_terminator {F : Type} (sm : list (sparsematrix F)) :
  Forall (fun t => sm_x t <> -1) (sm_live sm).
Proof.
  induction sm as [|t sm IH]; simpl; [constructor|].
  destruct (sm_x t =? -1) eqn:E; constructor; auto.
  now apply Z.eqb_neq.
Qed.

End Codec.

Import Codec.

(** ** The codec at IEEE binary64 / binary32 *)

Module IEEE.

(** A [double] and a [float] are both [spec_float] values; what tells them
    apart is the format they were rounded to. *)
Definition double : Type := spec_float.
Definition float : Type := spec_float.

(** [(float) d]: round to nearest, ties to even, 24 bits, overflow to
    infinity. *)
Definition to_float (d : double) : float :=
  match d with
  | S754_finite s m e => binary_round 24 128 s m e
  | _ => d
  end.

(** [(double) f]: exact; the mantissa is renormalised to 53 bits. *)
Definition to_double (f : float) : double :=
  match f with
  | S754_finite s m e => binary_round 53 1024 s m e
  | _ => f
  end.

Definition d_zero : double := S754_zero false.
Definition d_minus_one : double := S754_finite true 4503599627370496 (-52).

(** [d != 0.0] (true for a NaN, false for [-0.0]). *)
Definition d_nonzero (d : double) : bool := negb (SFeqb d d_zero).

Definition matrix_to_sparsematrix (L : Z) (matrix : list double)
  : list (sparsematrix float) :=
  Codec.matrix_to_sparsematrix to_float d_zero d_minus_one d_nonzero
                               L matrix.

Definition sparsematrix_to_matrix (L : Z) (sm : list (sparsematrix float))
  : option (list double) :=
  Codec.sparsematrix_to_matrix to_double d_zero L sm.

(** The double nearest to one tenth, [0x3FB999999999999A]. *)
Definition one_tenth : double := S754_finite false 7205759403792794 (-56).

(** One half, which [float] holds exactly. *)
Definition one_half : double := S754_finite false 4503599627370496 (-53).

End IEEE.

(** The encoder walks the grid column by column: on the 4 x 2 grid with
    one half in cells 0, 3 and 4 the triples come out as (0,0), (0,1),
    (3,0), then the terminator. *)
Example encode_column_major :
  map (fun t => (sm_x t, sm_y t))
      (IEEE.matrix_to_sparsematrix 4
         [IEEE.one_half; IEEE.d_zero; IEEE.d_zero; IEEE.one_half;
          IEEE.one_half; IEEE.d_zero; IEEE.d_zero; IEEE.d_zero])
  = [(0, 0); (0, 1); (3, 0); (-1, -1)].
Proof. vm_compute. reflexivity. Qed.

(** A column index that does not fit a [short] wraps around. *)
Example to_short_wraps : CInt.to_short 40000 = -25536.
Proof. reflexivity. Qed.

(** C2, as stated, fails: at [L = 2] (two cells) the matrix [{0.1, 0.0}]
    is encoded and decoded without error, and the decoded cell 0 differs
    from 0.1 (also under C's [==]): the value went through [float]. *)
Lemma sparse_roundtrip_not_exact :
  option_map (fun m => SFeqb (aget IEEE.d_zero m 0) IEEE.one_tenth)
     (IEEE.sparsematrix_to_matrix 2
        (IEEE.matrix_to_sparsematrix 2 [IEEE.one_tenth; IEEE.d_zero]))
  = Some false
  /\ IEEE.sparsematrix_to_matrix 2
       (IEEE.matrix_to_sparsematrix 2 [IEEE.one_tenth; IEEE.d_zero])
     <> Some [IEEE.one_tenth; IEEE.d_zero].
Proof.
  split.
  - vm_compute. reflexivity.
  - vm_compute. intros E. discriminate E.
Qed.

(** C2, amended: for a grid of at most 32768 columns (the indices are stored
    as [short]) and a dense matrix of [N = L * (L/2)] doubles, decoding the
    encoding succeeds and gives a matrix of the same size that holds, at
    every cell, the cell's value converted to [float] and back when that
    value is [!= 0.0], and [+0.0] otherwise.  So a cell is given back
    unchanged exactly when its value survives the conversion to [float]
    (or is [+0.0]). *)
Theorem sparse_roundtrip_float (L : Z) (matrix : list IEEE.double) :
  0 < L <= 32768 ->
  Z.of_nat (length matrix) = ncells L ->
  exists m,
    IEEE.sparsematrix_to_matrix L (IEEE.matrix_to_sparsematrix L matrix)
    = Some m /\
    length m = length matrix /\
    (forall c, 0 <= c < ncells L ->
       aget IEEE.d_zero m c
       = if IEEE.d_nonzero (aget IEEE.d_zero matrix c)
         then IEEE.to_double (IEEE.to_float (aget IEEE.d_zero matrix c))
         else IEEE.d_zero) /\
    (forall c, 0 <= c < ncells L ->
       (aget IEEE.d_zero m c = aget IEEE.d_zero matrix c
        <-> (IEEE.d_nonzero (aget IEEE.d_zero matrix c) = true /\
             IEEE.to_double (IEEE.to_float (aget IEEE.d_zero matrix c))
             = aget IEEE.d_zero matrix c)
            \/ aget IEEE.d_zero matrix c = IEEE.d_zero)).
Proof.
  intros [Hpos Hshort] Hlen.
  destruct (sparsematrix_roundtrip_cells
              IEEE.double IEEE.float IEEE.to_float IEEE.to_double
              IEEE.d_zero IEEE.d_minus_one IEEE.d_nonzero L matrix
              Hpos Hshort Hlen) as (m & Hdec & Hl & Hcells).
  exists m. split; [exact Hdec|]. split; [exact Hl|].
  split; intros c Hc; rewrite (Hcells c Hc); unfold sm_roundtrip_value.
  - reflexivity.
  - destruct (IEEE.d_nonzero (aget IEEE.d_zero matrix c)) eqn:E.
    + split; [intros Heq; left; auto|].
      intros [[_ Heq]|Hz]; auto.
      rewrite Hz in E. discriminate E.
    + split; [intros Heq; right; auto|].
      intros [[Hf _]|Hz]; [discriminate Hf | auto].
Qed.

(** The amended round trip on a two-cell grid holding one half and zero. *)
Lemma sparse_roundtrip_float_witness :
  exists m,
    IEEE.sparsematrix_to_matrix 2
      (IEEE.matrix_to_sparsematrix 2 [IEEE.one_half; IEEE.d_zero]) = Some m /\
    aget IEEE.d_zero m 0 = IEEE.one_half.
Proof.
  destruct (sparse_roundtrip_float 2 [IEEE.one_half; IEEE.d_zero])
    as (m & Hdec & _ & Hcells & _).
  - lia.
  - reflexivity.
  - exists m. split; [exact Hdec|].
    rewrite (Hcells 0) by (vm_compute; split; [discriminate | reflexivity]).
    vm_compute. reflexivity.
Defined.

(** C9: the decoder stops at the first triple whose [x] is [-1] and reads
    neither the [y] nor the value of that triple, nor anything behind it:
    the result is that of storing the triples in front of it.  Hence a
    triple sequence closed by the encoder's [(-1, -1, -1.0)] and the same
    sequence closed by the reader's [sparsematrix_add(smh, -1, -1, 0.0)]
    decode alike, for every sequence and both number formats. *)
Theorem decoder_ignores_terminator_fields :
  (forall (D F : Type) (to_double : F -> D) (d_zero : D) (L : Z)
          (sm rest : list (sparsematrix F)) (y : Z) (v : F),
      sparsematrix_to_matrix to_double d_zero L
        (sm_live sm ++ mk_sm (-1) y v :: rest)
      = sm_writes to_double L (sm_live sm)
                  (alloc (latgranularity L * L) d_zero)) /\
  (forall (D F : Type) (to_float : D -> F) (to_double : F -> D)
          (d_zero d_minus_one : D) (L : Z) (ts : list (sparsematrix F)),
      sparsematrix_to_matrix to_double d_zero L
        (ts ++ [mk_sm (-1) (-1) (to_float d_minus_one)])
      = sparsematrix_to_matrix to_double d_zero L
          (ts ++ [mk_sm (-1) (-1) (to_float d_zero)])) /\
  (forall (L : Z) (rows : list (Z * Z * IEEE.double)),
      IEEE.sparsematrix_to_matrix L
        (read_sparsematrix IEEE.to_float IEEE.d_zero rows)
      = IEEE.sparsematrix_to_matrix L
          (map (fun r => let '(x, y, v) := r in
                  mk_sm (CInt.to_short x) (CInt.to_short y) (IEEE.to_float v))
               rows
           ++ [mk_sm (-1) (-1) (IEEE.to_float IEEE.d_minus_one)])).
Proof.
  split; [|split].
  - intros. unfold sparsematrix_to_matrix.
    apply sm_scatter_stops, sm_live_no_terminator.
  - intros. unfold sparsematrix_to_matrix. apply sm_scatter_terminator.
  - intros. rewrite read_sparsematrix_shape.
    unfold IEEE.sparsematrix_to_matrix, sparsematrix_to_matrix.
    apply sm_scatter_terminator.
Qed.

(** ** Doubles as real numbers

    [ln], [exp] and [sqrt] stand for C's [log], [exp] and [sqrt]; [ln] is
    C's [log] on positive arguments, which is where the scores of a model
    live (the theorems on scores say so in their hypotheses). *)

Local Open Scope R_scope.

(** [x < y] and [x == y] on doubles. *)
Definition Rltb (x y : R) : bool := if Rlt_dec x y then true else false.
Definition Reqb (x y : R) : bool := if Req_dec_T x y then true else false.

(** [(int) r]: truncation toward zero. *)
Definition double_to_int (r : R) : Z :=
  if Rle_dec 0 r then Int_part r else (- Int_part (- r))%Z.

(** [DBL_MAX], [(2 - 2^-52) * 2^1023]. *)
Definition DBL_MAX : R := (2 - / 2 ^ 52) * 2 ^ 1023.

Lemma Rltb_true (x y : R) : x < y -> Rltb x y = true.
Proof. intros H. unfold Rltb. destruct (Rlt_dec x y); tauto. Qed.

Lemma Rltb_false (x y : R) : y <= x -> Rltb x y = false.
Proof. intros H. unfold Rltb. destruct (Rlt_dec x y); auto; lra. Qed.

Lemma Rltb_spec (x y : R) : Rltb x y = true <-> x < y.
Proof.
  unfold Rltb. destruct (Rlt_dec x y); split; auto; discriminate.
Qed.

Lemma Reqb_true (x y : R) : x = y -> Reqb x y = true.
Proof. intros H. unfold Reqb. destruct (Req_dec_T x y); tauto. Qed.

Lemma Reqb_false (x y : R) : x <> y -> Reqb x y = false.
Proof. intros H. unfold Reqb. destruct (Req_dec_T x y); tauto. Qed.

Lemma Reqb_spec (x y : R) : Reqb x y = true <-> x = y.
Proof.
  unfold Reqb. destruct (Req_dec_T x y); split; auto; discriminate.
Qed.

(** ** The grid macros

    In exact arithmetic; [Binary64] below has them in double arithmetic. *)

Section Grid.
(** [g_longranularity] *)
Variable L : Z.

Definition XTOMIDLON (X : Z) : R :=
  IZR X * 360 / IZR L - 180 + (360 / IZR L) / 2.
Definition YTOMIDLAT (Y : Z) : R :=
  IZR Y * 360 / IZR L - 90 + (360 / IZR L) / 2.

Definition LONTOX (LON : R) : Z := double_to_int (IZR L / 360 * (LON + 180)).
Definition LATTOY (LAT : R) : Z := double_to_int (IZR L / 360 * (LAT + 90)).

Definition CELLTOX (CELL : Z) : Z := CInt.rem CELL L.
Definition CELLTOY (CELL : Z) : Z := CInt.div CELL L.

Definition LATLONTOCELL (LAT LON : R) : Z := (LATTOY LAT * L + LONTOX LON)%Z.
End Grid.

(** [struct coordinate_list]: the nodes of the linked list, in list order.
    The fields are [float]s; read back they are exact doubles. *)
Record coordinate : Type := mk_coord { cl_lat : R; cl_lon : R }.

(** ** The Gaussian kernel and the two deposits *)

(** [#define TWOPI 6.283185307179586477] *)
Definition TWOPI : R := 6283185307179586477 / 10 ^ 18.

Definition bivariate_gaussian_pdf (x1 x2 sigma1 sigma2 rho mu1 mu2 : R) : R :=
  let z := (x1 - mu1) * (x1 - mu1) / (sigma1 * sigma1)
           - 2 * rho * (x1 - mu1) * (x2 - mu2) / (sigma1 * sigma2)
           + (x2 - mu2) * (x2 - mu2) / (sigma2 * sigma2) in
  1 / (TWOPI * sigma1 * sigma2 * sqrt (1 - rho * rho))
  * exp (- (z / (2 * (1 - rho * rho)))).

Section Deposit.
Variable L : Z.

(** The density the radius loop of [matrix_kde_from_coords] looks at: the
    kernel centred at the origin, [x] ticks away along the first axis. *)
Definition kde_probe (sigma1 sigma2 rho : R) (x : Z) : R :=
  bivariate_gaussian_pdf (IZR x * (360 / IZR L)) 0 sigma1 sigma2 rho 0 0.

(** [for (x = 0; ; x++) { ...; if (thisdensity < 0.001) break; }] started at
    [x], with [fuel] bounding the number of iterations. *)
Fixpoint kde_radius_loop (sigma1 sigma2 rho : R) (fuel : nat) (x : Z)
  : option Z :=
  match fuel with
  | O => None
  | S k =>
      if Rltb (kde_probe sigma1 sigma2 rho x) (1 / 1000) then Some x
      else kde_radius_loop sigma1 sigma2 rho k (x + 1)
  end.

Definition kde_maxradius (sigma1 sigma2 rho : R) (fuel : nat) : option Z :=
  kde_radius_loop sigma1 sigma2 rho fuel 0.

(** The body of the loop over the points, for a radius already computed. *)
Definition kde_deposit_point (sigma1 sigma2 rho : R) (maxradius : Z)
           (matrix : list R) (p : coordinate) : list R :=
  let minx := (LONTOX L (cl_lon p) - maxradius)%Z in
  let minx := if (minx <? 0)%Z then 0%Z else minx in
  let maxx := (LONTOX L (cl_lon p) + maxradius)%Z in
  let maxx := if (maxx >=? L)%Z then L else maxx in
  let miny := (LATTOY L (cl_lat p) - maxradius)%Z in
  let miny := if (miny <? 0)%Z then 0%Z else miny in
  let maxy := (LATTOY L (cl_lat p) + maxradius)%Z in
  let maxy := if (maxy >=? latgranularity L)%Z then latgranularity L
              else maxy in
  for_range miny maxy
    (fun y matrix =>
       let lat := YTOMIDLAT L y in
       for_range minx maxx
         (fun x matrix =>
            let lon := XTOMIDLON L x in
            let thisdensity :=
              bivariate_gaussian_pdf lon lat sigma1 sigma2 rho
                                     (cl_lon p) (cl_lat p) in
            aset matrix (x + y * L)
                 (aget 0 matrix (x + y * L) + thisdensity))
         matrix)
    matrix.

Definition kde_deposit (sigma1 sigma2 rho : R) (maxradius : Z)
           (matrix : list R) (cl : list coordinate) : list R :=
  fold_left (kde_deposit_point sigma1 sigma2 rho maxradius) cl matrix.

(** [matrix_kde_from_coords]; [None] when the radius loop has not ended
    within [fuel] iterations.  (The loop counting [numpoints] has no
    effect.) *)
Definition matrix_kde_from_coords (fuel : nat) (matrix : list R)
           (cl : list coordinate) (sigma1 sigma2 rho : R) : option (list R) :=
  match kde_maxradius sigma1 sigma2 rho fuel with
  | Some maxradius => Some (kde_deposit sigma1 sigma2 rho maxradius matrix cl)
  | None => None
  end.

(** [matrix_nokde_from_coords]: the cell index comes from the data, so the
    store is checked. *)
Fixpoint matrix_nokde_from_coords (matrix : list R) (cl : list coordinate)
  : option (list R) :=
  match cl with
  | [] => Some matrix
  | p :: rest =>
      let x := LONTOX L (cl_lon p) in
      let y := LATTOY L (cl_lat p) in
      match aset_checked matrix (x + y * L)
                         (aget 0 matrix (x + y * L) + 1) with
      | Some matrix' => matrix_nokde_from_coords matrix' rest
      | None => None
      end
  end.

(** *** Dense matrices *)

Definition matrix_set (matrix : list R) (value : R) : list R :=
  for_range 0 (latgranularity L * L) (fun i matrix => aset matrix i value)
            matrix.

(** [malloc] of [g_latgranularity * g_longranularity] doubles, then
    [matrix_set]. *)
Definition matrix_init (prior : R) : list R :=
  matrix_set (alloc (latgranularity L * L) 0) prior.

Definition matrix_copy (matrix1 : list R) : list R :=
  for_range 0 (latgranularity L * L)
            (fun i matrix2 => aset matrix2 i (aget 0 matrix1 i))
            (matrix_init 0).

Definition matrix_normalize (matrix : list R) : list R :=
  let sum :=
    for_range 0 (latgranularity L * L)
              (fun i sum => sum + aget 0 matrix i) 0 in
  for_range 0 (latgranularity L * L)
            (fun i matrix => aset matrix i (aget 0 matrix i / sum)) matrix.

(** [matrix_add(matrix1, matrix2)] adds into its second argument. *)
Definition matrix_add (matrix1 matrix2 : list R) : list R :=
  for_range 0 (latgranularity L * L)
            (fun i matrix2 => aset matrix2 i (aget 0 matrix2 i
                                              + aget 0 matrix1 i))
            matrix2.

(** *** Centroids *)

(** [struct centroids]; [find_centroids] follows with the centroid
    table. *)
Record centroids : Type := mk_centroid { c_lat : R; c_lon : R }.

End Deposit.

(** ** Properties of the grid macros *)

Lemma double_to_int_floor (r : R) :
  0 <= r -> IZR (double_to_int r) <= r < IZR (double_to_int r) + 1.
Proof.
  intros Hr. unfold double_to_int.
  destruct (Rle_dec 0 r) as [_|Hn]; [|contradiction].
  destruct (base_Int_part r) as [H1 H2]. lra.
Qed.

Lemma double_to_int_nonneg (r : R) : 0 <= r -> (0 <= double_to_int r)%Z.
Proof.
  intros Hr. destruct (double_to_int_floor r Hr) as [_ H2].
  apply Z.lt_succ_r, lt_IZR. rewrite succ_IZR.
  change (IZR 0) with 0. lra.
Qed.

Lemma double_to_int_below (r : R) (n : Z) :
  0 <= r -> r < IZR n -> (double_to_int r < n)%Z.
Proof.
  intros Hr Hn. destruct (double_to_int_floor r Hr) as [H1 _].
  apply lt_IZR. lra.
Qed.

Section GridFacts.
Variable L : Z.
Hypothesis L_pos : (0 < L)%Z.

Lemma IZR_L_pos : 0 < IZR L.
Proof. now apply (IZR_lt 0). Qed.

(** The tick count of a coordinate [v] that lies [off] degrees above the
    lower edge of the grid. *)
Lemma tick_scaled (v off : R) :
  - off <= v -> 0 <= IZR L / 360 * (v + off).
Proof.
  intros Hv. pose proof IZR_L_pos as HL.
  apply Rmult_le_pos; [|lra].
  apply Rmult_le_pos; lra.
Qed.

Lemma LONTOX_range (lon : R) :
  -180 <= lon < 180 -> (0 <= LONTOX L lon < L)%Z.
Proof.
  intros [Hlo Hhi]. pose proof IZR_L_pos as HL. unfold LONTOX.
  assert (Ht : 0 <= IZR L / 360 * (lon + 180))
    by (apply tick_scaled; lra).
  split; [now apply double_to_int_nonneg|].
  apply double_to_int_below; auto.
  replace (IZR L) with (IZR L / 360 * 360) at 2 by (field; lra).
  apply Rmult_lt_compat_l; [|lra].
  apply Rdiv_lt_0_compat; lra.
Qed.

Lemma LATTOY_range (lat : R) :
  Z.even L = true ->
  -90 <= lat < 90 -> (0 <= LATTOY L lat < latgranularity L)%Z.
Proof.
  intros Hev [Hlo Hhi]. pose proof IZR_L_pos as HL. unfold LATTOY.
  assert (Ht : 0 <= IZR L / 360 * (lat + 90))
    by (apply tick_scaled; lra).
  split; [now apply double_to_int_nonneg|].
  apply double_to_int_below; auto.
  unfold latgranularity, CInt.div.
  rewrite Z.quot_div_nonneg by lia.
  apply Z.even_spec in Hev. destruct Hev as [h Hh].
  replace (L / 2)%Z with h by (subst L; rewrite Z.mul_comm, Z.div_mul; lia).
  assert (EL : IZR L = 2 * IZR h) by (subst L; now rewrite mult_IZR).
  rewrite EL in *.
  replace (IZR h) with (2 * IZR h / 360 * 180) at 2 by (field; lra).
  apply Rmult_lt_compat_l; [|lra].
  apply Rdiv_lt_0_compat; lra.
Qed.

Lemma cell_of_valid_point (lat lon : R) :
  Z.even L = true -> -90 <= lat < 90 -> -180 <= lon < 180 ->
  (0 <= LONTOX L lon + LATTOY L lat * L < latgranularity L * L)%Z.
Proof.
  intros Hev Hlat Hlon.
  pose proof (LONTOX_range lon Hlon). pose proof (LATTOY_range lat Hev Hlat).
  nia.
Qed.
End GridFacts.

(** ** Binary64 evaluation

    The grid macros convert a [double] to an [int], and there the rounding
    of the double arithmetic decides which integer comes out.  This part
    evaluates them as the machine does: every operation yields the exact
    result rounded to the nearest binary64 number, ties to even (IEEE 754
    default rounding; the values of the macros stay far from overflow). *)

Module Binary64.
Local Open Scope R_scope.

(** [2^e] *)
Definition bpow (e : Z) : R := powerRZ 2 e.

(** The exponent of the last place of the doubles around [x]:
    [floor (log2 |x|) - 52], and [-1074] in the subnormal range. *)
Definition ulp_exponent (x : R) : Z :=
  Z.max (Zfloor (ln (Rabs x) / ln 2) - 52) (-1074).

(** The integer nearest to [y], the even one of two that are equally
    near. *)
Definition nearest_even (y : R) : Z :=
  let f := Zfloor y in
  if Rltb (y - IZR f) (1 / 2) then f
  else if Rltb (1 / 2) (y - IZR f) then (f + 1)%Z
  else if Z.even f then f else (f + 1)%Z.

(** Rounding to binary64. *)
Definition round (x : R) : R :=
  IZR (nearest_even (x / bpow (ulp_exponent x))) * bpow (ulp_exponent x).

(** The operations on doubles, and [(double) n] for an [int]. *)
Definition add (x y : R) : R := round (x + y).
Definition sub (x y : R) : R := round (x - y).
Definition mul (x y : R) : R := round (x * y).
Definition div (x y : R) : R := round (x / y).
Definition of_int (n : Z) : R := round (IZR n).

Section Grid.
(** [g_longranularity] *)
Variable L : Z.

Definition XTOMIDLON (X : Z) : R :=
  add (sub (div (mul (of_int X) 360) (of_int L)) 180)
      (div (div 360 (of_int L)) 2).
Definition YTOMIDLAT (Y : Z) : R :=
  add (sub (div (mul (of_int Y) 360) (of_int L)) 90)
      (div (div 360 (of_int L)) 2).

Definition LONTOX (LON : R) : Z :=
  double_to_int (mul (div (of_int L) 360) (add LON 180)).
Definition LATTOY (LAT : R) : Z :=
  double_to_int (mul (div (of_int L) 360) (add LAT 90)).

Definition LATLONTOCELL (LAT LON : R) : Z := (LATTOY LAT * L + LONTOX LON)%Z.
End Grid.

(** *** Powers of two *)

Lemma bpow_pos (e : Z) : 0 < bpow e.
Proof. apply powerRZ_lt. lra. Qed.

Lemma bpow_add (a b : Z) : bpow (a + b) = bpow a * bpow b.
Proof. apply powerRZ_add. lra. Qed.

Lemma bpow_opp (e : Z) : bpow (- e) = / bpow e.
Proof. apply powerRZ_neg'. Qed.

Lemma bpow_nat (n : nat) : bpow (Z.of_nat n) = 2 ^ n.
Proof. symmetry. apply pow_powerRZ. Qed.

Lemma bpow_neg (n : nat) : bpow (- Z.of_nat n) = / 2 ^ n.
Proof. rewrite bpow_opp, bpow_nat. reflexivity. Qed.

Lemma bpow_le (a b : Z) : (a <= b)%Z -> bpow a <= bpow b.
Proof.
  intros H. replace b with (a + Z.of_nat (Z.to_nat (b - a)))%Z by lia.
  rewrite bpow_add, bpow_nat.
  pose proof (bpow_pos a).
  assert (1 <= 2 ^ Z.to_nat (b - a)) by (apply pow_R1_Rle; lra).
  nra.
Qed.

Lemma bpow_ln (e : Z) : ln (bpow e) = IZR e * ln 2.
Proof.
  unfold bpow. rewrite powerRZ_Rpower by lra. unfold Rpower. apply ln_exp.
Qed.

Lemma ln_2_pos : 0 < ln 2.
Proof. rewrite <- ln_1. apply ln_increasing; lra. Qed.

(** An integer times a power of two with a nonnegative exponent is an
    integer. *)
Lemma bpow_IZR (n : nat) : bpow (Z.of_nat n) = IZR (2 ^ Z.of_nat n).
Proof.
  rewrite bpow_nat. induction n as [|n IH].
  - reflexivity.
  - rewrite Nat2Z.inj_succ, Z.pow_succ_r by lia.
    rewrite mult_IZR, <- IH. simpl. ring.
Qed.

(** *** The exponent *)

Lemma log2_bounds (x : R) (p : Z) :
  bpow p <= Rabs x < bpow (p + 1) -> Zfloor (ln (Rabs x) / ln 2) = p.
Proof.
  intros [Hlo Hhi]. pose proof ln_2_pos as H2. pose proof (bpow_pos p) as Hp.
  apply Zfloor_eq.
  assert (Hx : 0 < Rabs x) by lra.
  assert (H1 : IZR p * ln 2 <= ln (Rabs x)).
  { rewrite <- bpow_ln. destruct Hlo as [Hlo|Hlo].
    - left. now apply ln_increasing.
    - rewrite Hlo. right. reflexivity. }
  assert (H3 : ln (Rabs x) < (IZR p + 1) * ln 2).
  { rewrite <- plus_IZR, <- bpow_ln. now apply ln_increasing. }
  split.
  - apply Rmult_le_reg_r with (ln 2); [exact H2|].
    unfold Rdiv. rewrite Rmult_assoc, Rinv_l by lra. lra.
  - apply Rmult_lt_reg_r with (ln 2); [exact H2|].
    unfold Rdiv. rewrite Rmult_assoc, Rinv_l by lra. lra.
Qed.

Lemma log2_lower (x : R) :
  x <> 0 -> bpow (Zfloor (ln (Rabs x) / ln 2)) <= Rabs x.
Proof.
  intros Hx. pose proof ln_2_pos as H2.
  assert (Hpos : 0 < Rabs x) by now apply Rabs_pos_lt.
  destruct (Zfloor_bound (ln (Rabs x) / ln 2)) as [Hlo _].
  set (p := Zfloor (ln (Rabs x) / ln 2)) in *.
  assert (H1 : IZR p * ln 2 <= ln (Rabs x)).
  { apply Rmult_le_compat_r with (r := ln 2) in Hlo; [|lra].
    unfold Rdiv in Hlo. rewrite Rmult_assoc, Rinv_l in Hlo by lra. lra. }
  rewrite <- bpow_ln in H1.
  destruct H1 as [H1|H1].
  - left. apply ln_lt_inv; auto. apply bpow_pos.
  - right. apply ln_inv; auto. apply bpow_pos.
Qed.

Lemma ulp_exponent_of (x : R) (p : Z) :
  bpow p <= Rabs x < bpow (p + 1) ->
  ulp_exponent x = Z.max (p - 52) (-1074).
Proof. intros H. unfold ulp_exponent. now rewrite (log2_bounds x p H). Qed.

(** *** The nearest integer *)

Lemma nearest_even_close (y : R) : Rabs (IZR (nearest_even y) - y) <= 1 / 2.
Proof.
  unfold nearest_even. cbv zeta.
  destruct (Zfloor_bound y) as [Hlo Hhi].
  destruct (Rlt_dec (y - IZR (Zfloor y)) (1 / 2)) as [H1|H1].
  - rewrite (Rltb_true _ _ H1). apply Rabs_le. lra.
  - rewrite (Rltb_false _ _ (Rnot_lt_le _ _ H1)).
    destruct (Rlt_dec (1 / 2) (y - IZR (Zfloor y))) as [H2|H2].
    + rewrite (Rltb_true _ _ H2), plus_IZR. apply Rabs_le. lra.
    + rewrite (Rltb_false _ _ (Rnot_lt_le _ _ H2)).
      destruct (Z.even (Zfloor y)); [|rewrite plus_IZR]; apply Rabs_le; lra.
Qed.

Lemma nearest_even_unique (y : R) (k : Z) :
  Rabs (y - IZR k) < 1 / 2 -> nearest_even y = k.
Proof.
  intros H. apply Rabs_def2 in H. destruct H as [Hhi Hlo].
  unfold nearest_even. cbv zeta.
  destruct (Rle_dec (IZR k) y) as [Hk|Hk].
  - assert (E : Zfloor y = k) by (apply Zfloor_eq; lra).
    rewrite E. rewrite Rltb_true by lra. reflexivity.
  - assert (E : Zfloor y = (k - 1)%Z).
    { apply Zfloor_eq. rewrite minus_IZR. lra. }
    rewrite E, minus_IZR.
    rewrite Rltb_false by lra. rewrite Rltb_true by lra. lia.
Qed.

Lemma nearest_even_IZR (k : Z) : nearest_even (IZR k) = k.
Proof.
  apply nearest_even_unique. rewrite Rminus_diag, Rabs_R0. lra.
Qed.

Lemma nearest_even_tie (y : R) (f : Z) :
  y = IZR f + 1 / 2 ->
  nearest_even y = if Z.even f then f else (f + 1)%Z.
Proof.
  intros ->. unfold nearest_even. cbv zeta.
  assert (E : Zfloor (IZR f + 1 / 2) = f) by (apply Zfloor_eq; lra).
  rewrite E. rewrite Rltb_false by lra. rewrite Rltb_false by lra.
  reflexivity.
Qed.

Lemma nearest_even_nonneg (y : R) : 0 <= y -> (0 <= nearest_even y)%Z.
Proof.
  intros Hy. assert (Hf : (0 <= Zfloor y)%Z) by now apply Zfloor_lub.
  unfold nearest_even. cbv zeta.
  destruct (Rltb _ _); [exact Hf|].
  destruct (Rltb _ _); [lia|]. destruct (Z.even _); lia.
Qed.

(** *** Rounding *)

Lemma round_scaled (x : R) :
  round x - x
  = (IZR (nearest_even (x / bpow (ulp_exponent x)))
     - x / bpow (ulp_exponent x)) * bpow (ulp_exponent x).
Proof.
  unfold round. pose proof (bpow_pos (ulp_exponent x)). field. lra.
Qed.

Lemma round_half_ulp (x : R) :
  Rabs (round x - x) <= bpow (ulp_exponent x) / 2.
Proof.
  rewrite round_scaled, Rabs_mult.
  pose proof (bpow_pos (ulp_exponent x)) as Hb.
  rewrite (Rabs_pos_eq (bpow _)) by lra.
  pose proof (nearest_even_close (x / bpow (ulp_exponent x))) as Hn.
  pose proof (Rabs_pos (IZR (nearest_even (x / bpow (ulp_exponent x)))
                        - x / bpow (ulp_exponent x))).
  nra.
Qed.

Lemma round_0 : round 0 = 0.
Proof.
  unfold round. unfold Rdiv. rewrite Rmult_0_l, nearest_even_IZR. ring.
Qed.

(** The error of one operation: at most [2^-53] of the exact result, or
    [2^-1075] in the subnormal range. *)
Lemma round_error (x : R) :
  Rabs (round x - x) <= bpow (-53) * Rabs x + bpow (-1075).
Proof.
  destruct (Req_dec_T x 0) as [->|Hx].
  - rewrite round_0, Rminus_diag, Rabs_R0.
    pose proof (bpow_pos (-53)). pose proof (bpow_pos (-1075)). lra.
  - pose proof (round_half_ulp x) as Hh.
    pose proof (log2_lower x Hx) as Hlo.
    pose proof (bpow_pos (-53)) as H53. pose proof (bpow_pos (-1075)) as Hs.
    pose proof (Rabs_pos x) as Hax.
    unfold ulp_exponent in Hh.
    set (q := Zfloor (ln (Rabs x) / ln 2)) in *.
    destruct (Z.max_spec (q - 52) (-1074)) as [[_ E]|[_ E]]; rewrite E in Hh.
    + replace (bpow (-1074) / 2) with (bpow (-1075)) in Hh.
      * nra.
      * replace (-1074)%Z with (-1075 + 1)%Z by lia.
        rewrite bpow_add. change (bpow 1) with (2 * 1). field.
    + replace (bpow (q - 52) / 2) with (bpow (-53) * bpow q) in Hh.
      * nra.
      * replace (q - 52)%Z with (-53 + q + 1)%Z by lia.
        rewrite !bpow_add. change (bpow 1) with (2 * 1). field.
Qed.

(** The same for a result known to be at most [M] in size. *)
Lemma round_within (x M : R) :
  Rabs x <= M -> bpow (-1000) <= M ->
  Rabs (round x - x) <= bpow (-52) * M.
Proof.
  intros Hx HM. pose proof (round_error x) as He.
  pose proof (bpow_pos (-53)) as H53.
  assert (E52 : bpow (-52) = 2 * bpow (-53)).
  { replace (-52)%Z with (-53 + 1)%Z by lia. rewrite bpow_add.
    change (bpow 1) with (2 * 1). ring. }
  assert (Hs : bpow (-1075) <= bpow (-53) * bpow (-1000)).
  { rewrite <- bpow_add. apply bpow_le. lia. }
  rewrite E52. nra.
Qed.

Lemma round_nonneg (x : R) : 0 <= x -> 0 <= round x.
Proof.
  intros Hx. unfold round. pose proof (bpow_pos (ulp_exponent x)) as Hb.
  apply Rmult_le_pos; [|lra]. apply IZR_le, nearest_even_nonneg.
  apply Rmult_le_pos; [exact Hx|]. left. now apply Rinv_0_lt_compat.
Qed.

(** A number [k * 2^e] with [|k| < 2^53] and [e >= -1074] is a double. *)
Lemma round_exact (k e : Z) :
  (Z.abs k < 2 ^ 53)%Z -> (-1074 <= e)%Z ->
  round (IZR k * bpow e) = IZR k * bpow e.
Proof.
  intros Hk He. destruct (Z.eq_dec k 0) as [->|Hk0].
  - rewrite Rmult_0_l. apply round_0.
  - set (x := IZR k * bpow e).
    pose proof (bpow_pos e) as Hbe.
    assert (Hx : x <> 0).
    { unfold x. apply Rmult_integral_contrapositive_currified; [|lra].
      now apply not_0_IZR. }
    assert (Hax : Rabs x < bpow (53 + e)).
    { unfold x. rewrite Rabs_mult, (Rabs_pos_eq (bpow e)) by lra.
      rewrite bpow_add. apply Rmult_lt_compat_r; [exact Hbe|].
      rewrite <- abs_IZR. change 53%Z with (Z.of_nat 53).
      rewrite bpow_IZR. now apply IZR_lt. }
    assert (Hq : (Zfloor (ln (Rabs x) / ln 2) < 53 + e)%Z).
    { pose proof (log2_lower x Hx) as Hlo.
      destruct (Z_lt_le_dec (Zfloor (ln (Rabs x) / ln 2)) (53 + e)) as [H|H];
        [exact H|].
      apply bpow_le in H. lra. }
    assert (Hue : (ulp_exponent x <= e)%Z) by (unfold ulp_exponent; lia).
    unfold round.
    set (ue := ulp_exponent x) in *.
    pose proof (bpow_pos ue) as Hbu.
    assert (Ey : x / bpow ue = IZR (k * 2 ^ Z.of_nat (Z.to_nat (e - ue)))).
    { rewrite mult_IZR, <- bpow_IZR. unfold x.
      replace e with (Z.of_nat (Z.to_nat (e - ue)) + ue)%Z at 1 by lia.
      rewrite bpow_add. field. lra. }
    rewrite Ey, nearest_even_IZR, <- Ey. field. lra.
Qed.

Lemma round_IZR (n : Z) : (Z.abs n < 2 ^ 53)%Z -> round (IZR n) = IZR n.
Proof.
  intros H. pose proof (round_exact n 0 H ltac:(lia)) as E.
  change (bpow 0) with 1 in E. now rewrite Rmult_1_r in E.
Qed.

(** The double next to [x], when it is not half way between two. *)
Lemma round_nearest (x : R) (p k : Z) :
  bpow p <= Rabs x < bpow (p + 1) -> (-1022 <= p)%Z ->
  Rabs (x / bpow (p - 52) - IZR k) < 1 / 2 ->
  round x = IZR k * bpow (p - 52).
Proof.
  intros Hp Hmin Hk. unfold round.
  rewrite (ulp_exponent_of x p Hp), Z.max_l by lia.
  now rewrite (nearest_even_unique _ k Hk).
Qed.

(** Half way between two doubles: the one with the even last digit. *)
Lemma round_tie (x : R) (p f : Z) :
  bpow p <= Rabs x < bpow (p + 1) -> (-1022 <= p)%Z ->
  x / bpow (p - 52) = IZR f + 1 / 2 ->
  round x = IZR (if Z.even f then f else (f + 1)%Z) * bpow (p - 52).
Proof.
  intros Hp Hmin Hf. unfold round.
  rewrite (ulp_exponent_of x p Hp), Z.max_l by lia.
  now rewrite (nearest_even_tie _ f Hf).
Qed.

(** *** The error of the grid macros

    [v] is a coordinate and [off] the offset that makes it nonnegative,
    180 for a longitude and 90 for a latitude. *)

Lemma double_to_int_eq (r : R) (k : Z) :
  (0 <= k)%Z -> IZR k <= r < IZR k + 1 -> double_to_int r = k.
Proof.
  intros Hk [Hlo Hhi].
  assert (Hr : 0 <= r) by (apply (IZR_le 0) in Hk; lra).
  destruct (double_to_int_floor r Hr) as [H1 H2].
  assert (double_to_int r < k + 1)%Z by (apply lt_IZR; rewrite plus_IZR; lra).
  assert (k < double_to_int r + 1)%Z by (apply lt_IZR; rewrite plus_IZR; lra).
  lia.
Qed.

Lemma bpow_52_small : 0 < bpow (-52) <= / 1024.
Proof.
  split; [apply bpow_pos|].
  replace (/ 1024) with (bpow (-10)).
  - apply bpow_le. lia.
  - unfold bpow. simpl. lra.
Qed.

Lemma bpow_1000_small : bpow (-1000) <= / 1024.
Proof.
  replace (/ 1024) with (bpow (-10)).
  - apply bpow_le. lia.
  - unfold bpow. simpl. lra.
Qed.

Lemma Rabs_le_inv (x b : R) : Rabs x <= b -> - b <= x <= b.
Proof. unfold Rabs. destruct (Rcase_abs x); lra. Qed.

Lemma Rabs_mult_le (x y X Y : R) :
  Rabs x <= X -> Rabs y <= Y -> Rabs (x * y) <= X * Y.
Proof.
  intros Hx Hy. rewrite Rabs_mult.
  apply Rmult_le_compat; auto using Rabs_pos.
Qed.

Section GridError.
Variable L : Z.
Hypothesis L_int : (0 < L < 2 ^ 31)%Z.

Lemma IZR_L_bounds : 1 <= IZR L < 2147483648.
Proof.
  split.
  - apply (IZR_le 1). lia.
  - apply (IZR_lt L 2147483648). lia.
Qed.

Lemma of_int_L : of_int L = IZR L.
Proof. apply round_IZR. lia. Qed.

(** The product of [LONTOX] and [LATTOY] before the conversion to [int]. *)
Definition tick (v off : R) : R := mul (div (of_int L) 360) (add v off).

Lemma tick_error (v off : R) :
  0 <= v + off <= 360 ->
  0 <= tick v off /\
  Rabs (tick v off - IZR L / 360 * (v + off)) <= bpow (-49) * IZR L.
Proof.
  intros HB. pose proof IZR_L_bounds as HA.
  pose proof bpow_52_small as Hu. pose proof bpow_1000_small as Hs.
  unfold tick, mul, div, add. rewrite of_int_L.
  set (u := bpow (-52)) in *.
  set (A := IZR L) in *. set (B := v + off) in *.
  pose proof (round_within (A / 360) (A / 360)) as Ha.
  rewrite Rabs_pos_eq in Ha by lra.
  specialize (Ha ltac:(lra) ltac:(lra)). fold u in Ha.
  assert (Ha0 : 0 <= round (A / 360)) by (apply round_nonneg; lra).
  pose proof (round_within B 360) as Hb.
  rewrite Rabs_pos_eq in Hb by lra.
  specialize (Hb ltac:(lra) ltac:(lra)). fold u in Hb.
  assert (Hb0 : 0 <= round B) by (apply round_nonneg; lra).
  set (a := round (A / 360)) in *. set (b := round B) in *.
  apply Rabs_le_inv in Ha. apply Rabs_le_inv in Hb.
  assert (Hb1 : b <= 361) by lra.
  assert (Ha1 : a <= A / 360 * (1 + u)) by lra.
  assert (Hab : 0 <= a * b) by now apply Rmult_le_pos.
  assert (Hab2 : a * b <= 2 * A).
  { assert (a * b <= (A / 360 * (1 + u)) * 361)
      by (apply Rmult_le_compat; lra).
    nra. }
  pose proof (round_within (a * b) (2 * A)) as Hp.
  rewrite Rabs_pos_eq in Hp by lra.
  specialize (Hp Hab2 ltac:(lra)). fold u in Hp.
  split; [apply round_nonneg; exact Hab|].
  assert (E49 : bpow (-49) = 8 * u).
  { unfold u. replace (-49)%Z with (3 + -52)%Z by lia.
    rewrite bpow_add. unfold bpow at 1. simpl. ring. }
  rewrite E49.
  assert (H1 : Rabs ((a - A / 360) * b) <= u * (A / 360) * 361).
  { apply Rabs_mult_le; [apply Rabs_le; lra|].
    rewrite Rabs_pos_eq; lra. }
  assert (H2 : Rabs (A / 360 * (b - B)) <= A / 360 * (u * 360)).
  { apply Rabs_mult_le; [rewrite Rabs_pos_eq; lra | apply Rabs_le; lra]. }
  replace (round (a * b) - A / 360 * B)
    with ((round (a * b) - a * b) + ((a - A / 360) * b + A / 360 * (b - B)))
    by ring.
  eapply Rle_trans; [apply Rabs_triang|].
  eapply Rle_trans;
    [apply Rplus_le_compat; [exact Hp | apply Rabs_triang]|].
  nra.
Qed.

(** The integer the conversion yields lies within the error of the exact
    tick count. *)
Lemma tick_floor (v off : R) :
  0 <= v + off <= 360 ->
  (0 <= double_to_int (tick v off))%Z /\
  IZR L / 360 * (v + off) - 1 - bpow (-49) * IZR L
  < IZR (double_to_int (tick v off))
  <= IZR L / 360 * (v + off) + bpow (-49) * IZR L.
Proof.
  intros HB. destruct (tick_error v off HB) as [H0 He].
  destruct (double_to_int_floor _ H0) as [Hlo Hhi].
  split; [now apply double_to_int_nonneg|].
  apply Rabs_le_inv in He. lra.
Qed.

Lemma bpow_49_L : bpow (-49) * IZR L < / 262144.
Proof.
  pose proof IZR_L_bounds as HA.
  assert (E : bpow (-49) = / 562949953421312) by (unfold bpow; simpl; lra).
  rewrite E. lra.
Qed.

(** The exact midpoint of the tick [X]. *)
Definition midpoint (X : Z) (off : R) : R :=
  (IZR X + 1 / 2) * (360 / IZR L) - off.

(** The midpoint expression of [XTOMIDLON] and [YTOMIDLAT]. *)
Definition midpoint64 (X : Z) (off : R) : R :=
  add (sub (div (mul (of_int X) 360) (of_int L)) off)
      (div (div 360 (of_int L)) 2).

Lemma midpoint64_error (X : Z) (off : R) :
  (0 <= X <= L)%Z -> 0 <= off <= 180 ->
  Rabs (midpoint64 X off - midpoint X off) <= bpow (-41).
Proof.
  intros HX Hoff. pose proof IZR_L_bounds as HA.
  pose proof bpow_52_small as Hu. pose proof bpow_1000_small as Hs.
  assert (HX0 : 0 <= IZR X) by (apply (IZR_le 0); lia).
  assert (HX1 : IZR X <= IZR L) by (apply IZR_le; lia).
  unfold midpoint64, midpoint, add, sub, mul, div.
  rewrite of_int_L.
  assert (EX : round (of_int X * 360) = IZR X * 360).
  { unfold of_int. rewrite round_IZR by lia.
    replace (IZR X * 360) with (IZR (X * 360)) by (rewrite mult_IZR; ring).
    apply round_IZR. lia. }
  rewrite EX.
  set (u := bpow (-52)) in *. set (A := IZR L) in *.
  assert (HQ : 0 <= IZR X * 360 / A <= 360).
  { split.
    - apply Rmult_le_pos; [lra|]. left. apply Rinv_0_lt_compat. lra.
    - apply Rmult_le_reg_r with A; [lra|].
      unfold Rdiv. rewrite Rmult_assoc, Rinv_l by lra. lra. }
  assert (HH : 0 <= 360 / A <= 360).
  { split.
    - apply Rmult_le_pos; [lra|]. left. apply Rinv_0_lt_compat. lra.
    - apply Rmult_le_reg_r with A; [lra|].
      unfold Rdiv. rewrite Rmult_assoc, Rinv_l by lra. nra. }
  pose proof (round_within (IZR X * 360 / A) 360) as Hq.
  rewrite Rabs_pos_eq in Hq by lra.
  specialize (Hq ltac:(lra) ltac:(lra)). fold u in Hq.
  set (q := round (IZR X * 360 / A)) in *.
  apply Rabs_le_inv in Hq.
  pose proof (round_within (q - off) 361) as Hsub.
  specialize (Hsub ltac:(apply Rabs_le; lra) ltac:(lra)). fold u in Hsub.
  set (s := round (q - off)) in *.
  apply Rabs_le_inv in Hsub.
  pose proof (round_within (360 / A) 360) as Hh0.
  rewrite Rabs_pos_eq in Hh0 by lra.
  specialize (Hh0 ltac:(lra) ltac:(lra)). fold u in Hh0.
  set (h0 := round (360 / A)) in *.
  apply Rabs_le_inv in Hh0.
  pose proof (round_within (h0 / 2) 181) as Hh.
  specialize (Hh ltac:(apply Rabs_le; lra) ltac:(lra)). fold u in Hh.
  set (h := round (h0 / 2)) in *.
  apply Rabs_le_inv in Hh.
  pose proof (round_within (s + h) 543) as Hm.
  specialize (Hm ltac:(apply Rabs_le; lra) ltac:(lra)). fold u in Hm.
  apply Rabs_le_inv in Hm.
  assert (E41 : bpow (-41) = 2048 * u).
  { unfold u. replace (-41)%Z with (11 + -52)%Z by lia.
    rewrite bpow_add. unfold bpow at 1. simpl. ring. }
  rewrite E41.
  replace ((IZR X + 1 / 2) * (360 / A) - off)
    with (IZR X * 360 / A - off + 360 / A / 2) by (field; lra).
  apply Rabs_le. lra.
Qed.

(** Midpoint and coordinate: half a cell and the two errors apart. *)
Lemma midpoint_of_tick (v off : R) :
  0 <= v + off <= 360 ->
  Rabs (midpoint (double_to_int (tick v off)) off - v)
  <= 180 / IZR L + 360 * bpow (-49).
Proof.
  intros HB. pose proof IZR_L_bounds as HA.
  destruct (tick_floor v off HB) as [_ [Hlo Hhi]].
  set (x := IZR (double_to_int (tick v off))) in *.
  set (A := IZR L) in *. set (e := bpow (-49)) in *.
  assert (Hd : 0 < 360 / A) by (apply Rdiv_lt_0_compat; lra).
  unfold midpoint. fold x. fold A.
  replace ((x + 1 / 2) * (360 / A) - off - v)
    with ((x + 1 / 2 - A / 360 * (v + off)) * (360 / A)) by (field; lra).
  replace (180 / A + 360 * e) with ((1 / 2 + e * A) * (360 / A))
    by (field; lra).
  rewrite Rabs_mult, (Rabs_pos_eq (360 / A)) by lra.
  apply Rmult_le_compat_r; [lra|]. apply Rabs_le. lra.
Qed.
End GridError.

(** *** Columns and rows *)

Section GridCells.
Variable L : Z.
Hypothesis L_int : (0 < L < 2 ^ 31)%Z.

(** A coordinate whose exact tick count is below [n] gets at most [n]. *)
Lemma tick_at_most (v off : R) (n : Z) :
  0 <= v + off <= 360 -> IZR L / 360 * (v + off) < IZR n ->
  (0 <= double_to_int (tick L v off) <= n)%Z.
Proof.
  intros HB Hn. destruct (tick_floor L L_int v off HB) as [H0 [_ Hhi]].
  pose proof (bpow_49_L L L_int) as He.
  split; [exact H0|]. apply Z.lt_succ_r, lt_IZR. rewrite succ_IZR. lra.
Qed.

(** A coordinate whose exact tick count is more than the error below [n]
    gets less than [n]. *)
Lemma tick_less (v off : R) (n : Z) :
  0 <= v + off <= 360 ->
  IZR L / 360 * (v + off) + bpow (-49) * IZR L < IZR n ->
  (0 <= double_to_int (tick L v off) < n)%Z.
Proof.
  intros HB Hn. destruct (tick_floor L L_int v off HB) as [H0 [_ Hhi]].
  split; [exact H0|]. apply lt_IZR. lra.
Qed.

(** Away from the ends of a cell the conversion yields the cell. *)
Lemma tick_inside (v off : R) (k : Z) :
  0 <= v + off <= 360 -> (0 <= k)%Z ->
  IZR k + bpow (-49) * IZR L <= IZR L / 360 * (v + off)
  < IZR k + 1 - bpow (-49) * IZR L ->
  double_to_int (tick L v off) = k.
Proof.
  intros HB Hk [Hlo Hhi]. destruct (tick_error L L_int v off HB) as [H0 He].
  apply Rabs_le_inv in He.
  apply double_to_int_eq; [exact Hk | lra].
Qed.

(** In degrees: the coordinates that get the tick [k] lie in the cell or
    less than [2^-40] degrees outside of it. *)
Lemma tick_degrees (v off : R) :
  0 <= v + off <= 360 ->
  IZR (double_to_int (tick L v off)) * (360 / IZR L) - off - / 2 ^ 40 <= v
  < (IZR (double_to_int (tick L v off)) + 1) * (360 / IZR L) - off + / 2 ^ 40.
Proof.
  intros HB. pose proof (IZR_L_bounds L L_int) as HA.
  destruct (tick_floor L L_int v off HB) as [_ [Hlo Hhi]].
  set (x := IZR (double_to_int (tick L v off))) in *.
  set (A := IZR L) in *.
  assert (E49 : bpow (-49) = / 2 ^ 49)
    by (change (-49)%Z with (- Z.of_nat 49)%Z; apply bpow_neg).
  rewrite E49 in *.
  assert (Hd : 0 < 360 / A) by (apply Rdiv_lt_0_compat; lra).
  assert (Ev : v = A / 360 * (v + off) * (360 / A) - off) by (field; lra).
  assert (Ee : / 2 ^ 49 * A * (360 / A) = 360 * / 2 ^ 49) by (field; lra).
  split.
  - assert (x * (360 / A)
            <= (A / 360 * (v + off) + / 2 ^ 49 * A) * (360 / A))
      by (apply Rmult_le_compat_r; lra).
    lra.
  - assert ((A / 360 * (v + off) - 1 - / 2 ^ 49 * A) * (360 / A)
            < x * (360 / A))
      by (apply Rmult_lt_compat_r; lra).
    lra.
Qed.

(** A coordinate at least [2^-40] degrees inside the cell of the tick [k]
    has an exact tick count further than the error from [k] and [k + 1]. *)
Lemma interior_ticks (v off : R) (k : Z) :
  IZR k * (360 / IZR L) - off + / 2 ^ 40 <= v
  < (IZR k + 1) * (360 / IZR L) - off - / 2 ^ 40 ->
  IZR k + bpow (-49) * IZR L <= IZR L / 360 * (v + off)
  < IZR k + 1 - bpow (-49) * IZR L.
Proof.
  intros [Hlo Hhi]. pose proof (IZR_L_bounds L L_int) as HA.
  set (A := IZR L) in *.
  assert (E49 : bpow (-49) = / 2 ^ 49)
    by (change (-49)%Z with (- Z.of_nat 49)%Z; apply bpow_neg).
  rewrite E49.
  assert (Hd : 0 < A / 360) by (apply Rdiv_lt_0_compat; lra).
  assert (Et : A / 360 * (v + off) = (v + off) * (A / 360)) by ring.
  assert (E1 : (IZR k * (360 / A) + / 2 ^ 40) * (A / 360)
               = IZR k + / 2 ^ 40 * (A / 360)) by (field; lra).
  assert (E2 : ((IZR k + 1) * (360 / A) - / 2 ^ 40) * (A / 360)
               = IZR k + 1 - / 2 ^ 40 * (A / 360)) by (field; lra).
  assert (Hs : / 2 ^ 49 * A <= / 2 ^ 40 * (A / 360)) by lra.
  rewrite Et. split.
  - assert ((IZR k * (360 / A) + / 2 ^ 40) * (A / 360)
            <= (v + off) * (A / 360))
      by (apply Rmult_le_compat_r; lra).
    lra.
  - assert ((v + off) * (A / 360)
            < ((IZR k + 1) * (360 / A) - / 2 ^ 40) * (A / 360))
      by (apply Rmult_lt_compat_r; lra).
    lra.
Qed.

(** Such a coordinate gets the tick [k]. *)
Lemma tick_of_interior (v off : R) (k : Z) :
  0 <= v + off <= 360 -> (0 <= k)%Z ->
  IZR k * (360 / IZR L) - off + / 2 ^ 40 <= v
  < (IZR k + 1) * (360 / IZR L) - off - / 2 ^ 40 ->
  double_to_int (tick L v off) = k.
Proof.
  intros HB Hk Hv. apply tick_inside; auto. now apply interior_ticks.
Qed.

(** The midpoint the macros compute for the tick of a coordinate. *)
Lemma midpoint64_of_tick (v off : R) (n : Z) :
  0 <= v + off <= 360 -> 0 <= off <= 180 -> (n <= L)%Z ->
  IZR L / 360 * (v + off) < IZR n ->
  Rabs (midpoint64 L (double_to_int (tick L v off)) off - v)
  <= 180 / IZR L + / 2 ^ 39.
Proof.
  intros HB Hoff Hn Ht. pose proof (IZR_L_bounds L L_int) as HA.
  pose proof (tick_at_most v off n HB Ht) as Hx.
  pose proof (midpoint64_error L L_int (double_to_int (tick L v off)) off
                               ltac:(lia) Hoff) as H1.
  pose proof (midpoint_of_tick L L_int v off HB) as H2.
  assert (E49 : bpow (-49) = / 2 ^ 49)
    by (change (-49)%Z with (- Z.of_nat 49)%Z; apply bpow_neg).
  assert (E41 : bpow (-41) = / 2 ^ 41)
    by (change (-41)%Z with (- Z.of_nat 41)%Z; apply bpow_neg).
  rewrite E49 in H2. rewrite E41 in H1.
  apply Rabs_le_inv in H1. apply Rabs_le_inv in H2.
  apply Rabs_le. lra.
Qed.
End GridCells.

(** *** Evaluation at given numbers *)

(** A double given as an integer or as an odd multiple of a half. *)
Lemma round_integer (x : R) (n : Z) :
  x = IZR n -> (Z.abs n < 2 ^ 53)%Z -> round x = x.
Proof. intros -> H. now apply round_IZR. Qed.

Lemma round_halves (x : R) (n : Z) :
  x = IZR n / 2 -> (Z.abs n < 2 ^ 53)%Z -> round x = x.
Proof.
  intros -> H. pose proof (round_exact n (-1) H ltac:(lia)) as E.
  replace (bpow (-1)) with (/ 2) in E by (unfold bpow; simpl; lra).
  exact E.
Qed.

(** [72 / 360.0], the double next to one fifth, is above it. *)
Lemma div_72_360 : div (of_int 72) 360 = 7205759403792794 * / 2 ^ 55.
Proof.
  unfold div, of_int. rewrite (round_integer 72 72) by (reflexivity || lia).
  rewrite (round_nearest (72 / 360) (-3) 7205759403792794).
  - change (-3 - 52)%Z with (- Z.of_nat 55)%Z. now rewrite bpow_neg.
  - rewrite Rabs_pos_eq by lra. unfold bpow. simpl. lra.
  - lia.
  - change (-3 - 52)%Z with (- Z.of_nat 55)%Z. rewrite bpow_neg.
    apply Rabs_def1; lra.
Qed.

(** [180 - 2^-45] is the double below 180; adding 180.0 to it gives a
    number half way between two doubles, and the even one is 360. *)
Lemma below_180_is_double : round (180 - / 2 ^ 45) = 180 - / 2 ^ 45.
Proof.
  replace (180 - / 2 ^ 45) with (6333186975989759 * bpow (- Z.of_nat 45)).
  - apply round_exact; lia.
  - rewrite bpow_neg. lra.
Qed.

Lemma add_below_180 : add (180 - / 2 ^ 45) 180 = 360.
Proof.
  unfold add.
  rewrite (round_tie (180 - / 2 ^ 45 + 180) 8 6333186975989759).
  - change (Z.even 6333186975989759) with false. cbv iota.
    change (6333186975989759 + 1)%Z with 6333186975989760%Z.
    change (8 - 52)%Z with (- Z.of_nat 44)%Z. rewrite bpow_neg. lra.
  - rewrite Rabs_pos_eq by lra. unfold bpow. simpl. lra.
  - lia.
  - change (8 - 52)%Z with (- Z.of_nat 44)%Z. rewrite bpow_neg.
    unfold Rdiv. rewrite Rinv_inv. lra.
Qed.

Lemma mul_fifth_360 : mul (7205759403792794 * / 2 ^ 55) 360 = 72.
Proof.
  unfold mul.
  rewrite (round_nearest (7205759403792794 * / 2 ^ 55 * 360) 6
                         5066549580791808).
  - change (6 - 52)%Z with (- Z.of_nat 46)%Z. rewrite bpow_neg. lra.
  - rewrite Rabs_pos_eq by lra. unfold bpow. simpl. lra.
  - lia.
  - change (6 - 52)%Z with (- Z.of_nat 46)%Z. rewrite bpow_neg.
    unfold Rdiv. rewrite Rinv_inv. apply Rabs_def1; lra.
Qed.

(** The double below 180 gets column 72 of the 72 columns 0..71. *)
Lemma LONTOX_72_below_180 : LONTOX 72 (180 - / 2 ^ 45) = 72%Z.
Proof.
  unfold LONTOX. rewrite div_72_360, add_below_180, mul_fifth_360.
  apply double_to_int_eq; [lia | lra].
Qed.

Lemma XTOMIDLON_72_72 : XTOMIDLON 72 72 = 365 / 2.
Proof.
  unfold XTOMIDLON, add, sub, mul, div, of_int.
  rewrite (round_integer 72 72) by (reflexivity || lia).
  rewrite (round_integer (72 * 360) 25920) by (lra || lia).
  rewrite (round_integer (72 * 360 / 72) 360) by (lra || lia).
  rewrite (round_integer (72 * 360 / 72 - 180) 180) by (lra || lia).
  rewrite (round_integer (360 / 72) 5) by (lra || lia).
  rewrite (round_halves (360 / 72 / 2) 5) by (lra || lia).
  rewrite (round_halves (72 * 360 / 72 - 180 + 360 / 72 / 2) 365)
    by (lra || lia).
  lra.
Qed.

(** [26 / 360.0], the double next to 13/180, is below it. *)
Lemma div_26_360 : div (of_int 26) 360 = 5204159569405906 * / 2 ^ 56.
Proof.
  unfold div, of_int. rewrite (round_integer 26 26) by (reflexivity || lia).
  rewrite (round_nearest (26 / 360) (-4) 5204159569405906).
  - change (-4 - 52)%Z with (- Z.of_nat 56)%Z. now rewrite bpow_neg.
  - rewrite Rabs_pos_eq by lra. unfold bpow. simpl. lra.
  - lia.
  - change (-4 - 52)%Z with (- Z.of_nat 56)%Z. rewrite bpow_neg.
    unfold Rdiv. rewrite Rinv_inv. apply Rabs_def1; lra.
Qed.

(** Longitude 0 is the lower edge of column 13 of the 26 columns; the
    product comes out below 13. *)
Lemma LONTOX_26_0 : LONTOX 26 0 = 12%Z.
Proof.
  unfold LONTOX. rewrite div_26_360. unfold add, mul.
  rewrite (round_integer (0 + 180) 180) by (lra || lia).
  rewrite (round_nearest (5204159569405906 * / 2 ^ 56 * (0 + 180)) 3
                         7318349394477055).
  - change (3 - 52)%Z with (- Z.of_nat 49)%Z. rewrite bpow_neg.
    apply double_to_int_eq; [lia | lra].
  - rewrite Rabs_pos_eq by lra. unfold bpow. simpl. lra.
  - lia.
  - change (3 - 52)%Z with (- Z.of_nat 49)%Z. rewrite bpow_neg.
    unfold Rdiv. rewrite Rinv_inv. apply Rabs_def1; lra.
Qed.

Lemma LATTOY_26_10 : LATTOY 26 10 = 7%Z.
Proof.
  unfold LATTOY. rewrite div_26_360. unfold add, mul.
  rewrite (round_integer (10 + 90) 100) by (lra || lia).
  rewrite (round_nearest (5204159569405906 * / 2 ^ 56 * (10 + 90)) 2
                         8131499327196728).
  - change (2 - 52)%Z with (- Z.of_nat 50)%Z. rewrite bpow_neg.
    apply double_to_int_eq; [lia | lra].
  - rewrite Rabs_pos_eq by lra. unfold bpow. simpl. lra.
  - lia.
  - change (2 - 52)%Z with (- Z.of_nat 50)%Z. rewrite bpow_neg.
    unfold Rdiv. rewrite Rinv_inv. apply Rabs_def1; lra.
Qed.
End Binary64.

(** ** The same numbers on the executable model

    Rocq's [SpecFloat] has the operations of IEEE 754 as functions on sign,
    mantissa and exponent.  The macros evaluated with them at binary64
    yield the numbers found above for the two inputs on which the code
    departs from exact arithmetic. *)

Module Bits.
Local Open Scope Z_scope.

Definition of_int (n : Z) : spec_float := binary_normalize 53 1024 n 0 false.

(** [(int) d] for a finite [d]: truncation toward zero. *)
Definition to_int (d : spec_float) : option Z :=
  match d with
  | S754_zero _ => Some 0
  | S754_finite s m e =>
      let v := if 0 <=? e then Z.pos m * 2 ^ e else Z.pos m / 2 ^ (- e) in
      Some (if s then - v else v)
  | _ => None
  end.

Section Grid.
Variable L : Z.

Definition XTOMIDLON (X : Z) : spec_float :=
  SFadd 53 1024
    (SFsub 53 1024
       (SFdiv 53 1024 (SFmul 53 1024 (of_int X) (of_int 360)) (of_int L))
       (of_int 180))
    (SFdiv 53 1024 (SFdiv 53 1024 (of_int 360) (of_int L)) (of_int 2)).

Definition LONTOX (LON : spec_float) : option Z :=
  to_int (SFmul 53 1024 (SFdiv 53 1024 (of_int L) (of_int 360))
                (SFadd 53 1024 LON (of_int 180))).

Definition LATTOY (LAT : spec_float) : option Z :=
  to_int (SFmul 53 1024 (SFdiv 53 1024 (of_int L) (of_int 360))
                (SFadd 53 1024 LAT (of_int 90))).
End Grid.

(** The double next below 180, [180 - 2^-45]. *)
Definition below_180 : spec_float := S754_finite false 6333186975989759 (-45).

Lemma spec_below_180 : SFpred 53 1024 (of_int 180) = below_180.
Proof. vm_compute. reflexivity. Qed.

Lemma spec_LONTOX_72 : LONTOX 72 below_180 = Some 72.
Proof. vm_compute. reflexivity. Qed.

(** 182.5 is [365 * 2^-1]. *)
Lemma spec_XTOMIDLON_72 :
  XTOMIDLON 72 72 = binary_normalize 53 1024 365 (-1) false.
Proof. vm_compute. reflexivity. Qed.

Lemma spec_LONTOX_26 : LONTOX 26 (of_int 0) = Some 12.
Proof. vm_compute. reflexivity. Qed.

Lemma spec_LATTOY_26 : LATTOY 26 (of_int 10) = Some 7.
Proof. vm_compute. reflexivity. Qed.
End Bits.

(** C6, amended: for a grid size that an [int] holds, a latitude in
    [-90, 90) and a longitude in [-180, 180), the midpoint of the cell the
    coordinate maps to, as the macros compute both in double arithmetic,
    lies within half a cell, [180 / L] degrees, plus a rounding error below
    [2^-39] degrees of the coordinate.  The column is one of [0 .. L] and
    the row one of [0 .. L/2]: nothing keeps a coordinate just below 180 or
    90 from the column or row behind the last. *)
Theorem midpoint_within_half_cell_up_to_rounding (L : Z) (lat lon : R) :
  (0 < L < 2 ^ 31)%Z ->
  -90 <= lat < 90 ->
  -180 <= lon < 180 ->
  Rabs (Binary64.YTOMIDLAT L (Binary64.LATTOY L lat) - lat)
  <= 180 / IZR L + / 2 ^ 39 /\
  Rabs (Binary64.XTOMIDLON L (Binary64.LONTOX L lon) - lon)
  <= 180 / IZR L + / 2 ^ 39 /\
  (0 <= Binary64.LATTOY L lat <= latgranularity L)%Z /\
  (0 <= Binary64.LONTOX L lon <= L)%Z.
Proof.
  intros HL Hlat Hlon.
  assert (HA : 1 <= IZR L) by (apply (IZR_le 1); lia).
  assert (Hlg : (L <= 2 * latgranularity L + 1)%Z).
  { unfold latgranularity, CInt.div. rewrite Z.quot_div_nonneg by lia.
    pose proof (Z.div_mod L 2 ltac:(lia)).
    pose proof (Z.mod_pos_bound L 2 ltac:(lia)). lia. }
  assert (Hlg' : (latgranularity L <= L)%Z).
  { unfold latgranularity, CInt.div. rewrite Z.quot_div_nonneg by lia.
    pose proof (Z.div_mod L 2 ltac:(lia)).
    pose proof (Z.mod_pos_bound L 2 ltac:(lia)). lia. }
  assert (Hrow : (0 <= Binary64.LATTOY L lat <= latgranularity L)%Z).
  { destruct (Binary64.tick_floor L HL lat 90 ltac:(lra)) as [H0 [_ Hhi]].
    pose proof (Binary64.bpow_49_L L HL) as He.
    split; [exact H0|].
    change (Binary64.LATTOY L lat)
      with (double_to_int (Binary64.tick L lat 90)).
    assert (Ht : IZR L / 360 * (lat + 90) < IZR L / 2).
    { replace (IZR L / 2) with (IZR L / 360 * 180) by field.
      apply Rmult_lt_compat_l; lra. }
    assert (H2 : (2 * double_to_int (Binary64.tick L lat 90) < L + 1)%Z).
    { apply lt_IZR. rewrite mult_IZR, plus_IZR. lra. }
    lia. }
  split; [|split; [|split]].
  - apply (Binary64.midpoint64_of_tick L HL lat 90 L); try lra; try lia.
    replace (IZR L) with (IZR L / 360 * 360) at 2 by field.
    apply Rmult_lt_compat_l; lra.
  - apply (Binary64.midpoint64_of_tick L HL lon 180 L); try lra; try lia.
    replace (IZR L) with (IZR L / 360 * 360) at 2 by field.
    apply Rmult_lt_compat_l; lra.
  - exact Hrow.
  - apply (Binary64.tick_at_most L HL lon 180 L); [lra|].
    replace (IZR L) with (IZR L / 360 * 360) at 2 by field.
    apply Rmult_lt_compat_l; lra.
Qed.

(** C6, amended, at [L = 72], latitude 40 and longitude -74. *)
Lemma midpoint_within_half_cell_up_to_rounding_witness :
  Rabs (Binary64.YTOMIDLAT 72 (Binary64.LATTOY 72 40) - 40)
  <= 180 / IZR 72 + / 2 ^ 39 /\
  Rabs (Binary64.XTOMIDLON 72 (Binary64.LONTOX 72 (-74)) - (-74))
  <= 180 / IZR 72 + / 2 ^ 39.
Proof.
  destruct (midpoint_within_half_cell_up_to_rounding 72 40 (-74))
    as (H1 & H2 & _); [lia | lra | lra |].
  split; [exact H1 | exact H2].
Defined.

(** C6 as it is written fails on the 5-degree grid at the double next
    below 180: the coordinate gets column 72, whose midpoint 182.5 is
    [2.5 + 2^-45] degrees away.  The executable model yields the same
    column and midpoint. *)
Lemma midpoint_beyond_half_cell :
  -180 <= 180 - / 2 ^ 45 < 180 /\
  Binary64.round (180 - / 2 ^ 45) = 180 - / 2 ^ 45 /\
  Z.even 72 = true /\
  Binary64.LONTOX 72 (180 - / 2 ^ 45) = 72%Z /\
  ~ Rabs (Binary64.XTOMIDLON 72 (Binary64.LONTOX 72 (180 - / 2 ^ 45))
          - (180 - / 2 ^ 45)) <= 180 / IZR 72 /\
  Bits.LONTOX 72 Bits.below_180 = Some 72%Z /\
  Bits.XTOMIDLON 72 72 = binary_normalize 53 1024 365 (-1) false.
Proof.
  split; [lra|]. split; [apply Binary64.below_180_is_double|].
  split; [reflexivity|]. split; [apply Binary64.LONTOX_72_below_180|].
  split; [|split; [apply Bits.spec_LONTOX_72 | apply Bits.spec_XTOMIDLON_72]].
  rewrite Binary64.LONTOX_72_below_180, Binary64.XTOMIDLON_72_72.
  rewrite Rabs_pos_eq by lra. lra.
Qed.

(** ** The radius of the KDE window *)

Section Radius.
Variable L : Z.
Variables sigma1 sigma2 rho : R.

Local Notation "'probe'" := (kde_probe L sigma1 sigma2 rho).
Local Notation "'radius_loop'" := (kde_radius_loop L sigma1 sigma2 rho).

(** The loop returns the first [r >= x] whose probe is below the cutoff as
    soon as the fuel covers the distance. *)
Lemma kde_radius_loop_least (r : Z) :
  probe r < 1 / 1000 ->
  forall (fuel : nat) (x : Z),
    (x <= r)%Z ->
    (forall j, (x <= j < r)%Z -> ~ probe j < 1 / 1000) ->
    (Z.to_nat (r - x) < fuel)%nat ->
    radius_loop fuel x = Some r.
Proof.
  intros Hr. induction fuel as [|k IH]; intros x Hx Hbelow Hfuel; [lia|].
  cbn [kde_radius_loop].
  destruct (Z.eq_dec x r) as [->|Hne].
  - now rewrite Rltb_true.
  - rewrite Rltb_false by (apply Rnot_lt_le, Hbelow; lia).
    apply IH; [lia | intros j Hj; apply Hbelow; lia | lia].
Qed.

(** A probe below the cutoff somewhere ahead gives a least one. *)
Lemma kde_radius_exists_least (x0 : Z) :
  probe x0 < 1 / 1000 ->
  forall (n : nat) (x : Z),
    (x <= x0)%Z -> (Z.to_nat (x0 - x) <= n)%nat ->
    exists r, (x <= r <= x0)%Z /\ probe r < 1 / 1000 /\
              forall j, (x <= j < r)%Z -> ~ probe j < 1 / 1000.
Proof.
  intros H0. induction n as [|k IH]; intros x Hx Hn.
  - exists x0. assert (x = x0) by lia. subst. repeat split; auto; lia.
  - destruct (Rlt_dec (probe x) (1 / 1000)) as [Hp|Hp].
    + exists x. repeat split; auto; lia.
    + assert (Hne : x <> x0) by (intros ->; contradiction).
      destruct (IH (x + 1)%Z ltac:(lia) ltac:(lia)) as (r & Hr & Hpr & Hlt).
      exists r. repeat split; auto; try lia.
      intros j Hj. destruct (Z.eq_dec j x) as [->|]; auto.
      apply Hlt. lia.
Qed.

Hypothesis L_pos : (0 < L)%Z.
Hypothesis sigma1_pos : 0 < sigma1.
Hypothesis sigma2_pos : 0 < sigma2.
Hypothesis rho_range : -1 < rho < 1.

Lemma TWOPI_pos : 0 < TWOPI.
Proof. unfold TWOPI. apply Rdiv_lt_0_compat; [lra | apply pow_lt; lra]. Qed.

Lemma one_minus_rho2_pos : 0 < 1 - rho * rho.
Proof.
  destruct rho_range.
  assert (0 < (1 - rho) * (1 + rho)) by (apply Rmult_lt_0_compat; lra).
  lra.
Qed.

(** The probe is a Gaussian function of the distance [x * 360/L]: the
    amplitude is the normalising constant of the bivariate kernel. *)
Lemma kde_probe_formula (x : Z) :
  probe x
  = 1 / (TWOPI * sigma1 * sigma2 * sqrt (1 - rho * rho))
    * exp (- ((IZR x * (360 / IZR L)) ^ 2
              / (2 * (sigma1 * sigma1) * (1 - rho * rho)))).
Proof.
  unfold kde_probe, bivariate_gaussian_pdf. cbv zeta. f_equal. f_equal.
  pose proof one_minus_rho2_pos. pose proof (IZR_L_pos L L_pos).
  field. repeat split; lra.
Qed.

Lemma kde_amplitude_pos :
  0 < 1 / (TWOPI * sigma1 * sigma2 * sqrt (1 - rho * rho)).
Proof.
  pose proof TWOPI_pos. pose proof one_minus_rho2_pos.
  apply Rdiv_lt_0_compat; [lra|].
  apply Rmult_lt_0_compat; [|now apply sqrt_lt_R0].
  apply Rmult_lt_0_compat; [|assumption].
  apply Rmult_lt_0_compat; assumption.
Qed.

Lemma exp_neg_small (y : R) : 0 < y -> exp (- y) < / y.
Proof.
  intros Hy. rewrite exp_Ropp.
  apply Rinv_lt_contravar.
  - apply Rmult_lt_0_compat; auto. apply exp_pos.
  - pose proof (exp_ineq1 y ltac:(lra)). lra.
Qed.

(** Far enough from the centre the probe is below the cutoff. *)
Lemma kde_probe_eventually_small :
  exists x0, (0 <= x0)%Z /\ probe x0 < 1 / 1000.
Proof.
  pose proof IZR_L_pos L L_pos as HL.
  pose proof kde_amplitude_pos as HK.
  pose proof one_minus_rho2_pos as Hrho.
  set (K := 1 / (TWOPI * sigma1 * sigma2 * sqrt (1 - rho * rho))) in *.
  set (a := (360 / IZR L) ^ 2 / (2 * (sigma1 * sigma1) * (1 - rho * rho))).
  assert (Ha : 0 < a).
  { unfold a. apply Rdiv_lt_0_compat.
    - apply pow_lt. apply Rdiv_lt_0_compat; lra.
    - repeat apply Rmult_lt_0_compat; lra. }
  set (x0 := Z.max 1 (up (1000 * K / a))).
  exists x0. split; [lia|].
  rewrite kde_probe_formula. fold K.
  assert (Hx1 : 1 <= IZR x0) by (apply (IZR_le 1); lia).
  assert (Hx2 : 1000 * K / a < IZR x0).
  { destruct (archimed (1000 * K / a)) as [Hup _].
    eapply Rlt_le_trans; [exact Hup|]. apply IZR_le. lia. }
  assert (Hy : (IZR x0 * (360 / IZR L)) ^ 2
               / (2 * (sigma1 * sigma1) * (1 - rho * rho))
               = a * (IZR x0 * IZR x0)).
  { unfold a. field. repeat split; lra. }
  rewrite Hy.
  assert (Hbig : 1000 * K < a * (IZR x0 * IZR x0)).
  { assert (1000 * K < a * IZR x0).
    { apply (Rmult_lt_compat_l a) in Hx2; auto.
      replace (a * (1000 * K / a)) with (1000 * K) in Hx2 by (field; lra).
      exact Hx2. }
    assert (a * IZR x0 <= a * (IZR x0 * IZR x0)).
    { apply Rmult_le_compat_l; [lra|]. nra. }
    lra. }
  assert (Hpos : 0 < a * (IZR x0 * IZR x0)) by nra.
  pose proof (exp_neg_small _ Hpos) as He.
  assert (K * exp (- (a * (IZR x0 * IZR x0)))
          < K * / (a * (IZR x0 * IZR x0)))
    by (apply Rmult_lt_compat_l; auto).
  assert (K * / (a * (IZR x0 * IZR x0)) < 1 / 1000).
  { apply (Rmult_lt_reg_r (a * (IZR x0 * IZR x0))); auto.
    rewrite Rmult_assoc, Rinv_l by lra. lra. }
  lra.
Qed.

(** The radius exists, is the least tick count whose probe is below the
    cutoff, and is what the loop returns whenever the fuel exceeds it. *)
Lemma kde_maxradius_least :
  exists r,
    (0 <= r)%Z /\
    probe r < 1 / 1000 /\
    (forall x, (0 <= x < r)%Z -> ~ probe x < 1 / 1000) /\
    (forall fuel, (Z.to_nat r < fuel)%nat ->
                  kde_maxradius L sigma1 sigma2 rho fuel = Some r).
Proof.
  destruct kde_probe_eventually_small as (x0 & Hx0 & Hp0).
  destruct (kde_radius_exists_least x0 Hp0 (Z.to_nat x0) 0%Z Hx0 ltac:(lia))
    as (r & Hr & Hpr & Hlt).
  exists r. repeat split; auto; try lia.
  intros fuel Hfuel. unfold kde_maxradius.
  apply kde_radius_loop_least; auto; lia.
Qed.
End Radius.



(** ** Loops that update one cell per iteration *)

Section CellLoops.
Context {A : Type}.
Variable d : A.

Lemma replace_nth_same (n : nat) (m : list A) :
  replace_nth n (nth n m d) m = m.
Proof.
  revert n; induction m as [|h t IH]; intros [|k]; simpl; auto.
  now rewrite IH.
Qed.

Lemma aset_same (m : list A) (i : Z) : aset m i (aget d m i) = m.
Proof.
  unfold aset, aget. destruct (in_bounds m i); auto.
  apply replace_nth_same.
Qed.

Lemma aget_out_of_bounds (m : list A) (i : Z) :
  in_bounds m i = false -> aget d m i = d.
Proof. intros H. unfold aget. now rewrite H. Qed.

(** A loop whose body stores [upd c m[c]] at [c] computes [upd] cell by
    cell and leaves the cells outside its range alone. *)
Lemma for_range_cells (upd : Z -> A -> A) (lo hi : Z) (m : list A) :
  (lo <= hi)%Z ->
  let r := for_range lo hi (fun c m => aset m c (upd c (aget d m c))) m in
  length r = length m /\
  forall c, in_bounds m c = true ->
    aget d r c = if ((lo <=? c) && (c <? hi))%Z then upd c (aget d m c)
                 else aget d m c.
Proof.
  intros Hle r. subst r.
  apply (for_range_invariant
           (fun j t =>
              length t = length m /\
              forall c, in_bounds m c = true ->
                aget d t c = if ((lo <=? c) && (c <? j))%Z
                             then upd c (aget d m c) else aget d m c));
    auto.
  - split; auto. intros c _.
    destruct (lo <=? c)%Z eqn:E1, (c <? lo)%Z eqn:E2; simpl; auto.
    apply Z.leb_le in E1. apply Z.ltb_lt in E2. lia.
  - intros j t Hj [Hlen Hcells]. split; [now rewrite length_aset|].
    intros c Hc.
    assert (Hct : in_bounds t c = true).
    { unfold in_bounds in *. now rewrite Hlen. }
    destruct (Z.eq_dec j c) as [->|Hne].
    + rewrite aget_aset_eq by exact Hct.
      rewrite (Hcells c Hc).
      replace (c <? c)%Z with false by (symmetry; apply Z.ltb_ge; lia).
      rewrite andb_false_r.
      replace (lo <=? c)%Z with true by (symmetry; apply Z.leb_le; lia).
      replace (c <? c + 1)%Z with true by (symmetry; apply Z.ltb_lt; lia).
      reflexivity.
    + rewrite aget_aset_neq by exact Hne.
      rewrite (Hcells c Hc).
      replace (c <? j + 1)%Z with (c <? j)%Z; auto.
      destruct (c <? j)%Z eqn:E; symmetry.
      * apply Z.ltb_lt in E. apply Z.ltb_lt. lia.
      * apply Z.ltb_ge in E. apply Z.ltb_ge. lia.
Qed.

Lemma for_range_ext {St : Type} (body1 body2 : Z -> St -> St) (lo hi : Z) :
  (forall j t, body1 j t = body2 j t) ->
  forall s, for_range lo hi body1 s = for_range lo hi body2 s.
Proof.
  intros Hb. unfold for_range.
  generalize (Z.to_nat (hi - lo)) as n. intros n. revert lo.
  induction n as [|k IH]; intros lo s; simpl; auto.
  rewrite Hb. apply IH.
Qed.

(** The form used for whole-array loops: every cell of an [n]-cell array
    is replaced by [upd] of itself. *)
Lemma for_range_all_cells (upd : Z -> A -> A) (n : Z) (m : list A) :
  Z.of_nat (length m) = n ->
  let r := for_range 0 n (fun c m => aset m c (upd c (aget d m c))) m in
  length r = length m /\
  forall c, (0 <= c < n)%Z -> aget d r c = upd c (aget d m c).
Proof.
  intros Hn r.
  destruct (for_range_cells upd 0 n m ltac:(lia)) as [Hlen Hcells].
  split; [exact Hlen|]. intros c Hc. subst r.
  rewrite Hcells by (apply in_bounds_iff; lia).
  replace (0 <=? c)%Z with true by (symmetry; apply Z.leb_le; lia).
  replace (c <? n)%Z with true by (symmetry; apply Z.ltb_lt; lia).
  reflexivity.
Qed.
End CellLoops.

(** ** Sums over arrays *)

Definition list_sum (m : list R) : R := fold_right Rplus 0 m.

Lemma aget_app_here {A : Type} (d : A) (pre t : list A) (x : A) :
  aget d (pre ++ x :: t) (Z.of_nat (length pre)) = x.
Proof.
  unfold aget.
  assert (Hb : in_bounds (pre ++ x :: t) (Z.of_nat (length pre)) = true).
  { apply in_bounds_iff. rewrite length_app. simpl. lia. }
  rewrite Hb, Nat2Z.id, app_nth2 by lia.
  now rewrite Nat.sub_diag.
Qed.

Lemma sum_loop_suffix (pre t : list R) (acc : R) :
  loop (length t) (Z.of_nat (length pre))
       (fun i sum => sum + aget 0 (pre ++ t) i) acc
  = acc + list_sum t.
Proof.
  revert pre acc. induction t as [|x t IH]; intros pre acc; simpl.
  - unfold list_sum. simpl. lra.
  - rewrite aget_app_here.
    replace (pre ++ x :: t) with ((pre ++ [x]) ++ t)
      by (now rewrite <- app_assoc).
    replace (Z.of_nat (length pre) + 1)%Z
      with (Z.of_nat (length (pre ++ [x])))
      by (rewrite length_app; simpl; lia).
    rewrite IH. unfold list_sum. simpl. lra.
Qed.

Lemma sum_loop_all (m : list R) (n : Z) :
  Z.of_nat (length m) = n ->
  for_range 0 n (fun i sum => sum + aget 0 m i) 0 = list_sum m.
Proof.
  intros Hn. unfold for_range.
  replace (Z.to_nat (n - 0)) with (length m) by lia.
  pose proof (sum_loop_suffix [] m 0) as E. simpl in E.
  rewrite E. lra.
Qed.

Lemma list_sum_map_div (m : list R) (s : R) :
  list_sum (map (fun v => v / s) m) = list_sum m / s.
Proof.
  unfold list_sum. induction m as [|x m IH]; simpl.
  - unfold Rdiv. now rewrite Rmult_0_l.
  - rewrite IH. unfold Rdiv. ring.
Qed.

Lemma list_sum_lower_bound (b : R) (m : list R) :
  (forall v, In v m -> b <= v) -> IZR (Z.of_nat (length m)) * b <= list_sum m.
Proof.
  unfold list_sum. induction m as [|x m IH]; intros Hb.
  - simpl. lra.
  - cbn [length fold_right]. rewrite Nat2Z.inj_succ, succ_IZR.
    assert (b <= x) by (apply Hb; now left).
    assert (IZR (Z.of_nat (length m)) * b <= fold_right Rplus 0 m)
      by (apply IH; intros v Hv; apply Hb; now right).
    lra.
Qed.

Lemma aget_In {A : Type} (d : A) (m : list A) (c : Z) :
  in_bounds m c = true -> In (aget d m c) m.
Proof.
  intros Hb. unfold aget. rewrite Hb. apply nth_In.
  apply in_bounds_iff in Hb. lia.
Qed.

Lemma aget_map_in {A B : Type} (f : A -> B) (dA : A) (dB : B)
      (m : list A) (i : Z) :
  in_bounds m i = true -> aget dB (map f m) i = f (aget dA m i).
Proof.
  intros Hb. unfold aget.
  assert (Hb' : in_bounds (map f m) i = true).
  { unfold in_bounds in *. now rewrite length_map. }
  rewrite Hb, Hb'. apply in_bounds_iff in Hb.
  rewrite (nth_indep _ dB (f dA)) by (rewrite length_map; lia).
  apply map_nth.
Qed.

Lemma In_aget {A : Type} (d : A) (m : list A) (v : A) :
  In v m -> exists c, in_bounds m c = true /\ aget d m c = v.
Proof.
  intros Hin. destruct (In_nth m v d Hin) as (n & Hn & Hv).
  exists (Z.of_nat n).
  assert (Hb : in_bounds m (Z.of_nat n) = true) by (apply in_bounds_iff; lia).
  split; auto. unfold aget. now rewrite Hb, Nat2Z.id.
Qed.

(** ** The centroid table *)

(** A stored point is valid when it lies in the half-open coordinate
    ranges the grid covers. *)
Definition valid_point (p : coordinate) : Prop :=
  -90 <= cl_lat p < 90 /\ -180 <= cl_lon p < 180.


(** Arithmetic mean of the points of a nonempty list. *)
Definition mean_point (pts : list coordinate) : centroids :=
  mk_centroid (list_sum (map cl_lat pts) / IZR (Z.of_nat (length pts)))
              (list_sum (map cl_lon pts) / IZR (Z.of_nat (length pts))).

Section Centroids.
Variable L : Z.
Hypothesis L_pos : (0 < L)%Z.
Hypothesis L_even : Z.even L = true.

Local Notation "'N'" := (latgranularity L * L)%Z.

Lemma CELLTOX_of_cell (x y : Z) :
  (0 <= x < L)%Z -> (0 <= y)%Z -> CELLTOX L (x + y * L) = x.
Proof.
  intros Hx Hy. unfold CELLTOX, CInt.rem.
  rewrite Z.rem_mod_nonneg by nia.
  rewrite Z_mod_plus_full. apply Z.mod_small. lia.
Qed.

Lemma CELLTOY_of_cell (x y : Z) :
  (0 <= x < L)%Z -> (0 <= y)%Z -> CELLTOY L (x + y * L) = y.
Proof.
  intros Hx Hy. unfold CELLTOY, CInt.div.
  rewrite Z.quot_div_nonneg by nia.
  rewrite Z_div_plus_full by lia. rewrite Z.div_small; lia.
Qed.

Lemma latgranularity_nonneg : (0 <= latgranularity L)%Z.
Proof.
  unfold latgranularity, CInt.div. rewrite Z.quot_div_nonneg by lia.
  apply Z.div_pos; lia.
Qed.

End Centroids.

(** [struct coordinate_list] holds [float]s.  The float next below 90 is
    [90 - 2^-17] and the one next below 180 is [180 - 2^-16], so a stored
    point inside the coordinate ranges satisfies: *)
Definition float_point (p : coordinate) : Prop :=
  -90 <= cl_lat p <= 90 - / 2 ^ 17 /\ -180 <= cl_lon p <= 180 - / 2 ^ 16.

(** The accumulation loop of [find_centroids] over [lats], [lons] and
    [counts].  The cell is what the macros yield in double arithmetic; the
    sums are taken over the reals. *)
Fixpoint centroid_sums (L : Z) (cl : list coordinate)
         (acc : list R * list R * list Z) : option (list R * list R * list Z) :=
  match cl with
  | [] => Some acc
  | p :: rest =>
      let '(lats, lons, counts) := acc in
      let cell := (Binary64.LONTOX L (cl_lon p)
                   + Binary64.LATTOY L (cl_lat p) * L)%Z in
      match aset_checked lats cell (aget 0 lats cell + cl_lat p),
            aset_checked lons cell (aget 0 lons cell + cl_lon p),
            aset_checked counts cell (aget 0%Z counts cell + 1)%Z with
      | Some lats', Some lons', Some counts' =>
          centroid_sums L rest (lats', lons', counts')
      | _, _, _ => None
      end
  end.

Definition find_centroids (L : Z) (cl : list coordinate)
  : option (list centroids) :=
  let n := (latgranularity L * L)%Z in
  match centroid_sums L cl (alloc n 0, alloc n 0, alloc n 0%Z) with
  | None => None
  | Some (lats, lons, counts) =>
      Some
        (for_range 0 (L * latgranularity L)
           (fun cell g_centroids =>
              if (aget 0%Z counts cell =? 0)%Z
              then aset g_centroids cell
                        (mk_centroid
                           (Binary64.YTOMIDLAT L (CELLTOY L cell))
                           (Binary64.XTOMIDLON L (CELLTOX L cell)))
              else aset g_centroids cell
                        (mk_centroid
                           (aget 0 lats cell / IZR (aget 0%Z counts cell))
                           (aget 0 lons cell / IZR (aget 0%Z counts cell))))
           (alloc n (mk_centroid 0 0)))
  end.

(** The points of [cl] the loop adds to [cell], in list order. *)
Definition assigned_points (L cell : Z) (cl : list coordinate)
  : list coordinate :=
  filter (fun p => (Binary64.LONTOX L (cl_lon p)
                    + Binary64.LATTOY L (cl_lat p) * L =? cell)%Z) cl.

Section CentroidTable.
Variable L : Z.
Hypothesis L_int : (0 < L < 2 ^ 31)%Z.
Hypothesis L_even : Z.even L = true.

Local Notation "'N'" := (latgranularity L * L)%Z.

Lemma latgranularity_half : IZR L = 2 * IZR (latgranularity L).
Proof.
  unfold latgranularity, CInt.div. rewrite Z.quot_div_nonneg by lia.
  apply Z.even_spec in L_even. destruct L_even as [h Hh].
  replace (L / 2)%Z with h by (rewrite Hh, Z.mul_comm, Z.div_mul; lia).
  rewrite Hh, mult_IZR. reflexivity.
Qed.

(** A stored point of the coordinate ranges gets a column and a row of
    the grid. *)
Lemma float_point_cell (p : coordinate) :
  float_point p ->
  (0 <= Binary64.LONTOX L (cl_lon p) < L)%Z /\
  (0 <= Binary64.LATTOY L (cl_lat p) < latgranularity L)%Z.
Proof.
  intros [[Hlat1 Hlat2] [Hlon1 Hlon2]].
  pose proof (Binary64.IZR_L_bounds L L_int) as HA.
  pose proof latgranularity_half as Hh.
  assert (E49 : Binary64.bpow (-49) = / 2 ^ 49)
    by (change (-49)%Z with (- Z.of_nat 49)%Z; apply Binary64.bpow_neg).
  assert (Hd : 0 < IZR L / 360) by (apply Rdiv_lt_0_compat; lra).
  split.
  - apply (Binary64.tick_less L L_int (cl_lon p) 180 L); [lra|].
    rewrite E49.
    assert (IZR L / 360 * (cl_lon p + 180)
            <= IZR L / 360 * (360 - / 2 ^ 16))
      by (apply Rmult_le_compat_l; lra).
    lra.
  - apply (Binary64.tick_less L L_int (cl_lat p) 90 (latgranularity L));
      [lra|].
    rewrite E49.
    assert (IZR L / 360 * (cl_lat p + 90)
            <= IZR L / 360 * (180 - / 2 ^ 17))
      by (apply Rmult_le_compat_l; lra).
    lra.
Qed.

Lemma float_point_index (p : coordinate) :
  float_point p ->
  (0 <= Binary64.LONTOX L (cl_lon p) + Binary64.LATTOY L (cl_lat p) * L
   < N)%Z.
Proof. intros Hp. destruct (float_point_cell p Hp). nia. Qed.

Lemma centroid_sums_spec (cl : list coordinate) :
  Forall float_point cl ->
  forall lats lons counts,
    Z.of_nat (length lats) = N -> Z.of_nat (length lons) = N ->
    Z.of_nat (length counts) = N ->
    exists lats' lons' counts',
      centroid_sums L cl (lats, lons, counts) = Some (lats', lons', counts') /\
      Z.of_nat (length lats') = N /\ Z.of_nat (length lons') = N /\
      Z.of_nat (length counts') = N /\
      forall c, (0 <= c < N)%Z ->
        aget 0 lats' c
        = aget 0 lats c + list_sum (map cl_lat (assigned_points L c cl)) /\
        aget 0 lons' c
        = aget 0 lons c + list_sum (map cl_lon (assigned_points L c cl)) /\
        aget 0%Z counts' c
        = (aget 0%Z counts c
           + Z.of_nat (length (assigned_points L c cl)))%Z.
Proof.
  induction 1 as [|p cl Hp _ IH]; intros lats lons counts H1 H2 H3.
  - exists lats, lons, counts. simpl. repeat split; auto;
      unfold list_sum; simpl; try lra; lia.
  - pose proof (float_point_index p Hp) as Hcell.
    set (cell := (Binary64.LONTOX L (cl_lon p)
                  + Binary64.LATTOY L (cl_lat p) * L)%Z) in *.
    assert (B1 : in_bounds lats cell = true) by (apply in_bounds_iff; lia).
    assert (B2 : in_bounds lons cell = true) by (apply in_bounds_iff; lia).
    assert (B3 : in_bounds counts cell = true) by (apply in_bounds_iff; lia).
    cbn [centroid_sums]. fold cell.
    rewrite !aset_checked_some by assumption.
    destruct (IH (aset lats cell (aget 0 lats cell + cl_lat p))
                 (aset lons cell (aget 0 lons cell + cl_lon p))
                 (aset counts cell (aget 0%Z counts cell + 1)%Z))
      as (lats' & lons' & counts' & Hs & L1 & L2 & L3 & Hc);
      try (rewrite length_aset; assumption).
    exists lats', lons', counts'. repeat split; auto;
      destruct (Hc c ltac:(lia)) as (E1 & E2 & E3);
      unfold assigned_points in *; cbn [filter]; fold cell;
      (destruct (Z.eq_dec cell c) as [->|Hne];
       [ rewrite Z.eqb_refl | replace (cell =? c)%Z with false
                                by (symmetry; now apply Z.eqb_neq) ]).
    + rewrite E1, aget_aset_eq by assumption.
      unfold list_sum. simpl. lra.
    + rewrite E1, aget_aset_neq by assumption. reflexivity.
    + rewrite E2, aget_aset_eq by assumption.
      unfold list_sum. simpl. lra.
    + rewrite E2, aget_aset_neq by assumption. reflexivity.
    + rewrite E3, aget_aset_eq by assumption.
      cbn [length]. lia.
    + rewrite E3, aget_aset_neq by assumption. reflexivity.
Qed.

Lemma find_centroids_spec (cl : list coordinate) :
  Forall float_point cl ->
  exists g,
    find_centroids L cl = Some g /\
    Z.of_nat (length g) = N /\
    forall x y, (0 <= x < L)%Z -> (0 <= y < latgranularity L)%Z ->
      aget (mk_centroid 0 0) g (x + y * L)
      = match assigned_points L (x + y * L) cl with
        | [] => mk_centroid (Binary64.YTOMIDLAT L y) (Binary64.XTOMIDLON L x)
        | pts => mean_point pts
        end.
Proof.
  intros Hvalid.
  pose proof (latgranularity_nonneg L ltac:(lia)) as Hh.
  unfold find_centroids.
  destruct (centroid_sums_spec cl Hvalid (alloc N 0) (alloc N 0) (alloc N 0%Z))
    as (lats & lons & counts & Hs & L1 & L2 & L3 & Hc);
    try (rewrite length_alloc; lia).
  rewrite Hs.
  set (upd := fun (cell : Z) (_ : centroids) =>
                if (aget 0%Z counts cell =? 0)%Z
                then mk_centroid (Binary64.YTOMIDLAT L (CELLTOY L cell))
                                 (Binary64.XTOMIDLON L (CELLTOX L cell))
                else mk_centroid
                       (aget 0 lats cell / IZR (aget 0%Z counts cell))
                       (aget 0 lons cell / IZR (aget 0%Z counts cell))).
  eexists. split; [reflexivity|].
  rewrite (for_range_ext _
             (fun c m => aset m c (upd c (aget (mk_centroid 0 0) m c))))
    by (intros j t; unfold upd; destruct (aget 0%Z counts j =? 0)%Z; auto).
  destruct (for_range_all_cells (mk_centroid 0 0) upd (L * latgranularity L)
                                (alloc N (mk_centroid 0 0)))
    as [Hlen Hcells]; [rewrite length_alloc; lia|].
  split; [rewrite Hlen, length_alloc; lia|].
  intros x y Hx Hy.
  assert (Hr : (0 <= x + y * L < N)%Z) by nia.
  rewrite Hcells by lia. unfold upd.
  destruct (Hc _ Hr) as (E1 & E2 & E3).
  rewrite aget_alloc in E1 by lia. rewrite aget_alloc in E2 by lia.
  rewrite aget_alloc in E3 by lia.
  rewrite E1, E2, E3.
  rewrite (CELLTOX_of_cell L ltac:(lia)), (CELLTOY_of_cell L ltac:(lia))
    by lia.
  destruct (assigned_points L (x + y * L) cl) as [|p pts] eqn:Ep.
  - reflexivity.
  - replace (0 + Z.of_nat (length (p :: pts)) =? 0)%Z with false
      by (symmetry; apply Z.eqb_neq; cbn [length]; lia).
    unfold mean_point. rewrite !Rplus_0_l, Z.add_0_l. reflexivity.
Qed.

(** The column and the row of a point assigned to the cell [(x, y)]. *)
Lemma assigned_column_row (p : coordinate) (x y : Z) :
  float_point p -> (0 <= x < L)%Z -> (0 <= y)%Z ->
  (Binary64.LONTOX L (cl_lon p) + Binary64.LATTOY L (cl_lat p) * L
   = x + y * L)%Z ->
  Binary64.LONTOX L (cl_lon p) = x /\ Binary64.LATTOY L (cl_lat p) = y.
Proof.
  intros Hp Hx Hy E. destruct (float_point_cell p Hp) as [Hc Hr].
  assert (Binary64.LATTOY L (cl_lat p) = y) by nia.
  split; [nia | assumption].
Qed.
End CentroidTable.

(** C7, amended: on a grid of even size that an [int] holds, for every
    list of stored points with latitude in [-90, 90) and longitude in
    [-180, 180), [find_centroids] returns a table with one entry per cell.
    The entry of cell [(x, y)] is the arithmetic mean of the points the
    loop has assigned to the cell when there is one, and otherwise the
    value of the midpoint macros, which is within [2^-41] degrees of the
    midpoint [(south + 180/L, west + 180/L)] of the cell.  The points
    assigned to a cell are points of the list that lie in the cell or less
    than [2^-40] degrees outside of it, and every point of the list that
    lies at least [2^-40] degrees inside the cell is assigned to it: a
    point on the edge of a cell can be counted with the neighbour.  (The
    sums and the quotient are taken over the reals.) *)
Theorem centroid_table_of_assigned_points (L : Z) (cl : list coordinate) :
  (0 < L < 2 ^ 31)%Z -> Z.even L = true ->
  Forall float_point cl ->
  exists g,
    find_centroids L cl = Some g /\
    Z.of_nat (length g) = ncells L /\
    forall x y, (0 <= x < L)%Z -> (0 <= y < latgranularity L)%Z ->
      let pts := assigned_points L (x + y * L) cl in
      let south := IZR y * (360 / IZR L) - 90 in
      let west := IZR x * (360 / IZR L) - 180 in
      (pts = [] ->
       exists lat lon,
         aget (mk_centroid 0 0) g (x + y * L) = mk_centroid lat lon /\
         Rabs (lat - (south + 180 / IZR L)) <= / 2 ^ 41 /\
         Rabs (lon - (west + 180 / IZR L)) <= / 2 ^ 41) /\
      (pts <> [] ->
       aget (mk_centroid 0 0) g (x + y * L)
       = mk_centroid
           (list_sum (map cl_lat pts) / IZR (Z.of_nat (length pts)))
           (list_sum (map cl_lon pts) / IZR (Z.of_nat (length pts)))) /\
      (forall p, In p pts ->
         In p cl /\
         south - / 2 ^ 40 <= cl_lat p < south + 360 / IZR L + / 2 ^ 40 /\
         west - / 2 ^ 40 <= cl_lon p < west + 360 / IZR L + / 2 ^ 40) /\
      (forall p, In p cl ->
         south + / 2 ^ 40 <= cl_lat p < south + 360 / IZR L - / 2 ^ 40 ->
         west + / 2 ^ 40 <= cl_lon p < west + 360 / IZR L - / 2 ^ 40 ->
         In p pts).
Proof.
  intros HL Hev Hvalid.
  pose proof (Binary64.IZR_L_bounds L HL) as HA.
  destruct (find_centroids_spec L HL Hev cl Hvalid) as (g & Hg & Hlen & Hcells).
  exists g. split; [exact Hg|]. split; [unfold ncells; lia|].
  intros x y Hx Hy pts south west.
  assert (E41 : Binary64.bpow (-41) = / 2 ^ 41)
    by (change (-41)%Z with (- Z.of_nat 41)%Z; apply Binary64.bpow_neg).
  assert (Hlg : (latgranularity L <= L)%Z).
  { pose proof (latgranularity_half L HL Hev) as Hh.
    apply le_IZR. pose proof (latgranularity_nonneg L ltac:(lia)) as H0.
    apply (IZR_le 0) in H0. lra. }
  split; [|split; [|split]].
  - intros Hnone. rewrite (Hcells x y Hx Hy). fold pts. rewrite Hnone.
    exists (Binary64.YTOMIDLAT L y), (Binary64.XTOMIDLON L x).
    split; [reflexivity|].
    pose proof (Binary64.midpoint64_error L HL y 90 ltac:(lia) ltac:(lra))
      as Hy1.
    pose proof (Binary64.midpoint64_error L HL x 180 ltac:(lia) ltac:(lra))
      as Hx1.
    rewrite E41 in Hy1, Hx1. unfold Binary64.midpoint in Hy1, Hx1.
    split.
    + replace (south + 180 / IZR L)
        with ((IZR y + 1 / 2) * (360 / IZR L) - 90)
        by (unfold south; field; lra).
      exact Hy1.
    + replace (west + 180 / IZR L)
        with ((IZR x + 1 / 2) * (360 / IZR L) - 180)
        by (unfold west; field; lra).
      exact Hx1.
  - intros Hsome. rewrite (Hcells x y Hx Hy). fold pts.
    destruct pts as [|p pts']; [now contradiction Hsome | reflexivity].
  - intros p Hp. unfold pts, assigned_points in Hp.
    apply filter_In in Hp. destruct Hp as [Hin Hcell].
    apply Z.eqb_eq in Hcell. split; [exact Hin|].
    assert (Hfp : float_point p)
      by (rewrite Forall_forall in Hvalid; now apply Hvalid).
    destruct (assigned_column_row L HL Hev p x y Hfp Hx ltac:(lia) Hcell)
      as [Ex Ey].
    destruct Hfp as [[Hlat1 Hlat2] [Hlon1 Hlon2]].
    pose proof (Binary64.tick_degrees L HL (cl_lat p) 90 ltac:(lra)) as Dy.
    pose proof (Binary64.tick_degrees L HL (cl_lon p) 180 ltac:(lra)) as Dx.
    change (double_to_int (Binary64.tick L (cl_lat p) 90))
      with (Binary64.LATTOY L (cl_lat p)) in Dy.
    change (double_to_int (Binary64.tick L (cl_lon p) 180))
      with (Binary64.LONTOX L (cl_lon p)) in Dx.
    rewrite Ey in Dy. rewrite Ex in Dx. unfold south, west. lra.
  - intros p Hin Hlat Hlon. unfold pts, assigned_points.
    apply filter_In. split; [exact Hin|]. apply Z.eqb_eq.
    assert (Hfp : float_point p)
      by (rewrite Forall_forall in Hvalid; now apply Hvalid).
    destruct Hfp as [[Hlat1 Hlat2] [Hlon1 Hlon2]].
    unfold south in Hlat. unfold west in Hlon.
    assert (Ey : Binary64.LATTOY L (cl_lat p) = y).
    { apply (Binary64.tick_of_interior L HL (cl_lat p) 90 y);
        [lra | lia | lra]. }
    assert (Ex : Binary64.LONTOX L (cl_lon p) = x).
    { apply (Binary64.tick_of_interior L HL (cl_lon p) 180 x);
        [lra | lia | lra]. }
    now rewrite Ex, Ey.
Qed.

(** C7, amended, on the 5-degree grid with the three points of one
    cell. *)
Lemma centroid_table_of_assigned_points_witness :
  exists g,
    find_centroids 72 [mk_coord 10 20; mk_coord 12 22; mk_coord 11 21]
    = Some g /\
    Z.of_nat (length g) = ncells 72.
Proof.
  destruct (centroid_table_of_assigned_points 72
              [mk_coord 10 20; mk_coord 12 22; mk_coord 11 21])
    as (g & Hg & Hlen & _).
  - lia.
  - reflexivity.
  - repeat constructor; simpl; lra.
  - exists g. split; [exact Hg | exact Hlen].
Defined.

(** C7 as it is written fails on the grid of 26 columns at the single
    point (10, 0).  The point lies in the cell of column 13 and row 7,
    longitude 0 being the western edge of column 13, but the loop counts
    it with column 12: the entry of cell (13, 7), which contains the
    point, is not the mean (10, 0) of its points, and the entry of cell
    (12, 7), which contains no point, is not the midpoint of the cell.
    The executable model yields the same column and row. *)
Lemma centroid_of_edge_point :
  Bits.LONTOX 26 (Bits.of_int 0) = Some 12%Z /\
  Bits.LATTOY 26 (Bits.of_int 10) = Some 7%Z /\
  float_point (mk_coord 10 0) /\
  IZR 7 * (360 / IZR 26) - 90 <= 10 < IZR 7 * (360 / IZR 26) - 90 + 360 / IZR 26 /\
  IZR 13 * (360 / IZR 26) - 180 <= 0
  < IZR 13 * (360 / IZR 26) - 180 + 360 / IZR 26 /\
  exists g,
    find_centroids 26 [mk_coord 10 0] = Some g /\
    aget (mk_centroid 0 0) g (13 + 7 * 26) <> mk_centroid 10 0 /\
    aget (mk_centroid 0 0) g (12 + 7 * 26) = mk_centroid 10 0.
Proof.
  split; [apply Bits.spec_LONTOX_26|]. split; [apply Bits.spec_LATTOY_26|].
  split; [split; simpl; lra|]. split; [lra|]. split; [lra|].
  assert (HL : (0 < 26 < 2 ^ 31)%Z) by lia.
  destruct (find_centroids_spec 26 HL eq_refl [mk_coord 10 0])
    as (g & Hg & _ & Hcells).
  { repeat constructor; simpl; lra. }
  exists g. split; [exact Hg|].
  assert (Ecell : forall c : Z,
             assigned_points 26 c [mk_coord 10 0]
             = if (12 + 7 * 26 =? c)%Z then [mk_coord 10 0] else []).
  { intros c. unfold assigned_points. cbn [filter cl_lat cl_lon].
    now rewrite Binary64.LONTOX_26_0, Binary64.LATTOY_26_10. }
  split.
  - rewrite (Hcells 13%Z 7%Z ltac:(lia) ltac:(cbn; lia)), Ecell.
    change (12 + 7 * 26 =? 13 + 7 * 26)%Z with false. cbv iota.
    intros E. injection E as Elat _.
    pose proof (Binary64.midpoint64_error 26 HL 7 90 ltac:(lia) ltac:(lra))
      as Hm.
    change (Binary64.midpoint64 26 7 90) with (Binary64.YTOMIDLAT 26 7) in Hm.
    rewrite Elat in Hm. unfold Binary64.midpoint in Hm.
    replace (Binary64.bpow (-41)) with (/ 2 ^ 41) in Hm
      by (change (-41)%Z with (- Z.of_nat 41)%Z;
          symmetry; apply Binary64.bpow_neg).
    apply Binary64.Rabs_le_inv in Hm. lra.
  - rewrite (Hcells 12%Z 7%Z ltac:(lia) ltac:(cbn; lia)), Ecell.
    rewrite Z.eqb_refl. unfold mean_point, list_sum.
    cbn [map fold_right length cl_lat cl_lon]. f_equal; simpl; lra.
Qed.

(** ** Global settings *)

(** The process-wide variables the modelled functions read.  The flags are
    only ever 0 or 1 in the program. *)
Record globals : Type := mk_globals {
  g_longranularity : Z;
  g_unk : bool;
  g_nokde : bool;
  g_complement_nb : bool;
  g_total_wordcount : Z;
  g_wordprior : R;
  g_tweetprior : R;
  g_threshold : Z;
  g_sigma : R;
  g_wordtypes : Z
}.

(** ** The document prior built by the trainer *)

(** [geoloc_train_model], from [matrix_init(g_tweetprior)] to
    [matrix_normalize(tweetsmatrix)]. *)
Definition train_tweetsmatrix (fuel : nat) (g : globals)
           (g_tweetcoords_head : list coordinate) : option (list R) :=
  let L := g_longranularity g in
  let tweetsmatrix := matrix_init L (g_tweetprior g) in
  let deposited :=
    if g_nokde g
    then matrix_nokde_from_coords L tweetsmatrix g_tweetcoords_head
    else matrix_kde_from_coords L fuel tweetsmatrix g_tweetcoords_head
                                (g_sigma g) (g_sigma g) 0 in
  match deposited with
  | Some tweetsmatrix => Some (matrix_normalize L tweetsmatrix)
  | None => None
  end.

Lemma for_range_preserves {St : Type} (P : St -> Prop)
      (body : Z -> St -> St) (lo hi : Z) (s : St) :
  P s -> (forall j t, P t -> P (body j t)) -> P (for_range lo hi body s).
Proof.
  intros H0 Hstep. unfold for_range.
  generalize (Z.to_nat (hi - lo)) as n. intros n. revert lo s H0.
  induction n as [|k IH]; intros lo s H0; simpl; auto.
Qed.

Lemma bivariate_gaussian_pdf_pos (x1 x2 sigma1 sigma2 rho mu1 mu2 : R) :
  0 < sigma1 -> 0 < sigma2 -> -1 < rho < 1 ->
  0 < bivariate_gaussian_pdf x1 x2 sigma1 sigma2 rho mu1 mu2.
Proof.
  intros H1 H2 Hr. unfold bivariate_gaussian_pdf. cbv zeta.
  apply Rmult_lt_0_compat; [|apply exp_pos].
  now apply kde_amplitude_pos.
Qed.

Section Prior.
Variable L : Z.
Hypothesis L_big : (2 <= L)%Z.

Local Notation "'N'" := (latgranularity L * L)%Z.

Lemma ncells_pos : (0 < N)%Z.
Proof.
  unfold latgranularity, CInt.div. rewrite Z.quot_div_nonneg by lia.
  assert (1 <= L / 2)%Z by (apply Z.div_le_lower_bound; lia). nia.
Qed.

Lemma matrix_set_all (m : list R) (v : R) :
  Z.of_nat (length m) = N ->
  Z.of_nat (length (matrix_set L m v)) = N /\
  forall c, (0 <= c < N)%Z -> aget 0 (matrix_set L m v) c = v.
Proof.
  intros Hlen. unfold matrix_set.
  destruct (for_range_all_cells 0 (fun _ _ => v) N m Hlen) as [Hl Hc].
  split; [now rewrite Hl | exact Hc].
Qed.

Lemma matrix_init_all (v : R) :
  Z.of_nat (length (matrix_init L v)) = N /\
  forall c, (0 <= c < N)%Z -> aget 0 (matrix_init L v) c = v.
Proof.
  pose proof ncells_pos. unfold matrix_init. apply matrix_set_all.
  rewrite length_alloc. lia.
Qed.

(** An [N]-cell matrix whose entries are all at least [b]. *)
Definition matrix_floor (b : R) (m : list R) : Prop :=
  Z.of_nat (length m) = N /\ forall c, (0 <= c < N)%Z -> b <= aget 0 m c.

Lemma matrix_floor_add (b v : R) (m : list R) (i : Z) :
  0 <= v -> matrix_floor b m -> matrix_floor b (aset m i (aget 0 m i + v)).
Proof.
  intros Hv [Hlen Hb]. split; [now rewrite length_aset|].
  intros c Hc. destruct (Z.eq_dec i c) as [->|Hne].
  - rewrite aget_aset_eq by (apply in_bounds_iff; lia).
    specialize (Hb c Hc). lra.
  - rewrite aget_aset_neq by exact Hne. now apply Hb.
Qed.

Lemma nokde_floor (b : R) (cl : list coordinate) :
  Z.even L = true ->
  Forall valid_point cl ->
  forall m, matrix_floor b m ->
    exists m', matrix_nokde_from_coords L m cl = Some m' /\ matrix_floor b m'.
Proof.
  intros Hev. induction 1 as [|p cl [Hlat Hlon] _ IH]; intros m Hm.
  - exists m. split; auto.
  - pose proof (cell_of_valid_point L ltac:(lia) (cl_lat p) (cl_lon p)
                                    Hev Hlat Hlon) as Hcell.
    cbn [matrix_nokde_from_coords]. cbv zeta.
    rewrite aset_checked_some by (apply in_bounds_iff; destruct Hm; lia).
    apply IH. apply matrix_floor_add; [lra | exact Hm].
Qed.

Lemma kde_deposit_floor (b sigma : R) (r : Z) (cl : list coordinate) :
  0 < sigma ->
  forall m, matrix_floor b m ->
            matrix_floor b (kde_deposit L sigma sigma 0 r m cl).
Proof.
  intros Hs. unfold kde_deposit.
  induction cl as [|p cl IH]; intros m Hm; simpl; auto.
  apply IH. unfold kde_deposit_point.
  apply for_range_preserves; auto. intros y t Ht.
  apply for_range_preserves; auto. intros x u Hu.
  apply matrix_floor_add; auto.
  apply Rlt_le, bivariate_gaussian_pdf_pos; lra.
Qed.

Lemma matrix_normalize_map (m : list R) :
  Z.of_nat (length m) = N ->
  matrix_normalize L m = map (fun v => v / list_sum m) m.
Proof.
  intros Hlen. unfold matrix_normalize.
  rewrite (sum_loop_all m N Hlen).
  destruct (for_range_all_cells 0 (fun _ v => v / list_sum m) N m Hlen)
    as [Hl Hc].
  apply (aget_ext 0).
  - now rewrite Hl, length_map.
  - intros i Hi. rewrite Hl in Hi. rewrite Hc by lia.
    symmetry. apply (aget_map_in (fun v => v / list_sum m)).
    apply in_bounds_iff. lia.
Qed.

Lemma matrix_floor_sum_pos (b : R) (m : list R) :
  0 < b -> matrix_floor b m -> 0 < list_sum m.
Proof.
  intros Hb [Hlen Hfloor]. pose proof ncells_pos as HN.
  assert (H : IZR (Z.of_nat (length m)) * b <= list_sum m).
  { apply list_sum_lower_bound. intros v Hv.
    destruct (In_aget 0 m v Hv) as (c & Hc & <-).
    apply in_bounds_iff in Hc. apply Hfloor. lia. }
  rewrite Hlen in H.
  assert (0 < IZR N) by (apply (IZR_lt 0); lia).
  assert (0 < IZR N * b) by (apply Rmult_lt_0_compat; lra).
  lra.
Qed.

(** Normalising a matrix with a positive floor gives a distribution. *)
Lemma matrix_normalize_distribution (b : R) (m : list R) :
  0 < b -> matrix_floor b m ->
  Z.of_nat (length (matrix_normalize L m)) = N /\
  list_sum (matrix_normalize L m) = 1 /\
  Forall (fun v => 0 < v) (matrix_normalize L m).
Proof.
  intros Hb Hm. pose proof (matrix_floor_sum_pos b m Hb Hm) as Hs.
  destruct Hm as [Hlen Hfloor].
  rewrite (matrix_normalize_map m Hlen). split; [|split].
  - now rewrite length_map.
  - rewrite list_sum_map_div. field. lra.
  - apply Forall_forall. intros v Hv.
    apply in_map_iff in Hv. destruct Hv as (u & <- & Hu).
    destruct (In_aget 0 m u Hu) as (c & Hc & <-).
    apply in_bounds_iff in Hc. specialize (Hfloor c ltac:(lia)).
    apply Rdiv_lt_0_compat; lra.
Qed.
End Prior.

(** C5: on a grid of even size at least 2, with a positive pseudocount
    [g_tweetprior] (1.0 in the program), a positive [g_sigma] and document
    points inside the coordinate ranges, the trainer's construction of the
    document prior ends, by KDE or by plain counting, and the matrix it
    returns has one entry per cell, entries that sum to 1, and only
    strictly positive entries. *)
Theorem document_prior_is_distribution (g : globals)
        (g_tweetcoords_head : list coordinate) :
  (2 <= g_longranularity g)%Z ->
  Z.even (g_longranularity g) = true ->
  0 < g_tweetprior g ->
  0 < g_sigma g ->
  Forall valid_point g_tweetcoords_head ->
  exists tweetsmatrix,
    (exists fuel0, forall fuel, (fuel0 <= fuel)%nat ->
        train_tweetsmatrix fuel g g_tweetcoords_head = Some tweetsmatrix) /\
    Z.of_nat (length tweetsmatrix) = ncells (g_longranularity g) /\
    list_sum tweetsmatrix = 1 /\
    Forall (fun v => 0 < v) tweetsmatrix.
Proof.
  intros HL Hev Hprior Hsigma Hvalid.
  set (L := g_longranularity g) in *.
  assert (Hinit : matrix_floor L (g_tweetprior g)
                               (matrix_init L (g_tweetprior g))).
  { destruct (matrix_init_all L HL (g_tweetprior g)) as [Hl Hc].
    split; auto. intros c Hc'. rewrite Hc by exact Hc'. lra. }
  unfold train_tweetsmatrix. fold L.
  destruct (g_nokde g).
  - destruct (nokde_floor L HL _ _ Hev Hvalid _ Hinit) as (m & Hm & Hfl).
    destruct (matrix_normalize_distribution L HL _ m Hprior Hfl)
      as (Hlen & Hsum & Hpos).
    exists (matrix_normalize L m). split; [|split; [|split]]; auto.
    + exists O. intros fuel _. now rewrite Hm.
    + unfold ncells. lia.
  - destruct (kde_maxradius_least L (g_sigma g) (g_sigma g) 0)
      as (r & Hr & _ & _ & Hfuel); try lra; try lia.
    pose proof (kde_deposit_floor L (g_tweetprior g) (g_sigma g) r
                  g_tweetcoords_head Hsigma _ Hinit) as Hfl.
    destruct (matrix_normalize_distribution L HL _ _ Hprior Hfl)
      as (Hlen & Hsum & Hpos).
    eexists. split; [|split; [|split]]; eauto.
    + exists (S (Z.to_nat r)). intros fuel Hf.
      unfold matrix_kde_from_coords. rewrite Hfuel by lia. reflexivity.
    + unfold ncells. lia.
Qed.

(** C5 with the program's defaults on the 5-degree grid and two documents. *)
Lemma document_prior_is_distribution_witness :
  exists tweetsmatrix,
    (exists fuel0, forall fuel, (fuel0 <= fuel)%nat ->
        train_tweetsmatrix fuel
          (mk_globals 72 false false false 0 (1 / 100) 1 1 3 0)
          [mk_coord 40 (-74); mk_coord 34 (-118)] = Some tweetsmatrix) /\
    Z.of_nat (length tweetsmatrix) = ncells 72 /\
    list_sum tweetsmatrix = 1 /\
    Forall (fun v => 0 < v) tweetsmatrix.
Proof.
  apply (document_prior_is_distribution
           (mk_globals 72 false false false 0 (1 / 100) 1 1 3 0)
           [mk_coord 40 (-74); mk_coord 34 (-118)]); simpl.
  - lia.
  - reflexivity.
  - lra.
  - lra.
  - repeat constructor; simpl; lra.
Defined.

(** ** Word hashes

    [wordhash.h] keeps [(word, value)] pairs in an open-addressing table
    that is rehashed at half occupancy.  The model keeps what the table
    holds, the pairs in insertion order and the [occupancy] counter, and
    gives each operation the effect its prototype documents: [find] returns
    the value stored for the word or [-1], [insert] stores the running
    [occupancy], [set_value] overwrites or adds. *)

Record wordhash : Type := mk_wordhash {
  wh_table : list (string * Z);
  wh_occupancy : Z
}.

Definition wordhash_init : wordhash := mk_wordhash [] 0.

Fixpoint wh_lookup (table : list (string * Z)) (word : string) : option Z :=
  match table with
  | [] => None
  | (w, v) :: rest => if String.eqb w word then Some v else wh_lookup rest word
  end.

(** [-1] = not found. *)
Definition wordhash_find (wh : wordhash) (word : string) : Z :=
  match wh_lookup (wh_table wh) word with
  | Some v => v
  | None => (-1)%Z
  end.

(** The value is the running [occupancy]; the call returns it. *)
Definition wordhash_insert (wh : wordhash) (word : string) : wordhash * Z :=
  (mk_wordhash (wh_table wh ++ [(word, wh_occupancy wh)])
               (wh_occupancy wh + 1)%Z,
   wh_occupancy wh).

Fixpoint wh_update (table : list (string * Z)) (word : string) (value : Z)
  : option (list (string * Z)) :=
  match table with
  | [] => None
  | (w, v) :: rest =>
      if String.eqb w word then Some ((w, value) :: rest)
      else match wh_update rest word value with
           | Some rest' => Some ((w, v) :: rest')
           | None => None
           end
  end.

Definition wordhash_set_value (wh : wordhash) (word : string) (value : Z)
  : wordhash :=
  match wh_update (wh_table wh) word value with
  | Some table => mk_wordhash table (wh_occupancy wh)
  | None => mk_wordhash (wh_table wh ++ [(word, value)])
                        (wh_occupancy wh + 1)%Z
  end.

Definition wordhash_inc_value (wh : wordhash) (word : string) : wordhash :=
  let currvalue := wordhash_find wh word in
  if (currvalue =? -1)%Z then wordhash_set_value wh word 1
  else wordhash_set_value wh word (currvalue + 1)%Z.

(** ** The feature store *)

(** [struct wordinfo] *)
Record wordinfo : Type := mk_wordinfo {
  wi_coordinate_list : list coordinate;
  wi_sparsematrix : option (list (sparsematrix R));
  wi_word : option string;
  wi_weight : R;
  wi_count : Z
}.

(** A record as [calloc] and the [memset] after [realloc] leave it. *)
Definition wordinfo_zero : wordinfo := mk_wordinfo [] None None 0 0.

(** [wc_list], [wc_list_size], [wc_list_max] and [global_wh_train]. *)
Record wordstore : Type := mk_wordstore {
  wc_list : list wordinfo;
  wc_list_size : Z;
  wc_list_max : Z;
  global_wh_train : wordhash
}.

(** The store as [main] sets it up. *)
Definition wordstore_init : wordstore :=
  mk_wordstore (alloc 1024 wordinfo_zero) 1024 0 wordhash_init.

Section Store.
(** The conversion [(float)] applied to a coordinate; nothing is assumed
    about it. *)
Variable to_float : R -> R.

Definition word_coord_add_word (st : wordstore) (word : string)
           (lat lon : R) (storeword : bool) : option wordstore :=
  let found := wordhash_find (global_wh_train st) word in
  let entered :=
    if (found =? -1)%Z then
      let '(wh, wordindex) := wordhash_insert (global_wh_train st) word in
      let new_max := if (wordindex >? wc_list_max st)%Z then wordindex
                     else wc_list_max st in
      let '(list, size) :=
        if (wordindex >=? wc_list_size st)%Z
        then (wc_list st ++ alloc (wc_list_size st) wordinfo_zero,
              (wc_list_size st * 2)%Z)
        else (wc_list st, wc_list_size st) in
      let wi := aget wordinfo_zero list wordindex in
      let wi := mk_wordinfo (wi_coordinate_list wi) None
                            (if storeword then Some word else wi_word wi)
                            (wi_weight wi) (-1) in
      match aset_checked list wordindex wi with
      | Some list' => Some (mk_wordstore list' size new_max wh, wordindex)
      | None => None
      end
    else Some (st, found) in
  match entered with
  | None => None
  | Some (st, wordindex) =>
      let wi := aget wordinfo_zero (wc_list st) wordindex in
      let wi := mk_wordinfo (wi_coordinate_list wi) (wi_sparsematrix wi)
                            (wi_word wi) (wi_weight wi) (wi_count wi + 1) in
      let wi :=
        if negb (Reqb lat 0) || negb (Reqb lon 0)
        then mk_wordinfo (mk_coord (to_float lat) (to_float lon)
                            :: wi_coordinate_list wi)
                         (wi_sparsematrix wi) (wi_word wi) (wi_weight wi)
                         (wi_count wi)
        else wi in
      match aset_checked (wc_list st) wordindex wi with
      | Some list' =>
          Some (mk_wordstore list' (wc_list_size st) (wc_list_max st)
                             (global_wh_train st))
      | None => None
      end
  end.
End Store.

(** The accessors stop the program on an unknown word ([None]).
    [word_coord_get_count] returns the [int] count as a [double], which its
    caller stores in an [int] again. *)
Definition word_coord_get_weight (st : wordstore) (word : string) : option R :=
  let wordindex := wordhash_find (global_wh_train st) word in
  if (wordindex =? -1)%Z then None
  else Some (wi_weight (aget wordinfo_zero (wc_list st) wordindex)).

Definition word_coord_get_count (st : wordstore) (word : string) : option Z :=
  let wordindex := wordhash_find (global_wh_train st) word in
  if (wordindex =? -1)%Z then None
  else Some (wi_count (aget wordinfo_zero (wc_list st) wordindex)).

Definition word_coord_set_weight (st : wordstore) (word : string) (weight : R)
  : option wordstore :=
  let wordindex := wordhash_find (global_wh_train st) word in
  if (wordindex =? -1)%Z then None
  else
    let wi := aget wordinfo_zero (wc_list st) wordindex in
    match aset_checked (wc_list st) wordindex
            (mk_wordinfo (wi_coordinate_list wi) (wi_sparsematrix wi)
                         (wi_word wi) weight (wi_count wi)) with
    | Some list' =>
        Some (mk_wordstore list' (wc_list_size st) (wc_list_max st)
                           (global_wh_train st))
    | None => None
    end.

(** [word_get_matrix]: decode the stored sparse matrix, or build the
    density from the stored points when there is none. *)
Definition word_get_matrix (fuel : nat) (g : globals) (st : wordstore)
           (wordindex : Z) : option (list R) :=
  let L := g_longranularity g in
  let wi := aget wordinfo_zero (wc_list st) wordindex in
  match wi_sparsematrix wi with
  | None =>
      let w := matrix_init L 0 in
      if g_nokde g
      then matrix_nokde_from_coords L w (wi_coordinate_list wi)
      else matrix_kde_from_coords L fuel w (wi_coordinate_list wi)
                                  (g_sigma g) (g_sigma g) 0
  | Some sm => sparsematrix_to_matrix (fun v : R => v) 0 L sm
  end.

(** The retention test of the trainer's loop over the word types:
    [for (j = 0, cl = ...; cl != NULL; cl = cl->next, j++) { }] followed by
    [if (j < g_threshold) continue;]. *)
Definition train_retains (g : globals) (st : wordstore) (i : Z) : bool :=
  let j := Z.of_nat
             (length (wi_coordinate_list
                        (aget wordinfo_zero (wc_list st) i))) in
  negb (j <? g_threshold g)%Z.

(** ** The count field of a feature record *)

(** What [main]'s allocation and [word_coord_add_word] maintain: the array
    has [wc_list_size] records, the indices handed out so far are below the
    hash's [occupancy], and the records from there on are still zeroed. *)
Definition wordstore_wf (st : wordstore) : Prop :=
  (0 < wc_list_size st)%Z /\
  Z.of_nat (length (wc_list st)) = wc_list_size st /\
  (0 <= wh_occupancy (global_wh_train st) <= wc_list_size st)%Z /\
  (forall i, (wh_occupancy (global_wh_train st) <= i)%Z ->
             aget wordinfo_zero (wc_list st) i = wordinfo_zero) /\
  (forall w v, wh_lookup (wh_table (global_wh_train st)) w = Some v ->
               (0 <= v < wh_occupancy (global_wh_train st))%Z).

Lemma wordstore_init_wf : wordstore_wf wordstore_init.
Proof.
  unfold wordstore_wf, wordstore_init. simpl.
  repeat split; try lia; try discriminate.
  intros i Hi. unfold aget.
  destruct (in_bounds _ i); auto. apply nth_repeat.
Qed.

Lemma aget_app_alloc {A : Type} (d : A) (l : list A) (n i : Z) :
  aget d (l ++ alloc n d) i = aget d l i.
Proof.
  unfold aget.
  destruct (in_bounds (l ++ alloc n d) i) eqn:B1;
    destruct (in_bounds l i) eqn:B2; auto.
  - apply in_bounds_iff in B2. apply app_nth1. lia.
  - apply in_bounds_iff in B1.
    assert (~ (0 <= i < Z.of_nat (length l))%Z)
      by (intros C; apply in_bounds_iff in C; congruence).
    rewrite app_nth2 by lia. apply nth_repeat.
  - apply in_bounds_iff in B2.
    assert (~ (0 <= i < Z.of_nat (length (l ++ alloc n d)))%Z)
      by (intros C; apply in_bounds_iff in C; congruence).
    rewrite length_app in *. lia.
Qed.

Lemma wh_lookup_app (table : list (string * Z)) (w word : string) (v : Z) :
  wh_lookup (table ++ [(word, v)]) w
  = match wh_lookup table w with
    | Some u => Some u
    | None => if String.eqb word w then Some v else None
    end.
Proof.
  induction table as [|[w' u] table IH]; simpl; auto.
  destruct (String.eqb w' w); auto.
Qed.

Lemma wordhash_find_absent (st : wordstore) (word : string) :
  wordstore_wf st ->
  wordhash_find (global_wh_train st) word = (-1)%Z ->
  wh_lookup (wh_table (global_wh_train st)) word = None.
Proof.
  intros (_ & _ & _ & _ & Hv) Hf. unfold wordhash_find in Hf.
  destruct (wh_lookup _ word) as [v|] eqn:E; auto.
  specialize (Hv word v E). lia.
Qed.

Section CountField.
Variable to_float : R -> R.

(** A first observation: the record is created at the next free index and
    its count is 0. *)
Lemma add_new_word (st : wordstore) (word : string) (lat lon : R)
      (storeword : bool) :
  wordstore_wf st ->
  wordhash_find (global_wh_train st) word = (-1)%Z ->
  exists st',
    word_coord_add_word to_float st word lat lon storeword = Some st' /\
    wordstore_wf st' /\
    wordhash_find (global_wh_train st') word
    = wh_occupancy (global_wh_train st) /\
    word_coord_get_count st' word = Some 0%Z /\
    wi_coordinate_list
      (aget wordinfo_zero (wc_list st')
            (wordhash_find (global_wh_train st') word))
    = if negb (Reqb lat 0) || negb (Reqb lon 0)
      then [mk_coord (to_float lat) (to_float lon)] else [].
Proof.
  intros Hwf Habs.
  pose proof (wordhash_find_absent st word Hwf Habs) as Hnone.
  destruct Hwf as (Hsz & Hlen & Hocc & Hzero & Hvals).
  set (occ := wh_occupancy (global_wh_train st)) in *.
  unfold word_coord_add_word. rewrite Habs.
  cbn [Z.eqb Pos.eqb wordhash_insert]. fold occ.
  set (grown := if (occ >=? wc_list_size st)%Z
                then (wc_list st ++ alloc (wc_list_size st) wordinfo_zero,
                      (wc_list_size st * 2)%Z)
                else (wc_list st, wc_list_size st)).
  assert (Hg : Z.of_nat (length (fst grown)) = snd grown /\
               (occ < snd grown)%Z /\
               forall i, aget wordinfo_zero (fst grown) i
                         = aget wordinfo_zero (wc_list st) i).
  { unfold grown. destruct (occ >=? wc_list_size st)%Z eqn:E; simpl.
    - apply Z.geb_le in E. rewrite length_app, length_alloc.
      split; [lia|]. split; [lia|]. intros i. apply aget_app_alloc.
    - rewrite Z.geb_leb in E. apply Z.leb_gt in E. auto. }
  destruct grown as [list size]. simpl in Hg.
  destruct Hg as (Hlen' & Hocc' & Hsame).
  assert (Hb : in_bounds list occ = true) by (apply in_bounds_iff; lia).
  eexists. split.
  { rewrite aset_checked_some by exact Hb.
    cbv zeta. cbn [wc_list wc_list_size wc_list_max global_wh_train].
    rewrite aset_checked_some by (rewrite in_bounds_aset; exact Hb).
    rewrite aget_aset_eq by exact Hb.
    rewrite Hsame, (Hzero occ) by lia.
    cbn [wi_coordinate_list wi_sparsematrix wi_word wi_weight wi_count
         wordinfo_zero].
    reflexivity. }
  assert (Hfind : wh_lookup (wh_table (global_wh_train st) ++ [(word, occ)])
                            word = Some occ).
  { rewrite wh_lookup_app, Hnone. now rewrite String.eqb_refl. }
  split; [|split; [|split]].
  - unfold wordstore_wf.
    cbn [wc_list wc_list_size wc_list_max global_wh_train wh_occupancy
         wh_table].
    repeat split; try lia.
    + now rewrite !length_aset.
    + intros i Hi. rewrite !aget_aset_neq by lia.
      rewrite Hsame. apply Hzero. lia.
    + rewrite wh_lookup_app in H.
      destruct (wh_lookup (wh_table (global_wh_train st)) w) eqn:E.
      * inversion H; subst. specialize (Hvals _ _ E). lia.
      * destruct (String.eqb word w); inversion H; lia.
    + rewrite wh_lookup_app in H.
      destruct (wh_lookup (wh_table (global_wh_train st)) w) eqn:E.
      * inversion H; subst. specialize (Hvals _ _ E). fold occ in Hvals. lia.
      * destruct (String.eqb word w); inversion H; lia.
  - unfold wordhash_find. cbn [global_wh_train wh_table]. now rewrite Hfind.
  - unfold word_coord_get_count, wordhash_find.
    cbn [global_wh_train wh_table wc_list]. rewrite Hfind.
    replace (occ =? -1)%Z with false by (symmetry; apply Z.eqb_neq; lia).
    rewrite aget_aset_eq by (rewrite in_bounds_aset; exact Hb).
    destruct (negb (Reqb lat 0) || negb (Reqb lon 0)); reflexivity.
  - unfold wordhash_find. cbn [global_wh_train wh_table wc_list].
    rewrite Hfind.
    rewrite aget_aset_eq by (rewrite in_bounds_aset; exact Hb).
    destruct (negb (Reqb lat 0) || negb (Reqb lon 0)); reflexivity.
Qed.

(** A later observation of a word already in the store adds one to its
    count and, unless the coordinates are (0, 0), one point to its list. *)
Lemma add_known_word (st : wordstore) (word : string) (lat lon : R)
      (storeword : bool) :
  wordstore_wf st ->
  wordhash_find (global_wh_train st) word <> (-1)%Z ->
  exists st',
    word_coord_add_word to_float st word lat lon storeword = Some st' /\
    wordstore_wf st' /\
    global_wh_train st' = global_wh_train st /\
    (forall n, word_coord_get_count st word = Some n ->
               word_coord_get_count st' word = Some (n + 1)%Z) /\
    wi_coordinate_list
      (aget wordinfo_zero (wc_list st')
            (wordhash_find (global_wh_train st) word))
    = (if negb (Reqb lat 0) || negb (Reqb lon 0)
       then [mk_coord (to_float lat) (to_float lon)] else [])
      ++ wi_coordinate_list
           (aget wordinfo_zero (wc_list st)
                 (wordhash_find (global_wh_train st) word)).
Proof.
  intros Hwf Hfound.
  destruct Hwf as (Hsz & Hlen & Hocc & Hzero & Hvals).
  assert (Hrange : (0 <= wordhash_find (global_wh_train st) word
                    < wh_occupancy (global_wh_train st))%Z).
  { unfold wordhash_find in *.
    destruct (wh_lookup _ word) as [v|] eqn:E; [|congruence].
    exact (Hvals _ _ E). }
  set (i := wordhash_find (global_wh_train st) word) in *.
  unfold word_coord_add_word. fold i.
  replace (i =? -1)%Z with false by (symmetry; now apply Z.eqb_neq).
  cbv zeta.
  assert (Hb : in_bounds (wc_list st) i = true) by (apply in_bounds_iff; lia).
  eexists. split; [rewrite aset_checked_some by exact Hb; reflexivity|].
  split; [|split; [|split]].
  - unfold wordstore_wf.
    cbn [wc_list wc_list_size wc_list_max global_wh_train].
    repeat split; try lia.
    + now rewrite length_aset.
    + intros j Hj. rewrite aget_aset_neq by lia. now apply Hzero.
    + specialize (Hvals _ _ H). lia.
    + specialize (Hvals _ _ H). lia.
  - reflexivity.
  - intros n Hn. unfold word_coord_get_count in *.
    cbn [global_wh_train wc_list]. fold i in Hn |- *.
    replace (i =? -1)%Z with false in *
      by (symmetry; now apply Z.eqb_neq).
    rewrite aget_aset_eq by exact Hb. inversion Hn; subst.
    destruct (negb (Reqb lat 0) || negb (Reqb lon 0)); reflexivity.
  - cbn [wc_list]. rewrite aget_aset_eq by exact Hb.
    destruct (negb (Reqb lat 0) || negb (Reqb lon 0)); reflexivity.
Qed.
End CountField.

(** C8: in a store as the program maintains it, the first
    [word_coord_add_word] of a feature creates its record and leaves its
    count at 0, one less than the one observation made, and every further
    observation adds one; the trainer keeps a feature exactly when the
    length of its point list reaches [g_threshold], whatever the count
    field holds, so that a feature seen once (count 0) with a point is kept
    at the default threshold 1. *)
Theorem count_starts_below_observations (to_float : R -> R) :
  (forall st word lat lon storeword,
      wordstore_wf st ->
      wordhash_find (global_wh_train st) word = (-1)%Z ->
      exists st',
        word_coord_add_word to_float st word lat lon storeword = Some st' /\
        wordstore_wf st' /\
        word_coord_get_count st' word = Some 0%Z /\
        (forall g, g_threshold g = 1%Z ->
                   negb (Reqb lat 0) || negb (Reqb lon 0) = true ->
                   train_retains g st'
                     (wordhash_find (global_wh_train st') word) = true)) /\
  (forall st word lat lon storeword n,
      wordstore_wf st ->
      word_coord_get_count st word = Some n ->
      exists st',
        word_coord_add_word to_float st word lat lon storeword = Some st' /\
        wordstore_wf st' /\
        word_coord_get_count st' word = Some (n + 1)%Z) /\
  (forall g st i,
      train_retains g st i = true
      <-> (g_threshold g
           <= Z.of_nat (length (wi_coordinate_list
                                  (aget wordinfo_zero (wc_list st) i))))%Z).
Proof.
  split; [|split].
  - intros st word lat lon storeword Hwf Habs.
    destruct (add_new_word to_float st word lat lon storeword Hwf Habs)
      as (st' & Hadd & Hwf' & _ & Hcount & Hlist).
    exists st'. split; [exact Hadd|]. split; [exact Hwf'|].
    split; [exact Hcount|].
    intros g Hthr Hnz. unfold train_retains.
    rewrite Hlist, Hnz, Hthr. reflexivity.
  - intros st word lat lon storeword n Hwf Hn.
    assert (Hfound : wordhash_find (global_wh_train st) word <> (-1)%Z).
    { unfold word_coord_get_count in Hn. intros E. rewrite E in Hn.
      discriminate Hn. }
    destruct (add_known_word to_float st word lat lon storeword Hwf Hfound)
      as (st' & Hadd & Hwf' & _ & Hcount & _).
    exists st'. split; [exact Hadd|]. split; [exact Hwf'|].
    now apply Hcount.
  - intros g st i. unfold train_retains.
    rewrite negb_true_iff, Z.ltb_ge. reflexivity.
Qed.

(** C8 on the store [main] allocates: the first observation of a word. *)
Lemma count_starts_below_observations_witness :
  exists st',
    word_coord_add_word (fun v => v) wordstore_init "alpha"%string 40 (-74)
                        true
    = Some st' /\
    wordstore_wf st' /\
    word_coord_get_count st' "alpha"%string = Some 0%Z /\
    (forall g, g_threshold g = 1%Z ->
               negb (Reqb 40 0) || negb (Reqb (-74) 0) = true ->
               train_retains g st'
                 (wordhash_find (global_wh_train st') "alpha"%string) = true).
Proof.
  apply (proj1 (count_starts_below_observations (fun v => v))
               wordstore_init "alpha"%string 40 (-74) true).
  - exact wordstore_init_wf.
  - reflexivity.
Defined.

(** ** The classifiers *)

(** The locals of [tweet_classify_naivebayes] that are assigned only in the
    branch for a word found in the model.  Their values at function entry
    are whatever the stack holds. *)
Record nb_locals : Type := mk_nb_locals {
  feature_weight : R;
  wordcount : Z
}.

(** [(double)g_unk] *)
Definition unk_double (g : globals) : R := if g_unk g then 1 else 0.

Section Classifiers.
Variable fuel : nat.
Variable g : globals.
Variable st : wordstore.

Local Notation "'L'" := (g_longranularity g).
Local Notation "'N'" := (g_longranularity g * latgranularity (g_longranularity g))%Z.

(** The [if / else if / else] that opens the loop over the words.  The
    outer [None] is a stop of the program inside an accessor; [Some (None,
    _)] is the [continue] of the last branch. *)
Definition nb_lookup (w : string) (loc : nb_locals)
  : option (option (list R) * nb_locals) :=
  let wordindex := wordhash_find (global_wh_train st) w in
  if negb (wordindex =? -1)%Z then
    match word_get_matrix fuel g st wordindex,
          word_coord_get_weight st w,
          word_coord_get_count st w with
    | Some tempwordmatrix, Some weight, Some count =>
        Some (Some tempwordmatrix, mk_nb_locals weight count)
    | _, _, _ => None
    end
  else if g_unk g then
    Some (Some (matrix_init L 0), loc)
  else
    Some (None, loc).

(** The shortcut test [tweetsmatrix[c] == c_min && resultmatrix == NULL]. *)
Definition skip_cell (tweetsmatrix : list R) (c_min : R)
           (resultmatrix_null : bool) (c : Z) : bool :=
  Reqb (aget 0 tweetsmatrix c) c_min && resultmatrix_null.

(** The loop over the cells for one admitted word. *)
Definition nb_score_word (tweetsmatrix wordmatrix : list R)
           (resultmatrix_null : bool) (c_min : R)
           (tempwordmatrix : list R) (loc : nb_locals)
           (totalmatrix : list R) : list R :=
  for_range 0 N
    (fun c totalmatrix =>
       if skip_cell tweetsmatrix c_min resultmatrix_null c then totalmatrix
       else if negb (g_complement_nb g) then
         let p := aget 0 tempwordmatrix c + g_wordprior g in
         let c_iw := ln (aget 0 wordmatrix c
                         + g_wordprior g
                           * (IZR (g_wordtypes g) + 1 + unk_double g)) in
         let p := ln p - c_iw in
         aset totalmatrix c (aget 0 totalmatrix c + p)
       else
         let p := IZR (wordcount loc) - aget 0 tempwordmatrix c
                  + g_wordprior g in
         let c_iw := ln (IZR (g_total_wordcount g) - aget 0 wordmatrix c
                         + g_wordprior g
                           * (IZR (g_wordtypes g) + 1 + unk_double g)) in
         let p := ln p - c_iw in
         aset totalmatrix c (aget 0 totalmatrix c - p))
    totalmatrix.

(** [for (w = words, i = 0; *w != NULL; w++)] *)
Fixpoint nb_words_loop (tweetsmatrix wordmatrix : list R)
         (resultmatrix_null : bool) (c_min : R) (words : list string)
         (totalmatrix : list R) (loc : nb_locals)
  : option (list R * nb_locals) :=
  match words with
  | [] => Some (totalmatrix, loc)
  | w :: rest =>
      match nb_lookup w loc with
      | None => None
      | Some (None, loc') =>
          nb_words_loop tweetsmatrix wordmatrix resultmatrix_null c_min rest
                        totalmatrix loc'
      | Some (Some tempwordmatrix, loc') =>
          if Reqb (feature_weight loc') 0 then
            nb_words_loop tweetsmatrix wordmatrix resultmatrix_null c_min rest
                          totalmatrix loc'
          else
            nb_words_loop tweetsmatrix wordmatrix resultmatrix_null c_min rest
                          (nb_score_word tweetsmatrix wordmatrix
                                         resultmatrix_null c_min
                                         tempwordmatrix loc' totalmatrix)
                          loc'
      end
  end.

(** The minimum of the prior, started at 100000. *)
Definition nb_c_min (tweetsmatrix : list R) : R :=
  for_range 0 N
    (fun c c_min =>
       if Rltb (aget 0 tweetsmatrix c) c_min then aget 0 tweetsmatrix c
       else c_min)
    100000.

(** The final loop: [(p_max, maxindex)] from [(-DBL_MAX, 0)]. *)
Definition nb_argmax (tweetsmatrix : list R) (resultmatrix_null : bool)
           (c_min : R) (totalmatrix : list R) : R * Z :=
  for_range 0 N
    (fun c pm =>
       if skip_cell tweetsmatrix c_min resultmatrix_null c then pm
       else if Rltb (fst pm) (aget 0 totalmatrix c)
            then (aget 0 totalmatrix c, c)
            else pm)
    (- DBL_MAX, 0%Z).

Definition is_null {A : Type} (p : option A) : bool :=
  match p with Some _ => false | None => true end.

(** [tweet_classify_naivebayes]; [junk] holds the entry values of the
    unassigned locals.  The result is [maxindex] and the contents of
    [resultmatrix] on return.  (The counter [i] of the C loop is never
    read.) *)
Definition tweet_classify_naivebayes (junk : nb_locals) (words : list string)
           (tweetsmatrix wordmatrix : list R)
           (resultmatrix : option (list R)) : option (Z * option (list R)) :=
  let c_min := nb_c_min tweetsmatrix in
  let totalmatrix := matrix_copy L tweetsmatrix in
  let totalmatrix :=
    for_range 0 N
      (fun c totalmatrix => aset totalmatrix c (ln (aget 0 totalmatrix c)))
      totalmatrix in
  match nb_words_loop tweetsmatrix wordmatrix (is_null resultmatrix) c_min
                      words totalmatrix junk with
  | None => None
  | Some (totalmatrix, _) =>
      let maxindex :=
        snd (nb_argmax tweetsmatrix (is_null resultmatrix) c_min
                       totalmatrix) in
      Some (maxindex,
            match resultmatrix with
            | Some resultmatrix =>
                Some (for_range 0 N
                        (fun c resultmatrix =>
                           aset resultmatrix c (aget 0 totalmatrix c))
                        resultmatrix)
            | None => None
            end)
  end.

(** *** Kullback-Leibler *)

(** The loop that fills [uniqwords], [wordindices] and [seenwordhash]. *)
Fixpoint kl_collect (words : list string)
         (acc : list string * list Z * wordhash)
  : list string * list Z * wordhash :=
  match words with
  | [] => acc
  | w :: rest =>
      let '(uniqwords, wordindices, seenwordhash) := acc in
      let wordindex := wordhash_find (global_wh_train st) w in
      if negb (wordindex =? -1)%Z then
        let '(uniqwords, wordindices) :=
          if (wordhash_find seenwordhash w =? -1)%Z
          then (uniqwords ++ [w], wordindices ++ [wordindex])
          else (uniqwords, wordindices) in
        kl_collect rest
                   (uniqwords, wordindices, wordhash_inc_value seenwordhash w)
      else kl_collect rest acc
  end.

(** The loop over the unique known words, each with its [seencounts]
    entry. *)
Fixpoint kl_words_loop (tweetsmatrix wordmatrix : list R)
         (resultmatrix_null : bool) (c_min : R) (knownwords : Z)
         (items : list (Z * Z)) (totalmatrix : list R) : option (list R) :=
  match items with
  | [] => Some totalmatrix
  | (wordindex, seencount) :: rest =>
      match word_get_matrix fuel g st wordindex with
      | None => None
      | Some tempwordmatrix =>
          kl_words_loop tweetsmatrix wordmatrix resultmatrix_null c_min
            knownwords rest
            (for_range 0 N
               (fun c totalmatrix =>
                  if skip_cell tweetsmatrix c_min resultmatrix_null c
                  then totalmatrix
                  else
                    let c_iw := aget 0 wordmatrix c
                                + g_wordprior g
                                  * (IZR (g_wordtypes g) + 1 + unk_double g) in
                    let p := IZR seencount
                             * ln (c_iw * IZR seencount
                                   / (IZR knownwords
                                      * (aget 0 tempwordmatrix c
                                         + g_wordprior g)))
                             / IZR knownwords in
                    aset totalmatrix c (aget 0 totalmatrix c + p))
               totalmatrix)
      end
  end.

Definition tweet_classify_kullbackleibler (words : list string)
           (tweetsmatrix wordmatrix : list R)
           (resultmatrix : option (list R)) : option (Z * option (list R)) :=
  let '(uniqwords, wordindices, seenwordhash) :=
    kl_collect words ([], [], wordhash_init) in
  let knownwords := Z.of_nat (length uniqwords) in
  let seencounts := map (wordhash_find seenwordhash) uniqwords in
  let c_min :=
    for_range 0 N
      (fun c c_min =>
         if Rltb (aget 0 tweetsmatrix c) c_min then aget 0 tweetsmatrix c
         else c_min)
      DBL_MAX in
  match kl_words_loop tweetsmatrix wordmatrix (is_null resultmatrix) c_min
                      knownwords (combine wordindices seencounts)
                      (matrix_init L 0) with
  | None => None
  | Some totalmatrix =>
      let minindex :=
        snd (for_range 0 N
               (fun c pm =>
                  if skip_cell tweetsmatrix c_min (is_null resultmatrix) c
                  then pm
                  else if Rltb (aget 0 totalmatrix c) (fst pm)
                       then (aget 0 totalmatrix c, c)
                       else pm)
               (DBL_MAX, 0%Z)) in
      Some (minindex,
            match resultmatrix with
            | Some resultmatrix =>
                Some (for_range 0 N
                        (fun c resultmatrix =>
                           aset resultmatrix c (- aget 0 totalmatrix c))
                        resultmatrix)
            | None => None
            end)
  end.
End Classifiers.

(** ** Facts about the dense-matrix helpers, for any grid size *)

Lemma ncells_comm (L : Z) : (L * latgranularity L = latgranularity L * L)%Z.
Proof. apply Z.mul_comm. Qed.

Lemma matrix_init_alloc (L : Z) (v : R) :
  matrix_init L v = alloc (latgranularity L * L) v.
Proof.
  unfold matrix_init, matrix_set.
  destruct (Z_le_gt_dec (latgranularity L * L) 0) as [Hle|Hgt].
  - rewrite for_range_empty by lia. unfold alloc.
    now replace (Z.to_nat (latgranularity L * L)) with O by lia.
  - destruct (for_range_all_cells 0 (fun _ _ => v) (latgranularity L * L)
                (alloc (latgranularity L * L) 0)) as [Hl Hc].
    { rewrite length_alloc. lia. }
    apply (aget_ext 0).
    + now rewrite Hl, !length_alloc.
    + intros i Hi. rewrite Hl, length_alloc in Hi.
      rewrite Hc, aget_alloc by lia. reflexivity.
Qed.

Lemma matrix_copy_cells (L : Z) (matrix1 : list R) :
  (0 <= latgranularity L * L)%Z ->
  Z.of_nat (length (matrix_copy L matrix1)) = (latgranularity L * L)%Z /\
  forall c, (0 <= c < latgranularity L * L)%Z ->
            aget 0 (matrix_copy L matrix1) c = aget 0 matrix1 c.
Proof.
  intros HN. unfold matrix_copy. rewrite matrix_init_alloc.
  destruct (for_range_all_cells 0 (fun c _ => aget 0 matrix1 c)
              (latgranularity L * L) (alloc (latgranularity L * L) 0))
    as [Hl Hc].
  { rewrite length_alloc. lia. }
  split; [rewrite Hl, length_alloc; lia | exact Hc].
Qed.

(** ** What the Naive Bayes classifier computes *)

Section NaiveBayes.
Variable fuel : nat.
Variable g : globals.
Variable st : wordstore.
Variables tweetsmatrix wordmatrix : list R.
Variable resultmatrix_null : bool.
Variable c_min : R.

Local Notation "'L'" := (g_longranularity g).
Local Notation "'N'" := (g_longranularity g * latgranularity (g_longranularity g))%Z.

(** The word is in the model. *)
Definition known_word (w : string) : bool :=
  negb (wordhash_find (global_wh_train st) w =? -1)%Z.

(** The weight stored for a word of the model. *)
Definition stored_weight (w : string) : R :=
  wi_weight (aget wordinfo_zero (wc_list st)
                  (wordhash_find (global_wh_train st) w)).

(** The density matrix of a query feature: the matrix [word_get_matrix]
    delivers for a word of the model, all zeros for any other word. *)
Definition feature_density (w : string) : list R :=
  if known_word w then
    match word_get_matrix fuel g st (wordhash_find (global_wh_train st) w) with
    | Some m => m
    | None => []
    end
  else alloc (latgranularity L * L) 0.

(** The per-feature term of the score at cell [c]. *)
Definition nb_term (m_f : list R) (c : Z) : R :=
  ln (aget 0 m_f c + g_wordprior g)
  - ln (aget 0 wordmatrix c
        + g_wordprior g * (IZR (g_wordtypes g) + 1 + unk_double g)).

(** The features of the query that enter the sum: those of the model with
    a nonzero weight, and, in unk mode, those outside the model. *)
Definition scored_features (words : list string) : list string :=
  filter (fun w => if known_word w then negb (Reqb (stored_weight w) 0)
                   else g_unk g)
         words.

(** The score of the specification:
    [log P_c[c] + sum_f (log (m_f[c] + wordprior)
                         - log (M_w[c] + wordprior * (|W| + 1 + 1_unk)))]. *)
Definition nb_score (words : list string) (c : Z) : R :=
  ln (aget 0 tweetsmatrix c)
  + list_sum (map (fun w => nb_term (feature_density w) c)
                  (scored_features words)).

Hypothesis plain_nb : g_complement_nb g = false.

Lemma nb_score_word_cells (tempwordmatrix : list R) (loc : nb_locals)
      (totalmatrix : list R) :
  Z.of_nat (length totalmatrix) = N ->
  Z.of_nat (length (nb_score_word g tweetsmatrix wordmatrix resultmatrix_null
                                  c_min tempwordmatrix loc totalmatrix)) = N /\
  forall c, (0 <= c < N)%Z ->
    aget 0 (nb_score_word g tweetsmatrix wordmatrix resultmatrix_null c_min
                          tempwordmatrix loc totalmatrix) c
    = if skip_cell tweetsmatrix c_min resultmatrix_null c
      then aget 0 totalmatrix c
      else aget 0 totalmatrix c + nb_term tempwordmatrix c.
Proof.
  intros Hlen. unfold nb_score_word. rewrite plain_nb. cbn [negb].
  rewrite (for_range_ext _
            (fun c m => aset m c
               ((fun c v => if skip_cell tweetsmatrix c_min resultmatrix_null c
                            then v else v + nb_term tempwordmatrix c)
                  c (aget 0 m c)))).
  - destruct (for_range_all_cells 0
                (fun c v => if skip_cell tweetsmatrix c_min resultmatrix_null c
                            then v else v + nb_term tempwordmatrix c)
                N totalmatrix Hlen) as [Hl Hc].
    split; [now rewrite Hl | exact Hc].
  - intros j t. cbv beta.
    destruct (skip_cell tweetsmatrix c_min resultmatrix_null j).
    + now rewrite aset_same.
    + reflexivity.
Qed.

(** The state of the stale-weight test allows the theorem to speak about
    unk mode: the weight variable is nonzero whenever an unknown word is
    met. *)
Definition weight_settled (words : list string) (loc : nb_locals) : Prop :=
  g_unk g = true ->
  match words with
  | [] => True
  | w :: _ => known_word w = true \/ feature_weight loc <> 0
  end /\
  forall w, In w words -> known_word w = true -> stored_weight w <> 0.

Lemma nb_lookup_known (w : string) (loc : nb_locals) (m : list R) :
  known_word w = true ->
  word_get_matrix fuel g st (wordhash_find (global_wh_train st) w) = Some m ->
  nb_lookup fuel g st w loc
  = Some (Some m,
          mk_nb_locals (stored_weight w)
            (wi_count (aget wordinfo_zero (wc_list st)
                            (wordhash_find (global_wh_train st) w)))).
Proof.
  intros Hk Hm. unfold nb_lookup. unfold known_word in Hk. rewrite Hk, Hm.
  unfold word_coord_get_weight, word_coord_get_count.
  apply negb_true_iff in Hk. rewrite Hk. reflexivity.
Qed.

Lemma nb_lookup_unknown (w : string) (loc : nb_locals) :
  known_word w = false ->
  nb_lookup fuel g st w loc
  = if g_unk g then Some (Some (matrix_init L 0), loc) else Some (None, loc).
Proof.
  intros Hk. unfold nb_lookup. unfold known_word in Hk. now rewrite Hk.
Qed.

Lemma nb_words_loop_cells (words : list string) :
  (forall w, In w words -> known_word w = true ->
             exists m, word_get_matrix fuel g st
                         (wordhash_find (global_wh_train st) w) = Some m) ->
  forall (totalmatrix : list R) (loc : nb_locals),
    Z.of_nat (length totalmatrix) = N ->
    weight_settled words loc ->
    exists totalmatrix' loc',
      nb_words_loop fuel g st tweetsmatrix wordmatrix resultmatrix_null c_min
                    words totalmatrix loc = Some (totalmatrix', loc') /\
      Z.of_nat (length totalmatrix') = N /\
      forall c, (0 <= c < N)%Z ->
        aget 0 totalmatrix' c
        = if skip_cell tweetsmatrix c_min resultmatrix_null c
          then aget 0 totalmatrix c
          else aget 0 totalmatrix c
               + list_sum (map (fun w => nb_term (feature_density w) c)
                               (scored_features words)).
Proof.
  induction words as [|w words IH]; intros Hload totalmatrix loc Hlen Hset.
  - exists totalmatrix, loc. split; [reflexivity|]. split; [exact Hlen|].
    intros c Hc. unfold list_sum. simpl.
    destruct (skip_cell _ _ _ c); lra.
  - assert (Hload' : forall w', In w' words -> known_word w' = true ->
              exists m, word_get_matrix fuel g st
                          (wordhash_find (global_wh_train st) w') = Some m)
      by (intros w' Hin; apply Hload; now right).
    cbn [nb_words_loop scored_features filter].
    destruct (known_word w) eqn:Hk.
    + destruct (Hload w (or_introl eq_refl) Hk) as [m Hm].
      rewrite (nb_lookup_known w loc m Hk Hm). cbn [feature_weight].
      assert (Hset' : weight_settled words
                 (mk_nb_locals (stored_weight w)
                    (wi_count (aget wordinfo_zero (wc_list st)
                       (wordhash_find (global_wh_train st) w))))).
      { intros Hunk. destruct (Hset Hunk) as [_ Hw]. split.
        - destruct words; auto. right. cbn [feature_weight].
          apply Hw; [now left | exact Hk].
        - intros w' Hin. apply Hw. now right. }
      destruct (Reqb (stored_weight w) 0) eqn:Ew; cbn [negb].
      * apply IH; auto.
      * destruct (nb_score_word_cells m
                    (mk_nb_locals (stored_weight w)
                       (wi_count (aget wordinfo_zero (wc_list st)
                          (wordhash_find (global_wh_train st) w))))
                    totalmatrix Hlen) as [Hl1 Hc1].
        destruct (IH Hload' _ _ Hl1 Hset')
          as (t' & l' & Hrun & Hl' & Hc').
        exists t', l'. split; [exact Hrun|]. split; [exact Hl'|].
        intros c Hc. rewrite (Hc' c Hc), (Hc1 c Hc).
        cbn [map]. unfold list_sum. cbn [fold_right].
        unfold feature_density at 2. rewrite Hk, Hm.
        destruct (skip_cell _ _ _ c); [reflexivity|].
        unfold scored_features. ring.
    + rewrite (nb_lookup_unknown w loc Hk).
      destruct (g_unk g) eqn:Hunk.
      * destruct (Hset Hunk) as [[Hhead|Hhead] Hw]; [congruence|].
        rewrite (Reqb_false _ _ Hhead).
        assert (Hset' : weight_settled words loc).
        { intros _. split.
          - destruct words; auto.
          - intros w' Hin. apply Hw. now right. }
        destruct (nb_score_word_cells (matrix_init L 0) loc totalmatrix Hlen)
          as [Hl1 Hc1].
        destruct (IH Hload' _ _ Hl1 Hset') as (t' & l' & Hrun & Hl' & Hc').
        exists t', l'. split; [exact Hrun|]. split; [exact Hl'|].
        intros c Hc. rewrite (Hc' c Hc), (Hc1 c Hc).
        cbn [map]. unfold list_sum. cbn [fold_right].
        unfold feature_density at 2. rewrite Hk, matrix_init_alloc.
        destruct (skip_cell _ _ _ c); [reflexivity|].
        unfold scored_features. rewrite Hunk. ring.
      * assert (Hset' : weight_settled words loc)
          by (intros Hu; rewrite Hunk in Hu; discriminate Hu).
        destruct (IH Hload' totalmatrix loc Hlen Hset')
          as (t' & l' & Hrun & Hl' & Hc').
        exists t', l'. split; [exact Hrun|]. split; [exact Hl'|].
        intros c Hc. rewrite (Hc' c Hc).
        unfold scored_features. rewrite Hunk. reflexivity.
Qed.
End NaiveBayes.

Section ArgMax.
Variable g : globals.
Variable tweetsmatrix : list R.
Variable resultmatrix_null : bool.
Variable c_min : R.
Variable totalmatrix : list R.

Local Notation "'N'" := (g_longranularity g * latgranularity (g_longranularity g))%Z.
Local Notation "'skip'" := (skip_cell tweetsmatrix c_min resultmatrix_null).

(** The state of the final loop after the cells below [j]. *)
Definition argmax_inv (j : Z) (pm : R * Z) : Prop :=
  ((forall c, (0 <= c < j)%Z -> skip c = false ->
              aget 0 totalmatrix c <= - DBL_MAX) /\
   pm = (- DBL_MAX, 0%Z)) \/
  ((0 <= snd pm < j)%Z /\
   skip (snd pm) = false /\
   fst pm = aget 0 totalmatrix (snd pm) /\
   - DBL_MAX < fst pm /\
   (forall c, (0 <= c < j)%Z -> skip c = false ->
              aget 0 totalmatrix c <= fst pm) /\
   (forall c, (0 <= c < snd pm)%Z -> skip c = false ->
              aget 0 totalmatrix c < fst pm)).

Lemma nb_argmax_spec :
  (0 <= N)%Z ->
  argmax_inv N (nb_argmax g tweetsmatrix resultmatrix_null c_min totalmatrix).
Proof.
  intros HN. unfold nb_argmax.
  apply (for_range_invariant argmax_inv); auto.
  - left. split; auto. intros c Hc. lia.
  - intros j pm Hj Hinv.
    destruct (skip j) eqn:Hskip.
    + destruct Hinv as [[Hlow Hpm]|(Hr & Hs & Hf & Hbig & Hle & Hlt)].
      * left. split; auto. intros c Hc Hsc.
        destruct (Z.eq_dec c j) as [->|]; [congruence|]. apply Hlow; auto; lia.
      * right. repeat split; auto; try lia.
        intros c Hc Hsc.
        destruct (Z.eq_dec c j) as [->|]; [congruence|]. apply Hle; auto; lia.
    + destruct (Rlt_dec (fst pm) (aget 0 totalmatrix j)) as [Hgt|Hngt].
      * rewrite (Rltb_true _ _ Hgt). right. cbn [fst snd].
        assert (Hbig : - DBL_MAX < aget 0 totalmatrix j).
        { destruct Hinv as [[_ ->]|(_ & _ & _ & Hb & _)];
            cbn [fst] in *; lra. }
        repeat split; auto; try lia; try lra.
        -- intros c Hc Hsc. destruct (Z.eq_dec c j) as [->|]; [lra|].
           destruct Hinv as [[Hlow _]|(_ & _ & _ & _ & Hle & _)].
           ++ specialize (Hlow c ltac:(lia) Hsc). lra.
           ++ specialize (Hle c ltac:(lia) Hsc). lra.
        -- intros c Hc Hsc.
           destruct Hinv as [[Hlow _]|(_ & _ & _ & _ & Hle & _)].
           ++ specialize (Hlow c ltac:(lia) Hsc). lra.
           ++ specialize (Hle c ltac:(lia) Hsc). lra.
      * rewrite (Rltb_false _ _ (Rnot_lt_le _ _ Hngt)).
        apply Rnot_lt_le in Hngt.
        destruct Hinv as [[Hlow Hpm]|(Hr & Hs & Hf & Hbig & Hle & Hlt)].
        -- left. split; auto. intros c Hc Hsc.
           destruct (Z.eq_dec c j) as [->|].
           ++ subst pm. cbn [fst] in Hngt. exact Hngt.
           ++ apply Hlow; auto; lia.
        -- right. repeat split; auto; try lia.
           intros c Hc Hsc. destruct (Z.eq_dec c j) as [->|]; [exact Hngt|].
           apply Hle; auto; lia.
Qed.

End ArgMax.


(** Every matrix the query needs can be produced. *)
Definition query_loads (fuel : nat) (g : globals) (st : wordstore)
           (words : list string) : Prop :=
  forall w, In w words -> known_word st w = true ->
    exists m, word_get_matrix fuel g st
                (wordhash_find (global_wh_train st) w) = Some m.

Section NaiveBayesRun.
Variable fuel : nat.
Variable g : globals.
Variable st : wordstore.
Variable junk : nb_locals.
Variable words : list string.
Variables tweetsmatrix wordmatrix : list R.
Variable resultmatrix : option (list R).

Local Notation "'L'" := (g_longranularity g).
Local Notation "'N'" := (g_longranularity g * latgranularity (g_longranularity g))%Z.
Local Notation "'skip'" :=
  (skip_cell tweetsmatrix (nb_c_min g tweetsmatrix) (is_null resultmatrix)).

Hypothesis L_pos : (0 < L)%Z.
Hypothesis result_size :
  forall r, resultmatrix = Some r -> Z.of_nat (length r) = N.

Lemma ncells_nonneg : (0 <= N)%Z.
Proof. pose proof (latgranularity_nonneg L L_pos). nia. Qed.

(** The matrix the loop over the words starts from: the log of the prior. *)
Definition nb_logprior : list R :=
  for_range 0 N
    (fun c totalmatrix => aset totalmatrix c (ln (aget 0 totalmatrix c)))
    (matrix_copy L tweetsmatrix).

Lemma nb_logprior_cells :
  Z.of_nat (length nb_logprior) = N /\
  forall c, (0 <= c < N)%Z ->
            aget 0 nb_logprior c = ln (aget 0 tweetsmatrix c).
Proof.
  pose proof ncells_nonneg as HN. unfold nb_logprior.
  destruct (matrix_copy_cells L tweetsmatrix ltac:(lia)) as [Hl0 Hc0].
  destruct (for_range_all_cells 0 (fun _ v => ln v) N
              (matrix_copy L tweetsmatrix) ltac:(lia)) as [Hl1 Hc1].
  split; [lia|]. intros c Hc. rewrite Hc1, Hc0 by lia. reflexivity.
Qed.

(** What the function returns once the loop over the words has ended. *)
Lemma nb_classify_from_loop (totalmatrix : list R) (loc : nb_locals) :
  nb_words_loop fuel g st tweetsmatrix wordmatrix (is_null resultmatrix)
                (nb_c_min g tweetsmatrix) words nb_logprior junk
  = Some (totalmatrix, loc) ->
  Z.of_nat (length totalmatrix) = N ->
  tweet_classify_naivebayes fuel g st junk words tweetsmatrix wordmatrix
                            resultmatrix
  = Some (snd (nb_argmax g tweetsmatrix (is_null resultmatrix)
                         (nb_c_min g tweetsmatrix) totalmatrix),
          match resultmatrix with
          | Some _ => Some totalmatrix
          | None => None
          end).
Proof.
  intros Hrun Hlen.
  unfold tweet_classify_naivebayes. cbv zeta. fold nb_logprior.
  rewrite Hrun. f_equal. f_equal.
  destruct resultmatrix as [r|]; [|reflexivity].
  specialize (result_size r eq_refl).
  destruct (for_range_all_cells 0 (fun c _ => aget 0 totalmatrix c) N r
                                result_size) as [Hl2 Hc2].
  f_equal. apply (aget_ext 0).
  - rewrite Hl2. lia.
  - intros i Hi. rewrite Hl2 in Hi. apply Hc2. lia.
Qed.

Hypothesis plain_nb : g_complement_nb g = false.
Hypothesis loads : query_loads fuel g st words.
Hypothesis settled : weight_settled g st words junk.

(** The classifier returns; its score matrix holds the score of the
    specification at every cell the shortcut does not skip (and the log
    prior at the others), the index is read off that matrix by the final
    loop, and the result buffer, when there is one, receives the matrix. *)
Lemma nb_classify_runs :
  exists totalmatrix,
    Z.of_nat (length totalmatrix) = N /\
    (forall c, (0 <= c < N)%Z ->
       aget 0 totalmatrix c
       = if skip c then ln (aget 0 tweetsmatrix c)
         else nb_score fuel g st tweetsmatrix wordmatrix words c) /\
    tweet_classify_naivebayes fuel g st junk words tweetsmatrix wordmatrix
                              resultmatrix
    = Some (snd (nb_argmax g tweetsmatrix (is_null resultmatrix)
                           (nb_c_min g tweetsmatrix) totalmatrix),
            match resultmatrix with
            | Some _ => Some totalmatrix
            | None => None
            end).
Proof.
  destruct nb_logprior_cells as [Hl1 Hc1].
  destruct (nb_words_loop_cells fuel g st tweetsmatrix wordmatrix
              (is_null resultmatrix) (nb_c_min g tweetsmatrix) plain_nb
              words loads nb_logprior junk Hl1 settled)
    as (total & loc & Hrun & Hlen & Hcells).
  exists total. split; [exact Hlen|]. split.
  - intros c Hc. rewrite (Hcells c Hc), Hc1 by lia.
    unfold nb_score. destruct (skip c); reflexivity.
  - now apply (nb_classify_from_loop total loc).
Qed.
End NaiveBayesRun.


(** The cell takes part in the scoring and in the final comparison. *)
Definition considered_cell (g : globals) (tweetsmatrix : list R)
           (resultmatrix : option (list R)) (c : Z) : Prop :=
  skip_cell tweetsmatrix (nb_c_min g tweetsmatrix) (is_null resultmatrix) c
  = false.

Lemma considered_cell_iff (g : globals) (tweetsmatrix : list R)
      (resultmatrix : option (list R)) (c : Z) :
  considered_cell g tweetsmatrix resultmatrix c
  <-> resultmatrix <> None \/ aget 0 tweetsmatrix c <> nb_c_min g tweetsmatrix.
Proof.
  unfold considered_cell, skip_cell. rewrite andb_false_iff. split.
  - intros [H|H].
    + right. intros E. rewrite (Reqb_true _ _ E) in H. discriminate H.
    + left. destruct resultmatrix; [discriminate | discriminate H].
  - intros [H|H].
    + right. destruct resultmatrix; [reflexivity | contradiction].
    + left. now apply Reqb_false.
Qed.



(** ** Numeric facts used on concrete inputs *)

Lemma ln_lt_pred (y : R) : 0 < y -> y <> 1 -> ln y < y - 1.
Proof.
  intros Hy Hne.
  pose proof (exp_ineq1 (y - 1) ltac:(lra)) as H.
  replace (1 + (y - 1)) with y in H by ring.
  apply ln_increasing in H; auto. now rewrite ln_exp in H.
Qed.

Lemma ln_gt_one_minus_inv (y : R) : 0 < y -> y <> 1 -> 1 - / y < ln y.
Proof.
  intros Hy Hne.
  assert (Hi : 0 < / y) by now apply Rinv_0_lt_compat.
  assert (Hne' : / y <> 1).
  { intros E. apply Hne. rewrite <- (Rinv_inv y), E. apply Rinv_1. }
  pose proof (ln_lt_pred (/ y) Hi Hne') as H.
  rewrite ln_Rinv in H by exact Hy. lra.
Qed.

(** A crude two-sided bound, enough to keep scores away from [-DBL_MAX]. *)
Lemma ln_bounds (y : R) : 0 < y -> 1 - / y <= ln y <= y - 1.
Proof.
  intros Hy. destruct (Req_dec_T y 1) as [->|Hne].
  - rewrite ln_1, Rinv_1. lra.
  - pose proof (ln_lt_pred y Hy Hne).
    pose proof (ln_gt_one_minus_inv y Hy Hne). lra.
Qed.

Lemma ln_product3_lt (a b c a' b' c' : R) :
  0 < a -> 0 < b -> 0 < c -> 0 < a' -> 0 < b' -> 0 < c' ->
  a * b * c < a' * b' * c' ->
  ln a + ln b + ln c < ln a' + ln b' + ln c'.
Proof.
  intros Ha Hb Hc Ha' Hb' Hc' Hlt.
  assert (0 < a * b) by now apply Rmult_lt_0_compat.
  assert (0 < a' * b') by now apply Rmult_lt_0_compat.
  rewrite <- !ln_mult by assumption.
  apply ln_increasing; [|exact Hlt]. now apply Rmult_lt_0_compat.
Qed.

Lemma DBL_MAX_large : 4096 <= DBL_MAX.
Proof.
  unfold DBL_MAX.
  assert (H1 : 2 ^ 12 <= 2 ^ 1023) by (apply Rle_pow; [lra | lia]).
  assert (H2 : 2 ^ 12 = 4096) by ring.
  assert (H3 : / 2 ^ 52 <= 1).
  { rewrite <- Rinv_1. apply Rinv_le_contravar; [lra|].
    apply pow_R1_Rle. lra. }
  assert (0 < 2 ^ 1023) by (apply pow_lt; lra).
  nra.
Qed.

(** ** A two-cell model

    [L = 2]: cell 0 is the western half of the map, cell 1 the eastern
    half.  The model is the one plain counting yields from four documents:
    one in cell 0 with the word "a", three in cell 1 with the word "b".
    The store holds it as [geoloc_read_model] would leave it. *)

Definition demo_store : wordstore :=
  mk_wordstore
    (mk_wordinfo [mk_coord 10 (-90)]
                 (Some [mk_sm 0%Z 0%Z 1; mk_sm (-1)%Z (-1)%Z 0])
                 (Some "a"%string) 1 1
     :: mk_wordinfo [mk_coord 10 90; mk_coord 10 90; mk_coord 10 90]
                    (Some [mk_sm 1%Z 0%Z 3; mk_sm (-1)%Z (-1)%Z 0])
                    (Some "b"%string) 1 3
     :: alloc 1022 wordinfo_zero)
    1024 1 (mk_wordhash [("a"%string, 0%Z); ("b"%string, 1%Z)] 2).

(** The defaults, [--longranularity=2 --nokde], and [--unk] or not. *)
Definition demo_globals (unk : bool) : globals :=
  mk_globals 2 unk true false 4 (1 / 100) 1 1 3 2.

(** [P_c]: [(1 + 1) / 6] and [(1 + 3) / 6]. *)
Definition demo_prior : list R := [1 / 3; 2 / 3].

(** [M_w]: the sum of the two word matrices. *)
Definition demo_wordmatrix : list R := [1; 3].

Lemma demo_ncells (unk : bool) :
  (g_longranularity (demo_globals unk)
   * latgranularity (g_longranularity (demo_globals unk)))%Z = 2%Z.
Proof. reflexivity. Qed.


Lemma demo_loads (unk : bool) (words : list string) :
  query_loads 0 (demo_globals unk) demo_store words.
Proof.
  intros w _ Hk. unfold known_word, wordhash_find in *.
  cbn [global_wh_train demo_store wh_table wh_lookup] in *.
  destruct (String.eqb "a" w).
  - exists [1; 0]. reflexivity.
  - destruct (String.eqb "b" w); [|discriminate Hk].
    exists [0; 3]. reflexivity.
Qed.


(** The score of the query "zzz" in unk mode, were the word scored. *)
Lemma demo_score_unknown (c : Z) :
  nb_score 0 (demo_globals true) demo_store demo_prior demo_wordmatrix
           ["zzz"%string] c
  = ln (aget 0 demo_prior c)
    + (ln (aget 0 [0; 0] c + 1 / 100)
       - ln (aget 0 demo_wordmatrix c + 1 / 100 * (2 + 1 + 1)) + 0).
Proof.
  unfold nb_score, scored_features. cbn [filter].
  change (known_word demo_store "zzz") with false. cbv iota.
  change (g_unk (demo_globals true)) with true. cbv iota. cbn [map].
  unfold list_sum. cbn [fold_right]. unfold nb_term.
  change (feature_density 0 (demo_globals true) demo_store "zzz")
    with [0; 0].
  reflexivity.
Qed.


(** Every score of the two examples is far above [-DBL_MAX]. *)
Lemma demo_score_finite (p a m : R) :
  1 / 3 <= p <= 1 -> 0 <= a <= 1 -> 1 <= m <= 4 ->
  - DBL_MAX < ln p + (ln (a + 1 / 100) - ln m + 0).
Proof.
  intros Hp Ha Hm. pose proof DBL_MAX_large.
  pose proof (ln_bounds p ltac:(lra)) as [Hp1 _].
  pose proof (ln_bounds (a + 1 / 100) ltac:(lra)) as [Ha1 _].
  pose proof (ln_bounds m ltac:(lra)) as [_ Hm1].
  assert (/ p <= 3).
  { replace 3 with (/ (1 / 3)) by field.
    apply Rinv_le_contravar; lra. }
  assert (/ (a + 1 / 100) <= 100).
  { replace 100 with (/ (1 / 100)) by field.
    apply Rinv_le_contravar; lra. }
  lra.
Qed.


Lemma double_to_int_unique (r : R) (k : Z) :
  IZR k <= r < IZR k + 1 -> 0 <= r -> double_to_int r = k.
Proof.
  intros [Hlo Hhi] Hr.
  destruct (double_to_int_floor r Hr) as [H1 H2].
  assert (double_to_int r < k + 1)%Z by (apply lt_IZR; rewrite plus_IZR; lra).
  assert (k < double_to_int r + 1)%Z by (apply lt_IZR; rewrite plus_IZR; lra).
  lia.
Qed.

(** The four documents the two-cell model is trained on. *)
Definition demo_documents : list coordinate :=
  [mk_coord 10 (-90); mk_coord 10 90; mk_coord 10 90; mk_coord 10 90].

(** [demo_prior] is the prior the trainer builds from them. *)
Lemma demo_prior_trained :
  train_tweetsmatrix 0 (demo_globals false) demo_documents = Some demo_prior.
Proof.
  assert (Hw : LONTOX 2 (-90) = 0%Z).
  { unfold LONTOX. apply double_to_int_unique; lra. }
  assert (He : LONTOX 2 90 = 1%Z).
  { unfold LONTOX. apply double_to_int_unique; lra. }
  assert (Hy : LATTOY 2 10 = 0%Z).
  { unfold LATTOY. apply double_to_int_unique; lra. }
  assert (Hdep : matrix_nokde_from_coords 2 [1; 1] demo_documents
                 = Some [1 + 1; 1 + 1 + 1 + 1]).
  { unfold demo_documents.
    cbn [matrix_nokde_from_coords cl_lat cl_lon]. rewrite Hw, He, Hy.
    reflexivity. }
  unfold train_tweetsmatrix.
  cbn [g_longranularity g_nokde g_tweetprior demo_globals].
  rewrite matrix_init_alloc.
  change (alloc (latgranularity 2 * 2) 1) with [1; 1].
  rewrite Hdep, (matrix_normalize_map 2 [1 + 1; 1 + 1 + 1 + 1] eq_refl).
  unfold list_sum, demo_prior. cbn [map fold_right].
  f_equal. f_equal; [field | f_equal; field].
Qed.

(** [demo_wordmatrix] is the sum of the two word matrices of the store, as
    the trainer accumulates it with [matrix_add]. *)
Lemma demo_wordmatrix_trained :
  word_get_matrix 0 (demo_globals false) demo_store 0 = Some [1; 0] /\
  word_get_matrix 0 (demo_globals false) demo_store 1 = Some [0; 3] /\
  matrix_add 2 [0; 3] (matrix_add 2 [1; 0] (matrix_init 2 0))
  = demo_wordmatrix.
Proof.
  split; [reflexivity|]. split; [reflexivity|].
  rewrite matrix_init_alloc. change (alloc (latgranularity 2 * 2) 0) with [0; 0].
  change (matrix_add 2 [1; 0] [0; 0]) with [0 + 1; 0 + 0].
  change (matrix_add 2 [0; 3] [0 + 1; 0 + 0]) with [0 + 1 + 0; 0 + 0 + 3].
  unfold demo_wordmatrix. f_equal; [ring | f_equal; ring].
Qed.




(** ** Unknown words *)

(** An unknown word in unk mode: the weight test reads the weight variable
    as the previous iterations, or the function entry, left it. *)
Lemma nb_unknown_word_step (fuel : nat) (g : globals) (st : wordstore)
      (tweetsmatrix wordmatrix : list R) (resultmatrix_null : bool)
      (c_min : R) (w : string) (rest : list string) (totalmatrix : list R)
      (loc : nb_locals) :
  known_word st w = false ->
  g_unk g = true ->
  nb_words_loop fuel g st tweetsmatrix wordmatrix resultmatrix_null c_min
                (w :: rest) totalmatrix loc
  = if Reqb (feature_weight loc) 0
    then nb_words_loop fuel g st tweetsmatrix wordmatrix resultmatrix_null
                       c_min rest totalmatrix loc
    else nb_words_loop fuel g st tweetsmatrix wordmatrix resultmatrix_null
                       c_min rest
                       (nb_score_word g tweetsmatrix wordmatrix
                          resultmatrix_null c_min
                          (alloc (latgranularity (g_longranularity g)
                                  * g_longranularity g) 0)
                          loc totalmatrix)
                       loc.
Proof.
  intros Hk Hunk. cbn [nb_words_loop].
  rewrite (nb_lookup_unknown fuel g st w loc Hk), Hunk, matrix_init_alloc.
  reflexivity.
Qed.

(** With entry weight 0 the unknown word of the query is passed over and
    the prior alone decides: cell 1. *)
Lemma demo_classify_unknown_junk0 :
  option_map fst
    (tweet_classify_naivebayes 0 (demo_globals true) demo_store
       (mk_nb_locals 0 0) ["zzz"%string] demo_prior demo_wordmatrix
       (Some [0; 0]))
  = Some 1%Z.
Proof.
  destruct (nb_logprior_cells (demo_globals true) demo_prior)
    as [Hl Hc]; [cbn; lia|].
  assert (Hsize : forall r, Some [0; 0] = Some r ->
            Z.of_nat (length r)
            = (g_longranularity (demo_globals true)
               * latgranularity (g_longranularity (demo_globals true)))%Z)
    by (intros r Hr; inversion Hr; reflexivity).
  rewrite (nb_classify_from_loop 0 (demo_globals true) demo_store
             (mk_nb_locals 0 0) ["zzz"%string] demo_prior demo_wordmatrix
             (Some [0; 0]) Hsize
             (nb_logprior (demo_globals true) demo_prior)
             (mk_nb_locals 0 0)).
  - cbn [option_map fst is_null]. f_equal.
    destruct (nb_argmax_spec (demo_globals true) demo_prior false
                (nb_c_min (demo_globals true) demo_prior)
                (nb_logprior (demo_globals true) demo_prior))
      as [[Hlow _]|(Hr & _ & Hf & _ & Hle & _)];
      rewrite ?demo_ncells in *; try lia.
    + exfalso.
      specialize (Hlow 0%Z ltac:(lia) (andb_false_r _)).
      rewrite Hc in Hlow by lia.
      change (aget 0 demo_prior 0) with (1 / 3) in Hlow.
      pose proof (ln_bounds (1 / 3) ltac:(lra)) as [Hb _].
      replace (/ (1 / 3)) with 3 in Hb by field.
      pose proof DBL_MAX_large. lra.
    + set (i := snd (nb_argmax (demo_globals true) demo_prior false
                       (nb_c_min (demo_globals true) demo_prior)
                       (nb_logprior (demo_globals true) demo_prior))) in *.
      assert (Hcases : i = 0%Z \/ i = 1%Z) by lia.
      destruct Hcases as [E|E]; [exfalso|exact E].
      specialize (Hle 1%Z ltac:(lia) (andb_false_r _)).
      rewrite Hf, E, !Hc in Hle by lia.
      change (aget 0 demo_prior 0) with (1 / 3) in Hle.
      change (aget 0 demo_prior 1) with (2 / 3) in Hle.
      assert (ln (1 / 3) < ln (2 / 3)) by (apply ln_increasing; lra).
      lra.
  - rewrite nb_unknown_word_step by reflexivity.
    cbn [feature_weight]. rewrite Reqb_true by reflexivity. reflexivity.
  - exact Hl.
Qed.

(** With entry weight 1 the same word is scored with a zero density, and
    cell 0 wins. *)
Lemma demo_classify_unknown_junk1 :
  option_map fst
    (tweet_classify_naivebayes 0 (demo_globals true) demo_store
       (mk_nb_locals 1 0) ["zzz"%string] demo_prior demo_wordmatrix
       (Some [0; 0]))
  = Some 0%Z.
Proof.
  destruct (nb_classify_runs 0 (demo_globals true) demo_store
              (mk_nb_locals 1 0) ["zzz"%string] demo_prior demo_wordmatrix
              (Some [0; 0]))
    as (total & Hlen & Hcells & Hrun).
  - cbn. lia.
  - intros r Hr. inversion Hr. reflexivity.
  - reflexivity.
  - apply demo_loads.
  - intros _. split.
    + right. cbn [feature_weight]. lra.
    + intros w [<-|[]] Hk. discriminate Hk.
  - rewrite Hrun. cbn [option_map fst]. f_equal.
    rewrite demo_ncells in *. cbn [is_null] in *.
    assert (Hscore : forall c, (0 <= c < 2)%Z ->
              aget 0 total c
              = ln (aget 0 demo_prior c)
                + (ln (aget 0 [0; 0] c + 1 / 100)
                   - ln (aget 0 demo_wordmatrix c + 1 / 100 * (2 + 1 + 1))
                   + 0)).
    { intros c Hc. rewrite (Hcells c Hc). unfold skip_cell.
      rewrite andb_false_r. apply demo_score_unknown. }
    pose proof (Hscore 0%Z ltac:(lia)) as H0.
    pose proof (Hscore 1%Z ltac:(lia)) as H1.
    change (aget 0 demo_prior 0) with (1 / 3) in H0.
    change (aget 0 demo_prior 1) with (2 / 3) in H1.
    change (aget 0 [0; 0] 0) with 0 in H0.
    change (aget 0 [0; 0] 1) with 0 in H1.
    change (aget 0 demo_wordmatrix 0) with 1 in H0.
    change (aget 0 demo_wordmatrix 1) with 3 in H1.
    assert (Horder : aget 0 total 1 < aget 0 total 0).
    { pose proof (ln_product3_lt
                    (2 / 3) (0 + 1 / 100) (1 + 1 / 100 * (2 + 1 + 1))
                    (1 / 3) (0 + 1 / 100) (3 + 1 / 100 * (2 + 1 + 1))
                    ltac:(lra) ltac:(lra) ltac:(lra) ltac:(lra) ltac:(lra)
                    ltac:(lra) ltac:(lra)).
      lra. }
    destruct (nb_argmax_spec (demo_globals true) demo_prior false
                (nb_c_min (demo_globals true) demo_prior) total)
      as [[Hlow _]|(Hr & _ & Hf & _ & _ & Hlt)];
      rewrite ?demo_ncells in *; try lia.
    + exfalso.
      specialize (Hlow 0%Z ltac:(lia) (andb_false_r _)).
      pose proof (demo_score_finite (1 / 3) 0 (1 + 1 / 100 * (2 + 1 + 1))
                    ltac:(lra) ltac:(lra) ltac:(lra)).
      lra.
    + set (i := snd (nb_argmax (demo_globals true) demo_prior false
                       (nb_c_min (demo_globals true) demo_prior) total))
        in *.
      assert (Hcases : i = 0%Z \/ i = 1%Z) by lia.
      destruct Hcases as [E|E]; [exact E|exfalso].
      specialize (Hlt 0%Z ltac:(lia) (andb_false_r _)).
      rewrite Hf, E in Hlt. lra.
Qed.

(** Without unk mode the Naive Bayes loop passes over every word outside
    the model without touching its state. *)
Lemma nb_words_loop_drops_unknown (fuel : nat) (g : globals) (st : wordstore)
      (tweetsmatrix wordmatrix : list R) (resultmatrix_null : bool)
      (c_min : R) (words : list string) :
  g_unk g = false ->
  forall totalmatrix loc,
    nb_words_loop fuel g st tweetsmatrix wordmatrix resultmatrix_null c_min
                  words totalmatrix loc
    = nb_words_loop fuel g st tweetsmatrix wordmatrix resultmatrix_null c_min
                    (filter (known_word st) words) totalmatrix loc.
Proof.
  intros Hunk. induction words as [|w words IH]; intros totalmatrix loc.
  - reflexivity.
  - cbn [filter]. destruct (known_word st w) eqn:Hk.
    + cbn [nb_words_loop].
      destruct (nb_lookup fuel g st w loc) as [[[m|] loc']|]; auto.
      destruct (Reqb (feature_weight loc') 0); auto.
    + cbn [nb_words_loop].
      rewrite (nb_lookup_unknown fuel g st w loc Hk), Hunk. apply IH.
Qed.

(** The Kullback-Leibler preparation never looks at [g_unk]: words outside
    the model leave [uniqwords], [wordindices] and [seenwordhash] alone. *)
Lemma kl_collect_drops_unknown (st : wordstore) (words : list string) :
  forall acc,
    kl_collect st words acc = kl_collect st (filter (known_word st) words) acc.
Proof.
  induction words as [|w words IH]; intros [[uniq idx] seen].
  - reflexivity.
  - cbn [filter kl_collect]. unfold known_word at 1.
    destruct (negb (wordhash_find (global_wh_train st) w =? -1)%Z) eqn:Hk.
    + cbn [kl_collect]. rewrite Hk.
      destruct (wordhash_find seen w =? -1)%Z; apply IH.
    + apply IH.
Qed.

(** C3, as stated, fails for the Kullback-Leibler classifier: in unk mode,
    on the two-cell model, the query made of the unknown word "zzz" is
    prepared to nothing (no unique word, no index, no count), and is
    classified as the empty query is. *)
Lemma kl_unknown_feature_not_admitted :
  g_unk (demo_globals true) = true /\
  known_word demo_store "zzz" = false /\
  kl_collect demo_store ["zzz"%string] ([], [], wordhash_init)
  = ([], [], wordhash_init) /\
  tweet_classify_kullbackleibler 0 (demo_globals true) demo_store
    ["zzz"%string] demo_prior demo_wordmatrix None
  = tweet_classify_kullbackleibler 0 (demo_globals true) demo_store
      [] demo_prior demo_wordmatrix None.
Proof.
  repeat split; reflexivity.
Qed.

(** C3, amended: in the Naive Bayes classifier a query feature that is not
    in the model is passed over when unk mode is off (the classification is
    that of the query without it) and is admitted with an all-zero density
    matrix when unk mode is on; in the Kullback-Leibler classifier a
    feature that is not in the model is passed over whatever the unk flag
    says. *)
Theorem unknown_features_by_classifier :
  (forall fuel g st w loc,
      known_word st w = false ->
      nb_lookup fuel g st w loc
      = if g_unk g
        then Some (Some (alloc (latgranularity (g_longranularity g)
                                * g_longranularity g) 0), loc)
        else Some (None, loc)) /\
  (forall fuel g st junk words tweetsmatrix wordmatrix resultmatrix,
      g_unk g = false ->
      tweet_classify_naivebayes fuel g st junk words tweetsmatrix wordmatrix
                                resultmatrix
      = tweet_classify_naivebayes fuel g st junk
          (filter (known_word st) words) tweetsmatrix wordmatrix
          resultmatrix) /\
  (forall fuel g st words tweetsmatrix wordmatrix resultmatrix,
      tweet_classify_kullbackleibler fuel g st words tweetsmatrix wordmatrix
                                     resultmatrix
      = tweet_classify_kullbackleibler fuel g st
          (filter (known_word st) words) tweetsmatrix wordmatrix
          resultmatrix).
Proof.
  split; [|split].
  - intros fuel g st w loc Hk.
    rewrite (nb_lookup_unknown fuel g st w loc Hk), matrix_init_alloc.
    reflexivity.
  - intros fuel g st junk words tweetsmatrix wordmatrix resultmatrix Hunk.
    unfold tweet_classify_naivebayes. cbv zeta.
    now rewrite (nb_words_loop_drops_unknown fuel g st tweetsmatrix
                   wordmatrix (is_null resultmatrix)
                   (nb_c_min g tweetsmatrix) words Hunk).
  - intros fuel g st words tweetsmatrix wordmatrix resultmatrix.
    unfold tweet_classify_kullbackleibler.
    now rewrite (kl_collect_drops_unknown st words).
Qed.

(** C10: in unk mode, when the Naive Bayes loop meets a word that is not in
    the model, the test [feature_weight == 0] reads the variable as it
    stands; for the first word of a query that is its value at function
    entry, which no argument of the function fixes.  On the two-cell model
    the query "zzz" is classified into cell 1 when that value is 0 and into
    cell 0 when it is 1. *)
Theorem unassigned_weight_decides_unknown_word :
  (forall fuel g st tweetsmatrix wordmatrix resultmatrix_null c_min
          w rest totalmatrix junk,
      known_word st w = false ->
      g_unk g = true ->
      nb_words_loop fuel g st tweetsmatrix wordmatrix resultmatrix_null c_min
                    (w :: rest) totalmatrix junk
      = if Reqb (feature_weight junk) 0
        then nb_words_loop fuel g st tweetsmatrix wordmatrix
                           resultmatrix_null c_min rest totalmatrix junk
        else nb_words_loop fuel g st tweetsmatrix wordmatrix
                           resultmatrix_null c_min rest
                           (nb_score_word g tweetsmatrix wordmatrix
                              resultmatrix_null c_min
                              (alloc (latgranularity (g_longranularity g)
                                      * g_longranularity g) 0)
                              junk totalmatrix)
                           junk) /\
  known_word demo_store "zzz" = false /\
  option_map fst
    (tweet_classify_naivebayes 0 (demo_globals true) demo_store
       (mk_nb_locals 0 0) ["zzz"%string] demo_prior demo_wordmatrix
       (Some [0; 0]))
  = Some 1%Z /\
  option_map fst
    (tweet_classify_naivebayes 0 (demo_globals true) demo_store
       (mk_nb_locals 1 0) ["zzz"%string] demo_prior demo_wordmatrix
       (Some [0; 0]))
  = Some 0%Z.
Proof.
  split; [|split; [|split]].
  - intros. now apply nb_unknown_word_step.
  - reflexivity.
  - exact demo_classify_unknown_junk0.
  - exact demo_classify_unknown_junk1.
Qed.

(** * Further properties of the code

    The parts below go through the source once more and cover what the
    sections above leave out: cell, midpoint and cell again, the grid
    macros in double arithmetic against exact arithmetic, the decoder on
    arbitrary input and the shape of an encoding, what the two deposits
    add, the normalisation in log space, the trainer's aggregate matrix,
    the feature store under sequences of calls, the Kullback-Leibler
    classifier, the distance function, and the hash table of [wordhash.h]
    itself. *)

Local Open Scope Z_scope.

Lemma forallb_pointwise {A : Type} (f g : A -> bool) (l : list A) :
  (forall x, f x = g x) -> forallb f l = forallb g l.
Proof.
  intros H. induction l as [|x l IH]; cbn [forallb]; auto.
  now rewrite H, IH.
Qed.

Lemma find_app_first {A : Type} (f : A -> bool) (l1 l2 : list A) :
  find f (l1 ++ l2)
  = match find f l1 with Some x => Some x | None => find f l2 end.
Proof.
  induction l1 as [|x l1 IH]; cbn [app find]; auto.
  destruct (f x); auto.
Qed.

Lemma firstn_snoc {A : Type} (l : list A) (k : nat) (x : A) :
  nth_error l k = Some x -> firstn (S k) l = firstn k l ++ [x].
Proof.
  revert k. induction l as [|y l IH]; intros [|k] E; simpl in E;
    try discriminate.
  - now inversion E.
  - change (y :: firstn (S k) l = y :: (firstn k l ++ [x])).
    f_equal. now apply IH.
Qed.

(** ** More on the grid macros *)

Local Open Scope R_scope.

Lemma LONTOX_of_midpoint (L x : Z) :
  (0 < L)%Z -> (0 <= x)%Z -> LONTOX L (XTOMIDLON L x) = x.
Proof.
  intros HL Hx. pose proof (IZR_L_pos L HL) as HLR.
  assert (0 <= IZR x) by (now apply (IZR_le 0)).
  unfold LONTOX, XTOMIDLON.
  replace (IZR L / 360 * (IZR x * 360 / IZR L - 180 + 360 / IZR L / 2 + 180))
    with (IZR x + / 2) by (field; lra).
  apply double_to_int_unique; lra.
Qed.

Lemma LATTOY_of_midpoint (L y : Z) :
  (0 < L)%Z -> (0 <= y)%Z -> LATTOY L (YTOMIDLAT L y) = y.
Proof.
  intros HL Hy. pose proof (IZR_L_pos L HL) as HLR.
  assert (0 <= IZR y) by (now apply (IZR_le 0)).
  unfold LATTOY, YTOMIDLAT.
  replace (IZR L / 360 * (IZR y * 360 / IZR L - 90 + 360 / IZR L / 2 + 90))
    with (IZR y + / 2) by (field; lra).
  apply double_to_int_unique; lra.
Qed.

(** X1: cell, midpoint and cell again.  For a positive grid size and every
    cell number [c >= 0], the coordinates that [test_classify] prints for
    the cell, [YTOMIDLAT(CELLTOY(c))] and [XTOMIDLON(CELLTOX(c))], are
    mapped back to [c] by [LATLONTOCELL]; and [CELLTOX], [CELLTOY] take the
    index [x + y * L] of column [x], row [y] apart again. *)
Theorem cell_midpoint_roundtrip (L : Z) :
  (0 < L)%Z ->
  (forall c, (0 <= c)%Z ->
     LATLONTOCELL L (YTOMIDLAT L (CELLTOY L c)) (XTOMIDLON L (CELLTOX L c))
     = c) /\
  (forall x y, (0 <= x < L)%Z -> (0 <= y)%Z ->
     CELLTOX L (x + y * L) = x /\ CELLTOY L (x + y * L) = y /\
     LATLONTOCELL L (YTOMIDLAT L y) (XTOMIDLON L x) = (x + y * L)%Z).
Proof.
  intros HL. split.
  - intros c Hc. unfold LATLONTOCELL, CELLTOX, CELLTOY, CInt.rem, CInt.div.
    rewrite Z.rem_mod_nonneg, Z.quot_div_nonneg by lia.
    pose proof (Z.mod_pos_bound c L HL).
    rewrite LONTOX_of_midpoint, LATTOY_of_midpoint; try lia.
    + pose proof (Z.div_mod c L ltac:(lia)). lia.
    + apply Z.div_pos; lia.
  - intros x y Hx Hy.
    rewrite CELLTOX_of_cell, CELLTOY_of_cell by lia.
    split; [reflexivity|]. split; [reflexivity|].
    unfold LATLONTOCELL.
    rewrite LONTOX_of_midpoint, LATTOY_of_midpoint by lia. lia.
Qed.

(** X1 on the 5-degree grid. *)
Lemma cell_midpoint_roundtrip_witness :
  LATLONTOCELL 72 (YTOMIDLAT 72 (CELLTOY 72 100))
                  (XTOMIDLON 72 (CELLTOX 72 100)) = 100%Z.
Proof.
  apply (proj1 (cell_midpoint_roundtrip 72 ltac:(lia)) 100%Z). lia.
Defined.

(** X2: the macros in double arithmetic against the macros in exact
    arithmetic.  For a grid size that an [int] holds, [LONTOX] and
    [LATTOY] as the machine evaluates them give the column and the row of
    exact arithmetic for every coordinate that lies at least [2^-40]
    degrees inside a cell; for any coordinate of the map the two differ by
    at most one, and the column of a longitude in [-180, 180) is one of
    [0 .. L].  On the edge of a cell they can differ: with 26 columns,
    longitude 0 is the western edge of column 13 and gets column 12. *)
Theorem binary64_cell_agrees_inside_cells (L : Z) :
  (0 < L < 2 ^ 31)%Z ->
  (forall lon k, (0 <= k)%Z -> -180 <= lon <= 180 ->
     IZR k * (360 / IZR L) - 180 + / 2 ^ 40 <= lon
     < (IZR k + 1) * (360 / IZR L) - 180 - / 2 ^ 40 ->
     Binary64.LONTOX L lon = k /\ LONTOX L lon = k) /\
  (forall lat k, (0 <= k)%Z -> -90 <= lat <= 90 ->
     IZR k * (360 / IZR L) - 90 + / 2 ^ 40 <= lat
     < (IZR k + 1) * (360 / IZR L) - 90 - / 2 ^ 40 ->
     Binary64.LATTOY L lat = k /\ LATTOY L lat = k) /\
  (forall lon, -180 <= lon <= 180 ->
     (LONTOX L lon - 1 <= Binary64.LONTOX L lon <= LONTOX L lon + 1)%Z) /\
  (forall lat, -90 <= lat <= 90 ->
     (LATTOY L lat - 1 <= Binary64.LATTOY L lat <= LATTOY L lat + 1)%Z) /\
  (forall lon, -180 <= lon < 180 -> (0 <= Binary64.LONTOX L lon <= L)%Z) /\
  Binary64.LONTOX 26 0 = 12%Z /\ LONTOX 26 0 = 13%Z.
Proof.
  intros HL. pose proof (Binary64.IZR_L_bounds L HL) as HA.
  pose proof (Binary64.bpow_49_L L HL) as He.
  assert (Hinside : forall v off k, (0 <= k)%Z -> 0 <= v + off <= 360 ->
            IZR k * (360 / IZR L) - off + / 2 ^ 40 <= v
            < (IZR k + 1) * (360 / IZR L) - off - / 2 ^ 40 ->
            double_to_int (Binary64.tick L v off) = k /\
            double_to_int (IZR L / 360 * (v + off)) = k).
  { intros v off k Hk HB Hv. split.
    - now apply Binary64.tick_of_interior.
    - pose proof (Binary64.interior_ticks L HL v off k Hv) as Ht.
      pose proof (Binary64.bpow_pos (-49)).
      apply Binary64.double_to_int_eq; [exact Hk|]. nra. }
  assert (Hnear : forall v off, 0 <= v + off <= 360 ->
            (double_to_int (IZR L / 360 * (v + off)) - 1
             <= double_to_int (Binary64.tick L v off)
             <= double_to_int (IZR L / 360 * (v + off)) + 1)%Z).
  { intros v off HB.
    destruct (Binary64.tick_floor L HL v off HB) as [_ [Hlo Hhi]].
    assert (Ht : 0 <= IZR L / 360 * (v + off)).
    { apply Rmult_le_pos; [|lra]. apply Rmult_le_pos; lra. }
    destruct (double_to_int_floor _ Ht) as [Flo Fhi].
    split.
    - apply Z.lt_succ_r, lt_IZR. rewrite succ_IZR, minus_IZR. lra.
    - apply Z.lt_succ_r, lt_IZR. rewrite succ_IZR, plus_IZR. lra. }
  split; [|split; [|split; [|split; [|split; [|split]]]]].
  - intros lon k Hk Hlon Hv. apply (Hinside lon 180 k Hk); lra.
  - intros lat k Hk Hlat Hv. apply (Hinside lat 90 k Hk); lra.
  - intros lon Hlon. apply (Hnear lon 180). lra.
  - intros lat Hlat. apply (Hnear lat 90). lra.
  - intros lon Hlon. apply (Binary64.tick_at_most L HL lon 180 L); [lra|].
    replace (IZR L) with (IZR L / 360 * 360) at 2 by field.
    apply Rmult_lt_compat_l; lra.
  - apply Binary64.LONTOX_26_0.
  - unfold LONTOX. apply Binary64.double_to_int_eq; [lia | lra].
Qed.

(** X2 on the 5-degree grid: longitude -74 lies well inside column 21. *)
Lemma binary64_cell_agrees_inside_cells_witness :
  Binary64.LONTOX 72 (-74) = 21%Z /\ LONTOX 72 (-74) = 21%Z.
Proof.
  destruct (binary64_cell_agrees_inside_cells 72 ltac:(lia)) as (H & _).
  apply (H (-74) 21%Z); [lia | lra | lra].
Defined.

(** ** More on the sparse-matrix codec *)

Local Open Scope Z_scope.

Section DecoderCases.
Context {D F : Type}.
Variable to_double : F -> D.
Variable d_zero : D.
Variable L : Z.

(** The cell a triple addresses. *)
Definition sm_index (t : sparsematrix F) : Z := sm_x t + sm_y t * L.

(** Some triple of the array has [x == -1]. *)
Definition sm_terminated (sm : list (sparsematrix F)) : bool :=
  existsb (fun t => sm_x t =? -1) sm.

(** The last of the triples [ts] that addresses cell [c]. *)
Definition sm_last_write (ts : list (sparsematrix F)) (c : Z)
  : option (sparsematrix F) :=
  find (fun t => sm_index t =? c) (rev ts).

Lemma sm_scatter_cases (sm : list (sparsematrix F)) :
  forall matrix,
    sm_scatter to_double L sm matrix
    = if sm_terminated sm
         && forallb (fun t => in_bounds matrix (sm_index t)) (sm_live sm)
      then sm_writes to_double L (sm_live sm) matrix
      else None.
Proof.
  induction sm as [|t sm IH]; intros matrix; cbn [sm_scatter]; auto.
  unfold sm_terminated. cbn [existsb sm_live].
  destruct (sm_x t =? -1) eqn:E; [reflexivity|].
  cbn [orb forallb sm_writes]. fold (sm_index t).
  unfold aset_checked.
  destruct (in_bounds matrix (sm_index t)) eqn:B.
  - rewrite IH. unfold sm_terminated. cbn [andb].
    replace (forallb (fun t0 => in_bounds
               (replace_nth (Z.to_nat (sm_index t)) (to_double (sm_value t))
                            matrix) (sm_index t0)) (sm_live sm))
      with (forallb (fun t0 => in_bounds matrix (sm_index t0)) (sm_live sm)).
    + destruct (existsb _ sm && forallb _ (sm_live sm)); reflexivity.
    + apply forallb_pointwise. intros t0. unfold in_bounds.
      now rewrite length_replace_nth.
  - now rewrite andb_false_r.
Qed.

Lemma sm_writes_cells (ts : list (sparsematrix F)) :
  forall matrix,
    forallb (fun t => in_bounds matrix (sm_index t)) ts = true ->
    exists m,
      sm_writes to_double L ts matrix = Some m /\
      length m = length matrix /\
      forall c, aget d_zero m c
                = match sm_last_write ts c with
                  | Some t => to_double (sm_value t)
                  | None => aget d_zero matrix c
                  end.
Proof.
  induction ts as [|t ts IH]; intros matrix Hb.
  - exists matrix. repeat split; auto.
  - cbn [forallb] in Hb. apply andb_true_iff in Hb. destruct Hb as [Hb Hrest].
    cbn [sm_writes]. fold (sm_index t).
    rewrite aset_checked_some by exact Hb.
    destruct (IH (aset matrix (sm_index t) (to_double (sm_value t))))
      as (m & Hm & Hlen & Hcells).
    { rewrite <- Hrest. apply forallb_pointwise. intros t0.
      apply in_bounds_aset. }
    exists m. split; [exact Hm|]. split; [now rewrite Hlen, length_aset|].
    intros c. rewrite Hcells. unfold sm_last_write. cbn [rev].
    rewrite find_app_first.
    destruct (find (fun t0 => sm_index t0 =? c) (rev ts)); auto.
    cbn [find]. destruct (sm_index t =? c) eqn:E.
    + apply Z.eqb_eq in E. subst c. now rewrite aget_aset_eq.
    + apply Z.eqb_neq in E. now rewrite aget_aset_neq.
Qed.
End DecoderCases.

(** X3: what [sparsematrix_to_matrix] does with any array of triples.  It
    returns a matrix exactly when the array holds a triple with [x == -1]
    and every triple in front of the first such one addresses a cell of
    the grid; if no triple has [x == -1] the loop runs off the array, and a
    triple outside the grid is a store outside the matrix.  The matrix
    returned has [N] cells; a cell holds the value of the last triple that
    addresses it, and zero if none does. *)
Theorem decoder_succeeds_iff_terminated_in_grid
        (D F : Type) (to_double : F -> D) (d_zero : D) (L : Z)
        (sm : list (sparsematrix F)) :
  0 <= latgranularity L * L ->
  (sm_terminated sm
   && forallb (fun t => (0 <=? sm_index L t)
                        && (sm_index L t <? latgranularity L * L))
              (sm_live sm) = true ->
   exists m,
     sparsematrix_to_matrix to_double d_zero L sm = Some m /\
     Z.of_nat (length m) = latgranularity L * L /\
     forall c, 0 <= c < latgranularity L * L ->
       aget d_zero m c
       = match sm_last_write L (sm_live sm) c with
         | Some t => to_double (sm_value t)
         | None => d_zero
         end) /\
  (sm_terminated sm
   && forallb (fun t => (0 <=? sm_index L t)
                        && (sm_index L t <? latgranularity L * L))
              (sm_live sm) = false ->
   sparsematrix_to_matrix to_double d_zero L sm = None).
Proof.
  intros HN. unfold sparsematrix_to_matrix.
  rewrite sm_scatter_cases.
  replace (forallb (fun t => in_bounds (alloc (latgranularity L * L) d_zero)
                                       (sm_index L t)) (sm_live sm))
    with (forallb (fun t => (0 <=? sm_index L t)
                            && (sm_index L t <? latgranularity L * L))
                  (sm_live sm)).
  2:{ apply forallb_pointwise. intros t. unfold in_bounds.
      rewrite length_alloc, Z2Nat.id by lia. reflexivity. }
  split; intros H; rewrite H; [|reflexivity].
  apply andb_true_iff in H. destruct H as [_ Hb].
  destruct (sm_writes_cells to_double d_zero L (sm_live sm)
              (alloc (latgranularity L * L) d_zero))
    as (m & Hm & Hlen & Hcells).
  { rewrite <- Hb. apply forallb_pointwise. intros t. unfold in_bounds.
    rewrite length_alloc, Z2Nat.id by lia. reflexivity. }
  exists m. split; [exact Hm|]. split; [rewrite Hlen, length_alloc; lia|].
  intros c Hc. rewrite Hcells.
  destruct (sm_last_write L (sm_live sm) c); auto.
  now apply aget_alloc.
Qed.

(** X3 on a two-cell grid: two triples for cell 1, the later one wins. *)
Lemma decoder_succeeds_iff_terminated_in_grid_witness :
  exists m,
    sparsematrix_to_matrix (fun v : Z => v) 0 2
      [mk_sm 1 0 5; mk_sm 1 0 7; mk_sm (-1) 0 0] = Some m /\
    aget 0 m 0 = 0 /\ aget 0 m 1 = 7.
Proof.
  destruct (proj1 (decoder_succeeds_iff_terminated_in_grid
                     Z Z (fun v : Z => v) 0 2
                     [mk_sm 1 0 5; mk_sm 1 0 7; mk_sm (-1) 0 0]
                     ltac:(cbv; discriminate)) eq_refl)
    as (m & Hm & _ & Hcells).
  exists m. split; [exact Hm|].
  split; [apply (Hcells 0) | apply (Hcells 1)]; cbv; split; congruence.
Defined.

(** *** The shape of an encoding *)

(** [lo, lo + 1, ..., lo + n - 1] *)
Fixpoint zrange (lo : Z) (n : nat) : list Z :=
  match n with
  | O => []
  | S k => lo :: zrange (lo + 1) k
  end.

(** [f lo + f (lo + 1) + ... + f (lo + n - 1)] *)
Fixpoint zsum (f : Z -> Z) (lo : Z) (n : nat) : Z :=
  match n with
  | O => 0
  | S k => f lo + zsum f (lo + 1) k
  end.

Lemma zsum_ext (f g : Z -> Z) (n : nat) :
  forall lo, (forall i, lo <= i < lo + Z.of_nat n -> f i = g i) ->
             zsum f lo n = zsum g lo n.
Proof.
  induction n as [|k IH]; intros lo H; cbn [zsum]; auto.
  rewrite (H lo) by lia. rewrite (IH (lo + 1)); auto.
  intros i Hi. apply H. lia.
Qed.

Lemma zsum_app (f : Z -> Z) (a b : nat) :
  forall lo, zsum f lo (a + b) = zsum f lo a + zsum f (lo + Z.of_nat a) b.
Proof.
  induction a as [|a IH]; intros lo.
  - cbn [Nat.add zsum]. now rewrite Z.add_0_r.
  - cbn [Nat.add zsum]. rewrite IH.
    replace (lo + 1 + Z.of_nat a) with (lo + Z.of_nat (S a)) by lia. lia.
Qed.

Lemma zsum_shift (f : Z -> Z) (d : Z) (n : nat) :
  forall lo, zsum f (lo + d) n = zsum (fun i => f (i + d)) lo n.
Proof.
  induction n as [|k IH]; intros lo; cbn [zsum]; auto.
  rewrite <- IH. do 2 f_equal. lia.
Qed.

Lemma zsum_add (f g : Z -> Z) (n : nat) :
  forall lo, zsum (fun i => f i + g i) lo n = zsum f lo n + zsum g lo n.
Proof.
  induction n as [|k IH]; intros lo; cbn [zsum]; auto.
  rewrite IH. lia.
Qed.

(** Summing by rows and summing by columns agree. *)
Lemma zsum_exchange (f : Z -> Z -> Z) (x0 : Z) (l : nat) (h : nat) :
  forall y0,
    zsum (fun y => zsum (fun x => f x y) x0 l) y0 h
    = zsum (fun x => zsum (fun y => f x y) y0 h) x0 l.
Proof.
  induction h as [|h IH]; intros y0; cbn [zsum].
  - induction l as [|l IHl] in x0 |- *; cbn [zsum]; auto.
    now rewrite <- IHl.
  - rewrite IH. now rewrite <- zsum_add.
Qed.

(** A sum over the [h * l] cells of a grid, row after row. *)
Lemma zsum_rows (g : Z -> Z) (L : Z) (l h : nat) :
  Z.of_nat l = L ->
  forall y0,
    zsum g (y0 * L) (h * l)
    = zsum (fun y => zsum (fun x => g (x + y * L)) 0 l) y0 h.
Proof.
  intros Hl. induction h as [|h IH]; intros y0; cbn [Nat.mul zsum]; auto.
  rewrite zsum_app, Hl.
  replace (y0 * L + L) with ((y0 + 1) * L) by lia.
  rewrite IH. f_equal.
  replace (y0 * L) with (0 + y0 * L) by lia.
  now rewrite zsum_shift.
Qed.

Lemma count_loop (p : Z -> bool) (n : nat) :
  forall (i c : Z),
    loop n i (fun j c => if p j then c + 1 else c) c
    = c + zsum (fun j => if p j then 1 else 0) i n.
Proof.
  induction n as [|k IH]; intros i c; cbn [loop zsum]; [lia|].
  rewrite IH. destruct (p i); lia.
Qed.

Lemma append_loop {A : Type} (f : Z -> list A) (n : nat) :
  forall (i : Z) (acc : list A),
    loop n i (fun j acc => acc ++ f j) acc = acc ++ flat_map f (zrange i n).
Proof.
  induction n as [|k IH]; intros i acc; cbn [loop zrange flat_map].
  - now rewrite app_nil_r.
  - rewrite IH. now rewrite <- app_assoc.
Qed.

Lemma flat_map_singletons {A B : Type} (p : A -> bool) (t : A -> B)
      (l : list A) :
  flat_map (fun a => if p a then [t a] else []) l = map t (filter p l).
Proof.
  induction l as [|a l IH]; cbn [flat_map filter]; auto.
  destruct (p a); cbn [app map]; now rewrite IH.
Qed.

Lemma map_filter_flat_map {A B C : Type} (p : B -> bool) (t : B -> C)
      (g : A -> list B) (l : list A) :
  map t (filter p (flat_map g l))
  = flat_map (fun a => map t (filter p (g a))) l.
Proof.
  induction l as [|a l IH]; cbn [flat_map]; auto.
  now rewrite filter_app, map_app, IH.
Qed.

Lemma map_filter_map {A B C : Type} (p : B -> bool) (t : B -> C)
      (u : A -> B) (l : list A) :
  map t (filter p (map u l))
  = map (fun a => t (u a)) (filter (fun a => p (u a)) l).
Proof.
  induction l as [|a l IH]; cbn [map filter]; auto.
  destruct (p (u a)); cbn [map]; now rewrite IH.
Qed.

Lemma length_flat_map_zrange {A : Type} (g : Z -> list A) (n : nat) :
  forall lo,
    Z.of_nat (length (flat_map g (zrange lo n)))
    = zsum (fun x => Z.of_nat (length (g x))) lo n.
Proof.
  induction n as [|k IH]; intros lo; cbn [zrange flat_map zsum]; auto.
  rewrite length_app, Nat2Z.inj_add, IH. reflexivity.
Qed.

Lemma length_filter_zrange (p : Z -> bool) (n : nat) :
  forall lo,
    Z.of_nat (length (filter p (zrange lo n)))
    = zsum (fun y => if p y then 1 else 0) lo n.
Proof.
  induction n as [|k IH]; intros lo; cbn [zrange filter zsum]; auto.
  destruct (p lo); cbn [length]; rewrite <- IH; lia.
Qed.

(** The cells of the grid in the order the encoder visits them: column
    after column, each from row 0 upward. *)
Definition sm_cell_order (L : Z) : list (Z * Z) :=
  flat_map (fun x => map (pair x) (zrange 0 (Z.to_nat (latgranularity L))))
           (zrange 0 (Z.to_nat L)).

Section EncoderShape.
Context {D F : Type}.
Variable to_float : D -> F.
Variables d_zero d_minus_one : D.
Variable d_nonzero : D -> bool.
Variable L : Z.

(** The first loop of [matrix_to_sparsematrix]: [cellcount], which sizes
    the allocation of [cellcount + 1] triples. *)
Definition sm_cellcount (matrix : list D) : Z :=
  for_range 0 (latgranularity L * L)
    (fun i cellcount =>
       if d_nonzero (aget d_zero matrix i) then cellcount + 1 else cellcount)
    0.

Lemma matrix_to_sparsematrix_shape (matrix : list D) :
  matrix_to_sparsematrix to_float d_zero d_minus_one d_nonzero L matrix
  = map (fun c => mk_sm (CInt.to_short (fst c)) (CInt.to_short (snd c))
                        (to_float (aget d_zero matrix (fst c + snd c * L))))
        (filter (fun c => d_nonzero (aget d_zero matrix (fst c + snd c * L)))
                (sm_cell_order L))
    ++ [mk_sm (-1) (-1) (to_float d_minus_one)].
Proof.
  unfold matrix_to_sparsematrix. f_equal.
  set (t := fun c : Z * Z =>
              mk_sm (CInt.to_short (fst c)) (CInt.to_short (snd c))
                    (to_float (aget d_zero matrix (fst c + snd c * L)))).
  set (p := fun c : Z * Z =>
              d_nonzero (aget d_zero matrix (fst c + snd c * L))).
  set (column := fun x : Z =>
                   map t (filter p (map (pair x)
                     (zrange 0 (Z.to_nat (latgranularity L)))))).
  rewrite (for_range_ext _ (fun x sm => sm ++ column x)).
  - unfold for_range. rewrite append_loop. cbn [app].
    unfold sm_cell_order. rewrite map_filter_flat_map.
    now rewrite Z.sub_0_r.
  - intros x sm.
    rewrite (for_range_ext _
               (fun y sm => sm ++ (if p (x, y) then [t (x, y)] else []))).
    + unfold for_range. rewrite append_loop, flat_map_singletons.
      unfold column. now rewrite map_filter_map, Z.sub_0_r.
    + intros y sm'. unfold sm_emit, p, t. cbn [fst snd].
      destruct (d_nonzero _); [reflexivity | now rewrite app_nil_r].
Qed.

Lemma matrix_to_sparsematrix_length (matrix : list D) :
  0 <= L ->
  Z.of_nat (length (matrix_to_sparsematrix to_float d_zero d_minus_one
                                           d_nonzero L matrix))
  = sm_cellcount matrix + 1.
Proof.
  intros HL.
  assert (HH : 0 <= latgranularity L).
  { unfold latgranularity, CInt.div. rewrite Z.quot_div_nonneg by lia.
    apply Z.div_pos; lia. }
  rewrite matrix_to_sparsematrix_shape, length_app, length_map.
  cbn [length]. rewrite Nat2Z.inj_add. f_equal.
  set (ind := fun i : Z => if d_nonzero (aget d_zero matrix i) then 1 else 0).
  unfold sm_cellcount, for_range. rewrite count_loop, Z.add_0_l, Z.sub_0_r.
  fold ind.
  replace (Z.to_nat (latgranularity L * L))
    with (Z.to_nat (latgranularity L) * Z.to_nat L)%nat
    by (rewrite Z2Nat.inj_mul; lia).
  pose proof (zsum_rows ind L (Z.to_nat L) (Z.to_nat (latgranularity L))
                ltac:(lia) 0) as Hrows.
  rewrite Z.mul_0_l in Hrows. rewrite Hrows, zsum_exchange.
  unfold sm_cell_order.
  rewrite <- (map_id (filter _ _)), map_filter_flat_map.
  rewrite length_flat_map_zrange. apply zsum_ext. intros x _.
  rewrite map_id, <- (map_id (filter _ _)), map_filter_map, length_map.
  cbn [fst snd]. apply length_filter_zrange.
Qed.
End EncoderShape.

(** X4: the encoder fills exactly what it allocates.  For a grid size
    [L >= 0], [matrix_to_sparsematrix] emits one triple for each cell whose
    value is [!= 0.0], the cells taken column after column and each column
    from row 0 upward, and then the terminator; their number is the
    [cellcount] of the first loop plus one, the number of triples the
    [malloc] was sized for. *)
Theorem encoder_fills_its_allocation
        (D F : Type) (to_float : D -> F) (d_zero d_minus_one : D)
        (d_nonzero : D -> bool) (L : Z) (matrix : list D) :
  0 <= L ->
  matrix_to_sparsematrix to_float d_zero d_minus_one d_nonzero L matrix
  = map (fun c => mk_sm (CInt.to_short (fst c)) (CInt.to_short (snd c))
                        (to_float (aget d_zero matrix (fst c + snd c * L))))
        (filter (fun c => d_nonzero (aget d_zero matrix (fst c + snd c * L)))
                (sm_cell_order L))
    ++ [mk_sm (-1) (-1) (to_float d_minus_one)] /\
  Z.of_nat (length (matrix_to_sparsematrix to_float d_zero d_minus_one
                                           d_nonzero L matrix))
  = sm_cellcount d_zero d_nonzero L matrix + 1.
Proof.
  intros HL. split.
  - apply matrix_to_sparsematrix_shape.
  - now apply matrix_to_sparsematrix_length.
Qed.

(** X4 at binary64/binary32 on the 4 x 2 grid with three nonzero cells. *)
Lemma encoder_fills_its_allocation_witness :
  Z.of_nat (length (IEEE.matrix_to_sparsematrix 4
                      [IEEE.one_half; IEEE.d_zero; IEEE.d_zero; IEEE.one_half;
                       IEEE.one_half; IEEE.d_zero; IEEE.d_zero; IEEE.d_zero]))
  = sm_cellcount IEEE.d_zero IEEE.d_nonzero 4
      [IEEE.one_half; IEEE.d_zero; IEEE.d_zero; IEEE.one_half;
       IEEE.one_half; IEEE.d_zero; IEEE.d_zero; IEEE.d_zero] + 1 /\
  sm_cellcount IEEE.d_zero IEEE.d_nonzero 4
      [IEEE.one_half; IEEE.d_zero; IEEE.d_zero; IEEE.one_half;
       IEEE.one_half; IEEE.d_zero; IEEE.d_zero; IEEE.d_zero] = 3.
Proof.
  split; [|vm_compute; reflexivity].
  apply (encoder_fills_its_allocation
           IEEE.double IEEE.float IEEE.to_float IEEE.d_zero IEEE.d_minus_one
           IEEE.d_nonzero 4). lia.
Defined.

(** ** What the two deposits add *)

Local Open Scope R_scope.







(** *** The KDE window *)






Section KdeCells.
Variable L : Z.
Variables sigma1 sigma2 rho : R.
Variable maxradius : Z.
Hypothesis L_pos : (0 < L)%Z.


End KdeCells.



Lemma kde_deposit_radius_0 (L : Z) (sigma1 sigma2 rho : R)
      (cl : list coordinate) :
  forall matrix, kde_deposit L sigma1 sigma2 rho 0 matrix cl = matrix.
Proof.
  unfold kde_deposit. induction cl as [|p cl IH]; intros matrix;
    cbn [fold_left]; auto.
  replace (kde_deposit_point L sigma1 sigma2 rho 0 matrix p) with matrix;
    [apply IH|].
  symmetry. unfold kde_deposit_point. cbv zeta.
  apply for_range_preserves; auto. intros y m ->.
  apply for_range_empty.
  destruct (Z.ltb_spec (LONTOX L (cl_lon p) - 0) 0),
           (Z.geb_spec (LONTOX L (cl_lon p) + 0) L); lia.
Qed.

Lemma kde_probe_at_0 (L : Z) (sigma1 sigma2 rho : R) :
  kde_probe L sigma1 sigma2 rho 0
  = 1 / (TWOPI * sigma1 * sigma2 * sqrt (1 - rho * rho)).
Proof.
  unfold kde_probe, bivariate_gaussian_pdf. cbv zeta.
  replace (- (((IZR 0 * (360 / IZR L) - 0) * (IZR 0 * (360 / IZR L) - 0)
               / (sigma1 * sigma1)
               - 2 * rho * (IZR 0 * (360 / IZR L) - 0) * (0 - 0)
                 / (sigma1 * sigma2)
               + (0 - 0) * (0 - 0) / (sigma2 * sigma2))
              / (2 * (1 - rho * rho)))) with 0
    by (unfold Rdiv; ring).
  rewrite exp_0. ring.
Qed.

(** X7: a kernel so wide that its peak is below the cut-off deposits
    nothing.  When [TWOPI * sigma1 * sigma2 * sqrt(1 - rho^2) > 1000] the
    radius loop stops at [x = 0], the window of every point is empty and
    [matrix_kde_from_coords] returns the matrix as it was, for every list
    of points.  With [rho = 0] and both deviations [g_sigma], that is
    [g_sigma] above 12.62 degrees: the trainer's KDE prior is then the one
    it builds from no document at all. *)
Theorem kde_wide_kernel_deposits_nothing :
  (forall (L : Z) (sigma1 sigma2 rho : R) (fuel : nat) (matrix : list R)
          (cl : list coordinate),
      -1 < rho < 1 ->
      1000 < TWOPI * sigma1 * sigma2 * sqrt (1 - rho * rho) ->
      kde_maxradius L sigma1 sigma2 rho (S fuel) = Some 0%Z /\
      matrix_kde_from_coords L (S fuel) matrix cl sigma1 sigma2 rho
      = Some matrix) /\
  (forall (g : globals) (fuel : nat) (g_tweetcoords_head : list coordinate),
      g_nokde g = false ->
      1000 < TWOPI * g_sigma g * g_sigma g ->
      train_tweetsmatrix (S fuel) g g_tweetcoords_head
      = train_tweetsmatrix (S fuel) g []).
Proof.
  assert (Hradius : forall L sigma1 sigma2 rho fuel,
             1000 < TWOPI * sigma1 * sigma2 * sqrt (1 - rho * rho) ->
             kde_maxradius L sigma1 sigma2 rho (S fuel) = Some 0%Z).
  { intros L sigma1 sigma2 rho fuel Hwide.
    unfold kde_maxradius. cbn [kde_radius_loop].
    rewrite kde_probe_at_0, Rltb_true; auto.
    remember (TWOPI * sigma1 * sigma2 * sqrt (1 - rho * rho)) as A.
    apply Rmult_lt_reg_r with (r := A); [lra|].
    replace (1 / A * A) with 1 by (field; lra).
    lra. }
  split.
  - intros L sigma1 sigma2 rho fuel matrix cl _ Hwide.
    split; [now apply Hradius|].
    unfold matrix_kde_from_coords. rewrite Hradius by exact Hwide.
    now rewrite kde_deposit_radius_0.
  - intros g fuel coords Hkde Hwide. unfold train_tweetsmatrix.
    rewrite Hkde. unfold matrix_kde_from_coords.
    rewrite Hradius.
    + now rewrite !kde_deposit_radius_0.
    + replace (1 - 0 * 0) with 1 by ring. rewrite sqrt_1. lra.
Qed.

(** X7 with both deviations 13 degrees. *)
Lemma kde_wide_kernel_deposits_nothing_witness :
  matrix_kde_from_coords 2%Z 1 [0; 0] demo_documents 13 13 0 = Some [0; 0].
Proof.
  apply (proj1 kde_wide_kernel_deposits_nothing 2%Z 13 13 0 O [0; 0]
               demo_documents).
  - lra.
  - replace (1 - 0 * 0) with 1 by ring. rewrite sqrt_1.
    unfold TWOPI.
    assert (H : 10 ^ 18 = 1000000000000000000) by ring.
    rewrite H. lra.
Defined.

(** ** Normalisation in log space *)

Local Open Scope R_scope.

(** [exp] of the C library on a double.  A result below [2^-1075], half
    the least positive double, is returned as zero: that is the case for
    arguments below [-1075 * log 2], about -745.13.  The rounding of the
    other results is not modelled. *)
Definition c_exp (x : R) : R :=
  if Rltb (exp x) (/ 2 ^ 1075) then 0 else exp x.

(** The first loop of [matrix_normalize_log]: the maximum, started at
    [-DBL_MAX]. *)
Definition normalize_max (L : Z) (matrix : list R) : R :=
  for_range 0 (L * latgranularity L)
    (fun c max => if Rltb max (aget 0 matrix c) then aget 0 matrix c
                  else max)
    (- DBL_MAX).

(** [matrix_normalize_log]: the maximum; then [exp(matrix[c] - max)] in
    every cell and their sum; then the division. *)
Definition matrix_normalize_log (L : Z) (matrix : list R) : list R :=
  let n := (L * latgranularity L)%Z in
  let max := normalize_max L matrix in
  let '(matrix, sum) :=
    for_range 0 n
      (fun c ms =>
         let matrix := aset (fst ms) c (c_exp (aget 0 (fst ms) c - max)) in
         (matrix, snd ms + aget 0 matrix c))
      (matrix, 0) in
  for_range 0 n (fun c matrix => aset matrix c (aget 0 matrix c / sum))
            matrix.

Lemma list_sum_app (a b : list R) :
  list_sum (a ++ b) = list_sum a + list_sum b.
Proof.
  unfold list_sum. induction a as [|x a IH]; cbn [app fold_right].
  - lra.
  - rewrite IH. lra.
Qed.

Lemma list_sum_map_scale (k : R) (f : R -> R) (m : list R) :
  list_sum (map (fun v => k * f v) m) = k * list_sum (map f m).
Proof.
  unfold list_sum. induction m as [|x m IH]; cbn [map fold_right].
  - lra.
  - rewrite IH. lra.
Qed.

Lemma list_sum_nonneg (m : list R) :
  Forall (fun v => 0 <= v) m -> 0 <= list_sum m.
Proof.
  unfold list_sum. induction 1 as [|x m Hx _ IH]; cbn [fold_right]; lra.
Qed.

Lemma list_sum_member (m : list R) (v : R) :
  Forall (fun v => 0 <= v) m -> In v m -> v <= list_sum m.
Proof.
  unfold list_sum. induction 1 as [|x m Hx Hm IH]; intros Hin.
  - contradiction.
  - cbn [fold_right]. pose proof (list_sum_nonneg m Hm) as Hs.
    unfold list_sum in Hs. destruct Hin as [->|Hin]; [lra|].
    specialize (IH Hin). lra.
Qed.

Lemma c_exp_nonneg (x : R) : 0 <= c_exp x.
Proof.
  unfold c_exp. destruct (Rltb _ _); [lra|]. left. apply exp_pos.
Qed.

Lemma c_exp_0 : c_exp 0 = 1.
Proof.
  unfold c_exp. rewrite exp_0.
  assert (H : / 2 ^ 1075 <= 1).
  { rewrite <- Rinv_1. apply Rinv_le_contravar; [lra|].
    apply pow_R1_Rle. lra. }
  now rewrite (Rltb_false _ _ H).
Qed.

Lemma c_exp_monotone (x y : R) : x <= y -> c_exp x <= c_exp y.
Proof.
  intros H. unfold c_exp.
  assert (He : exp x <= exp y).
  { destruct H as [H| ->]; [left; now apply exp_increasing | lra]. }
  pose proof (exp_pos y).
  destruct (Rlt_dec (exp x) (/ 2 ^ 1075)) as [Hx|Hx].
  - rewrite (Rltb_true _ _ Hx). destruct (Rltb _ _); lra.
  - rewrite (Rltb_false (exp x)) by lra. rewrite (Rltb_false (exp y)) by lra.
    exact He.
Qed.

Lemma c_exp_regular (x : R) : / 2 ^ 1075 <= exp x -> c_exp x = exp x.
Proof. intros H. unfold c_exp. now rewrite (Rltb_false _ _ H). Qed.

(** The maximum the first loop finds. *)
Lemma normalize_max_spec (L : Z) (matrix : list R) :
  (0 <= L * latgranularity L)%Z ->
  (forall c, (0 <= c < L * latgranularity L)%Z ->
             aget 0 matrix c <= normalize_max L matrix) /\
  (normalize_max L matrix = - DBL_MAX \/
   exists c, (0 <= c < L * latgranularity L)%Z /\
             normalize_max L matrix = aget 0 matrix c).
Proof.
  intros HN. unfold normalize_max.
  pose (Inv := fun (j : Z) (mx : R) =>
    (forall c, (0 <= c < j)%Z -> aget 0 matrix c <= mx) /\
    (mx = - DBL_MAX \/ exists c, (0 <= c < j)%Z /\ mx = aget 0 matrix c)).
  apply (for_range_invariant Inv); unfold Inv; [exact HN| |].
  - split; [intros c Hc; lia | now left].
  - intros j mx Hj [Hup Hatt].
    destruct (Rlt_dec mx (aget 0 matrix j)) as [Hlt|Hnlt].
    + rewrite (Rltb_true _ _ Hlt). split.
      * intros c Hc. destruct (Z.eq_dec c j) as [->|]; [lra|].
        specialize (Hup c ltac:(lia)). lra.
      * right. exists j. split; [lia | reflexivity].
    + rewrite (Rltb_false _ _ (Rnot_lt_le _ _ Hnlt)).
      apply Rnot_lt_le in Hnlt. split.
      * intros c Hc. destruct (Z.eq_dec c j) as [->|]; [exact Hnlt|].
        apply Hup. lia.
      * destruct Hatt as [->|(c & Hc & ->)]; [now left|].
        right. exists c. split; [lia | reflexivity].
Qed.

(** The middle loop of [matrix_normalize_log], for any function in the
    place of the exponential. *)
Lemma exp_loop_spec (f : R -> R) (matrix : list R) (n : Z) :
  Z.of_nat (length matrix) = n ->
  for_range 0 n
    (fun c ms =>
       (aset (fst ms) c (f (aget 0 (fst ms) c)),
        snd ms + aget 0 (aset (fst ms) c (f (aget 0 (fst ms) c))) c))
    (matrix, 0)
  = (map f matrix, list_sum (map f matrix)).
Proof.
  intros Hlen.
  pose (Inv := fun (j : Z) (ms : list R * R) =>
    length (fst ms) = length matrix /\
    (forall c, in_bounds matrix c = true ->
       aget 0 (fst ms) c
       = if (c <? j)%Z then f (aget 0 matrix c) else aget 0 matrix c) /\
    snd ms = list_sum (firstn (Z.to_nat j) (map f matrix))).
  assert (H : Inv n (for_range 0 n
    (fun c ms =>
       (aset (fst ms) c (f (aget 0 (fst ms) c)),
        snd ms + aget 0 (aset (fst ms) c (f (aget 0 (fst ms) c))) c))
    (matrix, 0))).
  { apply (for_range_invariant Inv); [lia| |].
    - split; [reflexivity|]. split; [|reflexivity].
      intros c Hc. apply in_bounds_iff in Hc.
      replace (c <? 0)%Z with false by (symmetry; apply Z.ltb_ge; lia).
      reflexivity.
    - intros j [mat sum] Hj (Hl & Hc & Hs). unfold Inv.
      cbn [fst snd] in *.
      assert (Hbj : in_bounds matrix j = true) by (apply in_bounds_iff; lia).
      assert (Hbj' : in_bounds mat j = true)
        by (unfold in_bounds in *; now rewrite Hl).
      split; [now rewrite length_aset|]. split.
      + intros c Hb. destruct (Z.eq_dec j c) as [->|Hne].
        * rewrite aget_aset_eq by exact Hbj'. rewrite (Hc c Hb).
          replace (c <? c)%Z with false by (symmetry; apply Z.ltb_ge; lia).
          replace (c <? c + 1)%Z with true by (symmetry; apply Z.ltb_lt; lia).
          reflexivity.
        * rewrite aget_aset_neq by exact Hne. rewrite (Hc c Hb).
          replace (c <? j + 1)%Z with (c <? j)%Z; auto.
          destruct (Z.ltb_spec c j); symmetry;
            [apply Z.ltb_lt | apply Z.ltb_ge]; lia.
      + rewrite aget_aset_eq by exact Hbj'. rewrite (Hc j Hbj).
        replace (j <? j)%Z with false by (symmetry; apply Z.ltb_ge; lia).
        replace (Z.to_nat (j + 1)) with (S (Z.to_nat j)) by lia.
        rewrite (firstn_snoc _ _ (f (aget 0 matrix j))).
        * rewrite list_sum_app, Hs. unfold list_sum at 3. cbn. lra.
        * rewrite nth_error_map. unfold aget. rewrite Hbj.
          rewrite (nth_error_nth' matrix 0) by lia. reflexivity. }
  destruct (for_range 0 n _ (matrix, 0)) as [mat sum].
  destruct H as (Hl & Hc & Hs). cbn [fst snd] in *. f_equal.
  - apply (aget_ext 0); [now rewrite length_map|].
    intros i Hi. rewrite Hl in Hi.
    assert (Hb : in_bounds matrix i = true) by (apply in_bounds_iff; lia).
    rewrite (Hc i Hb).
    replace (i <? n)%Z with true by (symmetry; apply Z.ltb_lt; lia).
    symmetry. apply (aget_map_in f). exact Hb.
  - rewrite Hs, firstn_all2; auto. rewrite length_map. lia.
Qed.

(** The cells after the second loop, and their sum. *)
Definition normalize_exps (L : Z) (matrix : list R) : list R :=
  map (fun v => c_exp (v - normalize_max L matrix)) matrix.

Lemma matrix_normalize_log_cells (L : Z) (matrix : list R) :
  Z.of_nat (length matrix) = (L * latgranularity L)%Z ->
  matrix_normalize_log L matrix
  = map (fun v => v / list_sum (normalize_exps L matrix))
        (normalize_exps L matrix).
Proof.
  intros Hlen. unfold matrix_normalize_log. cbv zeta.
  pose proof (exp_loop_spec (fun v => c_exp (v - normalize_max L matrix))
                            matrix _ Hlen) as Hloop.
  cbv beta in Hloop. rewrite Hloop. fold (normalize_exps L matrix).
  set (mat := normalize_exps L matrix).
  assert (Hlm : Z.of_nat (length mat) = (L * latgranularity L)%Z)
    by (unfold mat, normalize_exps; now rewrite length_map).
  destruct (for_range_all_cells 0 (fun _ v => v / list_sum mat)
              (L * latgranularity L) mat Hlm) as [Hl Hc].
  apply (aget_ext 0).
  - rewrite Hl. now rewrite length_map.
  - intros i Hi. rewrite Hl in Hi. rewrite Hc by lia.
    symmetry. apply (aget_map_in (fun v => v / list_sum mat)).
    apply in_bounds_iff. lia.
Qed.

Lemma normalize_exps_nonneg (L : Z) (matrix : list R) :
  Forall (fun v => 0 <= v) (normalize_exps L matrix).
Proof.
  apply Forall_forall. intros v Hv. apply in_map_iff in Hv.
  destruct Hv as (u & <- & _). apply c_exp_nonneg.
Qed.

(** The greatest cell contributes 1 to the sum. *)
Lemma normalize_sum_ge_1 (L : Z) (matrix : list R) :
  (0 < L * latgranularity L)%Z ->
  Z.of_nat (length matrix) = (L * latgranularity L)%Z ->
  (forall c, (0 <= c < L * latgranularity L)%Z ->
             - DBL_MAX <= aget 0 matrix c) ->
  (exists c, (0 <= c < L * latgranularity L)%Z /\
             aget 0 matrix c = normalize_max L matrix) /\
  1 <= list_sum (normalize_exps L matrix).
Proof.
  intros HN Hlen Hfin.
  destruct (normalize_max_spec L matrix ltac:(lia)) as [Hup Hatt].
  assert (Hc : exists c, (0 <= c < L * latgranularity L)%Z /\
                         aget 0 matrix c = normalize_max L matrix).
  { destruct Hatt as [E|(c & Hc & E)].
    - exists 0%Z. split; [lia|].
      specialize (Hup 0%Z ltac:(lia)). specialize (Hfin 0%Z ltac:(lia)). lra.
    - exists c. split; [exact Hc | now symmetry]. }
  split; [exact Hc|]. destruct Hc as (c & Hc & E).
  apply (list_sum_member _ 1 (normalize_exps_nonneg L matrix)).
  unfold normalize_exps. apply in_map_iff.
  exists (aget 0 matrix c). split.
  - rewrite E, Rminus_diag. apply c_exp_0.
  - apply aget_In. apply in_bounds_iff. lia.
Qed.

(** X8: [matrix_normalize_log] is the softmax, cut off where [exp]
    underflows.  On a grid with at least one cell and for a matrix of [N]
    finite scores, the first loop finds the greatest score [max]; cell [c]
    of the result is [exp(matrix[c] - max)] divided by the sum of these
    exponentials over all cells, where an exponential below [2^-1075]
    counts as zero.  The result sums to 1, its entries lie between 0 and
    1, and a cell with a greater score never gets less.  A cell whose
    score is so far below the greatest (about 745.13) that the exponential
    underflows comes out as exactly 0, so such cells are tied; when no
    cell is that far below, the result is [exp(matrix[c])] over the sum of
    all [exp(matrix[j])]. *)
Theorem normalize_log_is_softmax_with_underflow (L : Z) (matrix : list R) :
  (0 < L * latgranularity L)%Z ->
  Z.of_nat (length matrix) = (L * latgranularity L)%Z ->
  (forall c, (0 <= c < L * latgranularity L)%Z ->
             - DBL_MAX <= aget 0 matrix c) ->
  length (matrix_normalize_log L matrix) = length matrix /\
  (forall c, (0 <= c < L * latgranularity L)%Z ->
             aget 0 matrix c <= normalize_max L matrix) /\
  (exists c, (0 <= c < L * latgranularity L)%Z /\
             aget 0 matrix c = normalize_max L matrix) /\
  (forall c, (0 <= c < L * latgranularity L)%Z ->
     aget 0 (matrix_normalize_log L matrix) c
     = c_exp (aget 0 matrix c - normalize_max L matrix)
       / list_sum (map (fun v => c_exp (v - normalize_max L matrix))
                       matrix)) /\
  list_sum (matrix_normalize_log L matrix) = 1 /\
  Forall (fun v => 0 <= v <= 1) (matrix_normalize_log L matrix) /\
  (forall c c', (0 <= c < L * latgranularity L)%Z ->
     (0 <= c' < L * latgranularity L)%Z ->
     aget 0 matrix c <= aget 0 matrix c' ->
     aget 0 (matrix_normalize_log L matrix) c
     <= aget 0 (matrix_normalize_log L matrix) c') /\
  (forall c, (0 <= c < L * latgranularity L)%Z ->
     exp (aget 0 matrix c - normalize_max L matrix) < / 2 ^ 1075 ->
     aget 0 (matrix_normalize_log L matrix) c = 0) /\
  ((forall c, (0 <= c < L * latgranularity L)%Z ->
      / 2 ^ 1075 <= exp (aget 0 matrix c - normalize_max L matrix)) ->
   forall c, (0 <= c < L * latgranularity L)%Z ->
     aget 0 (matrix_normalize_log L matrix) c
     = exp (aget 0 matrix c) / list_sum (map exp matrix)).
Proof.
  intros HN Hlen Hfin.
  rewrite (matrix_normalize_log_cells L matrix Hlen).
  destruct (normalize_max_spec L matrix ltac:(lia)) as [Hup _].
  destruct (normalize_sum_ge_1 L matrix HN Hlen Hfin) as [Hatt Hs1].
  pose proof (normalize_exps_nonneg L matrix) as Hnn.
  fold (normalize_exps L matrix).
  set (mx := normalize_max L matrix) in *.
  set (S := list_sum (normalize_exps L matrix)) in *.
  assert (HS : 0 < / S) by (apply Rinv_0_lt_compat; lra).
  assert (Hcell : forall c, (0 <= c < L * latgranularity L)%Z ->
            aget 0 (map (fun v => v / S) (normalize_exps L matrix)) c
            = c_exp (aget 0 matrix c - mx) / S).
  { intros c Hc.
    rewrite (aget_map_in (fun v => v / S) 0 0).
    - unfold normalize_exps. fold mx.
      rewrite (aget_map_in (fun v => c_exp (v - mx)) 0 0); auto.
      apply in_bounds_iff. lia.
    - apply in_bounds_iff. unfold normalize_exps. rewrite length_map. lia. }
  split; [unfold normalize_exps; now rewrite !length_map|].
  split; [exact Hup|]. split; [exact Hatt|]. split; [exact Hcell|].
  split; [|split; [|split; [|split]]].
  - rewrite list_sum_map_div. fold S. field. lra.
  - apply Forall_forall. intros v Hv. apply in_map_iff in Hv.
    destruct Hv as (u & <- & Hu).
    assert (H0 : 0 <= u) by (rewrite Forall_forall in Hnn; now apply Hnn).
    pose proof (list_sum_member _ u Hnn Hu) as H1. fold S in H1.
    split.
    + apply Rmult_le_pos; lra.
    + apply Rmult_le_reg_r with S; [lra|].
      unfold Rdiv. rewrite Rmult_assoc, Rinv_l by lra. lra.
  - intros c c' Hc Hc' Hle. rewrite (Hcell c Hc), (Hcell c' Hc').
    apply Rmult_le_compat_r; [lra|]. apply c_exp_monotone. lra.
  - intros c Hc Hu. rewrite (Hcell c Hc). unfold c_exp.
    rewrite (Rltb_true _ _ Hu). unfold Rdiv. apply Rmult_0_l.
  - intros Hreg c Hc. rewrite (Hcell c Hc).
    assert (E : normalize_exps L matrix
                = map (fun v => exp (- mx) * exp v) matrix).
    { unfold normalize_exps. fold mx. apply map_ext_in. intros v Hv.
      destruct (In_aget 0 matrix v Hv) as (i & Hi & <-).
      apply in_bounds_iff in Hi.
      rewrite c_exp_regular by (apply Hreg; lia).
      unfold Rminus. rewrite exp_plus. ring. }
    unfold S. rewrite E, list_sum_map_scale.
    rewrite c_exp_regular by (now apply Hreg).
    assert (Hp : 0 < list_sum (map exp matrix)).
    { pose proof (exp_pos (- mx)) as Hm.
      unfold S in Hs1. rewrite E, list_sum_map_scale in Hs1.
      destruct (Rle_or_lt (list_sum (map exp matrix)) 0) as [Hn|]; auto.
      assert (exp (- mx) * list_sum (map exp matrix) <= 0) by nra. lra. }
    unfold Rminus. rewrite exp_plus.
    pose proof (exp_pos (- mx)). field. lra.
Qed.

Lemma exp_ge_pow2 (n : nat) : 2 ^ n <= exp (INR n).
Proof.
  induction n as [|n IH].
  - simpl. rewrite exp_0. lra.
  - rewrite S_INR, exp_plus. cbn [pow].
    pose proof (exp_ineq1 1 ltac:(lra)) as H1.
    pose proof (pow_lt 2 n ltac:(lra)) as H2.
    nra.
Qed.

(** X8 on two cells with the scores -1000 and -3000: the second cell is
    exactly 0. *)
Lemma normalize_log_is_softmax_with_underflow_witness :
  aget 0 (matrix_normalize_log 2 [-1000; -3000]) 1 = 0.
Proof.
  assert (HN : (0 < 2 * latgranularity 2)%Z) by (cbv; reflexivity).
  pose proof DBL_MAX_large as HD.
  destruct (normalize_log_is_softmax_with_underflow 2 [-1000; -3000] HN
              eq_refl)
    as (_ & Hup & (c0 & Hc0 & Hatt) & _ & _ & _ & _ & Hzero & _).
  { intros c Hc. change (2 * latgranularity 2)%Z with 2%Z in Hc.
    assert (Hcases : c = 0%Z \/ c = 1%Z) by lia.
    destruct Hcases as [-> | ->].
    - change (aget 0 [-1000; -3000] 0) with (-1000). lra.
    - change (aget 0 [-1000; -3000] 1) with (-3000). lra. }
  change (2 * latgranularity 2)%Z with 2%Z in *.
  assert (Emx : normalize_max 2 [-1000; -3000] = -1000).
  { specialize (Hup 0%Z ltac:(lia)). change (aget 0 [-1000; -3000] 0)
      with (-1000) in Hup.
    assert (Hcases : c0 = 0%Z \/ c0 = 1%Z) by lia.
    destruct Hcases as [-> | ->].
    - now rewrite <- Hatt.
    - change (aget 0 [-1000; -3000] 1) with (-3000) in Hatt. lra. }
  apply (Hzero 1%Z ltac:(lia)). rewrite Emx.
  change (aget 0 [-1000; -3000] 1) with (-3000).
  replace (-3000 - -1000) with (- INR 2000)
    by (rewrite INR_IZR_INZ; simpl; lra).
  rewrite exp_Ropp.
  pose proof (exp_ge_pow2 2000) as He.
  assert (Hp : 2 ^ 1075 < 2 ^ 2000) by (apply Rlt_pow; [lra | lia]).
  assert (H0 : 0 < 2 ^ 1075) by (apply pow_lt; lra).
  apply Rinv_lt_contravar; [|lra].
  apply Rmult_lt_0_compat; [exact H0 | apply exp_pos].
Defined.

(** ** The aggregate feature-mass matrix built by the trainer *)















(** ** More on the feature store *)

Local Open Scope R_scope.

(** [word_coord_add_sparsematrix] *)
Definition word_coord_add_sparsematrix (st : wordstore) (word : string)
           (sm : list (sparsematrix R)) : option wordstore :=
  let wordindex := wordhash_find (global_wh_train st) word in
  if (wordindex =? -1)%Z then None
  else
    let wi := aget wordinfo_zero (wc_list st) wordindex in
    match aset_checked (wc_list st) wordindex
            (mk_wordinfo (wi_coordinate_list wi) (Some sm) (wi_word wi)
                         (wi_weight wi) (wi_count wi)) with
    | Some list' =>
        Some (mk_wordstore list' (wc_list_size st) (wc_list_max st)
                           (global_wh_train st))
    | None => None
    end.

(** The record of a word of the store. *)
Definition word_record (st : wordstore) (word : string) : wordinfo :=
  aget wordinfo_zero (wc_list st) (wordhash_find (global_wh_train st) word).

(** The store is well formed and no two words share an index. *)
Definition wordstore_ok (st : wordstore) : Prop :=
  wordstore_wf st /\
  forall w w' v,
    wh_lookup (wh_table (global_wh_train st)) w = Some v ->
    wh_lookup (wh_table (global_wh_train st)) w' = Some v -> w = w'.

Lemma wordstore_init_ok : wordstore_ok wordstore_init.
Proof. split; [exact wordstore_init_wf | discriminate]. Qed.

(** The points a call of [word_coord_add_word] adds. *)
Definition added_points (to_float : R -> R) (lat lon : R)
  : list coordinate :=
  if negb (Reqb lat 0) || negb (Reqb lon 0)
  then [mk_coord (to_float lat) (to_float lon)] else [].

Lemma find_known_lookup (st : wordstore) (w : string) :
  wordstore_wf st ->
  wordhash_find (global_wh_train st) w <> (-1)%Z ->
  wh_lookup (wh_table (global_wh_train st)) w
  = Some (wordhash_find (global_wh_train st) w) /\
  (0 <= wordhash_find (global_wh_train st) w
   < wh_occupancy (global_wh_train st))%Z.
Proof.
  intros (_ & _ & _ & _ & Hvals) Hf. unfold wordhash_find in *.
  destruct (wh_lookup _ w) as [v|] eqn:E; [|congruence].
  split; [reflexivity | exact (Hvals _ _ E)].
Qed.

Section StoreEffects.
Variable to_float : R -> R.

(** The whole effect of [word_coord_add_word] on a store: the word is in
    the store afterwards, its record is the old one (or a fresh one with
    count -1) with the count raised and the point added in front, and
    nothing else changes. *)
Lemma add_word_effect (st : wordstore) (word : string) (lat lon : R)
      (storeword : bool) :
  wordstore_ok st ->
  exists st',
    word_coord_add_word to_float st word lat lon storeword = Some st' /\
    wordstore_ok st' /\
    wordhash_find (global_wh_train st') word <> (-1)%Z /\
    (let base :=
       if (wordhash_find (global_wh_train st) word =? -1)%Z
       then mk_wordinfo [] None (if storeword then Some word else None) 0
                        (-1)
       else word_record st word in
     word_record st' word
     = mk_wordinfo (added_points to_float lat lon ++ wi_coordinate_list base)
                   (wi_sparsematrix base) (wi_word base) (wi_weight base)
                   (wi_count base + 1)) /\
    (forall w, w <> word ->
       wordhash_find (global_wh_train st') w
       = wordhash_find (global_wh_train st) w /\
       (wordhash_find (global_wh_train st) w <> (-1)%Z ->
        word_record st' w = word_record st w)).
Proof.
  intros [Hwf Hinj].
  pose proof Hwf as (Hsz & Hlen & Hocc & Hzero & Hvals).
  destruct (Z.eq_dec (wordhash_find (global_wh_train st) word) (-1))
    as [Habs|Hfound].
  - pose proof (wordhash_find_absent st word Hwf Habs) as Hnone.
    set (occ := wh_occupancy (global_wh_train st)) in *.
    unfold word_coord_add_word. rewrite Habs.
    cbn [Z.eqb Pos.eqb wordhash_insert]. fold occ.
    set (grown := if (occ >=? wc_list_size st)%Z
                  then (wc_list st ++ alloc (wc_list_size st) wordinfo_zero,
                        (wc_list_size st * 2)%Z)
                  else (wc_list st, wc_list_size st)).
    assert (Hg : Z.of_nat (length (fst grown)) = snd grown /\
                 (occ < snd grown)%Z /\
                 forall i, aget wordinfo_zero (fst grown) i
                           = aget wordinfo_zero (wc_list st) i).
    { unfold grown. destruct (occ >=? wc_list_size st)%Z eqn:E; simpl.
      - apply Z.geb_le in E. rewrite length_app, length_alloc.
        split; [lia|]. split; [lia|]. intros i. apply aget_app_alloc.
      - rewrite Z.geb_leb in E. apply Z.leb_gt in E. auto. }
    destruct grown as [list size]. simpl in Hg.
    destruct Hg as (Hlen' & Hocc' & Hsame).
    assert (Hb : in_bounds list occ = true) by (apply in_bounds_iff; lia).
    assert (Hlook : forall w,
               wh_lookup (wh_table (global_wh_train st) ++ [(word, occ)]) w
               = if String.eqb word w then Some occ
                 else wh_lookup (wh_table (global_wh_train st)) w).
    { intros w. rewrite wh_lookup_app.
      destruct (String.eqb word w) eqn:E.
      - apply String.eqb_eq in E. subst w. now rewrite Hnone.
      - destruct (wh_lookup _ w); reflexivity. }
    eexists. split.
    { rewrite aset_checked_some by exact Hb.
      cbv zeta. cbn [wc_list wc_list_size wc_list_max global_wh_train].
      rewrite aset_checked_some by (rewrite in_bounds_aset; exact Hb).
      rewrite aget_aset_eq by exact Hb.
      rewrite Hsame, (Hzero occ) by lia.
      cbn [wi_coordinate_list wi_sparsematrix wi_word wi_weight wi_count
           wordinfo_zero].
      reflexivity. }
    split; [|split; [|split]].
    + split.
      * unfold wordstore_wf.
        cbn [wc_list wc_list_size wc_list_max global_wh_train wh_occupancy
             wh_table].
        split; [lia|]. split; [now rewrite !length_aset|]. split; [lia|].
        split.
        -- intros i Hi. rewrite !aget_aset_neq by lia.
           rewrite Hsame. apply Hzero. lia.
        -- intros w v Hv. rewrite Hlook in Hv.
           destruct (String.eqb word w).
           ++ inversion Hv. lia.
           ++ specialize (Hvals _ _ Hv). fold occ in Hvals. lia.
      * cbn [global_wh_train wh_table]. intros w w' v H1 H2.
        rewrite Hlook in H1, H2.
        destruct (String.eqb word w) eqn:E1, (String.eqb word w') eqn:E2.
        -- apply String.eqb_eq in E1, E2. congruence.
        -- inversion H1; subst v. specialize (Hvals _ _ H2).
           fold occ in Hvals. lia.
        -- inversion H2; subst v. specialize (Hvals _ _ H1).
           fold occ in Hvals. lia.
        -- now apply (Hinj w w' v).
    + unfold wordhash_find. cbn [global_wh_train wh_table].
      rewrite Hlook, String.eqb_refl. lia.
    + cbv zeta. unfold word_record at 1, wordhash_find.
      cbn [global_wh_train wh_table wc_list].
      rewrite Hlook, String.eqb_refl.
      rewrite aget_aset_eq by (rewrite in_bounds_aset; exact Hb).
      cbn [Z.eqb Pos.eqb wi_coordinate_list wi_sparsematrix wi_word
           wi_weight wi_count].
      unfold added_points.
      destruct (negb (Reqb lat 0) || negb (Reqb lon 0)), storeword;
        reflexivity.
    + intros w Hne.
      assert (Hf : wordhash_find
                     (mk_wordhash (wh_table (global_wh_train st)
                                   ++ [(word, occ)]) (occ + 1)) w
                   = wordhash_find (global_wh_train st) w).
      { unfold wordhash_find. cbn [wh_table]. rewrite Hlook.
        replace (String.eqb word w) with false; auto.
        symmetry. apply String.eqb_neq. congruence. }
      cbn [global_wh_train]. split; [exact Hf|]. intros Hk.
      unfold word_record. cbn [global_wh_train wc_list]. rewrite Hf.
      destruct (find_known_lookup st w Hwf Hk) as [_ Hr]. fold occ in Hr.
      rewrite !aget_aset_neq by lia. apply Hsame.
  - destruct (find_known_lookup st word Hwf Hfound) as [Hl Hrange].
    set (i := wordhash_find (global_wh_train st) word) in *.
    unfold word_coord_add_word. fold i.
    replace (i =? -1)%Z with false by (symmetry; now apply Z.eqb_neq).
    cbv zeta.
    assert (Hb : in_bounds (wc_list st) i = true)
      by (apply in_bounds_iff; lia).
    eexists. split; [rewrite aset_checked_some by exact Hb; reflexivity|].
    split; [|split; [|split]].
    + split; [|exact Hinj].
      unfold wordstore_wf.
      cbn [wc_list wc_list_size wc_list_max global_wh_train].
      split; [lia|]. split; [now rewrite length_aset|]. split; [lia|].
      split; [|exact Hvals].
      intros j Hj. rewrite aget_aset_neq by lia. now apply Hzero.
    + exact Hfound.
    + unfold word_record. cbn [global_wh_train wc_list]. fold i.
      rewrite aget_aset_eq by exact Hb. unfold added_points.
      destruct (negb (Reqb lat 0) || negb (Reqb lon 0)); reflexivity.
    + intros w Hne. cbn [global_wh_train]. split; [reflexivity|].
      intros Hk. unfold word_record. cbn [global_wh_train wc_list].
      destruct (find_known_lookup st w Hwf Hk) as [Hl' _].
      rewrite aget_aset_neq; auto.
      intros E. apply Hne. apply (Hinj w word i); [|exact Hl].
      rewrite Hl'. f_equal. symmetry. exact E.
Qed.
End StoreEffects.

(** A field of a known word's record overwritten. *)
Lemma record_update (st : wordstore) (word : string) (wi : wordinfo) :
  wordstore_ok st ->
  wordhash_find (global_wh_train st) word <> (-1)%Z ->
  let st' := mk_wordstore
               (aset (wc_list st) (wordhash_find (global_wh_train st) word)
                     wi)
               (wc_list_size st) (wc_list_max st) (global_wh_train st) in
  aset_checked (wc_list st) (wordhash_find (global_wh_train st) word) wi
  = Some (wc_list st') /\
  wordstore_ok st' /\
  word_record st' word = wi /\
  forall w, w <> word ->
    wordhash_find (global_wh_train st) w <> (-1)%Z ->
    word_record st' w = word_record st w.
Proof.
  intros [Hwf Hinj] Hfound st'.
  pose proof Hwf as (Hsz & Hlen & Hocc & Hzero & Hvals).
  destruct (find_known_lookup st word Hwf Hfound) as [Hl Hrange].
  set (i := wordhash_find (global_wh_train st) word) in *.
  assert (Hb : in_bounds (wc_list st) i = true) by (apply in_bounds_iff; lia).
  split; [now apply aset_checked_some|]. split; [|split].
  - split; [|exact Hinj]. unfold wordstore_wf, st'.
    cbn [wc_list wc_list_size wc_list_max global_wh_train].
    split; [lia|]. split; [now rewrite length_aset|]. split; [lia|].
    split; [|exact Hvals].
    intros j Hj. rewrite aget_aset_neq by lia. now apply Hzero.
  - unfold word_record, st'. cbn [global_wh_train wc_list]. fold i.
    now apply aget_aset_eq.
  - intros w Hne Hk. unfold word_record, st'. cbn [global_wh_train wc_list].
    destruct (find_known_lookup st w Hwf Hk) as [Hl' _].
    apply aget_aset_neq. intros E. apply Hne.
    apply (Hinj w word i); [|exact Hl]. rewrite Hl'. f_equal.
    symmetry. exact E.
Qed.

(** *** Sequences of observations *)

(** One call [word_coord_add_word(word, lat, lon, storeword)]. *)
Record add_call : Type := mk_call {
  call_word : string;
  call_lat : R;
  call_lon : R;
  call_storeword : bool
}.

Section Calls.
Variable to_float : R -> R.

Fixpoint run_calls (calls : list add_call) (st : wordstore)
  : option wordstore :=
  match calls with
  | [] => Some st
  | c :: rest =>
      match word_coord_add_word to_float st (call_word c) (call_lat c)
                                (call_lon c) (call_storeword c) with
      | Some st' => run_calls rest st'
      | None => None
      end
  end.

(** The calls made for the word [w]. *)
Definition calls_for (w : string) (calls : list add_call) : list add_call :=
  filter (fun c => String.eqb (call_word c) w) calls.

(** The points the calls add, the latest first. *)
Definition points_of (calls : list add_call) : list coordinate :=
  rev (flat_map (fun c => added_points to_float (call_lat c) (call_lon c))
                calls).

(** The record a word has after the calls [obs] have been made for it,
    [obs] not empty: the record it had, or a fresh one, with the points in
    front and the count raised by the number of calls. *)
Definition record_after (st : wordstore) (w : string) (obs : list add_call)
  : wordinfo :=
  let base :=
    if (wordhash_find (global_wh_train st) w =? -1)%Z
    then mk_wordinfo [] None
                     (match obs with
                      | c :: _ => if call_storeword c then Some w else None
                      | [] => None
                      end) 0 (-1)
    else word_record st w in
  mk_wordinfo (points_of obs ++ wi_coordinate_list base)
              (wi_sparsematrix base) (wi_word base) (wi_weight base)
              (wi_count base + Z.of_nat (length obs)).

Lemma added_points_rev (lat lon : R) :
  rev (added_points to_float lat lon) = added_points to_float lat lon.
Proof. unfold added_points. destruct (_ || _); reflexivity. Qed.

Lemma run_calls_effect (calls : list add_call) :
  forall st,
    wordstore_ok st ->
    exists st',
      run_calls calls st = Some st' /\
      wordstore_ok st' /\
      forall w,
        match calls_for w calls with
        | [] =>
            wordhash_find (global_wh_train st') w
            = wordhash_find (global_wh_train st) w /\
            (wordhash_find (global_wh_train st) w <> (-1)%Z ->
             word_record st' w = word_record st w)
        | obs =>
            wordhash_find (global_wh_train st') w <> (-1)%Z /\
            word_record st' w = record_after st w obs
        end.
Proof.
  induction calls as [|c calls IH]; intros st Hok.
  - exists st. split; [reflexivity|]. split; [exact Hok|].
    intros w. cbn. auto.
  - cbn [run_calls].
    destruct (add_word_effect to_float st (call_word c) (call_lat c)
                (call_lon c) (call_storeword c) Hok)
      as (st1 & Hadd & Hok1 & Hknown1 & Hrec1 & Hframe1).
    rewrite Hadd.
    destruct (IH st1 Hok1) as (st' & Hrun & Hok' & Heff).
    exists st'. split; [exact Hrun|]. split; [exact Hok'|].
    intros w. specialize (Heff w). unfold calls_for in *. cbn [filter].
    destruct (String.eqb (call_word c) w) eqn:Ew.
    + apply String.eqb_eq in Ew. subst w.
      cbv zeta in Hrec1.
      destruct (filter _ calls) as [|c' obs'] eqn:Eobs.
      * destruct Heff as [Hf Hr]. split; [congruence|].
        rewrite (Hr Hknown1), Hrec1. unfold record_after, points_of.
        cbn [flat_map length]. rewrite app_nil_r, added_points_rev.
        destruct (wordhash_find (global_wh_train st) (call_word c) =? -1)%Z;
          reflexivity.
      * destruct Heff as [Hf Hr]. split; [exact Hf|].
        rewrite Hr. unfold record_after at 1.
        replace (wordhash_find (global_wh_train st1) (call_word c) =? -1)%Z
          with false by (symmetry; now apply Z.eqb_neq).
        rewrite Hrec1. unfold record_after, points_of.
        cbn [wi_coordinate_list wi_sparsematrix wi_word wi_weight wi_count].
        change (flat_map (fun c0 => added_points to_float (call_lat c0)
                                                  (call_lon c0))
                         (c :: c' :: obs'))
          with (added_points to_float (call_lat c) (call_lon c)
                ++ flat_map (fun c0 => added_points to_float (call_lat c0)
                                                    (call_lon c0))
                            (c' :: obs')).
        rewrite rev_app_distr, added_points_rev, <- app_assoc.
        destruct (wordhash_find (global_wh_train st) (call_word c) =? -1)%Z;
          cbn [wi_coordinate_list wi_sparsematrix wi_word wi_weight wi_count];
          f_equal; cbn [length]; lia.
    + apply String.eqb_neq in Ew.
      destruct (Hframe1 w ltac:(congruence)) as [Hf1 Hr1].
      destruct (filter _ calls) as [|c' obs'] eqn:Eobs.
      * destruct Heff as [Hf Hr]. split; [congruence|].
        intros Hk. rewrite Hr by congruence. now apply Hr1.
      * destruct Heff as [Hf Hr]. split; [exact Hf|].
        rewrite Hr. unfold record_after. rewrite Hf1.
        destruct (wordhash_find (global_wh_train st) w =? -1)%Z eqn:E;
          [reflexivity|].
        apply Z.eqb_neq in E. now rewrite (Hr1 E).
Qed.
End Calls.

(** *** Reading the training data *)

Section Training.
Variable to_float : R -> R.
(** [strtod(next_field, NULL)]; nothing is assumed about it. *)
Variable strtod : string -> R.
(** [global_wh_stopwords]; [None] is the [NULL] pointer. *)
Variable global_wh_stopwords : option wordhash.






















End Training.

(** The points of a list of observed coordinates as [word_coord_add_word]
    stores them: (0, 0) is left out, the others are converted to
    [float]. *)
Definition stored_points (to_float : R -> R) (obs : list (R * R))
  : list coordinate :=
  map (fun o => mk_coord (to_float (fst o)) (to_float (snd o)))
      (filter (fun o => negb (Reqb (fst o) 0) || negb (Reqb (snd o) 0)) obs).

Lemma points_of_stored (to_float : R -> R) (calls : list add_call) :
  points_of to_float calls
  = rev (stored_points to_float
           (map (fun c => (call_lat c, call_lon c)) calls)).
Proof.
  unfold points_of, stored_points. f_equal.
  induction calls as [|c calls IH]; cbn [flat_map map filter fst snd]; auto.
  rewrite IH. unfold added_points.
  destruct (negb (Reqb (call_lat c) 0) || negb (Reqb (call_lon c) 0));
    reflexivity.
Qed.


(** X11: the weight of a feature.  In a well-formed store without shared
    indices, [word_coord_set_weight] on a word of the store returns, and
    afterwards [word_coord_get_weight] gives the new weight for the word
    and the old one for every other word, while counts, points and sparse
    matrices are as before; on a word that is not in the store the three
    accessors and [word_coord_add_sparsematrix] stop the program. *)
Theorem weight_set_then_get (st : wordstore) (word : string) (weight : R) :
  wordstore_ok st ->
  (wordhash_find (global_wh_train st) word <> (-1)%Z ->
   exists st',
     word_coord_set_weight st word weight = Some st' /\
     wordstore_ok st' /\
     word_coord_get_weight st' word = Some weight /\
     word_coord_get_count st' word = word_coord_get_count st word /\
     wi_coordinate_list (word_record st' word)
     = wi_coordinate_list (word_record st word) /\
     wi_sparsematrix (word_record st' word)
     = wi_sparsematrix (word_record st word) /\
     forall w, w <> word ->
       word_coord_get_weight st' w = word_coord_get_weight st w /\
       word_coord_get_count st' w = word_coord_get_count st w) /\
  (wordhash_find (global_wh_train st) word = (-1)%Z ->
   word_coord_set_weight st word weight = None /\
   word_coord_get_weight st word = None /\
   word_coord_get_count st word = None /\
   forall sm, word_coord_add_sparsematrix st word sm = None).
Proof.
  intros Hok. split.
  - intros Hfound.
    set (wi := mk_wordinfo (wi_coordinate_list (word_record st word))
                           (wi_sparsematrix (word_record st word))
                           (wi_word (word_record st word)) weight
                           (wi_count (word_record st word))).
    destruct (record_update st word wi Hok Hfound)
      as (Hset & Hok' & Hrec & Hframe).
    eexists. split.
    { unfold word_coord_set_weight.
      replace (wordhash_find (global_wh_train st) word =? -1)%Z with false
        by (symmetry; now apply Z.eqb_neq).
      cbv zeta. fold (word_record st word). fold wi. rewrite Hset.
      reflexivity. }
    cbn [wc_list] in *.
    split; [exact Hok'|].
    unfold word_coord_get_weight, word_coord_get_count.
    cbn [global_wh_train].
    replace (wordhash_find (global_wh_train st) word =? -1)%Z with false
      by (symmetry; now apply Z.eqb_neq).
    unfold word_record in Hrec. cbn [global_wh_train] in Hrec.
    rewrite !Hrec. split; [reflexivity|]. split; [reflexivity|].
    split; [unfold word_record; cbn [global_wh_train]; now rewrite Hrec|].
    split; [unfold word_record; cbn [global_wh_train]; now rewrite Hrec|].
    intros w Hne.
    destruct (Z.eq_dec (wordhash_find (global_wh_train st) w) (-1))
      as [E|E].
    + rewrite E. cbn. auto.
    + specialize (Hframe w Hne E). unfold word_record in Hframe.
      cbn [global_wh_train] in Hframe.
      replace (wordhash_find (global_wh_train st) w =? -1)%Z with false
        by (symmetry; now apply Z.eqb_neq).
      now rewrite Hframe.
  - intros Habs.
    unfold word_coord_set_weight, word_coord_get_weight,
      word_coord_get_count, word_coord_add_sparsematrix.
    rewrite Habs. cbn. auto.
Qed.

(** X11 on the two-word store. *)
Lemma weight_set_then_get_witness :
  exists st',
    word_coord_set_weight demo_store "a"%string 2 = Some st' /\
    word_coord_get_weight st' "a"%string = Some 2 /\
    word_coord_get_weight st' "b"%string
    = word_coord_get_weight demo_store "b"%string.
Proof.
  assert (Hok : wordstore_ok demo_store).
  { split.
    - unfold wordstore_wf, demo_store.
      cbn [wc_list wc_list_size wc_list_max global_wh_train wh_occupancy
           wh_table].
      split; [lia|]. split; [reflexivity|]. split; [lia|]. split.
      + intros i Hi. unfold aget.
        destruct (in_bounds _ i) eqn:B; auto.
        apply in_bounds_iff in B. cbn [length] in B.
        rewrite length_alloc in B.
        destruct (Z.to_nat i) as [|[|k]] eqn:Ei; try lia.
        cbn [nth]. apply nth_repeat.
      + intros w v Hv. cbn [wh_lookup] in Hv.
        destruct (String.eqb "a" w); [inversion Hv; lia|].
        destruct (String.eqb "b" w); [inversion Hv; lia | discriminate].
    - cbn [demo_store global_wh_train wh_table]. intros w w' v H1 H2.
      cbn [wh_lookup] in H1, H2.
      destruct (String.eqb "a" w) eqn:A1, (String.eqb "a" w') eqn:A2;
        try (apply String.eqb_eq in A1); try (apply String.eqb_eq in A2);
        try congruence.
      + inversion H1; subst v.
        destruct (String.eqb "b" w'); [discriminate H2 | discriminate H2].
      + inversion H2; subst v.
        destruct (String.eqb "b" w); [discriminate H1 | discriminate H1].
      + destruct (String.eqb "b" w) eqn:B1, (String.eqb "b" w') eqn:B2;
          try discriminate.
        apply String.eqb_eq in B1, B2. congruence. }
  destruct (proj1 (weight_set_then_get demo_store "a"%string 2 Hok))
    as (st' & Hset & _ & Hget & _ & _ & _ & Hframe).
  - cbv. discriminate.
  - exists st'. split; [exact Hset|]. split; [exact Hget|].
    apply (Hframe "b"%string). discriminate.
Defined.

(** *** Reading a word record of a model *)

Section ReadRecord.
Variable to_float : R -> R.

(** The loop over the coordinate rows of a [#WORD#] record. *)
Fixpoint read_word_rows (st : wordstore) (word : string)
         (rows : list (R * R)) : option wordstore :=
  match rows with
  | [] => Some st
  | (lat, lon) :: rest =>
      match word_coord_add_word to_float st word lat lon false with
      | Some st' => read_word_rows st' word rest
      | None => None
      end
  end.

(** The branch of [geoloc_read_model] for a [#WORD#] record that is not
    skipped, on the parsed contents of the record: the word and its weight
    (1.0 when the header has none), the coordinate rows, and the rows of
    the [#MATRIX#] part when there is one. *)
Definition read_word_record (st : wordstore) (word : string)
           (feature_weight : R) (rows : list (R * R))
           (matrix_rows : option (list (Z * Z * R))) : option wordstore :=
  match word_coord_add_word to_float st word 0 0 true with
  | None => None
  | Some st =>
      match word_coord_set_weight st word feature_weight with
      | None => None
      | Some st =>
          match read_word_rows st word rows with
          | None => None
          | Some st =>
              match matrix_rows with
              | Some mrows =>
                  word_coord_add_sparsematrix
                    st word (read_sparsematrix to_float 0 mrows)
              | None => Some st
              end
          end
      end
  end.

Lemma read_word_rows_calls (word : string) (rows : list (R * R)) :
  forall st,
    read_word_rows st word rows
    = run_calls to_float
        (map (fun r => mk_call word (fst r) (snd r) false) rows) st.
Proof.
  induction rows as [|[lat lon] rows IH]; intros st;
    cbn [read_word_rows map run_calls call_word call_lat call_lon
         call_storeword fst snd]; auto.
  destruct (word_coord_add_word _ _ _ _ _ _); auto.
Qed.

Lemma calls_for_same (word w : string) (rows : list (R * R)) :
  calls_for w (map (fun r => mk_call word (fst r) (snd r) false) rows)
  = if String.eqb word w
    then map (fun r => mk_call word (fst r) (snd r) false) rows
    else [].
Proof.
  unfold calls_for. induction rows as [|r rows IH]; cbn [map filter call_word].
  - now destruct (String.eqb word w).
  - rewrite IH. now destruct (String.eqb word w).
Qed.

Lemma set_field_effect (st : wordstore) (word : string) (wi : wordinfo) :
  wordstore_ok st ->
  wordhash_find (global_wh_train st) word <> (-1)%Z ->
  exists st',
    aset_checked (wc_list st) (wordhash_find (global_wh_train st) word) wi
    = Some (wc_list st') /\
    wc_list_size st' = wc_list_size st /\
    wc_list_max st' = wc_list_max st /\
    global_wh_train st' = global_wh_train st /\
    wordstore_ok st' /\
    word_record st' word = wi /\
    forall w, w <> word ->
      wordhash_find (global_wh_train st) w <> (-1)%Z ->
      word_record st' w = word_record st w.
Proof.
  intros Hok Hfound.
  destruct (record_update st word wi Hok Hfound) as (H1 & H2 & H3 & H4).
  exists (mk_wordstore
            (aset (wc_list st) (wordhash_find (global_wh_train st) word) wi)
            (wc_list_size st) (wc_list_max st) (global_wh_train st)).
  split; [exact H1|]. split; [reflexivity|]. split; [reflexivity|].
  split; [reflexivity|]. split; [exact H2|]. split; [exact H3 | exact H4].
Qed.

Lemma read_word_record_effect (st : wordstore) (word : string)
      (feature_weight : R) (rows : list (R * R))
      (matrix_rows : option (list (Z * Z * R))) :
  wordstore_ok st ->
  wordhash_find (global_wh_train st) word = (-1)%Z ->
  exists st',
    read_word_record st word feature_weight rows matrix_rows = Some st' /\
    wordstore_ok st' /\
    wordhash_find (global_wh_train st') word <> (-1)%Z /\
    word_record st' word
    = mk_wordinfo (rev (stored_points to_float rows))
                  (option_map (read_sparsematrix to_float 0) matrix_rows)
                  (Some word) feature_weight (Z.of_nat (length rows)) /\
    forall w, w <> word ->
      wordhash_find (global_wh_train st') w
      = wordhash_find (global_wh_train st) w /\
      (wordhash_find (global_wh_train st) w <> (-1)%Z ->
       word_record st' w = word_record st w).
Proof.
  intros Hok Habs. unfold read_word_record.
  (* the header *)
  destruct (add_word_effect to_float st word 0 0 true Hok)
    as (st1 & Hadd & Hok1 & Hk1 & Hrec1 & Hframe1).
  rewrite Hadd. cbv zeta in Hrec1. rewrite Habs in Hrec1.
  cbn [Z.eqb Pos.eqb wi_coordinate_list wi_sparsematrix wi_word wi_weight
       wi_count Z.add Z.opp Z.pos_sub] in Hrec1.
  assert (Hno : added_points to_float 0 0 = []).
  { unfold added_points. now rewrite Reqb_true. }
  rewrite Hno in Hrec1. cbn [app] in Hrec1.
  (* the weight *)
  destruct (set_field_effect st1 word
              (mk_wordinfo [] None (Some word) feature_weight 0) Hok1 Hk1)
    as (st2 & Hset & Hs2 & Hm2 & Hh2 & Hok2 & Hrec2 & Hframe2).
  assert (Hw : word_coord_set_weight st1 word feature_weight = Some st2).
  { unfold word_coord_set_weight.
    replace (wordhash_find (global_wh_train st1) word =? -1)%Z with false
      by (symmetry; now apply Z.eqb_neq).
    cbv zeta. fold (word_record st1 word). rewrite Hrec1.
    cbn [wi_coordinate_list wi_sparsematrix wi_word wi_weight wi_count].
    rewrite Hset. destruct st2; cbn in *; congruence. }
  rewrite Hw.
  assert (Hk2 : wordhash_find (global_wh_train st2) word <> (-1)%Z)
    by (now rewrite Hh2).
  (* the rows *)
  rewrite read_word_rows_calls.
  destruct (run_calls_effect to_float
              (map (fun r => mk_call word (fst r) (snd r) false) rows)
              st2 Hok2) as (st3 & Hrun & Hok3 & Heff).
  rewrite Hrun.
  assert (Hrows : wordhash_find (global_wh_train st3) word <> (-1)%Z /\
                  word_record st3 word
                  = mk_wordinfo (rev (stored_points to_float rows)) None
                                (Some word) feature_weight
                                (Z.of_nat (length rows))).
  { pose proof (Heff word) as H. rewrite calls_for_same, String.eqb_refl in H.
    destruct rows as [|r rows]; cbn [map] in H.
    - destruct H as [Hf Hr]. split; [congruence|].
      rewrite (Hr Hk2), Hrec2. reflexivity.
    - destruct H as [Hf Hr]. split; [exact Hf|].
      rewrite Hr. unfold record_after.
      replace (wordhash_find (global_wh_train st2) word =? -1)%Z with false
        by (symmetry; now apply Z.eqb_neq).
      rewrite Hrec2.
      cbn [wi_coordinate_list wi_sparsematrix wi_word wi_weight wi_count].
      rewrite app_nil_r, points_of_stored.
      change (map (fun c => (call_lat c, call_lon c))
                  (mk_call word (fst r) (snd r) false
                   :: map (fun r0 => mk_call word (fst r0) (snd r0) false)
                          rows))
        with (map (fun c => (call_lat c, call_lon c))
                  (map (fun r0 => mk_call word (fst r0) (snd r0) false)
                       (r :: rows))).
      rewrite map_map. cbn [call_lat call_lon].
      rewrite (map_ext _ (fun x => x)) by (now intros [a b]).
      rewrite map_id. f_equal. cbn [length]. rewrite length_map. lia. }
  destruct Hrows as [Hk3 Hrec3].
  assert (Hframe3 : forall w, w <> word ->
            wordhash_find (global_wh_train st3) w
            = wordhash_find (global_wh_train st) w /\
            (wordhash_find (global_wh_train st) w <> (-1)%Z ->
             word_record st3 w = word_record st w)).
  { intros w Hne. pose proof (Heff w) as H.
    rewrite calls_for_same in H.
    replace (String.eqb word w) with false in H
      by (symmetry; apply String.eqb_neq; congruence).
    destruct H as [Hf Hr]. destruct (Hframe1 w Hne) as [Hf1 Hr1].
    split; [rewrite Hf, Hh2; exact Hf1|].
    intros Hk. rewrite Hr by (rewrite Hh2; congruence).
    rewrite Hframe2 by congruence. now apply Hr1. }
  (* the matrix *)
  destruct matrix_rows as [mrows|]; cbn [option_map].
  - destruct (set_field_effect st3 word
                (mk_wordinfo (rev (stored_points to_float rows))
                             (Some (read_sparsematrix to_float 0 mrows))
                             (Some word) feature_weight
                             (Z.of_nat (length rows))) Hok3 Hk3)
      as (st4 & Hset4 & Hs4 & Hm4 & Hh4 & Hok4 & Hrec4 & Hframe4).
    exists st4. split.
    { unfold word_coord_add_sparsematrix.
      replace (wordhash_find (global_wh_train st3) word =? -1)%Z with false
        by (symmetry; now apply Z.eqb_neq).
      cbv zeta. fold (word_record st3 word). rewrite Hrec3.
      cbn [wi_coordinate_list wi_sparsematrix wi_word wi_weight wi_count].
      rewrite Hset4. destruct st4; cbn in *; congruence. }
    split; [exact Hok4|]. split; [now rewrite Hh4|].
    split; [exact Hrec4|].
    intros w Hne. destruct (Hframe3 w Hne) as [Hf Hr].
    split; [now rewrite Hh4|]. intros Hk.
    rewrite Hframe4 by congruence. now apply Hr.
  - exists st3. split; [reflexivity|]. split; [exact Hok3|].
    split; [exact Hk3|]. split; [exact Hrec3 | exact Hframe3].
Qed.
End ReadRecord.

(** X12: a word record of a model file.  Read into a well-formed store
    that does not have the word, a [#WORD#] record leaves the word in the
    store with the weight of its header, a count equal to the number of
    its coordinate rows, the rows as points (the latest first, rows equal
    to (0, 0) left out), and the sparse matrix of its [#MATRIX#] part if
    it has one; the other words keep their indices and records.  The
    count of a word read from a model is thus the number of its rows,
    where the count after training is one less than the number of
    occurrences. *)
Theorem model_record_count_is_number_of_rows
        (to_float : R -> R) (st : wordstore) (word : string)
        (feature_weight : R) (rows : list (R * R))
        (matrix_rows : option (list (Z * Z * R))) :
  wordstore_ok st ->
  wordhash_find (global_wh_train st) word = (-1)%Z ->
  exists st',
    read_word_record to_float st word feature_weight rows matrix_rows
    = Some st' /\
    wordstore_ok st' /\
    word_coord_get_count st' word = Some (Z.of_nat (length rows)) /\
    word_coord_get_weight st' word = Some feature_weight /\
    word_record st' word
    = mk_wordinfo (rev (stored_points to_float rows))
                  (option_map (read_sparsematrix to_float 0) matrix_rows)
                  (Some word) feature_weight (Z.of_nat (length rows)) /\
    forall w, w <> word ->
      wordhash_find (global_wh_train st') w
      = wordhash_find (global_wh_train st) w /\
      (wordhash_find (global_wh_train st) w <> (-1)%Z ->
       word_record st' w = word_record st w).
Proof.
  intros Hok Habs.
  destruct (read_word_record_effect to_float st word feature_weight rows
              matrix_rows Hok Habs)
    as (st' & Hread & Hok' & Hk & Hrec & Hframe).
  exists st'. split; [exact Hread|]. split; [exact Hok'|].
  unfold word_coord_get_count, word_coord_get_weight.
  replace (wordhash_find (global_wh_train st') word =? -1)%Z with false
    by (symmetry; now apply Z.eqb_neq).
  fold (word_record st' word). rewrite Hrec.
  repeat split; auto; now apply Hframe.
Qed.

(** X12 on the store [main] allocates: a record with two rows. *)
Lemma model_record_count_is_number_of_rows_witness :
  exists st',
    read_word_record (fun v => v) wordstore_init "alpha"%string 1
                     [(40, -74); (41, -73)] None
    = Some st' /\
    word_coord_get_count st' "alpha"%string = Some 2%Z.
Proof.
  destruct (model_record_count_is_number_of_rows
              (fun v => v) wordstore_init "alpha"%string 1
              [(40, -74); (41, -73)] None wordstore_init_ok eq_refl)
    as (st' & Hread & _ & Hcount & _).
  exists st'. split; [exact Hread | exact Hcount].
Defined.

(** ** The abstract word hash under [set_value] and [inc_value] *)

Local Open Scope Z_scope.

Lemma wh_update_spec (table : list (string * Z)) (w : string) (value : Z) :
  match wh_lookup table w with
  | Some _ =>
      exists table', wh_update table w value = Some table' /\
        forall w', wh_lookup table' w'
                   = if String.eqb w w' then Some value
                     else wh_lookup table w'
  | None => wh_update table w value = None
  end.
Proof.
  induction table as [|[x u] table IH]; cbn [wh_lookup wh_update]; auto.
  destruct (String.eqb x w) eqn:E.
  - apply String.eqb_eq in E. subst x. eexists. split; [reflexivity|].
    intros w'. cbn [wh_lookup]. destruct (String.eqb w w'); reflexivity.
  - destruct (wh_lookup table w) as [u'|].
    + destruct IH as (table' & -> & Hl). eexists. split; [reflexivity|].
      intros w'. cbn [wh_lookup]. rewrite Hl.
      destruct (String.eqb x w') eqn:E', (String.eqb w w') eqn:E''; auto.
      apply String.eqb_eq in E', E''. subst. now rewrite String.eqb_refl in E.
    + now rewrite IH.
Qed.

(** The abstract [set_value]: the word gets the value, the others keep
    theirs, and [occupancy] counts a word that was not there. *)
Lemma model_set_value (a : wordhash) (w : string) (value : Z) :
  (forall w', wh_lookup (wh_table (wordhash_set_value a w value)) w'
              = if String.eqb w w' then Some value
                else wh_lookup (wh_table a) w') /\
  wh_occupancy (wordhash_set_value a w value)
  = match wh_lookup (wh_table a) w with
    | Some _ => wh_occupancy a
    | None => wh_occupancy a + 1
    end.
Proof.
  unfold wordhash_set_value.
  pose proof (wh_update_spec (wh_table a) w value) as H.
  destruct (wh_lookup (wh_table a) w) as [u|] eqn:E.
  - destruct H as (table' & -> & Hl). split; [exact Hl | reflexivity].
  - rewrite H. split; [|reflexivity]. intros w'. cbn [wh_table].
    rewrite wh_lookup_app. destruct (String.eqb w w') eqn:E'.
    + apply String.eqb_eq in E'. subst w'. now rewrite E.
    + destruct (wh_lookup (wh_table a) w'); reflexivity.
Qed.

Lemma model_inc_value_find (a : wordhash) (w w' : string) :
  wordhash_find (wordhash_inc_value a w) w'
  = if String.eqb w w'
    then (if wordhash_find a w =? -1 then 1 else wordhash_find a w + 1)
    else wordhash_find a w'.
Proof.
  unfold wordhash_inc_value.
  destruct (wordhash_find a w =? -1);
    unfold wordhash_find at 1;
    rewrite (proj1 (model_set_value a w _) w');
    destruct (String.eqb w w'); reflexivity.
Qed.

(** ** The Kullback-Leibler classifier *)

Lemma count_occ_snoc (l : list string) (w w' : string) :
  count_occ string_dec (l ++ [w]) w'
  = (count_occ string_dec l w' + (if String.eqb w w' then 1 else 0))%nat.
Proof.
  rewrite count_occ_app. cbn [count_occ].
  destruct (string_dec w w') as [->|Hne].
  - now rewrite String.eqb_refl.
  - replace (String.eqb w w') with false; auto.
    symmetry. now apply String.eqb_neq.
Qed.

(** The state of the preparation loop after the words [pre]. *)
Definition kl_collected (st : wordstore) (pre : list string)
           (acc : list string * list Z * wordhash) : Prop :=
  let '(uniqwords, wordindices, seenwordhash) := acc in
  NoDup uniqwords /\
  (forall w, In w uniqwords <-> In w pre /\ known_word st w = true) /\
  wordindices = map (wordhash_find (global_wh_train st)) uniqwords /\
  forall w,
    wordhash_find seenwordhash w
    = if known_word st w && negb (count_occ string_dec pre w =? 0)%nat
      then Z.of_nat (count_occ string_dec pre w) else -1.

Lemma kl_collect_spec (st : wordstore) (words : list string) :
  forall (pre : list string) (acc : list string * list Z * wordhash),
    kl_collected st pre acc ->
    kl_collected st (pre ++ words) (kl_collect st words acc).
Proof.
  induction words as [|w words IH]; intros pre acc Hacc.
  - now rewrite app_nil_r.
  - replace (pre ++ w :: words) with ((pre ++ [w]) ++ words)
      by (now rewrite <- app_assoc).
    destruct acc as [[uniq idx] seen]. cbn [kl_collect].
    destruct Hacc as (Hnd & Hin & Hidx & Hseen).
    destruct (negb (wordhash_find (global_wh_train st) w =? -1)) eqn:Hk.
    + assert (Hkw : known_word st w = true) by exact Hk.
      assert (Hfirst : (wordhash_find seen w =? -1) = true
                       <-> ~ In w uniq).
      { rewrite Hseen, Hkw. cbn [andb].
        destruct (count_occ string_dec pre w =? 0)%nat eqn:E; cbn [negb].
        - apply Nat.eqb_eq in E. split; auto. intros _ Hu.
          apply Hin in Hu. destruct Hu as [Hu _].
          apply (count_occ_In string_dec) in Hu. lia.
        - apply Nat.eqb_neq in E. split.
          + intros H. apply Z.eqb_eq in H. lia.
          + intros Hn. exfalso. apply Hn. apply Hin. split; auto.
            apply (count_occ_In string_dec). lia. }
      assert (Hseen' : forall w',
                 wordhash_find (wordhash_inc_value seen w) w'
                 = if known_word st w'
                      && negb (count_occ string_dec (pre ++ [w]) w' =? 0)%nat
                   then Z.of_nat (count_occ string_dec (pre ++ [w]) w')
                   else -1).
      { intros w'. rewrite model_inc_value_find, count_occ_snoc.
        destruct (String.eqb w w') eqn:Ew.
        - apply String.eqb_eq in Ew. subst w'. rewrite Hkw, Hseen, Hkw.
          cbn [andb].
          replace (count_occ string_dec pre w + 1 =? 0)%nat with false
            by (symmetry; apply Nat.eqb_neq; lia).
          cbn [negb].
          destruct (count_occ string_dec pre w =? 0)%nat eqn:E; cbn [negb].
          + apply Nat.eqb_eq in E. rewrite E. reflexivity.
          + apply Nat.eqb_neq in E.
            replace (Z.of_nat (count_occ string_dec pre w) =? -1) with false
              by (symmetry; apply Z.eqb_neq; lia).
            lia.
        - rewrite Nat.add_0_r. apply Hseen. }
      assert (Hin' : forall u (x : string),
                 (forall y, In y u <-> In y pre /\ known_word st y = true) ->
                 (In x (u ++ [w])
                  <-> In x (pre ++ [w]) /\ known_word st x = true)).
      { intros u x Hu. rewrite !in_app_iff, Hu. cbn [In]. split.
        - intros [[H1 H2]|[<-|[]]]; auto.
        - intros [[H1|[<-|[]]] H2]; auto. }
      destruct (wordhash_find seen w =? -1) eqn:Ef; apply IH.
      * assert (Hnew : ~ In w uniq) by (now apply Hfirst).
        split; [|split; [|split; [|exact Hseen']]].
        -- apply (proj2 (NoDup_Add (Add_app w uniq []))).
           rewrite app_nil_r. split; assumption.
        -- intros x. now apply Hin'.
        -- rewrite map_app, Hidx. reflexivity.
      * split; [exact Hnd|]. split; [|split; [exact Hidx | exact Hseen']].
        intros x. rewrite in_app_iff, Hin. cbn [In]. split.
        -- intros [H1 H2]. auto.
        -- intros [[H1|[E|[]]] H2]; auto. subst x.
           apply Hin. destruct (in_dec string_dec w uniq) as [Hi|Hn]; auto.
           apply Hfirst in Hn. congruence.
    + assert (Hkw : known_word st w = false) by exact Hk.
      apply IH.
      split; [exact Hnd|]. split; [|split; [exact Hidx|]].
      * intros x. rewrite in_app_iff, Hin. cbn [In]. split.
        -- intros [H1 H2]. auto.
        -- intros [[H1|[E|[]]] H2]; auto. subst x. congruence.
      * intros w'. rewrite Hseen, count_occ_snoc.
        destruct (String.eqb w w') eqn:Ew.
        -- apply String.eqb_eq in Ew. subst w'. now rewrite Hkw.
        -- now rewrite Nat.add_0_r.
Qed.

Lemma kl_collected_init (st : wordstore) :
  kl_collected st [] ([], [], wordhash_init).
Proof.
  split; [constructor|]. split; [|split; [reflexivity|]].
  - intros w. cbn [In]. tauto.
  - intros w. cbn [count_occ]. now rewrite andb_false_r.
Qed.

Lemma kl_collected_counts (st : wordstore) (pre uniqwords : list string)
      (wordindices : list Z) (seenwordhash : wordhash) :
  kl_collected st pre (uniqwords, wordindices, seenwordhash) ->
  forall w, In w uniqwords ->
            wordhash_find seenwordhash w
            = Z.of_nat (count_occ string_dec pre w).
Proof.
  intros (_ & Hin & _ & Hseen) w Hw. rewrite Hseen.
  apply Hin in Hw. destruct Hw as [Hw Hk]. rewrite Hk. cbn [andb].
  apply (count_occ_In string_dec) in Hw.
  replace (count_occ string_dec pre w =? 0)%nat with false
    by (symmetry; apply Nat.eqb_neq; lia).
  reflexivity.
Qed.

(** X13: the preparation loop of the Kullback-Leibler classifier leaves in
    [uniqwords] the words of the query that are in the model, each once;
    [wordindices] holds their indices in the same order, and the hash of
    seen words maps each of them to the number of its occurrences in the
    query and every other word to [-1]. *)
Theorem kl_collect_distinct_known_words
        (st : wordstore) (words uniqwords : list string)
        (wordindices : list Z) (seenwordhash : wordhash) :
  kl_collect st words ([], [], wordhash_init)
  = (uniqwords, wordindices, seenwordhash) ->
  NoDup uniqwords /\
  (forall w, In w uniqwords <-> In w words /\ known_word st w = true) /\
  wordindices = map (wordhash_find (global_wh_train st)) uniqwords /\
  (forall w, In w uniqwords ->
             wordhash_find seenwordhash w
             = Z.of_nat (count_occ string_dec words w)) /\
  (forall w, ~ In w uniqwords -> wordhash_find seenwordhash w = -1).
Proof.
  intros Hrun.
  pose proof (kl_collect_spec st words [] _ (kl_collected_init st)) as H.
  cbn [app] in H. rewrite Hrun in H.
  split; [apply H|]. split; [apply H|]. split; [apply H|]. split.
  - apply (kl_collected_counts st words _ _ _ H).
  - intros w Hw. destruct H as (_ & Hin & _ & Hseen). rewrite Hseen.
    destruct (known_word st w) eqn:Hk; [|reflexivity]. cbn [andb].
    destruct (count_occ string_dec words w =? 0)%nat eqn:E; [reflexivity|].
    exfalso. apply Hw. apply Hin. split; auto.
    apply Nat.eqb_neq in E. apply (count_occ_In string_dec). lia.
Qed.

Lemma kl_collect_distinct_known_words_witness :
  kl_collect demo_store ["a"; "zzz"; "a"; "b"]%string ([], [], wordhash_init)
  = (["a"; "b"]%string, [0; 1],
     wordhash_set_value
       (wordhash_set_value (wordhash_set_value wordhash_init "a" 1) "a" 2)
       "b" 1) /\
  wordhash_find
    (wordhash_set_value
       (wordhash_set_value (wordhash_set_value wordhash_init "a" 1) "a" 2)
       "b" 1) "a" = 2.
Proof.
  split; [reflexivity|].
  apply (kl_collect_distinct_known_words demo_store
           ["a"; "zzz"; "a"; "b"]%string ["a"; "b"]%string [0; 1]).
  - reflexivity.
  - now left.
Defined.

Local Open Scope R_scope.

Section KullbackLeibler.
Variable fuel : nat.
Variable g : globals.
Variable st : wordstore.
Variables tweetsmatrix wordmatrix : list R.

Local Notation "'L'" := (g_longranularity g).
Local Notation "'N'" := (g_longranularity g * latgranularity (g_longranularity g))%Z.






Section Scoring.
Variable resultmatrix_null : bool.
Variable c_min : R.
Variable knownwords : Z.
Variable seencount : string -> Z.

Local Notation "'skip'" := (skip_cell tweetsmatrix c_min resultmatrix_null).


Variable totalmatrix : list R.



End Scoring.



Variable words : list string.
Variable resultmatrix : option (list R).

Hypothesis L_pos : (0 < L)%Z.
Hypothesis result_size :
  forall r, resultmatrix = Some r -> Z.of_nat (length r) = N.
Hypothesis loads : query_loads fuel g st words.

End KullbackLeibler.





(** ** The distance of the evaluation *)

Local Open Scope R_scope.









(** ** The open-addressing table of [wordhash.h]

    The feature store and the classifiers above use the word hash through
    what its prototypes document.  This part embeds the table itself, the
    djb2 hash, linear probing and the rehash at half occupancy, and shows
    that it behaves as that description says. *)

Local Open Scope Z_scope.

(** [m[i]] for an index computed from data: [None] outside the array. *)
Definition aread {A : Type} (m : list A) (i : Z) : option A :=
  if in_bounds m i then nth_error m (Z.to_nat i) else None.

Lemma aread_some {A : Type} (d : A) (m : list A) (i : Z) :
  in_bounds m i = true -> aread m i = Some (aget d m i).
Proof.
  intros H. unfold aread, aget. rewrite H. apply nth_error_nth'.
  apply in_bounds_iff in H. lia.
Qed.

Lemma aread_in_bounds {A : Type} (m : list A) (i : Z) (x : A) :
  aread m i = Some x -> in_bounds m i = true.
Proof. unfold aread. destruct (in_bounds m i); [auto | discriminate]. Qed.

Lemma aread_range {A : Type} (m : list A) (i : Z) (x : A) :
  aread m i = Some x -> 0 <= i < Z.of_nat (length m).
Proof. intros H. now apply in_bounds_iff, (aread_in_bounds m i x). Qed.

Lemma aread_total {A : Type} (m : list A) (i : Z) :
  0 <= i < Z.of_nat (length m) -> exists x, aread m i = Some x.
Proof.
  intros H. unfold aread.
  replace (in_bounds m i) with true by (symmetry; now apply in_bounds_iff).
  destruct (nth_error m (Z.to_nat i)) as [x|] eqn:E; [now exists x|].
  apply nth_error_None in E. lia.
Qed.

Lemma aread_aset_eq {A : Type} (m : list A) (i : Z) (v : A) :
  in_bounds m i = true -> aread (aset m i v) i = Some v.
Proof.
  intros H. rewrite (aread_some v) by (now rewrite in_bounds_aset).
  now rewrite aget_aset_eq.
Qed.

Lemma aread_aset_neq {A : Type} (m : list A) (i j : Z) (v : A) :
  i <> j -> aread (aset m i v) j = aread m j.
Proof.
  intros H. destruct (in_bounds m j) eqn:B.
  - destruct (aread_total m j) as [x Hx]; [now apply in_bounds_iff|].
    rewrite (aread_some x) by (now rewrite in_bounds_aset).
    rewrite aget_aset_neq by exact H.
    now rewrite (aread_some x) by exact B.
  - unfold aread. now rewrite in_bounds_aset, B.
Qed.

Lemma aread_alloc {A : Type} (n : Z) (v : A) (i : Z) (x : A) :
  aread (alloc n v) i = Some x -> x = v.
Proof.
  intros H. pose proof (aread_range _ _ _ H) as Hr.
  rewrite length_alloc in Hr.
  rewrite (aread_some v) in H by (apply in_bounds_iff; rewrite length_alloc; lia).
  rewrite aget_alloc in H by lia. congruence.
Qed.

Lemma aread_cons_0 {A : Type} (x : A) (m : list A) : aread (x :: m) 0 = Some x.
Proof. reflexivity. Qed.

Lemma aread_cons_S {A : Type} (x : A) (m : list A) (i : Z) :
  0 <= i -> aread (x :: m) (i + 1) = aread m i.
Proof.
  intros Hi. unfold aread, in_bounds. cbn [length].
  replace (Z.to_nat (i + 1)) with (S (Z.to_nat i)) by lia. cbn [nth_error].
  replace (0 <=? i + 1) with true by (symmetry; apply Z.leb_le; lia).
  replace (0 <=? i) with true by (symmetry; apply Z.leb_le; lia).
  replace (i + 1 <? Z.of_nat (S (length m))) with (i <? Z.of_nat (length m));
    auto.
  destruct (i <? Z.of_nat (length m)) eqn:E; symmetry.
  - apply Z.ltb_lt in E. apply Z.ltb_lt. lia.
  - apply Z.ltb_ge in E. apply Z.ltb_ge. lia.
Qed.

Lemma aread_nth_error {A : Type} (m : list A) (i : Z) (x : A) :
  aread m i = Some x -> nth_error m (Z.to_nat i) = Some x.
Proof. unfold aread. destruct (in_bounds m i); [auto | discriminate]. Qed.

Module WordHash.

(** Reduction to [unsigned int], 32 bits. *)
Definition to_uint (z : Z) : Z := z mod 4294967296.

(** [struct wordhash_table]; [ht_word] is [None] as long as the pointer
    has not been assigned. *)
Record wordhash_table : Type := mk_wordhash_table {
  ht_word : option string;
  ht_value : Z
}.

(** [struct wordhash] *)
Record wordhash : Type := mk_wordhash {
  table : list wordhash_table;
  tablesize : Z;
  occupancy : Z
}.

(** [hash++; if (hash >= tablesize) hash -= tablesize;] *)
Definition next_slot (tablesize hash : Z) : Z :=
  let hash := to_uint (hash + 1) in
  if hash >=? tablesize then to_uint (hash - tablesize) else hash.

(** The loop of [wordhash_insert] and [wordhash_insert_with_value],
    [for (;;) { if ((table + hash)->value == -1) ...; hash++; ... }]: the
    first empty slot from [hash] on.  The walk is back at its start after
    [tablesize] steps and nothing changes the table meanwhile, so a loop
    that has not ended within [fuel = tablesize] steps never ends
    ([None]). *)
Fixpoint first_empty (tbl : list wordhash_table) (tablesize : Z)
         (fuel : nat) (hash : Z) : option Z :=
  match fuel with
  | O => None
  | S fuel =>
      match aread tbl hash with
      | None => None
      | Some s =>
          if ht_value s =? -1 then Some hash
          else first_empty tbl tablesize fuel (next_slot tablesize hash)
      end
  end.

(** [for (j = 0; j < wh->tablesize; j++)] of [wordhash_find]; [strcmp] on
    an unassigned pointer has no result. *)
Fixpoint find_loop (tbl : list wordhash_table) (tablesize : Z)
         (word : string) (j : nat) (hash : Z) : option Z :=
  match j with
  | O => Some (-1)
  | S j =>
      match aread tbl hash with
      | None => None
      | Some s =>
          if ht_value s =? -1 then Some (-1)
          else
            match ht_word s with
            | None => None
            | Some w =>
                if String.eqb w word then Some (ht_value s)
                else find_loop tbl tablesize word j
                               (next_slot tablesize hash)
            end
      end
  end.

Section Hash.
(** [int c = *word++]: the value of a plain [char] as an [int].  Whether
    plain [char] is signed is the implementation's choice; the conversion
    is a parameter. *)
Variable char_to_int : Ascii.ascii -> Z.

(** [while ((c = *word++)) hash = ((hash << 5) + hash) + c;] *)
Fixpoint hashf_loop (word : string) (hash : Z) : Z :=
  match word with
  | EmptyString => hash
  | String c word =>
      hashf_loop word
        (to_uint (to_uint (to_uint (Z.shiftl hash 5) + hash)
                  + char_to_int c))
  end.

Definition wordhash_hashf (word : string) : Z := hashf_loop word 5381.

(** [None]: the call does not return a value (division by zero, a read
    outside the table or of an unassigned word). *)
Definition wordhash_find (wh : wordhash) (word : string) : option Z :=
  if tablesize wh =? 0 then None
  else find_loop (table wh) (tablesize wh) word (Z.to_nat (tablesize wh))
                 (wordhash_hashf word mod tablesize wh).

(** The word is passed as a pointer and stored as it is. *)
Definition wordhash_insert_with_value (wh : wordhash) (word : option string)
           (value : Z) : option wordhash :=
  match word with
  | None => None
  | Some w =>
      if tablesize wh =? 0 then None
      else
        match first_empty (table wh) (tablesize wh)
                          (Z.to_nat (tablesize wh))
                          (wordhash_hashf w mod tablesize wh) with
        | None => None
        | Some hash =>
            Some (mk_wordhash
                    (aset (table wh) hash (mk_wordhash_table word value))
                    (tablesize wh) (occupancy wh))
        end
  end.

(** [wordhash_rehash]: a table of twice the size with every value [-1],
    then the entries of the old table in slot order. *)
Definition wordhash_rehash (wh : wordhash) : option wordhash :=
  let newtablesize := to_uint (tablesize wh * 2) in
  let oldtablesize := tablesize wh in
  let oldtable := table wh in
  let wh := mk_wordhash (alloc newtablesize (mk_wordhash_table None (-1)))
                        newtablesize (occupancy wh) in
  for_range 0 oldtablesize
    (fun i wh =>
       match wh with
       | None => None
       | Some wh =>
           match aread oldtable i with
           | None => None
           | Some s =>
               if negb (ht_value s =? -1)
               then wordhash_insert_with_value wh (ht_word s) (ht_value s)
               else Some wh
           end
       end)
    (Some wh).

(** The tail shared by [wordhash_set_value] and [wordhash_insert] after a
    new entry has been stored at [hash]: count it and rehash when more than
    half of the table is in use. *)
Definition store_new (wh : wordhash) (hash : Z) (word : string) (value : Z)
  : option wordhash :=
  let wh := mk_wordhash
              (aset (table wh) hash (mk_wordhash_table (Some word) value))
              (tablesize wh) (to_uint (occupancy wh + 1)) in
  if occupancy wh >? tablesize wh / 2 then wordhash_rehash wh else Some wh.

(** The loop of [wordhash_set_value]; running out of it is [exit(1)]. *)
Fixpoint set_value_loop (wh : wordhash) (word : string) (value : Z)
         (j : nat) (hash : Z) : option wordhash :=
  match j with
  | O => None
  | S j =>
      match aread (table wh) hash with
      | None => None
      | Some s =>
          if ht_value s =? -1 then store_new wh hash word value
          else
            match ht_word s with
            | None => None
            | Some w =>
                if String.eqb w word
                then Some (mk_wordhash
                             (aset (table wh) hash
                                   (mk_wordhash_table (ht_word s) value))
                             (tablesize wh) (occupancy wh))
                else set_value_loop wh word value j
                                    (next_slot (tablesize wh) hash)
            end
      end
  end.

Definition wordhash_set_value (wh : wordhash) (word : string) (value : Z)
  : option wordhash :=
  if tablesize wh =? 0 then None
  else set_value_loop wh word value (Z.to_nat (tablesize wh))
                      (wordhash_hashf word mod tablesize wh).

Definition wordhash_inc_value (wh : wordhash) (word : string)
  : option wordhash :=
  match wordhash_find wh word with
  | None => None
  | Some currvalue =>
      if currvalue =? -1 then wordhash_set_value wh word 1
      else wordhash_set_value wh word (currvalue + 1)
  end.

(** [wordhash_insert]: the value is the running [occupancy]; the call
    returns [occupancy - 1] as it stands after the increment. *)
Definition wordhash_insert (wh : wordhash) (word : string)
  : option (wordhash * Z) :=
  if tablesize wh =? 0 then None
  else
    match first_empty (table wh) (tablesize wh) (Z.to_nat (tablesize wh))
                      (wordhash_hashf word mod tablesize wh) with
    | None => None
    | Some hash =>
        match store_new wh hash word (occupancy wh) with
        | None => None
        | Some wh => Some (wh, occupancy wh - 1)
        end
    end.

(** [wordhash_init]: [malloc], then the loop that stores [-1] in every
    value. *)
Definition wordhash_init (tablesize : Z) : wordhash :=
  mk_wordhash (alloc tablesize (mk_wordhash_table None (-1))) tablesize 0.

(** *** What a table holds *)

(** Slot [p] is in use, is empty, holds [(w, v)]. *)
Definition used (tbl : list wordhash_table) (p : Z) : Prop :=
  exists s, aread tbl p = Some s /\ ht_value s <> -1.

Definition free (tbl : list wordhash_table) (p : Z) : Prop :=
  exists s, aread tbl p = Some s /\ ht_value s = -1.

Definition holds (tbl : list wordhash_table) (i : Z) (w : string) (v : Z)
  : Prop :=
  aread tbl i = Some (mk_wordhash_table (Some w) v) /\ v <> -1.

(** Number of slots in use. *)
Definition count_used (tbl : list wordhash_table) : Z :=
  Z.of_nat (length (filter (fun s => negb (ht_value s =? -1)) tbl)).

(** The slot a word's probe sequence starts at. *)
Definition home (n : Z) (w : string) : Z := wordhash_hashf w mod n.

(** The invariant of linear probing: the slots are [n], a slot in use has
    its word, no slot between a word's home and the slot that holds it is
    empty, and no word is held twice. *)
Definition table_wf (tbl : list wordhash_table) (n : Z) : Prop :=
  0 < n < 4294967296 /\
  Z.of_nat (length tbl) = n /\
  (forall i s, aread tbl i = Some s -> ht_value s <> -1 ->
               exists w, ht_word s = Some w) /\
  (forall i w v, holds tbl i w v ->
     forall k, 0 <= k < (i - home n w) mod n ->
               used tbl ((home n w + k) mod n)) /\
  (forall i j w v v', holds tbl i w v -> holds tbl j w v' -> i = j).

(** The table is well formed, [occupancy] counts the slots in use, and at
    most half of the slots are. *)
Definition wf (wh : wordhash) : Prop :=
  table_wf (table wh) (tablesize wh) /\
  occupancy wh = count_used (table wh) /\
  occupancy wh <= tablesize wh / 2.

Lemma next_slot_step (n h : Z) :
  0 < n < 4294967296 -> 0 <= h < n -> next_slot n h = (h + 1) mod n.
Proof.
  intros Hn Hh. unfold next_slot, to_uint. cbv zeta.
  rewrite (Z.mod_small (h + 1)) by lia.
  destruct (h + 1 >=? n) eqn:E.
  - apply Z.geb_le in E. replace (h + 1) with n by lia.
    rewrite Z.sub_diag, Z.mod_same by lia. reflexivity.
  - rewrite Z.geb_leb in E. apply Z.leb_gt in E.
    now rewrite Z.mod_small by lia.
Qed.

Lemma pos_shift (n h k : Z) :
  ((h + 1) mod n + k) mod n = (h + (k + 1)) mod n.
Proof. rewrite Zplus_mod_idemp_l. f_equal. lia. Qed.

Lemma home_range (n : Z) (w : string) : 0 < n -> 0 <= home n w < n.
Proof. intros Hn. apply Z.mod_pos_bound. lia. Qed.

Lemma used_not_free (tbl : list wordhash_table) (p : Z) :
  used tbl p -> free tbl p -> False.
Proof. intros (s & E & H) (s' & E' & H'). congruence. Qed.

Lemma holds_used (tbl : list wordhash_table) (i : Z) (w : string) (v : Z) :
  holds tbl i w v -> used tbl i.
Proof. intros [E H]. eexists. split; [exact E | exact H]. Qed.

(** *** The three walks *)

(** Every slot in front of step [k] of the walk from [h] is in use by a
    word other than [w]. *)
Definition path_clear (tbl : list wordhash_table) (n : Z) (w : string)
           (h : Z) (k : nat) : Prop :=
  forall k', 0 <= k' < Z.of_nat k ->
    exists s w', aread tbl ((h + k') mod n) = Some s /\
                 ht_value s <> -1 /\ ht_word s = Some w' /\ w' <> w.

Lemma path_clear_next (tbl : list wordhash_table) (n : Z) (w : string)
      (h : Z) (k : nat) :
  path_clear tbl n w h (S k) -> path_clear tbl n w ((h + 1) mod n) k.
Proof.
  intros H k' Hk'. rewrite pos_shift. apply H. lia.
Qed.

Lemma path_clear_head (tbl : list wordhash_table) (n : Z) (w : string)
      (h : Z) (k : nat) :
  0 <= h < n -> path_clear tbl n w h (S k) ->
  exists s w', aread tbl h = Some s /\ ht_value s <> -1 /\
               ht_word s = Some w' /\ String.eqb w' w = false.
Proof.
  intros Hh H. destruct (H 0 ltac:(lia)) as (s & w' & E & Hv & Hw & Hne).
  rewrite Z.add_0_r, Z.mod_small in E by lia.
  exists s, w'. repeat split; auto. now apply String.eqb_neq.
Qed.

Lemma find_loop_hit (tbl : list wordhash_table) (n : Z) (w : string)
      (v : Z) :
  0 < n < 4294967296 ->
  forall (k fuel : nat) (h : Z),
    0 <= h < n -> (k < fuel)%nat ->
    holds tbl ((h + Z.of_nat k) mod n) w v ->
    path_clear tbl n w h k ->
    find_loop tbl n w fuel h = Some v.
Proof.
  intros Hn. induction k as [|k IH]; intros fuel h Hh Hf Hhold Hclear;
    (destruct fuel as [|fuel]; [lia|]); cbn [find_loop].
  - rewrite Z.add_0_r, Z.mod_small in Hhold by lia.
    destruct Hhold as [E Hv]. rewrite E. cbn [ht_value ht_word].
    replace (v =? -1) with false by (symmetry; now apply Z.eqb_neq).
    now rewrite String.eqb_refl.
  - destruct (path_clear_head tbl n w h k Hh Hclear)
      as (s & w' & E & Hv & Hw & Hne).
    rewrite E, Hw, Hne.
    replace (ht_value s =? -1) with false by (symmetry; now apply Z.eqb_neq).
    rewrite next_slot_step by assumption.
    apply IH.
    + apply Z.mod_pos_bound. lia.
    + lia.
    + rewrite pos_shift. now replace (Z.of_nat k + 1) with (Z.of_nat (S k)) by lia.
    + now apply path_clear_next.
Qed.

Lemma first_empty_at (tbl : list wordhash_table) (n : Z) :
  0 < n < 4294967296 ->
  forall (k fuel : nat) (h : Z),
    0 <= h < n -> (k < fuel)%nat ->
    free tbl ((h + Z.of_nat k) mod n) ->
    (forall k', 0 <= k' < Z.of_nat k -> used tbl ((h + k') mod n)) ->
    first_empty tbl n fuel h = Some ((h + Z.of_nat k) mod n).
Proof.
  intros Hn. induction k as [|k IH]; intros fuel h Hh Hf Hfree Hused;
    (destruct fuel as [|fuel]; [lia|]); cbn [first_empty].
  - rewrite Z.add_0_r, Z.mod_small in * by lia.
    destruct Hfree as (s & E & Hv). rewrite E, Hv. reflexivity.
  - destruct (Hused 0 ltac:(lia)) as (s & E & Hv).
    rewrite Z.add_0_r, Z.mod_small in E by lia. rewrite E.
    replace (ht_value s =? -1) with false by (symmetry; now apply Z.eqb_neq).
    rewrite next_slot_step by assumption.
    replace ((h + Z.of_nat (S k)) mod n)
      with (((h + 1) mod n + Z.of_nat k) mod n)
      by (rewrite pos_shift; f_equal; lia).
    apply IH.
    + apply Z.mod_pos_bound. lia.
    + lia.
    + rewrite pos_shift. now replace (Z.of_nat k + 1) with (Z.of_nat (S k)) by lia.
    + intros k' Hk'. rewrite pos_shift. apply Hused. lia.
Qed.

Lemma set_value_loop_hit (wh : wordhash) (w : string) (v value : Z) :
  0 < tablesize wh < 4294967296 ->
  forall (k fuel : nat) (h : Z),
    0 <= h < tablesize wh -> (k < fuel)%nat ->
    holds (table wh) ((h + Z.of_nat k) mod tablesize wh) w v ->
    path_clear (table wh) (tablesize wh) w h k ->
    set_value_loop wh w value fuel h
    = Some (mk_wordhash
              (aset (table wh) ((h + Z.of_nat k) mod tablesize wh)
                    (mk_wordhash_table (Some w) value))
              (tablesize wh) (occupancy wh)).
Proof.
  intros Hn. induction k as [|k IH]; intros fuel h Hh Hf Hhold Hclear;
    (destruct fuel as [|fuel]; [lia|]); cbn [set_value_loop].
  - rewrite Z.add_0_r, Z.mod_small in * by lia.
    destruct Hhold as [E Hv]. rewrite E. cbn [ht_value ht_word].
    replace (v =? -1) with false by (symmetry; now apply Z.eqb_neq).
    now rewrite String.eqb_refl.
  - destruct (path_clear_head _ _ w h k Hh Hclear)
      as (s & w' & E & Hv & Hw & Hne).
    rewrite E, Hw, Hne.
    replace (ht_value s =? -1) with false by (symmetry; now apply Z.eqb_neq).
    rewrite next_slot_step by assumption.
    replace ((h + Z.of_nat (S k)) mod tablesize wh)
      with (((h + 1) mod tablesize wh + Z.of_nat k) mod tablesize wh)
      by (rewrite pos_shift; f_equal; lia).
    apply IH.
    + apply Z.mod_pos_bound. lia.
    + lia.
    + rewrite pos_shift. now replace (Z.of_nat k + 1) with (Z.of_nat (S k)) by lia.
    + now apply path_clear_next.
Qed.

Lemma set_value_loop_free (wh : wordhash) (w : string) (value : Z) :
  0 < tablesize wh < 4294967296 ->
  forall (k fuel : nat) (h : Z),
    0 <= h < tablesize wh -> (k < fuel)%nat ->
    free (table wh) ((h + Z.of_nat k) mod tablesize wh) ->
    path_clear (table wh) (tablesize wh) w h k ->
    set_value_loop wh w value fuel h
    = store_new wh ((h + Z.of_nat k) mod tablesize wh) w value.
Proof.
  intros Hn. induction k as [|k IH]; intros fuel h Hh Hf Hfree Hclear;
    (destruct fuel as [|fuel]; [lia|]); cbn [set_value_loop].
  - rewrite Z.add_0_r, Z.mod_small in * by lia.
    destruct Hfree as (s & E & Hv). rewrite E, Hv. reflexivity.
  - destruct (path_clear_head _ _ w h k Hh Hclear)
      as (s & w' & E & Hv & Hw & Hne).
    rewrite E, Hw, Hne.
    replace (ht_value s =? -1) with false by (symmetry; now apply Z.eqb_neq).
    rewrite next_slot_step by assumption.
    replace ((h + Z.of_nat (S k)) mod tablesize wh)
      with (((h + 1) mod tablesize wh + Z.of_nat k) mod tablesize wh)
      by (rewrite pos_shift; f_equal; lia).
    apply IH.
    + apply Z.mod_pos_bound. lia.
    + lia.
    + rewrite pos_shift. now replace (Z.of_nat k + 1) with (Z.of_nat (S k)) by lia.
    + now apply path_clear_next.
Qed.

(** A word the table does not hold is not found. *)
Lemma find_loop_absent (tbl : list wordhash_table) (n : Z) (w : string) :
  table_wf tbl n ->
  (forall i v, ~ holds tbl i w v) ->
  forall (fuel : nat) (h : Z),
    0 <= h < n -> find_loop tbl n w fuel h = Some (-1).
Proof.
  intros (Hn & Hlen & Hword & _ & _) Habs.
  induction fuel as [|fuel IH]; intros h Hh; cbn [find_loop]; auto.
  destruct (aread_total tbl h ltac:(lia)) as [s E]. rewrite E.
  destruct (ht_value s =? -1) eqn:Ev; auto. apply Z.eqb_neq in Ev.
  destruct (Hword h s E Ev) as [w' Hw]. rewrite Hw.
  destruct (String.eqb w' w) eqn:Ew.
  - apply String.eqb_eq in Ew. subst w'. exfalso.
    apply (Habs h (ht_value s)). split; auto.
    rewrite E. destruct s as [sw sv]. simpl in Hw. now subst sw.
  - rewrite next_slot_step by assumption. apply IH.
    apply Z.mod_pos_bound. lia.
Qed.

(** What is found is held. *)
Lemma find_loop_sound (tbl : list wordhash_table) (n : Z) (w : string) (r : Z) :
  forall (fuel : nat) (h : Z),
    find_loop tbl n w fuel h = Some r -> r <> -1 ->
    exists i, holds tbl i w r.
Proof.
  induction fuel as [|fuel IH]; intros h Hf Hr; cbn [find_loop] in Hf.
  - congruence.
  - destruct (aread tbl h) as [s|] eqn:E; [|discriminate].
    destruct (ht_value s =? -1) eqn:Ev; [congruence|].
    destruct (ht_word s) as [w'|] eqn:Hw; [|discriminate].
    destruct (String.eqb w' w) eqn:Ew.
    + apply String.eqb_eq in Ew. subst w'. inversion Hf; subst r.
      exists h. split; auto. rewrite E. destruct s as [sw sv].
      simpl in Hw. now subst sw.
    + now apply (IH _ Hf).
Qed.

(** *** Paths *)

Lemma pos_back (n h k : Z) :
  0 < n -> 0 <= k < n -> ((h + k) mod n - h) mod n = k.
Proof.
  intros Hn Hk. rewrite Zminus_mod_idemp_l.
  replace (h + k - h) with k by lia. now apply Z.mod_small.
Qed.

Lemma pos_dist (n h i : Z) :
  0 < n -> 0 <= i < n -> (h + (i - h) mod n) mod n = i.
Proof.
  intros Hn Hi. rewrite Zplus_mod_idemp_r.
  replace (h + (i - h)) with i by lia. now apply Z.mod_small.
Qed.

(** The walk for a word the table holds reaches its slot over slots in
    use by other words. *)
Lemma path_to_held (tbl : list wordhash_table) (n : Z) (i : Z) (w : string)
      (v : Z) :
  table_wf tbl n -> holds tbl i w v ->
  exists k : nat,
    (k < Z.to_nat n)%nat /\ (home n w + Z.of_nat k) mod n = i /\
    path_clear tbl n w (home n w) k.
Proof.
  intros (Hn & Hlen & Hword & Hreach & Hdist) Hh.
  assert (Hi : 0 <= i < n).
  { destruct Hh as [E _]. apply aread_range in E. lia. }
  pose proof (Z.mod_pos_bound (i - home n w) n ltac:(lia)) as Hd.
  exists (Z.to_nat ((i - home n w) mod n)).
  rewrite Z2Nat.id by lia. split; [lia|]. split; [apply pos_dist; lia|].
  intros k' Hk'.
  destruct (Hreach i w v Hh k' ltac:(lia)) as (s & E & Hv).
  destruct (Hword _ s E Hv) as [w' Hw].
  exists s, w'. repeat split; auto. intros ->.
  assert (Hh' : holds tbl ((home n w + k') mod n) w (ht_value s)).
  { split; auto. rewrite E. destruct s as [sw sv]. simpl in Hw. now subst sw. }
  pose proof (Hdist _ _ _ _ _ Hh' Hh) as Heq.
  pose proof (pos_back n (home n w) k' ltac:(lia) ltac:(lia)) as Hb.
  rewrite Heq in Hb. lia.
Qed.

(** From any start, the walk meets a first empty slot when the table has
    an empty slot at all. *)
Lemma first_free_path (tbl : list wordhash_table) (n : Z) (p h : Z) :
  0 < n -> Z.of_nat (length tbl) = n -> free tbl p -> 0 <= h < n ->
  exists k : nat,
    (k < Z.to_nat n)%nat /\ free tbl ((h + Z.of_nat k) mod n) /\
    forall k', 0 <= k' < Z.of_nat k -> used tbl ((h + k') mod n).
Proof.
  intros Hn Hlen Hfree Hh.
  assert (Hscan : forall d : nat,
             (forall k', 0 <= k' < Z.of_nat d -> used tbl ((h + k') mod n)) \/
             exists k : nat,
               (k < d)%nat /\ free tbl ((h + Z.of_nat k) mod n) /\
               forall k', 0 <= k' < Z.of_nat k -> used tbl ((h + k') mod n)).
  { induction d as [|d [IH|IH]].
    - left. intros k' Hk'. lia.
    - pose proof (Z.mod_pos_bound (h + Z.of_nat d) n ltac:(lia)) as Hp.
      destruct (aread_total tbl ((h + Z.of_nat d) mod n) ltac:(lia))
        as [s E].
      destruct (Z.eq_dec (ht_value s) (-1)) as [Hv|Hv].
      + right. exists d. split; [lia|]. split; [now exists s | exact IH].
      + left. intros k' Hk'.
        destruct (Z.eq_dec k' (Z.of_nat d)) as [->|Hne].
        * now exists s.
        * apply IH. lia.
    - right. destruct IH as (k & Hk & Hf & Hu). exists k.
      split; [lia | now split]. }
  assert (Hp : 0 <= p < n).
  { destruct Hfree as (s & E & _). apply aread_range in E. lia. }
  pose proof (Z.mod_pos_bound (p - h) n ltac:(lia)) as Hd.
  destruct (Hscan (S (Z.to_nat ((p - h) mod n)))) as [Hall|(k & Hk & Hf & Hu)].
  - exfalso. apply (used_not_free tbl p); auto.
    specialize (Hall ((p - h) mod n) ltac:(lia)).
    now rewrite pos_dist in Hall by lia.
  - exists k. split; [lia | now split].
Qed.

(** *** Counting the slots in use *)

Definition slot_used (s : wordhash_table) : bool := negb (ht_value s =? -1).

Lemma count_used_cons (s : wordhash_table) (tbl : list wordhash_table) :
  count_used (s :: tbl)
  = (if slot_used s then 1 else 0) + count_used tbl.
Proof.
  unfold count_used, slot_used. cbn [filter].
  destruct (negb (ht_value s =? -1)); cbn [length]; lia.
Qed.

Lemma count_used_bounds (tbl : list wordhash_table) :
  0 <= count_used tbl <= Z.of_nat (length tbl).
Proof.
  unfold count_used. pose proof (filter_length_le
    (fun s => negb (ht_value s =? -1)) tbl). lia.
Qed.

Lemma count_used_alloc (n : Z) :
  count_used (alloc n (mk_wordhash_table None (-1))) = 0.
Proof.
  unfold alloc. induction (Z.to_nat n) as [|k IH]; [reflexivity|].
  cbn [repeat]. rewrite count_used_cons, IH. reflexivity.
Qed.

Lemma exists_free (tbl : list wordhash_table) :
  count_used tbl < Z.of_nat (length tbl) -> exists p, free tbl p.
Proof.
  induction tbl as [|s tbl IH]; intros H.
  - unfold count_used in H. simpl in H. lia.
  - rewrite count_used_cons in H. unfold slot_used in H.
    destruct (ht_value s =? -1) eqn:Ev.
    + exists 0, s. split; [apply aread_cons_0 | now apply Z.eqb_eq].
    + cbn [negb length] in H.
      destruct IH as (p & s' & E & Hv); [lia|].
      exists (p + 1), s'. split; auto.
      rewrite aread_cons_S; auto. apply aread_range in E. lia.
Qed.

Lemma count_used_replace (new : wordhash_table) :
  forall (k : nat) (tbl : list wordhash_table) (s : wordhash_table),
    nth_error tbl k = Some s ->
    count_used (replace_nth k new tbl)
    = count_used tbl - (if slot_used s then 1 else 0)
      + (if slot_used new then 1 else 0).
Proof.
  induction k as [|k IH]; intros [|x tbl] s E; simpl in E; try discriminate.
  - inversion E; subst x. cbn [replace_nth]. rewrite !count_used_cons. lia.
  - cbn [replace_nth]. rewrite !count_used_cons, (IH tbl s E). lia.
Qed.

Lemma count_used_aset (tbl : list wordhash_table) (p : Z)
      (s new : wordhash_table) :
  aread tbl p = Some s ->
  count_used (aset tbl p new)
  = count_used tbl - (if slot_used s then 1 else 0)
    + (if slot_used new then 1 else 0).
Proof.
  intros E. unfold aset. rewrite (aread_in_bounds _ _ _ E).
  apply count_used_replace. now apply aread_nth_error.
Qed.

(** *** Storing into a slot *)

Lemma holds_aset (tbl : list wordhash_table) (p : Z) (new : wordhash_table)
      (i : Z) (w : string) (v : Z) :
  in_bounds tbl p = true ->
  (holds (aset tbl p new) i w v
   <-> (i = p /\ new = mk_wordhash_table (Some w) v /\ v <> -1)
       \/ (i <> p /\ holds tbl i w v)).
Proof.
  intros Hb. unfold holds. destruct (Z.eq_dec i p) as [->|Hne].
  - rewrite aread_aset_eq by exact Hb. split.
    + intros [E Hv]. left. inversion E. auto.
    + intros [(_ & -> & Hv)|[Hn _]]; [auto | contradiction].
  - rewrite aread_aset_neq by auto. split.
    + intros H. right. auto.
    + intros [(E & _)|[_ H]]; [contradiction | auto].
Qed.

Lemma used_aset (tbl : list wordhash_table) (p : Z) (new : wordhash_table)
      (q : Z) :
  in_bounds tbl p = true -> ht_value new <> -1 ->
  used tbl q -> used (aset tbl p new) q.
Proof.
  intros Hb Hnew (s & E & Hv). unfold used.
  destruct (Z.eq_dec q p) as [->|Hne].
  - exists new. now rewrite aread_aset_eq.
  - exists s. rewrite aread_aset_neq by auto. auto.
Qed.

(** A new word stored in the first empty slot of its walk. *)
Lemma table_wf_store (tbl : list wordhash_table) (n : Z) (w : string)
      (v : Z) (k : nat) :
  table_wf tbl n ->
  (forall i v', ~ holds tbl i w v') ->
  v <> -1 ->
  free tbl ((home n w + Z.of_nat k) mod n) ->
  (forall k', 0 <= k' < Z.of_nat k -> used tbl ((home n w + k') mod n)) ->
  (k < Z.to_nat n)%nat ->
  let p := (home n w + Z.of_nat k) mod n in
  let tbl' := aset tbl p (mk_wordhash_table (Some w) v) in
  table_wf tbl' n /\
  count_used tbl' = count_used tbl + 1 /\
  forall i w' v', holds tbl' i w' v'
                  <-> (i = p /\ w' = w /\ v' = v) \/ holds tbl i w' v'.
Proof.
  intros Hwf Habs Hv Hfree Hused Hk p tbl'.
  pose proof Hwf as (Hn & Hlen & Hword & Hreach & Hdist).
  destruct Hfree as (s0 & E0 & Hv0). fold p in E0.
  pose proof (aread_in_bounds _ _ _ E0) as Hb.
  assert (Hholds : forall i w' v',
             holds tbl' i w' v'
             <-> (i = p /\ w' = w /\ v' = v) \/ holds tbl i w' v').
  { intros i w' v'. unfold tbl'. rewrite holds_aset by exact Hb. split.
    - intros [(-> & E & _)|[_ H]]; [left | now right].
      inversion E. auto.
    - intros [(-> & -> & ->)|H]; [left; auto|].
      right. split; auto. intros ->. destruct H as [E Hv'].
      rewrite E0 in E. inversion E; subst s0. simpl in Hv0. contradiction. }
  split; [|split; [|exact Hholds]].
  - split; [exact Hn|]. split; [unfold tbl'; now rewrite length_aset|].
    split; [|split].
    + intros i s E Hs. unfold tbl' in E.
      destruct (Z.eq_dec i p) as [->|Hne].
      * rewrite aread_aset_eq in E by exact Hb. inversion E. now exists w.
      * rewrite aread_aset_neq in E by auto. now apply (Hword i).
    + intros i w' v' H j Hj. apply Hholds in H.
      destruct H as [(-> & -> & ->)|H].
      * unfold p in Hj. rewrite pos_back in Hj by lia.
        apply used_aset; auto.
      * apply used_aset; auto. now apply (Hreach i w' v').
    + intros i j w' v1 v2 H1 H2. apply Hholds in H1, H2.
      destruct H1 as [(-> & -> & ->)|H1], H2 as [(-> & E & ->)|H2]; auto.
      * exfalso. now apply (Habs j v2).
      * subst w'. exfalso. now apply (Habs i v1).
      * now apply (Hdist i j w' v1 v2).
  - unfold tbl'. rewrite (count_used_aset _ _ s0) by exact E0.
    unfold slot_used. cbn [ht_value]. rewrite Hv0. cbn.
    replace (v =? -1) with false by (symmetry; now apply Z.eqb_neq).
    cbn. lia.
Qed.

(** The value of a held word overwritten. *)
Lemma table_wf_update (tbl : list wordhash_table) (n : Z) (i : Z)
      (w : string) (v0 v : Z) :
  table_wf tbl n -> holds tbl i w v0 -> v <> -1 ->
  let tbl' := aset tbl i (mk_wordhash_table (Some w) v) in
  table_wf tbl' n /\
  count_used tbl' = count_used tbl /\
  forall j w' v', holds tbl' j w' v'
                  <-> (j = i /\ w' = w /\ v' = v) \/ (w' <> w /\ holds tbl j w' v').
Proof.
  intros Hwf Hh Hv tbl'.
  pose proof Hwf as (Hn & Hlen & Hword & Hreach & Hdist).
  pose proof Hh as [E0 Hv0].
  pose proof (aread_in_bounds _ _ _ E0) as Hb.
  assert (Hholds : forall j w' v',
             holds tbl' j w' v'
             <-> (j = i /\ w' = w /\ v' = v)
                 \/ (w' <> w /\ holds tbl j w' v')).
  { intros j w' v'. unfold tbl'. rewrite holds_aset by exact Hb. split.
    - intros [(-> & E & _)|[Hne H]].
      + left. inversion E. auto.
      + right. split; auto. intros ->. apply Hne.
        now apply (Hdist j i w v' v0).
    - intros [(-> & -> & ->)|[Hne H]]; [left; auto|].
      right. split; auto. intros ->. apply Hne.
      destruct H as [E _]. rewrite E0 in E. now inversion E. }
  assert (Hused : forall q, used tbl q -> used tbl' q).
  { intros q. now apply used_aset. }
  split; [|split; [|exact Hholds]].
  - split; [exact Hn|]. split; [unfold tbl'; now rewrite length_aset|].
    split; [|split].
    + intros j s E Hs. unfold tbl' in E.
      destruct (Z.eq_dec j i) as [->|Hne].
      * rewrite aread_aset_eq in E by exact Hb. inversion E. now exists w.
      * rewrite aread_aset_neq in E by auto. now apply (Hword j).
    + intros j w' v' H q Hq. apply Hholds in H. apply Hused.
      destruct H as [(-> & -> & ->)|[_ H]].
      * now apply (Hreach i w v0).
      * now apply (Hreach j w' v').
    + intros j1 j2 w' v1 v2 H1 H2. apply Hholds in H1, H2.
      destruct H1 as [(-> & -> & ->)|[N1 H1]],
               H2 as [(-> & E & ->)|[N2 H2]]; auto; try congruence.
      now apply (Hdist j1 j2 w' v1 v2).
  - unfold tbl'. rewrite (count_used_aset _ _ _ _ E0).
    unfold slot_used. cbn [ht_value].
    replace (v0 =? -1) with false by (symmetry; now apply Z.eqb_neq).
    replace (v =? -1) with false by (symmetry; now apply Z.eqb_neq).
    cbn. lia.
Qed.

(** *** Lookups *)

(** The table holds [(w, v)] in some slot. *)
Definition has (tbl : list wordhash_table) (w : string) (v : Z) : Prop :=
  exists i, holds tbl i w v.

Lemma find_loop_total (tbl : list wordhash_table) (n : Z) (w : string) :
  table_wf tbl n ->
  forall (fuel : nat) (h : Z),
    0 <= h < n -> exists r, find_loop tbl n w fuel h = Some r.
Proof.
  intros (Hn & Hlen & Hword & _ & _).
  induction fuel as [|fuel IH]; intros h Hh; cbn [find_loop].
  - now exists (-1).
  - destruct (aread_total tbl h ltac:(lia)) as [s E]. rewrite E.
    destruct (ht_value s =? -1) eqn:Ev; [now exists (-1)|].
    apply Z.eqb_neq in Ev. destruct (Hword h s E Ev) as [w' Hw]. rewrite Hw.
    destruct (String.eqb w' w); [now eexists|].
    rewrite next_slot_step by assumption. apply IH.
    apply Z.mod_pos_bound. lia.
Qed.

Lemma find_held (tbl : list wordhash_table) (n : Z) (w : string) (v : Z) :
  table_wf tbl n -> has tbl w v ->
  find_loop tbl n w (Z.to_nat n) (home n w) = Some v.
Proof.
  intros Hwf [i Hh].
  destruct (path_to_held tbl n i w v Hwf Hh) as (k & Hk & Hpos & Hclear).
  destruct Hwf as (Hn & _).
  apply (find_loop_hit tbl n w v Hn k); auto.
  - apply home_range. lia.
  - now rewrite Hpos.
Qed.

(** [find] returns the value the table holds for the word, and [-1] when
    it holds none. *)
Lemma find_cases (tbl : list wordhash_table) (n : Z) (w : string) :
  table_wf tbl n ->
  exists r,
    find_loop tbl n w (Z.to_nat n) (home n w) = Some r /\
    ((r <> -1 /\ has tbl w r) \/ (r = -1 /\ forall v, ~ has tbl w v)).
Proof.
  intros Hwf. pose proof Hwf as (Hn & _).
  destruct (find_loop_total tbl n w Hwf (Z.to_nat n) (home n w))
    as [r Hr]; [apply home_range; lia|].
  exists r. split; [exact Hr|].
  destruct (Z.eq_dec r (-1)) as [->|Hne].
  - right. split; auto. intros v Hh.
    pose proof Hh as [i [_ Hv]].
    rewrite (find_held tbl n w v Hwf Hh) in Hr. congruence.
  - left. split; auto. now apply (find_loop_sound tbl n w r _ _ Hr).
Qed.

Lemma has_unique (tbl : list wordhash_table) (n : Z) (w : string)
      (v v' : Z) :
  table_wf tbl n -> has tbl w v -> has tbl w v' -> v = v'.
Proof.
  intros (_ & _ & _ & _ & Hdist) [i Hi] [j Hj].
  pose proof (Hdist _ _ _ _ _ Hi Hj). subst j.
  destruct Hi as [E1 _], Hj as [E2 _]. congruence.
Qed.

(** Two tables that hold the same value for a word answer alike. *)
Lemma find_frame (tbl1 tbl2 : list wordhash_table) (n1 n2 : Z) (w : string) :
  table_wf tbl1 n1 -> table_wf tbl2 n2 ->
  (forall v, has tbl2 w v <-> has tbl1 w v) ->
  find_loop tbl2 n2 w (Z.to_nat n2) (home n2 w)
  = find_loop tbl1 n1 w (Z.to_nat n1) (home n1 w).
Proof.
  intros H1 H2 Hsame.
  destruct (find_cases tbl1 n1 w H1) as (r1 & -> & [[_ C1]|[-> C1]]).
  - apply find_held; auto. now apply Hsame.
  - destruct (find_cases tbl2 n2 w H2) as (r2 & -> & [[_ C2]|[-> C2]]); auto.
    apply Hsame in C2. now apply C1 in C2.
Qed.

(** *** Insertion into a table with room *)

Lemma table_insert (tbl : list wordhash_table) (n occ : Z) (w : string)
      (v : Z) :
  table_wf tbl n -> count_used tbl < n ->
  (forall v', ~ has tbl w v') -> v <> -1 ->
  exists p,
    first_empty tbl n (Z.to_nat n) (home n w) = Some p /\
    let tbl' := aset tbl p (mk_wordhash_table (Some w) v) in
    table_wf tbl' n /\
    count_used tbl' = count_used tbl + 1 /\
    forall w' v', has tbl' w' v' <-> (w' = w /\ v' = v) \/ has tbl w' v'.
Proof.
  intros Hwf Hroom Habs Hv. pose proof Hwf as (Hn & Hlen & _).
  destruct (exists_free tbl ltac:(lia)) as [p0 Hp0].
  destruct (first_free_path tbl n p0 (home n w) ltac:(lia) Hlen Hp0
              (home_range n w ltac:(lia))) as (k & Hk & Hfree & Hused).
  exists ((home n w + Z.of_nat k) mod n). split.
  - apply first_empty_at; auto. apply home_range. lia.
  - assert (Habs' : forall i v', ~ holds tbl i w v').
    { intros i v' Hh. apply (Habs v'). now exists i. }
    destruct (table_wf_store tbl n w v k Hwf Habs' Hv Hfree Hused Hk)
      as (Hwf' & Hcount & Hholds).
    cbv zeta. split; [exact Hwf'|]. split; [exact Hcount|].
    intros w' v'. split.
    + intros [i Hi]. apply Hholds in Hi.
      destruct Hi as [(_ & -> & ->)|Hi]; [now left | right; now exists i].
    + intros [[-> ->]|[i Hi]].
      * eexists. apply Hholds. left. eauto.
      * exists i. apply Hholds. now right.
Qed.

Lemma insert_with_value_spec (wh : wordhash) (w : string) (v : Z) :
  table_wf (table wh) (tablesize wh) ->
  count_used (table wh) < tablesize wh ->
  (forall v', ~ has (table wh) w v') -> v <> -1 ->
  exists tbl',
    wordhash_insert_with_value wh (Some w) v
    = Some (mk_wordhash tbl' (tablesize wh) (occupancy wh)) /\
    table_wf tbl' (tablesize wh) /\
    count_used tbl' = count_used (table wh) + 1 /\
    forall w' v', has tbl' w' v'
                  <-> (w' = w /\ v' = v) \/ has (table wh) w' v'.
Proof.
  intros Hwf Hroom Habs Hv. pose proof Hwf as (Hn & _).
  destruct (table_insert _ _ (occupancy wh) w v Hwf Hroom Habs Hv)
    as (p & Hp & Hwf' & Hcount & Hhas).
  eexists. split; [|split; [exact Hwf'|split; [exact Hcount | exact Hhas]]].
  unfold wordhash_insert_with_value.
  replace (tablesize wh =? 0) with false by (symmetry; apply Z.eqb_neq; lia).
  fold (home (tablesize wh) w). now rewrite Hp.
Qed.

(** *** Rehashing *)

Lemma table_wf_alloc (n : Z) :
  0 < n < 4294967296 ->
  table_wf (alloc n (mk_wordhash_table None (-1))) n /\
  forall w v, ~ has (alloc n (mk_wordhash_table None (-1))) w v.
Proof.
  intros Hn.
  assert (Hnone : forall i w v,
             ~ holds (alloc n (mk_wordhash_table None (-1))) i w v).
  { intros i w v [E Hv]. apply aread_alloc in E. inversion E. }
  split.
  - split; [exact Hn|]. split; [rewrite length_alloc; lia|].
    split; [|split].
    + intros i s E Hs. apply aread_alloc in E. subst s. now contradiction Hs.
    + intros i w v H. now apply Hnone in H.
    + intros i j w v v' H. now apply Hnone in H.
  - intros w v [i H]. now apply Hnone in H.
Qed.

Lemma count_used_app (l1 l2 : list wordhash_table) :
  count_used (l1 ++ l2) = count_used l1 + count_used l2.
Proof.
  unfold count_used. rewrite filter_app, length_app. lia.
Qed.

Lemma wordhash_rehash_spec (wh : wordhash) :
  table_wf (table wh) (tablesize wh) ->
  tablesize wh * 2 < 4294967296 ->
  exists tbl',
    wordhash_rehash wh
    = Some (mk_wordhash tbl' (tablesize wh * 2) (occupancy wh)) /\
    table_wf tbl' (tablesize wh * 2) /\
    count_used tbl' = count_used (table wh) /\
    forall w v, has tbl' w v <-> has (table wh) w v.
Proof.
  intros Hwf Hsmall. pose proof Hwf as (Hn & Hlen & Hword & _ & Hdist).
  set (n := tablesize wh) in *. set (old := table wh) in *.
  set (occ := occupancy wh).
  unfold wordhash_rehash. fold n old occ. cbv zeta.
  unfold to_uint. rewrite (Z.mod_small (n * 2)) by lia.
  set (body := fun (i : Z) (wh0 : option wordhash) =>
                 match wh0 with
                 | Some wh1 =>
                     match aread old i with
                     | Some s =>
                         if negb (ht_value s =? -1)
                         then wordhash_insert_with_value wh1 (ht_word s)
                                                         (ht_value s)
                         else Some wh1
                     | None => None
                     end
                 | None => None
                 end).
  pose (Inv := fun (j : Z) (s : option wordhash) =>
       exists t, s = Some (mk_wordhash t (n * 2) occ) /\
                 table_wf t (n * 2) /\
                 count_used t = count_used (firstn (Z.to_nat j) old) /\
                 forall w v, has t w v
                             <-> exists i, 0 <= i < j /\ holds old i w v).
  assert (Hinv :
    Inv n (for_range 0 n body
             (Some (mk_wordhash (alloc (n * 2) (mk_wordhash_table None (-1)))
                                (n * 2) occ)))).
  { apply (for_range_invariant Inv); unfold Inv; [lia| |].
    - destruct (table_wf_alloc (n * 2) ltac:(lia)) as [Hwf0 Hnone].
      eexists. split; [reflexivity|]. split; [exact Hwf0|].
      split; [apply count_used_alloc|].
      intros w v. split; [intros H; now apply Hnone in H|].
      intros (i & Hi & _). lia.
    - intros j s Hj (t & -> & Hwft & Hcount & Hhas). unfold body.
      destruct (aread_total old j ltac:(lia)) as [x Ex]. rewrite Ex.
      assert (Hpre : count_used (firstn (Z.to_nat (j + 1)) old)
                     = count_used (firstn (Z.to_nat j) old)
                       + (if slot_used x then 1 else 0)).
      { replace (Z.to_nat (j + 1)) with (S (Z.to_nat j)) by lia.
        rewrite (firstn_snoc old _ x) by (now apply aread_nth_error).
        rewrite count_used_app, count_used_cons.
        change (count_used []) with 0. destruct (slot_used x); lia. }
      unfold slot_used in Hpre.
      destruct (ht_value x =? -1) eqn:Ev; cbn [negb] in *.
      + apply Z.eqb_eq in Ev. exists t. split; [reflexivity|].
        split; [exact Hwft|]. split; [lia|].
        intros w v. rewrite Hhas. split; intros (i & Hi & Hh).
        * exists i. split; [lia | exact Hh].
        * exists i. split; auto.
          destruct (Z.eq_dec i j) as [->|]; [|lia].
          destruct Hh as [E Hv]. rewrite Ex in E. inversion E; subst x.
          simpl in Ev. contradiction.
      + apply Z.eqb_neq in Ev. destruct (Hword j x Ex Ev) as [w Hw].
        assert (Hxj : holds old j w (ht_value x)).
        { split; auto. rewrite Ex. destruct x as [xw xv]. simpl in Hw.
          now subst xw. }
        rewrite Hw.
        destruct (insert_with_value_spec (mk_wordhash t (n * 2) occ) w
                    (ht_value x)) as (t' & Hins & Hwft' & Hcount' & Hhas');
          cbn [table tablesize occupancy]; auto.
        * pose proof (count_used_bounds (firstn (Z.to_nat j) old)) as Hb.
          rewrite length_firstn in Hb. lia.
        * intros v' Hv'. apply Hhas in Hv'. destruct Hv' as (i & Hi & Hh).
          pose proof (Hdist _ _ _ _ _ Hh Hxj). lia.
        * cbn [table tablesize occupancy] in *.
          exists t'. split; [exact Hins|]. split; [exact Hwft'|].
          split; [lia|].
          intros w' v'. rewrite Hhas', Hhas. split.
          -- intros [[-> ->]|(i & Hi & Hh)].
             ++ exists j. split; [lia | exact Hxj].
             ++ exists i. split; [lia | exact Hh].
          -- intros (i & Hi & Hh).
             destruct (Z.eq_dec i j) as [->|Hne].
             ++ left. destruct Hh as [E _], Hxj as [E' _].
                rewrite E in E'. now inversion E'.
             ++ right. exists i. split; [lia | exact Hh]. }
  destruct Hinv as (t & Ht & Hwft & Hcount & Hhas).
  exists t. split; [exact Ht|]. split; [exact Hwft|]. split.
  - rewrite Hcount, firstn_all2; auto. lia.
  - intros w v. rewrite Hhas. split.
    + intros (i & _ & Hh). now exists i.
    + intros [i Hh]. exists i. split; auto.
      destruct Hh as [E _]. apply aread_range in E. lia.
Qed.

(** *** The operations on a well-formed hash *)

Lemma wf_room (wh : wordhash) :
  wf wh ->
  0 < tablesize wh < 4294967296 /\ 0 <= occupancy wh /\
  count_used (table wh) < tablesize wh.
Proof.
  intros ((Hn & _) & Hocc & Hhalf).
  pose proof (count_used_bounds (table wh)).
  pose proof (Z.div_lt (tablesize wh) 2 ltac:(lia) ltac:(lia)).
  repeat split; lia.
Qed.

Lemma wordhash_find_spec (wh : wordhash) (w : string) :
  wf wh ->
  exists r,
    wordhash_find wh w = Some r /\
    ((r <> -1 /\ has (table wh) w r)
     \/ (r = -1 /\ forall v, ~ has (table wh) w v)).
Proof.
  intros Hwf. destruct (wf_room wh Hwf) as (Hn & _).
  destruct Hwf as (Ht & _). unfold wordhash_find.
  replace (tablesize wh =? 0) with false by (symmetry; apply Z.eqb_neq; lia).
  apply (find_cases _ _ w Ht).
Qed.

Lemma wordhash_find_frame (wh1 wh2 : wordhash) (w : string) :
  wf wh1 -> wf wh2 ->
  (forall v, has (table wh2) w v <-> has (table wh1) w v) ->
  wordhash_find wh2 w = wordhash_find wh1 w.
Proof.
  intros H1 H2 Hsame.
  destruct (wf_room wh1 H1) as (Hn1 & _), (wf_room wh2 H2) as (Hn2 & _).
  destruct H1 as (T1 & _), H2 as (T2 & _). unfold wordhash_find.
  replace (tablesize wh1 =? 0) with false by (symmetry; apply Z.eqb_neq; lia).
  replace (tablesize wh2 =? 0) with false by (symmetry; apply Z.eqb_neq; lia).
  now apply find_frame.
Qed.

(** The walk for a word the table does not hold ends at the first empty
    slot. *)
Lemma absent_path (tbl : list wordhash_table) (n : Z) (w : string) :
  table_wf tbl n -> count_used tbl < n -> (forall v, ~ has tbl w v) ->
  exists k : nat,
    (k < Z.to_nat n)%nat /\ free tbl ((home n w + Z.of_nat k) mod n) /\
    (forall k', 0 <= k' < Z.of_nat k -> used tbl ((home n w + k') mod n)) /\
    path_clear tbl n w (home n w) k.
Proof.
  intros Hwf Hroom Habs. pose proof Hwf as (Hn & Hlen & Hword & _).
  destruct (exists_free tbl ltac:(lia)) as [p0 Hp0].
  destruct (first_free_path tbl n p0 (home n w) ltac:(lia) Hlen Hp0
              (home_range n w ltac:(lia))) as (k & Hk & Hfree & Hused).
  exists k. repeat split; auto.
  intros k' Hk'. destruct (Hused k' Hk') as (s & E & Hv).
  destruct (Hword _ s E Hv) as [w' Hw].
  exists s, w'. repeat split; auto. intros ->.
  apply (Habs (ht_value s)). eexists. split; [|exact Hv].
  rewrite E. destruct s as [sw sv]. simpl in Hw. now subst sw.
Qed.

(** The table keeps its size or has been doubled because more than half of
    it was in use. *)
Definition grown (wh wh' : wordhash) : Prop :=
  tablesize wh' = tablesize wh \/
  (tablesize wh' = tablesize wh * 2 /\ tablesize wh / 2 < occupancy wh').

Lemma store_new_spec (wh : wordhash) (w : string) (v : Z) (k : nat) :
  wf wh -> tablesize wh * 2 < 4294967296 ->
  (forall v', ~ has (table wh) w v') -> v <> -1 ->
  free (table wh) ((home (tablesize wh) w + Z.of_nat k) mod tablesize wh) ->
  (forall k', 0 <= k' < Z.of_nat k ->
     used (table wh) ((home (tablesize wh) w + k') mod tablesize wh)) ->
  (k < Z.to_nat (tablesize wh))%nat ->
  exists wh',
    store_new wh ((home (tablesize wh) w + Z.of_nat k) mod tablesize wh) w v
    = Some wh' /\
    wf wh' /\ occupancy wh' = occupancy wh + 1 /\ grown wh wh' /\
    forall w' v', has (table wh') w' v'
                  <-> (w' = w /\ v' = v) \/ has (table wh) w' v'.
Proof.
  intros Hwf Hsmall Habs Hv Hfree Hused Hk.
  destruct (wf_room wh Hwf) as (Hn & Hocc0 & Hroom).
  destruct Hwf as (Ht & Hocc & Hhalf).
  assert (Habs' : forall i v', ~ holds (table wh) i w v').
  { intros i v' Hh. apply (Habs v'). now exists i. }
  destruct (table_wf_store _ _ w v k Ht Habs' Hv Hfree Hused Hk)
    as (Ht' & Hcount & Hholds).
  set (p := (home (tablesize wh) w + Z.of_nat k) mod tablesize wh) in *.
  set (tbl' := aset (table wh) p (mk_wordhash_table (Some w) v)) in *.
  assert (Hhas : forall w' v', has tbl' w' v'
                               <-> (w' = w /\ v' = v) \/ has (table wh) w' v').
  { intros w' v'. split.
    - intros [i Hi]. apply Hholds in Hi.
      destruct Hi as [(_ & -> & ->)|Hi]; [now left | right; now exists i].
    - intros [[-> ->]|[i Hi]].
      + exists p. apply Hholds. left. auto.
      + exists i. apply Hholds. now right. }
  unfold store_new. fold p tbl'. cbv zeta. cbn [occupancy tablesize].
  unfold to_uint. rewrite (Z.mod_small (occupancy wh + 1)) by lia.
  destruct (occupancy wh + 1 >? tablesize wh / 2) eqn:Egt.
  - destruct (wordhash_rehash_spec
                (mk_wordhash tbl' (tablesize wh) (occupancy wh + 1)))
      as (t2 & Hre & Ht2 & Hc2 & Hh2); cbn [table tablesize occupancy]; auto.
    cbn [table tablesize occupancy] in *.
    eexists. split; [exact Hre|]. cbn [table tablesize occupancy].
    split; [|split; [reflexivity|split]].
    + split; [exact Ht2|]. cbn [table tablesize occupancy].
      split; [lia|]. rewrite Z.div_mul by lia.
      pose proof (Z.div_le_upper_bound (tablesize wh) 2 (tablesize wh)
                    ltac:(lia) ltac:(lia)). lia.
    + right. cbn [table tablesize occupancy]. split; [reflexivity|].
      apply Z.gtb_lt in Egt. lia.
    + intros w' v'. now rewrite Hh2.
  - eexists. split; [reflexivity|]. cbn [table tablesize occupancy].
    split; [|split; [reflexivity | split; [now left | exact Hhas]]].
    split; [exact Ht'|]. cbn [table tablesize occupancy].
    split; [lia|]. rewrite Z.gtb_ltb in Egt. apply Z.ltb_ge in Egt. lia.
Qed.

Lemma wordhash_insert_spec (wh : wordhash) (w : string) :
  wf wh -> tablesize wh * 2 < 4294967296 ->
  (forall v, ~ has (table wh) w v) ->
  exists wh',
    wordhash_insert wh w = Some (wh', occupancy wh) /\
    wf wh' /\ occupancy wh' = occupancy wh + 1 /\ grown wh wh' /\
    forall w' v', has (table wh') w' v'
                  <-> (w' = w /\ v' = occupancy wh) \/ has (table wh) w' v'.
Proof.
  intros Hwf Hsmall Habs.
  destruct (wf_room wh Hwf) as (Hn & Hocc0 & Hroom).
  pose proof Hwf as (Ht & _).
  destruct (absent_path _ _ w Ht Hroom Habs) as (k & Hk & Hfree & Hused & _).
  destruct (store_new_spec wh w (occupancy wh) k Hwf Hsmall Habs
              ltac:(lia) Hfree Hused Hk)
    as (wh' & Hst & Hwf' & Hocc' & Hgr & Hhas).
  exists wh'.
  split; [|split; [exact Hwf'|split; [exact Hocc'|split;
                                      [exact Hgr | exact Hhas]]]].
  unfold wordhash_insert.
  replace (tablesize wh =? 0) with false by (symmetry; apply Z.eqb_neq; lia).
  fold (home (tablesize wh) w).
  rewrite (first_empty_at _ _ Hn k) ; auto; [|apply home_range; lia].
  rewrite Hst. do 2 f_equal. lia.
Qed.

Lemma wordhash_set_value_spec (wh : wordhash) (w : string) (value : Z) :
  wf wh -> tablesize wh * 2 < 4294967296 -> value <> -1 ->
  exists wh',
    wordhash_set_value wh w value = Some wh' /\
    wf wh' /\ grown wh wh' /\
    (forall w' v', has (table wh') w' v'
                   <-> (w' = w /\ v' = value)
                       \/ (w' <> w /\ has (table wh) w' v')) /\
    ((forall v, ~ has (table wh) w v) -> occupancy wh' = occupancy wh + 1) /\
    (forall v, has (table wh) w v -> occupancy wh' = occupancy wh).
Proof.
  intros Hwf Hsmall Hvalue.
  destruct (wf_room wh Hwf) as (Hn & Hocc0 & Hroom).
  pose proof Hwf as (Ht & Hocc & Hhalf).
  unfold wordhash_set_value.
  replace (tablesize wh =? 0) with false by (symmetry; apply Z.eqb_neq; lia).
  fold (home (tablesize wh) w).
  destruct (wordhash_find_spec wh w Hwf) as (r & _ & [[Hr Hheld]|[_ Habs]]).
  - destruct Hheld as [i Hi].
    destruct (path_to_held _ _ i w r Ht Hi) as (k & Hk & Hpos & Hclear).
    rewrite (set_value_loop_hit wh w r value Hn k); auto;
      [|apply home_range; lia | now rewrite Hpos].
    rewrite Hpos.
    destruct (table_wf_update _ _ i w r value Ht Hi Hvalue)
      as (Ht' & Hcount & Hholds).
    eexists. split; [reflexivity|]. cbn [table tablesize occupancy].
    split; [|split; [now left|split; [|split]]].
    + split; [exact Ht'|]. cbn [table tablesize occupancy]. split; lia.
    + intros w' v'. split.
      * intros [j Hj]. apply Hholds in Hj.
        destruct Hj as [(_ & -> & ->)|[Hne Hj]]; [now left|].
        right. split; auto. now exists j.
      * intros [[-> ->]|[Hne [j Hj]]].
        -- exists i. apply Hholds. left. auto.
        -- exists j. apply Hholds. right. auto.
    + intros Habs. exfalso. apply (Habs r). now exists i.
    + reflexivity.
  - destruct (absent_path _ _ w Ht Hroom Habs)
      as (k & Hk & Hfree & Hused & Hclear).
    rewrite (set_value_loop_free wh w value Hn k); auto;
      [|apply home_range; lia].
    destruct (store_new_spec wh w value k Hwf Hsmall Habs Hvalue Hfree
                Hused Hk) as (wh' & Hst & Hwf' & Hocc' & Hgr & Hhas).
    exists wh'. split; [exact Hst|]. split; [exact Hwf'|].
    split; [exact Hgr|]. split; [|split].
    + intros w' v'. rewrite Hhas. split.
      * intros [H|H]; [now left|]. right. split; auto.
        intros ->. now apply (Habs v').
      * intros [H|[_ H]]; [now left | now right].
    + intros _. exact Hocc'.
    + intros v Hv. now apply Habs in Hv.
Qed.

Lemma wordhash_init_wf (n : Z) :
  0 < n < 4294967296 ->
  wf (wordhash_init n) /\ forall w v, ~ has (table (wordhash_init n)) w v.
Proof.
  intros Hn. destruct (table_wf_alloc n Hn) as [Ht Hnone].
  split; [|exact Hnone]. split; [exact Ht|].
  cbn [wordhash_init table tablesize occupancy].
  rewrite count_used_alloc. split; [reflexivity|].
  apply Z.div_pos; lia.
Qed.

Lemma wordhash_find_held (wh : wordhash) (w : string) (v : Z) :
  wf wh -> has (table wh) w v -> wordhash_find wh w = Some v.
Proof.
  intros Hwf Hh. pose proof Hwf as (Ht & _).
  destruct (wordhash_find_spec wh w Hwf) as (r & -> & [[_ Hr]|[_ Habs]]).
  - f_equal. apply (has_unique _ _ w r v Ht Hr Hh).
  - now apply Habs in Hh.
Qed.

Lemma wordhash_find_none (wh : wordhash) (w : string) :
  wf wh -> (forall v, ~ has (table wh) w v) -> wordhash_find wh w = Some (-1).
Proof.
  intros Hwf Habs.
  destruct (wordhash_find_spec wh w Hwf) as (r & -> & [[_ Hr]|[-> _]]); auto.
  now apply Habs in Hr.
Qed.

Lemma wordhash_find_minus_one (wh : wordhash) (w : string) :
  wf wh -> wordhash_find wh w = Some (-1) -> forall v, ~ has (table wh) w v.
Proof.
  intros Hwf Hf v Hv. pose proof Hv as [i [_ Hne]].
  rewrite (wordhash_find_held wh w v Hwf Hv) in Hf. congruence.
Qed.

(** *** The hash function *)

(** djb2 on unbounded integers: [hash * 33 + c] for every character. *)
Fixpoint djb2 (word : string) (hash : Z) : Z :=
  match word with
  | EmptyString => hash
  | String c word => djb2 word (hash * 33 + char_to_int c)
  end.

Lemma hashf_loop_djb2 (word : string) :
  forall hash, hashf_loop word (to_uint hash) = to_uint (djb2 word hash).
Proof.
  induction word as [|c word IH]; intros hash; cbn [hashf_loop djb2].
  - reflexivity.
  - rewrite <- IH. f_equal. unfold to_uint.
    rewrite Z.shiftl_mul_pow2 by lia. change (2 ^ 5) with 32.
    rewrite Zplus_mod_idemp_l, <- Z.add_assoc, Zplus_mod_idemp_l.
    replace (hash mod 4294967296 * 32 + (hash mod 4294967296 + char_to_int c))
      with (hash mod 4294967296 * 33 + char_to_int c) by ring.
    rewrite <- Zplus_mod_idemp_l, Zmult_mod_idemp_l, Zplus_mod_idemp_l.
    reflexivity.
Qed.

Lemma wordhash_hashf_djb2 (word : string) :
  wordhash_hashf word = djb2 word 5381 mod 4294967296.
Proof.
  unfold wordhash_hashf. change 5381 with (to_uint 5381) at 1.
  apply hashf_loop_djb2.
Qed.

Lemma djb2_app (s1 s2 : string) :
  forall hash, djb2 (s1 ++ s2) hash = djb2 s2 (djb2 s1 hash).
Proof.
  induction s1 as [|c s1 IH]; intros hash; cbn [append djb2]; auto.
Qed.

End Hash.
End WordHash.

(** ** The table against its description *)

(** [(int) c] where plain [char] is signed, as on x86. *)
Definition signed_char (c : Ascii.ascii) : Z :=
  let n := Z.of_N (Ascii.N_of_ascii c) in
  if n <? 128 then n else n - 256.

(** The abstract hash [a] describes the table [c]: the same pairs, the same
    [occupancy], counts and indices for values, and a table that has grown
    only as far as its contents made it. *)
Definition hash_sim (char_to_int : Ascii.ascii -> Z)
           (c : WordHash.wordhash) (a : wordhash) : Prop :=
  WordHash.wf char_to_int c /\
  WordHash.occupancy c = wh_occupancy a /\
  (forall w v, WordHash.has (WordHash.table c) w v
               <-> wh_lookup (wh_table a) w = Some v) /\
  (forall w v, wh_lookup (wh_table a) w = Some v -> 0 <= v) /\
  WordHash.tablesize c <= Z.max 128 (4 * WordHash.occupancy c).

(** The two ways the program writes to a hash: [if (wordhash_find(wh, w) ==
    -1) wordhash_insert(wh, w)] ([word_coord_add_word],
    [geoloc_index_words]) and [wordhash_inc_value(wh, w)] (the
    Kullback-Leibler classifier). *)
Inductive hash_op : Type :=
| op_add (w : string)
| op_inc (w : string).

Definition table_step (char_to_int : Ascii.ascii -> Z)
           (c : option WordHash.wordhash) (o : hash_op)
  : option WordHash.wordhash :=
  match c with
  | None => None
  | Some c =>
      match o with
      | op_add w =>
          match WordHash.wordhash_find char_to_int c w with
          | None => None
          | Some r =>
              if r =? -1
              then option_map fst (WordHash.wordhash_insert char_to_int c w)
              else Some c
          end
      | op_inc w => WordHash.wordhash_inc_value char_to_int c w
      end
  end.

Definition model_step (a : wordhash) (o : hash_op) : wordhash :=
  match o with
  | op_add w =>
      if wordhash_find a w =? -1 then fst (wordhash_insert a w) else a
  | op_inc w => wordhash_inc_value a w
  end.

Section Simulation.
Variable char_to_int : Ascii.ascii -> Z.

Local Notation "'find'" := (WordHash.wordhash_find char_to_int).
Local Notation "'sim'" := (hash_sim char_to_int).

Lemma sim_find (c : WordHash.wordhash) (a : wordhash) (w : string) :
  sim c a -> find c w = Some (wordhash_find a w).
Proof.
  intros (Hwf & _ & Hhas & _).
  destruct (WordHash.wordhash_find_spec char_to_int c w Hwf)
    as (r & -> & [[Hr Hh]|[-> Habs]]); unfold wordhash_find.
  - apply Hhas in Hh. now rewrite Hh.
  - destruct (wh_lookup (wh_table a) w) as [v|] eqn:E; auto.
    apply Hhas in E. now apply Habs in E.
Qed.

Lemma sim_small (c : WordHash.wordhash) (a : wordhash) :
  sim c a -> WordHash.occupancy c < 268435456 ->
  WordHash.tablesize c * 2 < 4294967296.
Proof. intros (_ & _ & _ & _ & Hsize) Hocc. lia. Qed.

Lemma sim_grown (c c' : WordHash.wordhash) :
  WordHash.grown c c' ->
  WordHash.occupancy c <= WordHash.occupancy c' ->
  WordHash.tablesize c <= Z.max 128 (4 * WordHash.occupancy c) ->
  WordHash.tablesize c' <= Z.max 128 (4 * WordHash.occupancy c').
Proof.
  intros [E|[E Hhalf]] Hocc Hsize; [lia|].
  pose proof (Z.div_mod (WordHash.tablesize c) 2 ltac:(lia)).
  pose proof (Z.mod_pos_bound (WordHash.tablesize c) 2 ltac:(lia)).
  lia.
Qed.

Lemma sim_set_value (c : WordHash.wordhash) (a : wordhash) (w : string)
      (value : Z) :
  sim c a -> WordHash.occupancy c < 268435456 -> 0 <= value ->
  exists c',
    WordHash.wordhash_set_value char_to_int c w value = Some c' /\
    sim c' (wordhash_set_value a w value) /\
    WordHash.occupancy c <= WordHash.occupancy c' <= WordHash.occupancy c + 1.
Proof.
  intros Hsim Hocc Hvalue. pose proof (sim_small c a Hsim Hocc) as Hsmall.
  destruct Hsim as (Hwf & Ho & Hhas & Hpos & Hsize).
  destruct (WordHash.wordhash_set_value_spec char_to_int c w value Hwf
              Hsmall ltac:(lia))
    as (c' & Hset & Hwf' & Hgr & Hhas' & Hnew & Hold).
  destruct (model_set_value a w value) as [Hl Hocc'].
  assert (Hrange : WordHash.occupancy c' = wh_occupancy (wordhash_set_value a w value)
                   /\ WordHash.occupancy c <= WordHash.occupancy c'
                      <= WordHash.occupancy c + 1).
  { rewrite Hocc'. destruct (wh_lookup (wh_table a) w) as [u|] eqn:E.
    - apply Hhas in E. rewrite (Hold u E). lia.
    - rewrite Hnew; [lia|]. intros v Hv. apply Hhas in Hv. congruence. }
  exists c'. split; [exact Hset|]. split; [|apply Hrange].
  split; [exact Hwf'|]. split; [apply Hrange|]. split; [|split].
  - intros w' v'. rewrite Hhas', Hl. destruct (String.eqb w w') eqn:E.
    + apply String.eqb_eq in E. subst w'. split.
      * intros [[_ ->]|[Hne _]]; [reflexivity | now contradiction Hne].
      * intros H. inversion H. now left.
    + apply String.eqb_neq in E. rewrite <- Hhas. split.
      * intros [[-> _]|[_ H]]; [now contradiction E | exact H].
      * intros H. right. split; [congruence | exact H].
  - intros w' v'. rewrite Hl. destruct (String.eqb w w').
    + intros H. inversion H. lia.
    + apply Hpos.
  - apply (sim_grown c c'); auto. lia.
Qed.

Lemma sim_step (c : WordHash.wordhash) (a : wordhash) (o : hash_op) :
  sim c a -> WordHash.occupancy c < 268435456 ->
  exists c',
    table_step char_to_int (Some c) o = Some c' /\
    sim c' (model_step a o) /\
    WordHash.occupancy c <= WordHash.occupancy c' <= WordHash.occupancy c + 1.
Proof.
  intros Hsim Hocc. pose proof (sim_small c a Hsim Hocc) as Hsmall.
  destruct o as [w|w]; cbn [table_step model_step].
  - rewrite (sim_find c a w Hsim).
    destruct (wordhash_find a w =? -1) eqn:E.
    + destruct Hsim as (Hwf & Ho & Hhas & Hpos & Hsize).
      assert (Habs : forall v, ~ WordHash.has (WordHash.table c) w v).
      { intros v Hv. pose proof Hv as [i [_ Hne]]. apply Hhas in Hv.
        unfold wordhash_find in E. rewrite Hv in E.
        apply Z.eqb_eq in E. contradiction. }
      destruct (WordHash.wordhash_insert_spec char_to_int c w Hwf Hsmall Habs)
        as (c' & Hins & Hwf' & Hocc' & Hgr & Hhas').
      exists c'. rewrite Hins. split; [reflexivity|]. split; [|lia].
      cbn [wordhash_insert fst].
      pose proof (WordHash.wf_room char_to_int c Hwf) as (_ & Hocc0 & _).
      split; [exact Hwf'|]. cbn [wh_table wh_occupancy].
      split; [lia|]. split; [|split].
      * intros w' v'. rewrite Hhas', wh_lookup_app, <- Ho.
        destruct (wh_lookup (wh_table a) w') as [u|] eqn:El.
        -- split.
           ++ intros [[-> _]|H]; [|apply Hhas in H; congruence].
              apply Hhas in El. now apply Habs in El.
           ++ intros H. right. apply Hhas. congruence.
        -- destruct (String.eqb w w') eqn:Ew.
           ++ apply String.eqb_eq in Ew. subst w'. split.
              ** intros [[_ ->]|H]; [reflexivity|]. apply Hhas in H. congruence.
              ** intros H. inversion H. now left.
           ++ apply String.eqb_neq in Ew. split.
              ** intros [[-> _]|H]; [now contradiction Ew|].
                 apply Hhas in H. congruence.
              ** discriminate.
      * intros w' v'. rewrite wh_lookup_app.
        destruct (wh_lookup (wh_table a) w') as [u|] eqn:El.
        -- intros H. inversion H; subst. now apply (Hpos w').
        -- destruct (String.eqb w w'); [|discriminate].
           intros H. inversion H. lia.
      * apply (sim_grown c c'); auto. lia.
    + exists c. split; [reflexivity|]. split; [exact Hsim | lia].
  - unfold WordHash.wordhash_inc_value, wordhash_inc_value.
    rewrite (sim_find c a w Hsim).
    destruct (wordhash_find a w =? -1) eqn:E.
    + apply sim_set_value; auto. lia.
    + apply sim_set_value; auto.
      destruct Hsim as (_ & _ & _ & Hpos & _). unfold wordhash_find in *.
      destruct (wh_lookup (wh_table a) w) as [u|] eqn:El.
      * specialize (Hpos w u El). lia.
      * discriminate E.
Qed.

Lemma sim_run (ops : list hash_op) :
  forall (c : WordHash.wordhash) (a : wordhash),
    sim c a ->
    WordHash.occupancy c + Z.of_nat (length ops) < 268435456 ->
    exists c',
      fold_left (table_step char_to_int) ops (Some c) = Some c' /\
      sim c' (fold_left model_step ops a).
Proof.
  induction ops as [|o ops IH]; intros c a Hsim Hlen.
  - exists c. split; [reflexivity | exact Hsim].
  - cbn [length] in Hlen. cbn [fold_left].
    destruct (sim_step c a o Hsim ltac:(lia)) as (c1 & -> & Hsim1 & Hocc1).
    apply IH; auto. lia.
Qed.

Lemma sim_init : sim (WordHash.wordhash_init 128) wordhash_init.
Proof.
  destruct (WordHash.wordhash_init_wf char_to_int 128 ltac:(lia))
    as [Hwf Hnone].
  split; [exact Hwf|]. split; [reflexivity|]. split; [|split].
  - intros w v. split; [intros H; now apply Hnone in H | discriminate].
  - discriminate.
  - cbn. lia.
Qed.
End Simulation.

(** X16: [wordhash_hashf] is djb2 modulo 2^32.  Wrapping the [unsigned int]
    after every shift and addition gives the residue of the value computed
    without any wrap, so the hash lies in [0, 2^32), its remainder by a
    positive table size is a slot of the table, and the hash of a word
    extended by one character is the hash of the word times 33 plus the
    character, modulo 2^32.  This holds whether plain [char] is signed or
    not. *)
Theorem hashf_is_djb2_mod_2_32 (char_to_int : Ascii.ascii -> Z)
        (word : string) :
  WordHash.wordhash_hashf char_to_int word
  = WordHash.djb2 char_to_int word 5381 mod 4294967296 /\
  0 <= WordHash.wordhash_hashf char_to_int word < 4294967296 /\
  (forall tablesize, 0 < tablesize ->
     0 <= WordHash.wordhash_hashf char_to_int word mod tablesize
       < tablesize) /\
  (forall c,
     WordHash.wordhash_hashf char_to_int (word ++ String c EmptyString)
     = (WordHash.wordhash_hashf char_to_int word * 33 + char_to_int c)
       mod 4294967296).
Proof.
  pose proof (WordHash.wordhash_hashf_djb2 char_to_int word) as E.
  split; [exact E|]. split; [|split].
  - rewrite E. apply Z.mod_pos_bound. lia.
  - intros n Hn. apply Z.mod_pos_bound. lia.
  - intros c. rewrite !WordHash.wordhash_hashf_djb2, WordHash.djb2_app.
    cbn [WordHash.djb2]. symmetry.
    rewrite <- Zplus_mod_idemp_l, Zmult_mod_idemp_l, Zplus_mod_idemp_l.
    reflexivity.
Qed.

(** X17: a hash as [wordhash_init] returns it, for a table size the
    [unsigned int] holds, is well formed, counts no entry, and
    [wordhash_find] answers [-1] for every word. *)
Theorem hash_init_finds_nothing (char_to_int : Ascii.ascii -> Z)
        (tablesize : Z) (word : string) :
  0 < tablesize < 4294967296 ->
  WordHash.wf char_to_int (WordHash.wordhash_init tablesize) /\
  WordHash.occupancy (WordHash.wordhash_init tablesize) = 0 /\
  WordHash.wordhash_find char_to_int (WordHash.wordhash_init tablesize) word
  = Some (-1).
Proof.
  intros Hn.
  destruct (WordHash.wordhash_init_wf char_to_int tablesize Hn)
    as [Hwf Hnone].
  split; [exact Hwf|]. split; [reflexivity|].
  apply WordHash.wordhash_find_none; auto.
Qed.

(** X17 at the size every caller passes, 128. *)
Lemma hash_init_finds_nothing_witness :
  WordHash.wf signed_char (WordHash.wordhash_init 128) /\
  WordHash.occupancy (WordHash.wordhash_init 128) = 0 /\
  WordHash.wordhash_find signed_char (WordHash.wordhash_init 128)
                         "geoloc"%string
  = Some (-1).
Proof.
  apply (hash_init_finds_nothing signed_char 128 "geoloc"%string). lia.
Defined.

(** X18: in a well-formed hash whose table can still be doubled, inserting a
    word that [wordhash_find] does not find returns the old [occupancy] as
    the word's value and adds one to [occupancy]; afterwards
    [wordhash_find] answers that value for the word and what it answered
    before for every other word, also when the insertion has made the
    table rehash; the hash is well formed again. *)
Theorem hash_insert_then_find (char_to_int : Ascii.ascii -> Z)
        (wh : WordHash.wordhash) (word : string) :
  WordHash.wf char_to_int wh ->
  WordHash.tablesize wh * 2 < 4294967296 ->
  WordHash.wordhash_find char_to_int wh word = Some (-1) ->
  exists wh',
    WordHash.wordhash_insert char_to_int wh word
    = Some (wh', WordHash.occupancy wh) /\
    WordHash.wf char_to_int wh' /\
    WordHash.occupancy wh' = WordHash.occupancy wh + 1 /\
    WordHash.wordhash_find char_to_int wh' word
    = Some (WordHash.occupancy wh) /\
    forall w, w <> word ->
      WordHash.wordhash_find char_to_int wh' w
      = WordHash.wordhash_find char_to_int wh w.
Proof.
  intros Hwf Hsmall Hfind.
  pose proof (WordHash.wordhash_find_minus_one char_to_int wh word Hwf Hfind)
    as Habs.
  destruct (WordHash.wordhash_insert_spec char_to_int wh word Hwf Hsmall Habs)
    as (wh' & Hins & Hwf' & Hocc & _ & Hhas).
  exists wh'. split; [exact Hins|]. split; [exact Hwf'|].
  split; [exact Hocc|]. split.
  - apply WordHash.wordhash_find_held; auto. apply Hhas. now left.
  - intros w Hne. apply WordHash.wordhash_find_frame; auto.
    intros v. rewrite Hhas. split; [|now right].
    intros [[E _]|H]; [contradiction | exact H].
Qed.

(** X18 on a fresh table of 128 slots. *)
Lemma hash_insert_then_find_witness :
  exists wh',
    WordHash.wordhash_insert signed_char (WordHash.wordhash_init 128)
                             "geoloc"%string
    = Some (wh', 0) /\
    WordHash.wordhash_find signed_char wh' "geoloc"%string = Some 0.
Proof.
  destruct (hash_insert_then_find signed_char (WordHash.wordhash_init 128)
                                  "geoloc"%string)
    as (wh' & Hins & _ & _ & Hfind & _).
  - apply WordHash.wordhash_init_wf. lia.
  - cbn. lia.
  - apply WordHash.wordhash_find_none.
    + apply WordHash.wordhash_init_wf. lia.
    + intros v. apply (WordHash.wordhash_init_wf signed_char 128). lia.
  - exists wh'. split; [exact Hins | exact Hfind].
Defined.

(** X19: in a well-formed hash whose table can still be doubled,
    [wordhash_set_value] with a value other than [-1] returns (it never
    reaches its [exit(1)]); afterwards [wordhash_find] answers the value
    for the word and what it answered before for every other word, and
    [occupancy] has grown by one exactly when the word was not there. *)
Theorem hash_set_value_then_find (char_to_int : Ascii.ascii -> Z)
        (wh : WordHash.wordhash) (word : string) (value : Z) :
  WordHash.wf char_to_int wh ->
  WordHash.tablesize wh * 2 < 4294967296 ->
  value <> -1 ->
  exists wh',
    WordHash.wordhash_set_value char_to_int wh word value = Some wh' /\
    WordHash.wf char_to_int wh' /\
    WordHash.wordhash_find char_to_int wh' word = Some value /\
    (forall w, w <> word ->
       WordHash.wordhash_find char_to_int wh' w
       = WordHash.wordhash_find char_to_int wh w) /\
    WordHash.occupancy wh'
    = match WordHash.wordhash_find char_to_int wh word with
      | Some (-1) => WordHash.occupancy wh + 1
      | _ => WordHash.occupancy wh
      end.
Proof.
  intros Hwf Hsmall Hvalue.
  destruct (WordHash.wordhash_set_value_spec char_to_int wh word value Hwf
              Hsmall Hvalue) as (wh' & Hset & Hwf' & _ & Hhas & Hnew & Hold).
  exists wh'. split; [exact Hset|]. split; [exact Hwf'|].
  split; [|split].
  - apply WordHash.wordhash_find_held; auto. apply Hhas. now left.
  - intros w Hne. apply WordHash.wordhash_find_frame; auto.
    intros v. rewrite Hhas. split.
    + intros [[E _]|[_ H]]; [contradiction | exact H].
    + intros H. right. split; auto.
  - destruct (WordHash.wordhash_find_spec char_to_int wh word Hwf)
      as (r & -> & [[Hr Hh]|[-> Habs]]).
    + rewrite (Hold r Hh). destruct r as [|p|p]; auto.
      destruct p; auto. now contradiction Hr.
    + now apply Hnew.
Qed.

(** X19 on a fresh table of 128 slots. *)
Lemma hash_set_value_then_find_witness :
  exists wh',
    WordHash.wordhash_set_value signed_char (WordHash.wordhash_init 128)
                                "geoloc"%string 7
    = Some wh' /\
    WordHash.wordhash_find signed_char wh' "geoloc"%string = Some 7.
Proof.
  destruct (hash_set_value_then_find signed_char (WordHash.wordhash_init 128)
                                     "geoloc"%string 7)
    as (wh' & Hset & _ & Hfind & _).
  - apply WordHash.wordhash_init_wf. lia.
  - cbn. lia.
  - lia.
  - exists wh'. split; [exact Hset | exact Hfind].
Defined.

(** X20: the abstract hash the feature store and the classifiers are
    modelled with describes the table.  Start from [wordhash_init(128)]
    and apply any sequence of fewer than 2^28 of the program's two writes,
    the insertion guarded by a failed [wordhash_find] and
    [wordhash_inc_value]: the table operations all return (no endless
    probe, no [exit(1)], no [strcmp] on an unassigned word), at most half
    of the table is in use, [occupancy] is that of the abstract hash after
    the same writes, and [wordhash_find] answers for every word what the
    abstract [wordhash_find] answers. *)
Theorem hash_table_refines_model (char_to_int : Ascii.ascii -> Z)
        (ops : list hash_op) :
  Z.of_nat (length ops) < 268435456 ->
  exists c,
    fold_left (table_step char_to_int) ops
              (Some (WordHash.wordhash_init 128)) = Some c /\
    WordHash.occupancy c
    = wh_occupancy (fold_left model_step ops wordhash_init) /\
    WordHash.occupancy c <= WordHash.tablesize c / 2 /\
    forall w,
      WordHash.wordhash_find char_to_int c w
      = Some (wordhash_find (fold_left model_step ops wordhash_init) w).
Proof.
  intros Hlen.
  destruct (sim_run char_to_int ops (WordHash.wordhash_init 128)
                    wordhash_init (sim_init char_to_int))
    as (c & Hrun & Hsim).
  { cbn [WordHash.wordhash_init WordHash.occupancy]. lia. }
  exists c. split; [exact Hrun|].
  pose proof Hsim as ((_ & _ & Hhalf) & Ho & _).
  split; [exact Ho|]. split; [exact Hhalf|].
  intros w. now apply sim_find.
Qed.

(** X20 on two insertions, a repeated one and two increments. *)
Lemma hash_table_refines_model_witness :
  exists c,
    fold_left (table_step signed_char)
              [op_add "a"%string; op_add "b"%string; op_add "a"%string;
               op_inc "c"%string; op_inc "c"%string]
              (Some (WordHash.wordhash_init 128)) = Some c /\
    WordHash.wordhash_find signed_char c "b"%string = Some 1 /\
    WordHash.wordhash_find signed_char c "c"%string = Some 2.
Proof.
  destruct (hash_table_refines_model signed_char
              [op_add "a"%string; op_add "b"%string; op_add "a"%string;
               op_inc "c"%string; op_inc "c"%string])
    as (c & Hrun & _ & _ & Hfind).
  - cbn. lia.
  - exists c. split; [exact Hrun|]. split; rewrite Hfind; reflexivity.
Defined.
